(** * AetherScript language service: lexer, parser, type checker and
      semantic analyzer, embedded from [src/server/aetherscript].

    A Python [str] is a [string] whose characters are the code points
    U+0000..U+00FF; [int] line and column numbers are [Z]; indexes into
    a list or a string are [nat].  A [while] loop is run by [loop] with
    a fuel bound, and [None] stands for a run that does not return
    normally. *)

From stdpp Require Import gmap strings list pretty.
From Stdlib Require Import Ascii ZArith Lia.

#[local] Open Scope string_scope.
#[local] Open Scope list_scope.
#[local] Set Warnings "-register-all".

(** ** Control flow of a [while] loop *)

Inductive flow (St : Type) : Type :=
| Continue (s : St)
| Break (s : St).
Arguments Continue {St} s.
Arguments Break {St} s.

Fixpoint loop {St : Type} (fuel : nat) (body : St -> option (flow St)) (s : St)
  : option St :=
  match fuel with
  | O => None
  | S fuel' =>
      match body s with
      | Some (Continue s') => loop fuel' body s'
      | Some (Break s') => Some s'
      | None => None
      end
  end.

(** ** Python built-ins used by the sources *)

Module Py.

Definition code (c : ascii) : N := N_of_ascii c.

Definition between (lo hi : N) (c : ascii) : bool :=
  ((lo <=? code c) && (code c <=? hi))%N.

Definition is_code (n : N) (c : ascii) : bool := (code c =? n)%N.

(** [str.isdecimal]: Unicode category Nd; below U+0100 these are 0-9. *)
Definition isdecimal (c : ascii) : bool := between 48 57 c.

(** [str.isdigit]: Numeric_Type Digit or Decimal; below U+0100 these
    are 0-9 and the superscripts U+00B2, U+00B3, U+00B9. *)
Definition isdigit (c : ascii) : bool :=
  isdecimal c || is_code 178 c || is_code 179 c || is_code 185 c.

(** [str.isnumeric] adds the fractions U+00BC..U+00BE. *)
Definition isnumeric (c : ascii) : bool :=
  isdigit c || between 188 190 c.

(** [str.isalpha]: Unicode letters (the L categories). *)
Definition isalpha (c : ascii) : bool :=
  between 65 90 c || between 97 122 c
  || is_code 170 c || is_code 181 c || is_code 186 c
  || between 192 214 c || between 216 246 c || between 248 255 c.

Definition isalnum (c : ascii) : bool :=
  isalpha c || isdecimal c || isdigit c || isnumeric c.

(** [str.isspace]: category Zs or bidirectional class WS, B or S. *)
Definition isspace (c : ascii) : bool :=
  between 9 13 c || between 28 32 c || is_code 133 c || is_code 160 c.

Definition newline : ascii := "010"%char.
Definition tab : ascii := "009"%char.
Definition carriage_return : ascii := "013"%char.
Definition backslash : ascii := "092"%char.
Definition double_quote : ascii := "034"%char.
Definition single_quote : ascii := "039"%char.

Definition digit_value (c : ascii) : Z := Z.of_N (code c) - 48.

Fixpoint int_digits (s : string) (acc : Z) : option Z :=
  match s with
  | EmptyString => Some acc
  | String c s' =>
      if isdecimal c then int_digits s' (10 * acc + digit_value c)%Z
      else None
  end.

(** [int(s)] for the strings [Lexer.number] builds (characters that
    satisfy [isdigit] only): the value when every character is a
    decimal digit, [None] for the [ValueError] Python raises
    otherwise.  The interpreter's limit on the number of digits is
    not modelled. *)
Definition int (s : string) : option Z :=
  match s with
  | EmptyString => None
  | _ => int_digits s 0%Z
  end.

Fixpoint all_decimal_or_dot (s : string) : bool :=
  match s with
  | EmptyString => true
  | String c s' => (isdecimal c || Ascii.eqb c ".") && all_decimal_or_dot s'
  end.

(** [float(s)] for the strings [Lexer.number] builds (digits around
    one dot, with a digit on both sides): Python raises [ValueError]
    exactly when a character other than the dot is not a decimal
    digit.  The binary64 value is not computed: the float is kept as
    its decimal text, which no analyzer inspects. *)
Definition float (s : string) : option string :=
  if all_decimal_or_dot s then Some s else None.

Fixpoint endswith (s : string) (c : ascii) : bool :=
  match s with
  | EmptyString => false
  | String a EmptyString => Ascii.eqb a c
  | String _ s' => endswith s' c
  end.

(** [str(n)] of an [int], as an f-string prints it. *)
Definition str (n : Z) : string := pretty n.

Definition char_str (c : ascii) : string := String c EmptyString.

End Py.

(** ** parser/lexer.py *)

Module Lexer.

Inductive TokenType : Set :=
| EOF | ERROR
| IDENTIFIER | INTEGER | FLOAT | STRING
| IF | ELSE | ELIF | WHILE | FOR | RETURN | BREAK | CONTINUE
| FUNCTION | SPELL | RITUAL | CONJURE | ENTITY | REALM | DIMENSION
| VOID | INT | FLOAT_TYPE | STRING_TYPE | BOOLEAN | ARRAY | MAP
| ELEMENT | ENERGY | SPIRIT | MATTER
| PLUS | MINUS | MULTIPLY | DIVIDE | MODULO | ASSIGN | EQUALS
| NOT_EQUALS | LESS_THAN | GREATER_THAN | LESS_EQUAL | GREATER_EQUAL
| AND | OR | NOT
| LPAREN | RPAREN | LBRACE | RBRACE | LBRACKET | RBRACKET
| COMMA | DOT | SEMICOLON | COLON.

#[global] Instance TokenType_eq_dec : EqDecision TokenType.
Proof. solve_decision. Defined.

Record Token : Set := mkToken {
  type : TokenType;
  value : string;
  tline : Z;
  tcolumn : Z
}.

#[global] Instance Token_eq_dec : EqDecision Token.
Proof. solve_decision. Defined.

(** The mutable fields of a [Lexer] object. *)
Record Lexer : Set := mkLexer {
  source : string;
  position : nat;
  line : Z;
  column : Z;
  current_char : option ascii
}.

Definition keywords : gmap string TokenType :=
  list_to_map [
    ("if", IF); ("else", ELSE); ("elif", ELIF); ("while", WHILE);
    ("for", FOR); ("return", RETURN); ("break", BREAK);
    ("continue", CONTINUE); ("function", FUNCTION); ("spell", SPELL);
    ("ritual", RITUAL); ("conjure", CONJURE); ("entity", ENTITY);
    ("realm", REALM); ("dimension", DIMENSION);
    ("Void", VOID); ("Int", INT); ("Float", FLOAT_TYPE);
    ("String", STRING_TYPE); ("Boolean", BOOLEAN); ("Array", ARRAY);
    ("Map", MAP); ("Element", ELEMENT); ("Energy", ENERGY);
    ("Spirit", SPIRIT); ("Matter", MATTER) ].

(** [Lexer.__init__] *)
Definition init (src : string) : Lexer :=
  {| source := src; position := 0; line := 1; column := 1;
     current_char := String.get 0 src |}.

Definition is_char (o : option ascii) (c : ascii) : bool :=
  match o with
  | Some a => Ascii.eqb a c
  | None => false
  end.

Definition advance (lx : Lexer) : Lexer :=
  let position' := S (position lx) in
  {| source := source lx;
     position := position';
     line := if is_char (current_char lx) Py.newline
             then (line lx + 1)%Z else line lx;
     column := if is_char (current_char lx) Py.newline
               then 1%Z else (column lx + 1)%Z;
     current_char := String.get position' (source lx) |}.

Definition peek (lx : Lexer) : option ascii :=
  String.get (position lx + 1) (source lx).

(** Every loop of the lexer consumes a character per iteration, so
    one more than the length of the source bounds its iterations. *)
Definition fuel (lx : Lexer) : nat := S (String.length (source lx)).

Definition skip_whitespace (lx : Lexer) : option Lexer :=
  loop (fuel lx)
    (fun lx =>
       match current_char lx with
       | Some c =>
           if Py.isspace c then Some (Continue (advance lx))
           else Some (Break lx)
       | None => Some (Break lx)
       end) lx.

Definition skip_comment (lx : Lexer) : option Lexer :=
  if is_char (current_char lx) "/" && is_char (peek lx) "/" then
    loop (fuel lx)
      (fun lx =>
         match current_char lx with
         | Some c =>
             if negb (Ascii.eqb c Py.newline)
             then Some (Continue (advance lx))
             else Some (Break lx)
         | None => Some (Break lx)
         end) lx
  else if is_char (current_char lx) "/" && is_char (peek lx) "*" then
    loop (fuel lx)
      (fun lx =>
         match current_char lx with
         | Some c =>
             if Ascii.eqb c "*" && is_char (peek lx) "/"
             then Some (Break (advance (advance lx)))
             else Some (Continue (advance lx))
         | None => Some (Break lx)
         end) (advance (advance lx))
  else Some lx.

Definition identifier (lx : Lexer) : option (Token * Lexer) :=
  let line0 := line lx in
  let column0 := column lx in
  match
    loop (fuel lx)
      (fun '(lx, result) =>
         match current_char lx with
         | Some c =>
             if Py.isalnum c || Ascii.eqb c "_"
             then Some (Continue (advance lx, result +:+ Py.char_str c))
             else Some (Break (lx, result))
         | None => Some (Break (lx, result))
         end) (lx, "")
  with
  | Some (lx', result) =>
      let token_type := default IDENTIFIER (keywords !! result) in
      Some (mkToken token_type result line0 column0, lx')
  | None => None
  end.

Definition number (lx : Lexer) : option (Token * Lexer) :=
  let line0 := line lx in
  let column0 := column lx in
  match
    loop (fuel lx)
      (fun '(lx, result, is_float) =>
         match current_char lx with
         | Some c =>
             if Py.isdigit c || Ascii.eqb c "."
             then
               if Ascii.eqb c "." && is_float
               then Some (Break (lx, result, is_float))
               else Some (Continue (advance lx, result +:+ Py.char_str c,
                                    Ascii.eqb c "." || is_float))
             else Some (Break (lx, result, is_float))
         | None => Some (Break (lx, result, is_float))
         end) (lx, "", false)
  with
  | Some (lx', result, is_float) =>
      let result' := if Py.endswith result "." then result +:+ "0"
                     else result in
      let token_type := if is_float then FLOAT else INTEGER in
      Some (mkToken token_type result' line0 column0, lx')
  | None => None
  end.

(** [tokens.append(Token(ty, text, self.line, self.column))] followed
    by one [self.advance()], or by two for a two-character operator. *)
Definition emit (ty : TokenType) (text : String.string) (lx : Lexer)
    (tokens : list Token) : option (flow (Lexer * list Token)) :=
  let token := mkToken ty text (line lx) (column lx) in
  Some (Continue (advance lx, tokens ++ [token])).

Definition emit2 (ty : TokenType) (text : String.string) (lx : Lexer)
    (tokens : list Token) : option (flow (Lexer * list Token)) :=
  let token := mkToken ty text (line lx) (column lx) in
  Some (Continue (advance (advance lx), tokens ++ [token])).

Definition scan (f : Lexer -> option (Token * Lexer)) (lx : Lexer)
    (tokens : list Token) : option (flow (Lexer * list Token)) :=
  match f lx with
  | Some (token, lx') => Some (Continue (lx', tokens ++ [token]))
  | None => None
  end.

Definition skip (f : Lexer -> option Lexer) (lx : Lexer)
    (tokens : list Token) : option (flow (Lexer * list Token)) :=
  match f lx with
  | Some lx' => Some (Continue (lx', tokens))
  | None => None
  end.

(** [escape_map.get(c, c)]: the entries for the backslash and the two
    quotes map each to itself. *)
Definition escape_map (c : ascii) : ascii :=
  if Ascii.eqb c "n" then Py.newline
  else if Ascii.eqb c "t" then Py.tab
  else if Ascii.eqb c "r" then Py.carriage_return
  else c.

(** [string] is entered with the opening quote as current character. *)
Definition string (lx : Lexer) : option (Token * Lexer) :=
  let line0 := line lx in
  let column0 := column lx in
  let quote := current_char lx in
  match
    loop (fuel lx)
      (fun '(lx, result) =>
         match current_char lx with
         | Some c =>
             if negb (bool_decide (Some c = quote))
             then
               if Ascii.eqb c Py.backslash && bool_decide (peek lx <> None)
               then
                 let lx1 := advance lx in
                 match current_char lx1 with
                 | Some e =>
                     Some (Continue (advance lx1,
                                     result +:+ Py.char_str (escape_map e)))
                 | None => None
                 end
               else Some (Continue (advance lx, result +:+ Py.char_str c))
             else Some (Break (lx, result))
         | None => Some (Break (lx, result))
         end) (advance lx, "")
  with
  | Some (lx', result) =>
      match current_char lx' with
      | None => Some (mkToken ERROR result line0 column0, lx')
      | Some _ => Some (mkToken STRING result line0 column0, advance lx')
      end
  | None => None
  end.

(** One iteration of the [while] loop of [tokenize]. *)
Definition tokenize_body (s : Lexer * list Token)
  : option (flow (Lexer * list Token)) :=
  let '(lx, tokens) := s in
  match current_char lx with
  | None => Some (Break (lx, tokens))
  | Some c =>
      if Py.isspace c then skip skip_whitespace lx tokens
      else if Ascii.eqb c "/"
              && (is_char (peek lx) "/" || is_char (peek lx) "*")
      then skip skip_comment lx tokens
      else if Py.isalpha c || Ascii.eqb c "_" then scan identifier lx tokens
      else if Py.isdigit c then scan number lx tokens
      else if Ascii.eqb c Py.double_quote || Ascii.eqb c Py.single_quote
      then scan string lx tokens
      else if Ascii.eqb c "+" then emit PLUS "+" lx tokens
      else if Ascii.eqb c "-" then emit MINUS "-" lx tokens
      else if Ascii.eqb c "*" then emit MULTIPLY "*" lx tokens
      else if Ascii.eqb c "/" then emit DIVIDE "/" lx tokens
      else if Ascii.eqb c "%" then emit MODULO "%" lx tokens
      else if Ascii.eqb c "=" then
        if is_char (peek lx) "=" then emit2 EQUALS "==" lx tokens
        else emit ASSIGN "=" lx tokens
      else if Ascii.eqb c "!" then
        if is_char (peek lx) "=" then emit2 NOT_EQUALS "!=" lx tokens
        else emit NOT "!" lx tokens
      else if Ascii.eqb c "<" then
        if is_char (peek lx) "=" then emit2 LESS_EQUAL "<=" lx tokens
        else emit LESS_THAN "<" lx tokens
      else if Ascii.eqb c ">" then
        if is_char (peek lx) "=" then emit2 GREATER_EQUAL ">=" lx tokens
        else emit GREATER_THAN ">" lx tokens
      else if Ascii.eqb c "&" && is_char (peek lx) "&"
      then emit2 AND "&&" lx tokens
      else if Ascii.eqb c "|" && is_char (peek lx) "|"
      then emit2 OR "||" lx tokens
      else if Ascii.eqb c "(" then emit LPAREN "(" lx tokens
      else if Ascii.eqb c ")" then emit RPAREN ")" lx tokens
      else if Ascii.eqb c "{" then emit LBRACE "{" lx tokens
      else if Ascii.eqb c "}" then emit RBRACE "}" lx tokens
      else if Ascii.eqb c "[" then emit LBRACKET "[" lx tokens
      else if Ascii.eqb c "]" then emit RBRACKET "]" lx tokens
      else if Ascii.eqb c "," then emit COMMA "," lx tokens
      else if Ascii.eqb c "." then emit DOT "." lx tokens
      else if Ascii.eqb c ";" then emit SEMICOLON ";" lx tokens
      else if Ascii.eqb c ":" then emit COLON ":" lx tokens
      else emit ERROR (Py.char_str c) lx tokens
  end.

Definition tokenize (lx : Lexer) : option (list Token) :=
  match loop (fuel lx) tokenize_body (lx, []) with
  | Some (lx', tokens) =>
      Some (tokens ++ [mkToken EOF "" (line lx') (column lx')])
  | None => None
  end.

(** [Lexer(source).tokenize()] *)
Definition lex (src : String.string) : option (list Token) := tokenize (init src).

End Lexer.

(** ** parser/ast.py *)

Module Ast.

(** An [Identifier] node where the classes hold one as a name. *)
Record Ident : Set := mkIdent {
  name : string;
  line : Z;
  column : Z
}.

Inductive Expression : Set :=
| Identifier (name : string) (line column : Z)
| IntegerLiteral (value : Z) (line column : Z)
| FloatLiteral (value : string) (line column : Z)
| StringLiteral (value : string) (line column : Z)
| BooleanLiteral (value : bool) (line column : Z)
| BinaryExpression (left : Expression) (operator : string)
    (right : Expression) (line column : Z)
| UnaryExpression (operator : string) (right : Expression) (line column : Z)
| CallExpression (callee : Expression) (arguments : list Expression)
    (line column : Z)
| AssignmentExpression (target value : Expression) (line column : Z)
| ArrayLiteral (elements : list Expression) (line column : Z)
| IndexExpression (array index : Expression) (line column : Z).

Definition expr_line (e : Expression) : Z :=
  match e with
  | Identifier _ l _ | IntegerLiteral _ l _ | FloatLiteral _ l _
  | StringLiteral _ l _ | BooleanLiteral _ l _
  | BinaryExpression _ _ _ l _ | UnaryExpression _ _ l _
  | CallExpression _ _ l _ | AssignmentExpression _ _ l _
  | ArrayLiteral _ l _ | IndexExpression _ _ l _ => l
  end.

Definition expr_column (e : Expression) : Z :=
  match e with
  | Identifier _ _ c | IntegerLiteral _ _ c | FloatLiteral _ _ c
  | StringLiteral _ _ c | BooleanLiteral _ _ c
  | BinaryExpression _ _ _ _ c | UnaryExpression _ _ _ c
  | CallExpression _ _ _ c | AssignmentExpression _ _ _ c
  | ArrayLiteral _ _ c | IndexExpression _ _ _ c => c
  end.

(** The class [Parameter]. *)
Record FunctionParameter : Set := mkParameter {
  param_name : Ident;
  param_type_annotation : string
}.

(** The fields of a [VariableDeclaration]. *)
Record VarDecl : Set := mkVarDecl {
  var_name : Ident;
  type_annotation : option string;
  initializer : option Expression;
  var_line : Z;
  var_column : Z
}.

(** [ForStatement.initializer]: a [VariableDeclaration] or an
    [Expression]. *)
Inductive ForInit : Set :=
| ForDeclaration (d : VarDecl)
| ForExpression (e : Expression).

Inductive Statement : Set :=
| VariableDeclaration (d : VarDecl)
| FunctionDeclaration (name : Ident) (parameters : list FunctionParameter)
    (return_type : string) (body : list Statement) (line column : Z)
| ReturnStatement (value : option Expression) (line column : Z)
| BlockStatement (statements : list Statement) (line column : Z)
| IfStatement (condition : Expression) (then_branch : Statement)
    (else_branch : option Statement) (line column : Z)
| WhileStatement (condition : Expression) (body : Statement)
    (line column : Z)
| ForStatement (init : option ForInit) (condition increment : option Expression)
    (body : Statement) (line column : Z)
| ExpressionStatement (expression : Expression) (line column : Z).

Record Program : Set := mkProgram { statements : list Statement }.

(** Induction over the nodes, with the hypotheses for the nodes held in
    lists and options. *)
Section ExpressionInduction.
Variable P : Expression -> Prop.
Hypothesis P_Identifier : forall n l c, P (Identifier n l c).
Hypothesis P_IntegerLiteral : forall v l c, P (IntegerLiteral v l c).
Hypothesis P_FloatLiteral : forall v l c, P (FloatLiteral v l c).
Hypothesis P_StringLiteral : forall v l c, P (StringLiteral v l c).
Hypothesis P_BooleanLiteral : forall v l c, P (BooleanLiteral v l c).
Hypothesis P_BinaryExpression : forall e1 op e2 l c,
  P e1 -> P e2 -> P (BinaryExpression e1 op e2 l c).
Hypothesis P_UnaryExpression : forall op e l c,
  P e -> P (UnaryExpression op e l c).
Hypothesis P_CallExpression : forall callee args l c,
  P callee -> Forall P args -> P (CallExpression callee args l c).
Hypothesis P_AssignmentExpression : forall e1 e2 l c,
  P e1 -> P e2 -> P (AssignmentExpression e1 e2 l c).
Hypothesis P_ArrayLiteral : forall elements l c,
  Forall P elements -> P (ArrayLiteral elements l c).
Hypothesis P_IndexExpression : forall e1 e2 l c,
  P e1 -> P e2 -> P (IndexExpression e1 e2 l c).

Fixpoint Expression_nested_ind (e : Expression) : P e :=
  let all :=
    fix all (es : list Expression) : Forall P es :=
      match es with
      | [] => @List.Forall_nil _ P
      | x :: xs => @List.Forall_cons _ P x xs (Expression_nested_ind x) (all xs)
      end in
  match e with
  | Identifier n l c => P_Identifier n l c
  | IntegerLiteral v l c => P_IntegerLiteral v l c
  | FloatLiteral v l c => P_FloatLiteral v l c
  | StringLiteral v l c => P_StringLiteral v l c
  | BooleanLiteral v l c => P_BooleanLiteral v l c
  | BinaryExpression e1 op e2 l c =>
      P_BinaryExpression e1 op e2 l c (Expression_nested_ind e1)
        (Expression_nested_ind e2)
  | UnaryExpression op e l c =>
      P_UnaryExpression op e l c (Expression_nested_ind e)
  | CallExpression callee args l c =>
      P_CallExpression callee args l c (Expression_nested_ind callee)
        (all args)
  | AssignmentExpression e1 e2 l c =>
      P_AssignmentExpression e1 e2 l c (Expression_nested_ind e1)
        (Expression_nested_ind e2)
  | ArrayLiteral elements l c => P_ArrayLiteral elements l c (all elements)
  | IndexExpression e1 e2 l c =>
      P_IndexExpression e1 e2 l c (Expression_nested_ind e1)
        (Expression_nested_ind e2)
  end.
End ExpressionInduction.

Definition option_Forall {A} (P : A -> Prop) (o : option A) : Prop :=
  match o with
  | Some a => P a
  | None => True
  end.

Section StatementInduction.
Variable P : Statement -> Prop.
Hypothesis P_VariableDeclaration : forall d, P (VariableDeclaration d).
Hypothesis P_FunctionDeclaration : forall n params rt body l c,
  Forall P body -> P (FunctionDeclaration n params rt body l c).
Hypothesis P_ReturnStatement : forall v l c, P (ReturnStatement v l c).
Hypothesis P_BlockStatement : forall stmts l c,
  Forall P stmts -> P (BlockStatement stmts l c).
Hypothesis P_IfStatement : forall cond s1 s2 l c,
  P s1 -> option_Forall P s2 -> P (IfStatement cond s1 s2 l c).
Hypothesis P_WhileStatement : forall cond s l c,
  P s -> P (WhileStatement cond s l c).
Hypothesis P_ForStatement : forall i cond incr s l c,
  P s -> P (ForStatement i cond incr s l c).
Hypothesis P_ExpressionStatement : forall e l c, P (ExpressionStatement e l c).

Fixpoint Statement_nested_ind (s : Statement) : P s :=
  let all :=
    fix all (ss : list Statement) : Forall P ss :=
      match ss with
      | [] => @List.Forall_nil _ P
      | x :: xs => @List.Forall_cons _ P x xs (Statement_nested_ind x) (all xs)
      end in
  match s with
  | VariableDeclaration d => P_VariableDeclaration d
  | FunctionDeclaration n params rt body l c =>
      P_FunctionDeclaration n params rt body l c (all body)
  | ReturnStatement v l c => P_ReturnStatement v l c
  | BlockStatement stmts l c => P_BlockStatement stmts l c (all stmts)
  | IfStatement cond s1 s2 l c =>
      P_IfStatement cond s1 s2 l c (Statement_nested_ind s1)
        (match s2 return option_Forall P s2 with
         | Some s' => Statement_nested_ind s'
         | None => I
         end)
  | WhileStatement cond s l c =>
      P_WhileStatement cond s l c (Statement_nested_ind s)
  | ForStatement i cond incr s l c =>
      P_ForStatement i cond incr s l c (Statement_nested_ind s)
  | ExpressionStatement e l c => P_ExpressionStatement e l c
  end.
End StatementInduction.

End Ast.

(** ** parser/parser.py *)

Module Parser.
Import Ast.
Export Lexer(TokenType(..), Token, mkToken).

Record ParseError : Set := mkParseError {
  token : Token;
  message : string
}.

(** The exceptions a call into the parser can end with. *)
Inductive Exception : Set :=
| RaiseParseError (e : ParseError)
| ValueError
| IndexError.

(** The mutable fields of a [Parser] object ([lexer] is read by
    [__init__] only; [precedence] is never read). *)
Record Parser : Set := mkParser {
  tokens : list Token;
  current : nat;
  errors : list ParseError
}.

(** How a method call ends: it returns, it raises, or the fuel that
    bounds recursion and iteration is used up.  The interpreter's own
    limit on the depth of recursion is not modelled. *)
Inductive Outcome (A : Type) : Type :=
| Returned (a : A) (p : Parser)
| Raised (e : Exception) (p : Parser)
| OutOfFuel.
Arguments Returned {A} a p.
Arguments Raised {A} e p.
Arguments OutOfFuel {A}.

Definition M (A : Type) : Type := Parser -> Outcome A.

Definition ret {A} (a : A) : M A := fun p => Returned a p.
Definition raise {A} (e : Exception) : M A := fun p => Raised e p.
Definition bind {A B} (m : M A) (k : A -> M B) : M B :=
  fun p =>
    match m p with
    | Returned a p' => k a p'
    | Raised e p' => Raised e p'
    | OutOfFuel => OutOfFuel
    end.

Notation "'let*' x ':=' m 'in' k" := (bind m (fun x => k))
  (at level 10, x name, m at level 100, k at level 200).

(** [l[i]] with Python's negative indexes. *)
Definition index {A} (l : list A) (i : Z) : option A :=
  if (0 <=? i)%Z then l !! Z.to_nat i
  else l !! Z.to_nat (Z.of_nat (length l) + i).

Definition subscript (i : Z) : M Token :=
  fun p =>
    match index (tokens p) i with
    | Some t => Returned t p
    | None => Raised IndexError p
    end.

Definition peek : M Token :=
  fun p => subscript (Z.of_nat (current p)) p.

Definition previous : M Token :=
  fun p => subscript (Z.of_nat (current p) - 1) p.

Definition is_at_end : M bool :=
  let* t := peek in ret (bool_decide (Lexer.type t = EOF)).

Definition advance : M Token :=
  let* at_end := is_at_end in
  let* _ := (if at_end then ret tt
             else fun p => Returned tt (mkParser (tokens p) (S (current p))
                                          (errors p))) in
  previous.

Definition check (ty : TokenType) : M bool :=
  let* at_end := is_at_end in
  if at_end then ret false
  else let* t := peek in ret (bool_decide (Lexer.type t = ty)).

Definition consume (ty : TokenType) (msg : string) : M Token :=
  let* ok := check ty in
  if ok then advance
  else let* t := peek in raise (RaiseParseError (mkParseError t msg)).

(** [primary], with [expression] written out where it is called for
    a parenthesis: the fuel bounds the nesting by the number of tokens.
    The interpreter's own bound on nested calls is not represented:
    where the source raises [RecursionError] on parentheses nested too
    deeply, this function returns. *)
Fixpoint primary (fuel : nat) : M Expression :=
  match fuel with
  | O => fun _ => OutOfFuel
  | S fuel' =>
      let expression := primary fuel' in
      let* token := peek in
      match Lexer.type token with
      | INTEGER =>
          let* _ := advance in
          match Py.int (Lexer.value token) with
          | Some n => ret (IntegerLiteral n (Lexer.tline token)
                             (Lexer.tcolumn token))
          | None => raise ValueError
          end
      | FLOAT =>
          let* _ := advance in
          match Py.float (Lexer.value token) with
          | Some x => ret (FloatLiteral x (Lexer.tline token)
                             (Lexer.tcolumn token))
          | None => raise ValueError
          end
      | STRING =>
          let* _ := advance in
          ret (StringLiteral (Lexer.value token) (Lexer.tline token)
                 (Lexer.tcolumn token))
      | IDENTIFIER =>
          let* _ := advance in
          ret (Identifier (Lexer.value token) (Lexer.tline token)
                 (Lexer.tcolumn token))
      | LPAREN =>
          let* _ := advance in
          let* expr := expression in
          let* _ := consume RPAREN "Expected ')' after expression." in
          ret expr
      | _ =>
          let* _ := advance in
          raise (RaiseParseError
                   (mkParseError token
                      ("Unexpected token: " +:+ Lexer.value token)))
      end
  end.

Definition expression (fuel : nat) : M Expression := primary fuel.

Definition expression_statement (fuel : nat) : M Statement :=
  let* expr := expression fuel in
  let* _ := consume SEMICOLON "Expected ';' after expression." in
  ret (ExpressionStatement expr (expr_line expr) (expr_column expr)).

Definition statement (fuel : nat) : M Statement := expression_statement fuel.

Definition declaration (fuel : nat) : M Statement := statement fuel.

(** [match], whose types are given as a list *)
Fixpoint match_ (types : list TokenType) : M bool :=
  match types with
  | [] => ret false
  | ty :: types' =>
      let* found := check ty in
      if found then let* _ := advance in ret true
      else match_ types'
  end.

Definition statement_start (ty : TokenType) : bool :=
  bool_decide (ty ∈ [FUNCTION; SPELL; IF; WHILE; FOR; RETURN]).

Fixpoint synchronize_loop (fuel : nat) : M unit :=
  match fuel with
  | O => fun _ => OutOfFuel
  | S fuel' =>
      let* at_end := is_at_end in
      if at_end then ret tt
      else
        let* prev := previous in
        if bool_decide (Lexer.type prev = SEMICOLON) then ret tt
        else
          let* t := peek in
          if statement_start (Lexer.type t) then ret tt
          else let* _ := advance in synchronize_loop fuel'
  end.

Definition synchronize (fuel : nat) : M unit :=
  let* _ := advance in synchronize_loop fuel.

(** [try: statements.append(self.declaration())
     except ParseError as error: ...]: any other exception goes on. *)
Definition try_declaration (fuel : nat) (stmts : list Statement)
  : M (list Statement) :=
  fun p =>
    match declaration fuel p with
    | Returned s p' => Returned (stmts ++ [s]) p'
    | Raised (RaiseParseError error) p' =>
        match synchronize fuel
                (mkParser (tokens p') (current p') (errors p' ++ [error]))
        with
        | Returned _ p'' => Returned stmts p''
        | Raised e p'' => Raised e p''
        | OutOfFuel => OutOfFuel
        end
    | Raised e p' => Raised e p'
    | OutOfFuel => OutOfFuel
    end.

Fixpoint parse_loop (fuel depth : nat) (stmts : list Statement)
  : M (list Statement) :=
  match fuel with
  | O => fun _ => OutOfFuel
  | S fuel' =>
      let* at_end := is_at_end in
      if at_end then ret stmts
      else
        let* stmts' := try_declaration depth stmts in
        parse_loop fuel' depth stmts'
  end.

(** Each iteration and each nested call consumes a token, so one more
    than the number of tokens bounds both. *)
Definition fuel (p : Parser) : nat := S (length (tokens p)).

Definition parse : M Program :=
  fun p =>
    (let* stmts := parse_loop (fuel p) (fuel p) [] in
     ret (mkProgram stmts)) p.

(** [Parser.__init__] *)
Definition init (src : string) : option Parser :=
  match Lexer.lex src with
  | Some toks => Some (mkParser toks 0 [])
  | None => None
  end.

(** [Parser(source).parse()] *)
Definition parse_source (src : string) : Outcome Program :=
  match init src with
  | Some p => parse p
  | None => OutOfFuel
  end.

End Parser.

(** ** analyzer/symbols.py *)

Module Symbols.

Inductive Symbol : Set :=
| VariableSymbol (name type_name : string) (is_mutable : bool)
| FunctionSymbol (name type_name : string) (parameters : list Symbol)
    (is_builtin : bool).

Definition name (s : Symbol) : string :=
  match s with
  | VariableSymbol n _ _ | FunctionSymbol n _ _ _ => n
  end.

Definition type_name (s : Symbol) : string :=
  match s with
  | VariableSymbol _ t _ | FunctionSymbol _ t _ _ => t
  end.

(** A [SymbolTable] object.  The objects live in a store, a list
    indexed by address; [parent] is the address of the enclosing
    scope, and an analyzer's [symbol_table] field is an address. *)
Record SymbolTable : Type := mkSymbolTable {
  symbols : gmap string Symbol;
  parent : option nat;
  scope_name : string
}.

Abbreviation Store := (list SymbolTable).

(** [SymbolTable()] *)
Definition global : SymbolTable := mkSymbolTable empty None "global".

Definition define (self : nat) (symbol : Symbol) (h : Store) : Store :=
  alter (fun t => mkSymbolTable (<[name symbol := symbol]> (symbols t))
                    (parent t) (scope_name t)) self h.

(** [resolve] follows the parent addresses; the fuel bounds the
    length of the chain. *)
Fixpoint resolve_from (fuel : nat) (h : Store) (self : nat) (n : string)
  : option Symbol :=
  match fuel with
  | O => None
  | S fuel' =>
      match h !! self with
      | None => None
      | Some t =>
          match symbols t !! n with
          | Some symbol => Some symbol
          | None =>
              match parent t with
              | Some p => resolve_from fuel' h p n
              | None => None
              end
          end
      end
  end.

Definition resolve (h : Store) (self : nat) (n : string) : option Symbol :=
  resolve_from (length h) h self n.

Definition resolve_local (h : Store) (self : nat) (n : string)
  : option Symbol :=
  match h !! self with
  | Some t => symbols t !! n
  | None => None
  end.

Definition contains (h : Store) (self : nat) (n : string) : bool :=
  bool_decide (resolve h self n <> None).

Definition contains_local (h : Store) (self : nat) (n : string) : bool :=
  bool_decide (resolve_local h self n <> None).

(** The new object is stored at the next free address, which is
    returned. *)
Definition create_child_scope (h : Store) (self : nat) (n : string)
  : Store * nat :=
  let child_name :=
    if bool_decide (n <> "") then n
    else match h !! self with
         | Some t =>
             scope_name t +:+ ".child"
             +:+ Py.str (Z.of_nat (size (symbols t)))
         | None => ""
         end in
  (h ++ [mkSymbolTable empty (Some self) child_name], length h).

End Symbols.

(** ** analyzer/type_checker.py *)

Module TypeChecker.
Import Ast Symbols.

Record TypeError : Set := mkTypeError {
  message : string;
  line : Z;
  column : Z
}.

(** The mutable state of a [TypeChecker] and of the scopes it made. *)
Record TypeChecker : Type := mkTypeChecker {
  store : Store;
  symbol_table : nat;
  errors : list TypeError;
  current_function : option Symbol
}.

Definition types : list string :=
  ["Void"; "Int"; "Float"; "String"; "Boolean";
   "Array"; "Map"; "Element"; "Energy"; "Spirit"; "Matter"].

Definition error (msg : string) (l c : Z) (tc : TypeChecker) : TypeChecker :=
  mkTypeChecker (store tc) (symbol_table tc)
    (errors tc ++ [mkTypeError msg l c]) (current_function tc).

Definition define (symbol : Symbol) (tc : TypeChecker) : TypeChecker :=
  mkTypeChecker (Symbols.define (symbol_table tc) symbol (store tc))
    (symbol_table tc) (errors tc) (current_function tc).

Definition resolve (tc : TypeChecker) (n : string) : option Symbol :=
  Symbols.resolve (store tc) (symbol_table tc) n.

Definition contains_local (tc : TypeChecker) (n : string) : bool :=
  Symbols.contains_local (store tc) (symbol_table tc) n.

(** [scope = self.symbol_table.create_child_scope(n);
     self.symbol_table = scope] *)
Definition enter_child_scope (n : string) (tc : TypeChecker) : TypeChecker :=
  let '(h, child) := create_child_scope (store tc) (symbol_table tc) n in
  mkTypeChecker h child (errors tc) (current_function tc).

Definition set_symbol_table (scope : nat) (tc : TypeChecker) : TypeChecker :=
  mkTypeChecker (store tc) scope (errors tc) (current_function tc).

Definition set_current_function (f : option Symbol) (tc : TypeChecker)
  : TypeChecker :=
  mkTypeChecker (store tc) (symbol_table tc) (errors tc) f.

Definition builtin_print : Symbol :=
  FunctionSymbol "print" "Void" [VariableSymbol "value" "Any" true] true.

(** [TypeChecker.__init__] *)
Definition init : TypeChecker :=
  define builtin_print (mkTypeChecker [global] 0 [] None).

Definition visit_identifier (n : string) (l c : Z) (tc : TypeChecker)
  : string * TypeChecker :=
  match resolve tc n with
  | None => ("Unknown", error ("Undefined identifier '" +:+ n +:+ "'") l c tc)
  | Some symbol => (type_name symbol, tc)
  end.

(** The part of [visit_binary_expression] after both operands are
    visited. *)
Definition binary_result (operator left_type right_type : string) (l c : Z)
    (tc : TypeChecker) : string * TypeChecker :=
  let incompatible :=
    ("Unknown",
     error ("Cannot apply operator '" +:+ operator +:+ "' to types '"
            +:+ left_type +:+ "' and '" +:+ right_type +:+ "'") l c tc) in
  if bool_decide (operator ∈ ["+"; "-"; "*"; "/"]) then
    if bool_decide (left_type = "Int") && bool_decide (right_type = "Int")
    then ("Int", tc)
    else if bool_decide (left_type ∈ ["Int"; "Float"])
            && bool_decide (right_type ∈ ["Int"; "Float"])
    then ("Float", tc)
    else if bool_decide (operator = "+")
            && (bool_decide (left_type = "String")
                || bool_decide (right_type = "String"))
    then ("String", tc)
    else incompatible
  else if bool_decide (operator ∈ ["=="; "!="; "<"; ">"; "<="; ">="])
  then ("Boolean", tc)
  else incompatible.

Definition unary_result (operator right_type : string) (l c : Z)
    (tc : TypeChecker) : string * TypeChecker :=
  let incompatible :=
    ("Unknown",
     error ("Cannot apply unary operator '" +:+ operator +:+ "' to type '"
            +:+ right_type +:+ "'") l c tc) in
  if bool_decide (operator = "-") then
    if bool_decide (right_type ∈ ["Int"; "Float"]) then (right_type, tc)
    else incompatible
  else if bool_decide (operator = "!") then
    if bool_decide (right_type = "Boolean") then ("Boolean", tc)
    else incompatible
  else incompatible.

Definition argument_error (i : nat) (func_name : string) (param : Symbol)
    (arg_type : string) (arg : Expression) (tc : TypeChecker) : TypeChecker :=
  if bool_decide (arg_type <> type_name param)
     && bool_decide (type_name param <> "Any")
  then error ("Argument " +:+ Py.str (Z.of_nat i + 1) +:+ " to function '"
              +:+ func_name +:+ "' must be of type '" +:+ type_name param
              +:+ "', got '" +:+ arg_type +:+ "'")
         (expr_line arg) (expr_column arg) tc
  else tc.

Definition element_error (element_type current_type : string)
    (element : Expression) (tc : TypeChecker) : TypeChecker :=
  if bool_decide (current_type <> element_type)
  then error ("Array elements must all have the same type. Expected '"
              +:+ element_type +:+ "', got '" +:+ current_type +:+ "'")
         (expr_line element) (expr_column element) tc
  else tc.

(** [array_type[6:-1]] of a string that starts with [Array<]. *)
Definition element_type_of (array_type : string) : string :=
  String.substring 6 (String.length array_type - 7) array_type.

(** [node.accept(self)] for an expression node. *)
Fixpoint visit_expression (node : Expression) (tc : TypeChecker)
  : string * TypeChecker :=
  match node with
  | Identifier n l c => visit_identifier n l c tc
  | IntegerLiteral _ _ _ => ("Int", tc)
  | FloatLiteral _ _ _ => ("Float", tc)
  | StringLiteral _ _ _ => ("String", tc)
  | BooleanLiteral _ _ _ => ("Boolean", tc)
  | BinaryExpression left_operand operator right_operand l c =>
      let '(left_type, tc) := visit_expression left_operand tc in
      let '(right_type, tc) := visit_expression right_operand tc in
      binary_result operator left_type right_type l c tc
  | UnaryExpression operator right_operand l c =>
      let '(right_type, tc) := visit_expression right_operand tc in
      unary_result operator right_type l c tc
  | CallExpression callee arguments l c =>
      let '(callee_type, tc) := visit_expression callee tc in
      match callee with
      | Identifier func_name _ _ =>
          match resolve tc func_name with
          | None =>
              ("Unknown",
               error ("Undefined function '" +:+ func_name +:+ "'") l c tc)
          | Some (VariableSymbol _ _ _) =>
              ("Unknown",
               error ("Cannot call non-function '" +:+ func_name +:+ "'")
                 l c tc)
          | Some (FunctionSymbol _ func_type parameters _) =>
              if bool_decide (length arguments <> length parameters)
              then
                (func_type,
                 error ("Function '" +:+ func_name +:+ "' expects "
                        +:+ Py.str (Z.of_nat (length parameters))
                        +:+ " arguments, but got "
                        +:+ Py.str (Z.of_nat (length arguments))) l c tc)
              else
                (func_type,
                 (fix check_arguments (i : nat) (args : list Expression)
                      (params : list Symbol) (tc : TypeChecker) :=
                    match args, params with
                    | arg :: args', param :: params' =>
                        let '(arg_type, tc) := visit_expression arg tc in
                        check_arguments (S i) args' params'
                          (argument_error i func_name param arg_type arg tc)
                    | _, _ => tc
                    end) 0%nat arguments parameters tc)
          end
      | _ =>
          ("Unknown",
           error ("Expression of type '" +:+ callee_type
                  +:+ "' is not callable") l c tc)
      end
  | AssignmentExpression target value l c =>
      match target with
      | Identifier var_name _ _ =>
          match resolve tc var_name with
          | None =>
              ("Unknown",
               error ("Undefined variable '" +:+ var_name +:+ "'") l c tc)
          | Some var_symbol =>
              let tc :=
                match var_symbol with
                | VariableSymbol _ _ false =>
                    error ("Cannot assign to immutable variable '"
                           +:+ var_name +:+ "'") l c tc
                | _ => tc
                end in
              let '(value_type, tc) := visit_expression value tc in
              let tc :=
                if bool_decide (value_type <> type_name var_symbol)
                then error ("Cannot assign a value of type '" +:+ value_type
                            +:+ "' to a variable of type '"
                            +:+ type_name var_symbol +:+ "'") l c tc
                else tc in
              (type_name var_symbol, tc)
          end
      | _ => ("Unknown", error "Invalid assignment target" l c tc)
      end
  | ArrayLiteral elements l c =>
      match elements with
      | [] => ("Array<Any>", tc)
      | first :: rest =>
          let '(element_type, tc) := visit_expression first tc in
          ("Array<" +:+ element_type +:+ ">",
           (fix check_elements (elements : list Expression)
                (tc : TypeChecker) :=
              match elements with
              | [] => tc
              | element :: elements' =>
                  let '(current_type, tc) := visit_expression element tc in
                  check_elements elements'
                    (element_error element_type current_type element tc)
              end) rest tc)
      end
  | IndexExpression array index l c =>
      let '(array_type, tc) := visit_expression array tc in
      let '(index_type, tc) := visit_expression index tc in
      if negb (String.prefix "Array<" array_type)
      then ("Unknown",
            error ("Cannot index into non-array type '" +:+ array_type
                   +:+ "'") l c tc)
      else
        let tc :=
          if bool_decide (index_type <> "Int")
          then error ("Array index must be an Int, got '" +:+ index_type
                      +:+ "'") (expr_line index) (expr_column index) tc
          else tc in
        (element_type_of array_type, tc)
  end.

Definition visit_variable_declaration (node : VarDecl) (tc : TypeChecker)
  : TypeChecker :=
  let '(init_type, tc) :=
    match initializer node with
    | Some e => visit_expression e tc
    | None => ("Void", tc)
    end in
  let tc :=
    match type_annotation node with
    | Some annotation =>
        if bool_decide (annotation ∉ types)
        then error ("Unknown type '" +:+ annotation +:+ "'")
               (var_line node) (var_column node) tc
        else if bool_decide (initializer node <> None)
                && bool_decide (init_type <> annotation)
        then error ("Cannot assign a value of type '" +:+ init_type
                    +:+ "' to a variable of type '" +:+ annotation +:+ "'")
               (var_line node) (var_column node) tc
        else tc
    | None => tc
    end in
  let var_type := default init_type (type_annotation node) in
  let n := Ast.name (var_name node) in
  if contains_local tc n
  then error ("Variable '" +:+ n +:+ "' is already defined in this scope")
         (var_line node) (var_column node) tc
  else define (VariableSymbol n var_type true) tc.

Definition parameter_symbol (param : FunctionParameter) : Symbol :=
  VariableSymbol (Ast.name (param_name param)) (param_type_annotation param)
    true.

Definition condition_error (kind condition_type : string)
    (condition : Expression) (tc : TypeChecker) : TypeChecker :=
  if bool_decide (condition_type <> "Boolean")
  then error (kind +:+ " condition must be a Boolean, got '"
              +:+ condition_type +:+ "'")
         (expr_line condition) (expr_column condition) tc
  else tc.

Definition visit_return_statement (value : option Expression) (l c : Z)
    (tc : TypeChecker) : TypeChecker :=
  match current_function tc with
  | None => error "Return statement outside of function" l c tc
  | Some f =>
      match value with
      | None =>
          if bool_decide (type_name f <> "Void")
          then error ("Function '" +:+ Symbols.name f
                      +:+ "' must return a value of type '"
                      +:+ type_name f +:+ "'") l c tc
          else tc
      | Some e =>
          let '(return_type, tc) := visit_expression e tc in
          if bool_decide (return_type <> type_name f)
          then error ("Cannot return a value of type '" +:+ return_type
                      +:+ "' from a function with return type '"
                      +:+ type_name f +:+ "'") l c tc
          else tc
      end
  end.

(** [node.accept(self)] for a statement node.  In
    [visit_function_declaration] the function symbol is one object
    whose parameter list is filled after the symbol is defined and
    before anything reads it; here it is defined with the list
    filled. *)
Fixpoint visit_statement (node : Statement) (tc : TypeChecker)
  : TypeChecker :=
  match node with
  | VariableDeclaration d => visit_variable_declaration d tc
  | FunctionDeclaration fname parameters return_type body l c =>
      let n := Ast.name fname in
      let func_symbol :=
        FunctionSymbol n return_type (map parameter_symbol parameters)
          false in
      let tc :=
        if contains_local tc n
        then error ("Function '" +:+ n
                    +:+ "' is already defined in this scope") l c tc
        else define func_symbol tc in
      let previous_scope := symbol_table tc in
      let tc := enter_child_scope n tc in
      let previous_function := current_function tc in
      let tc := set_current_function (Some func_symbol) tc in
      let tc :=
        fold_left (fun tc param => define (parameter_symbol param) tc)
          parameters tc in
      let tc :=
        fold_left (fun tc s => visit_statement s tc) body tc in
      set_current_function previous_function
        (set_symbol_table previous_scope tc)
  | ReturnStatement value l c => visit_return_statement value l c tc
  | BlockStatement statements l c =>
      let previous_scope := symbol_table tc in
      let tc := enter_child_scope "" tc in
      let tc :=
        fold_left (fun tc s => visit_statement s tc) statements tc in
      set_symbol_table previous_scope tc
  | IfStatement condition then_branch else_branch l c =>
      let '(condition_type, tc) := visit_expression condition tc in
      let tc := condition_error "If" condition_type condition tc in
      let tc := visit_statement then_branch tc in
      match else_branch with
      | Some s => visit_statement s tc
      | None => tc
      end
  | WhileStatement condition body l c =>
      let '(condition_type, tc) := visit_expression condition tc in
      let tc := condition_error "While" condition_type condition tc in
      visit_statement body tc
  | ForStatement init condition increment body l c =>
      let previous_scope := symbol_table tc in
      let tc := enter_child_scope "" tc in
      let tc :=
        match init with
        | Some (ForDeclaration d) => visit_variable_declaration d tc
        | Some (ForExpression e) => snd (visit_expression e tc)
        | None => tc
        end in
      let tc :=
        match condition with
        | Some e =>
            let '(condition_type, tc) := visit_expression e tc in
            condition_error "For" condition_type e tc
        | None => tc
        end in
      let tc :=
        match increment with
        | Some e => snd (visit_expression e tc)
        | None => tc
        end in
      let tc := visit_statement body tc in
      set_symbol_table previous_scope tc
  | ExpressionStatement e l c => snd (visit_expression e tc)
  end.

Definition visit_program (node : Program) (tc : TypeChecker) : TypeChecker :=
  fold_left (fun tc s => visit_statement s tc) (statements node) tc.

(** [check] run on a checker in state [tc]: the state it leaves; the
    list it returns is [errors] of that state. *)
Definition check (program : Program) (tc : TypeChecker) : TypeChecker :=
  visit_program program tc.

End TypeChecker.

(** ** analyzer/semantic_analyzer.py *)

Module SemanticAnalyzer.
Import Ast Symbols.

Record Location : Set := mkLocation {
  line : Z;
  column : Z
}.

Record Definition_ : Set := mkDefinition {
  name : string;
  kind : string;
  location : Location;
  type_name : string;
  detail : string
}.

Record Reference : Set := mkReference {
  ref_name : string;
  ref_location : Location;
  definition : Definition_
}.

#[global] Instance Location_eq_dec : EqDecision Location.
Proof. solve_decision. Defined.
#[global] Instance Definition_eq_dec : EqDecision Definition_.
Proof. solve_decision. Defined.
#[global] Instance Reference_eq_dec : EqDecision Reference.
Proof. solve_decision. Defined.

(** The mutable state of a [SemanticAnalyzer] and of the scopes it
    made. *)
Record SemanticAnalyzer : Type := mkSemanticAnalyzer {
  store : Store;
  symbol_table : nat;
  definitions : gmap string (list Definition_);
  references : list Reference;
  errors : list string;
  current_function : option Symbol
}.

Record SemanticInfo : Type := mkSemanticInfo {
  info_definitions : gmap string (list Definition_);
  info_references : list Reference;
  info_errors : list string
}.

Definition error (msg : string) (sa : SemanticAnalyzer) : SemanticAnalyzer :=
  mkSemanticAnalyzer (store sa) (symbol_table sa) (definitions sa)
    (references sa) (errors sa ++ [msg]) (current_function sa).

Definition define (symbol : Symbol) (sa : SemanticAnalyzer)
  : SemanticAnalyzer :=
  mkSemanticAnalyzer (Symbols.define (symbol_table sa) symbol (store sa))
    (symbol_table sa) (definitions sa) (references sa) (errors sa)
    (current_function sa).

Definition resolve (sa : SemanticAnalyzer) (n : string) : option Symbol :=
  Symbols.resolve (store sa) (symbol_table sa) n.

Definition contains_local (sa : SemanticAnalyzer) (n : string) : bool :=
  Symbols.contains_local (store sa) (symbol_table sa) n.

Definition enter_child_scope (n : string) (sa : SemanticAnalyzer)
  : SemanticAnalyzer :=
  let '(h, child) := create_child_scope (store sa) (symbol_table sa) n in
  mkSemanticAnalyzer h child (definitions sa) (references sa) (errors sa)
    (current_function sa).

Definition set_symbol_table (scope : nat) (sa : SemanticAnalyzer)
  : SemanticAnalyzer :=
  mkSemanticAnalyzer (store sa) scope (definitions sa) (references sa)
    (errors sa) (current_function sa).

Definition set_current_function (f : option Symbol) (sa : SemanticAnalyzer)
  : SemanticAnalyzer :=
  mkSemanticAnalyzer (store sa) (symbol_table sa) (definitions sa)
    (references sa) (errors sa) f.

Definition _record_definition (n k : string) (loc : Location)
    (ty det : string) (sa : SemanticAnalyzer) : SemanticAnalyzer :=
  let d := mkDefinition n k loc ty det in
  mkSemanticAnalyzer (store sa) (symbol_table sa)
    (<[n := default [] (definitions sa !! n) ++ [d]]> (definitions sa))
    (references sa) (errors sa) (current_function sa).

Definition _record_reference (n : string) (loc : Location) (d : Definition_)
    (sa : SemanticAnalyzer) : SemanticAnalyzer :=
  mkSemanticAnalyzer (store sa) (symbol_table sa) (definitions sa)
    (references sa ++ [mkReference n loc d]) (errors sa)
    (current_function sa).

Definition builtin_print : Symbol :=
  FunctionSymbol "print" "Void" [VariableSymbol "value" "Any" true] true.

(** [SemanticAnalyzer.__init__] *)
Definition init : SemanticAnalyzer :=
  _record_definition "print" "function" (mkLocation 0 0) "Void"
    "Built-in function: print(value: Any) -> Void"
    (define builtin_print
       (mkSemanticAnalyzer [global] 0 empty [] [] None)).

Definition find_definition (sa : SemanticAnalyzer) (n : string)
    (loc : Location) : option Definition_ :=
  match default [] (definitions sa !! n) with
  | [] => None
  | d :: _ => Some d
  end.

Definition find_all_references (sa : SemanticAnalyzer) (n : string)
    (def_location : Location) : list Reference :=
  List.filter
    (fun ref =>
       bool_decide (ref_name ref = n)
       && (bool_decide (line (location (definition ref)) = line def_location)
           && bool_decide (column (location (definition ref))
                           = column def_location)))
    (references sa).

Definition find_hover_info (sa : SemanticAnalyzer) (n : string)
    (loc : Location) : option string :=
  match find_definition sa n loc with
  | None => None
  | Some d =>
      if bool_decide (detail d <> "")
      then Some (kind d +:+ " " +:+ name d +:+ ": " +:+ type_name d
                 +:+ String Py.newline (detail d))
      else Some (kind d +:+ " " +:+ name d +:+ ": " +:+ type_name d)
  end.

Definition undefined_identifier (n : string) (l c : Z) : string :=
  "Undefined identifier '" +:+ n +:+ "' at " +:+ Py.str l +:+ ":"
  +:+ Py.str c.

Definition visit_identifier (n : string) (l c : Z) (sa : SemanticAnalyzer)
  : SemanticAnalyzer :=
  match resolve sa n with
  | None => error (undefined_identifier n l c) sa
  | Some _ =>
      match find_definition sa n (mkLocation l c) with
      | Some d => _record_reference n (mkLocation l c) d sa
      | None => sa
      end
  end.

(** [node.accept(self)] for an expression node. *)
Fixpoint visit_expression (node : Expression) (sa : SemanticAnalyzer)
  : SemanticAnalyzer :=
  let visit_all :=
    fold_left (fun sa e => visit_expression e sa) in
  match node with
  | Identifier n l c => visit_identifier n l c sa
  | IntegerLiteral _ _ _ | FloatLiteral _ _ _ | StringLiteral _ _ _
  | BooleanLiteral _ _ _ => sa
  | BinaryExpression left_operand _ right_operand _ _ =>
      visit_expression right_operand (visit_expression left_operand sa)
  | UnaryExpression _ right_operand _ _ => visit_expression right_operand sa
  | CallExpression callee arguments _ _ =>
      visit_all arguments (visit_expression callee sa)
  | AssignmentExpression target value _ _ =>
      visit_expression value (visit_expression target sa)
  | ArrayLiteral elements _ _ => visit_all elements sa
  | IndexExpression array index _ _ =>
      visit_expression index (visit_expression array sa)
  end.

(** [node.type_annotation or "inferred"] *)
Definition annotation_or_inferred (annotation : option string) : string :=
  match annotation with
  | Some t => if bool_decide (t <> "") then t else "inferred"
  | None => "inferred"
  end.

Definition visit_variable_declaration (node : VarDecl)
    (sa : SemanticAnalyzer) : SemanticAnalyzer :=
  let var_type := annotation_or_inferred (type_annotation node) in
  let n := Ast.name (var_name node) in
  let sa :=
    _record_definition n "variable"
      (mkLocation (var_line node) (var_column node)) var_type "" sa in
  let var_symbol := VariableSymbol n var_type true in
  let sa :=
    if contains_local sa n
    then error ("Variable '" +:+ n +:+ "' is already defined at "
                +:+ Py.str (var_line node) +:+ ":"
                +:+ Py.str (var_column node)) sa
    else define var_symbol sa in
  match initializer node with
  | Some e => visit_expression e sa
  | None => sa
  end.

Definition parameter_symbol (param : FunctionParameter) : Symbol :=
  VariableSymbol (Ast.name (param_name param)) (param_type_annotation param)
    true.

Definition visit_parameter (node : FunctionParameter)
    (sa : SemanticAnalyzer) : SemanticAnalyzer :=
  let n := Ast.name (param_name node) in
  let sa :=
    _record_definition n "parameter"
      (mkLocation (Ast.line (param_name node)) (Ast.column (param_name node)))
      (param_type_annotation node) "" sa in
  define (parameter_symbol node) sa.

Fixpoint join (sep : string) (l : list string) : string :=
  match l with
  | [] => ""
  | [x] => x
  | x :: l' => x +:+ sep +:+ join sep l'
  end.

Definition _format_function_signature (fname : Ident)
    (parameters : list FunctionParameter) (return_type : string) : string :=
  let params :=
    map (fun param => Ast.name (param_name param) +:+ ": "
                      +:+ param_type_annotation param) parameters in
  "function " +:+ Ast.name fname +:+ "(" +:+ join ", " params +:+ ") -> "
  +:+ return_type.

(** [node.accept(self)] for a statement node.  As in the type checker
    the function symbol is defined with its parameter list filled:
    each [param.accept(self)] defines the parameter's symbol, which
    [resolve_local] then finds and appends. *)
Fixpoint visit_statement (node : Statement) (sa : SemanticAnalyzer)
  : SemanticAnalyzer :=
  let visit_all :=
    fold_left (fun sa s => visit_statement s sa) in
  match node with
  | VariableDeclaration d => visit_variable_declaration d sa
  | FunctionDeclaration fname parameters return_type body l c =>
      let n := Ast.name fname in
      let sa :=
        _record_definition n "function" (mkLocation l c) return_type
          (_format_function_signature fname parameters return_type) sa in
      let func_symbol :=
        FunctionSymbol n return_type (map parameter_symbol parameters) false in
      let sa :=
        if contains_local sa n
        then error ("Function '" +:+ n +:+ "' is already defined at "
                    +:+ Py.str l +:+ ":" +:+ Py.str c) sa
        else define func_symbol sa in
      let previous_scope := symbol_table sa in
      let sa := enter_child_scope n sa in
      let previous_function := current_function sa in
      let sa := set_current_function (Some func_symbol) sa in
      let sa := fold_left (fun sa param => visit_parameter param sa)
                  parameters sa in
      let sa := visit_all body sa in
      set_current_function previous_function
        (set_symbol_table previous_scope sa)
  | ReturnStatement value _ _ =>
      match value with
      | Some e => visit_expression e sa
      | None => sa
      end
  | BlockStatement statements _ _ =>
      let previous_scope := symbol_table sa in
      let sa := enter_child_scope "" sa in
      let sa := visit_all statements sa in
      set_symbol_table previous_scope sa
  | IfStatement condition then_branch else_branch _ _ =>
      let sa := visit_expression condition sa in
      let sa := visit_statement then_branch sa in
      match else_branch with
      | Some s => visit_statement s sa
      | None => sa
      end
  | WhileStatement condition body _ _ =>
      visit_statement body (visit_expression condition sa)
  | ForStatement init condition increment body _ _ =>
      let previous_scope := symbol_table sa in
      let sa := enter_child_scope "" sa in
      let sa :=
        match init with
        | Some (ForDeclaration d) => visit_variable_declaration d sa
        | Some (ForExpression e) => visit_expression e sa
        | None => sa
        end in
      let sa :=
        match condition with
        | Some e => visit_expression e sa
        | None => sa
        end in
      let sa :=
        match increment with
        | Some e => visit_expression e sa
        | None => sa
        end in
      let sa := visit_statement body sa in
      set_symbol_table previous_scope sa
  | ExpressionStatement e _ _ => visit_expression e sa
  end.

Definition visit_program (node : Program) (sa : SemanticAnalyzer)
  : SemanticAnalyzer :=
  fold_left (fun sa s => visit_statement s sa) (statements node) sa.

(** [analyze] run on an analyzer in state [sa]: the state it leaves;
    the [SemanticInfo] it returns is [info] of that state. *)
Definition analyze (program : Program) (sa : SemanticAnalyzer)
  : SemanticAnalyzer :=
  visit_program program sa.

Definition info (sa : SemanticAnalyzer) : SemanticInfo :=
  mkSemanticInfo (definitions sa) (references sa) (errors sa).

End SemanticAnalyzer.


(** ** lsp/server.py: the pipeline of [_analyze_document] *)

Module Pipeline.

Record Analysis : Type := mkAnalysis {
  ast : Ast.Program;
  parse_errors : list Parser.ParseError;
  type_errors : list TypeChecker.TypeError;
  semantic_info : SemanticAnalyzer.SemanticInfo
}.

(** [None] when [Parser(text).parse()] does not return. *)
Definition analyze_document (text : string) : option Analysis :=
  match Parser.parse_source text with
  | Parser.Returned program parser =>
      Some (mkAnalysis program (Parser.errors parser)
              (TypeChecker.errors
                 (TypeChecker.check program TypeChecker.init))
              (SemanticAnalyzer.info
                 (SemanticAnalyzer.analyze program SemanticAnalyzer.init)))
  | _ => None
  end.

End Pipeline.

(** ** Python [str] operations used by the server *)

Module PyStr.

(** [s[i]]: a negative index counts from the end; [None] stands for
    [IndexError]. *)
Definition getitem (s : string) (i : Z) : option ascii :=
  let len := Z.of_nat (String.length s) in
  if (0 <=? i)%Z then String.get (Z.to_nat i) s
  else if (0 <=? len + i)%Z then String.get (Z.to_nat (len + i)) s
  else None.

(** A bound of a slice, brought into [0..len]. *)
Definition slice_bound (len i : Z) : Z :=
  if (i <? 0)%Z then Z.max 0 (len + i) else Z.min len i.

(** [s[i:j]] *)
Definition slice (s : string) (i j : Z) : string :=
  let len := Z.of_nat (String.length s) in
  let i' := slice_bound len i in
  let j' := slice_bound len j in
  String.substring (Z.to_nat i') (Z.to_nat (j' - i')) s.

(** [s.split(sep)] for a separator that is not empty: the pieces
    between the occurrences of [sep], found from the left and not
    overlapping.  [skip] counts the characters of the occurrence being
    passed, [piece] holds the characters of the piece being read. *)
Fixpoint split_from (sep s : string) (skip : nat) (piece : string)
  : list string :=
  match s with
  | EmptyString => [piece]
  | String c s' =>
      match skip with
      | S skip' => split_from sep s' skip' piece
      | O =>
          if String.prefix sep s
          then piece :: split_from sep s' (String.length sep - 1) ""
          else split_from sep s' 0 (piece +:+ String c "")
      end
  end.

Definition split (sep s : string) : list string := split_from sep s 0 "".

(** The whitespace that [int] strips: U+001C..U+001F are whitespace
    for [str.isspace] and not for [int]. *)
Definition int_space (c : ascii) : bool :=
  Py.between 9 13 c || Py.is_code 32 c || Py.is_code 133 c
  || Py.is_code 160 c.

Fixpoint lstrip (s : string) : string :=
  match s with
  | EmptyString => EmptyString
  | String c s' => if int_space c then lstrip s' else s
  end.

Fixpoint rstrip (s : string) : string :=
  match s with
  | EmptyString => EmptyString
  | String c s' =>
      match rstrip s' with
      | EmptyString => if int_space c then EmptyString else String c ""
      | r => String c r
      end
  end.

(** Decimal digits with single underscores between them. *)
Fixpoint int_digits (s : string) (acc : Z) (expect_digit : bool)
  : option Z :=
  match s with
  | EmptyString => if expect_digit then None else Some acc
  | String c s' =>
      if Py.isdecimal c
      then int_digits s' (10 * acc + Py.digit_value c)%Z false
      else if Ascii.eqb c "_" && negb expect_digit
      then int_digits s' acc true
      else None
  end.

(** [int(s)] for any [str]: surrounding whitespace, a sign, decimal
    digits with single underscores between them; [None] stands for
    [ValueError].  The interpreter's limit on the number of digits is
    not modelled. *)
Definition int (s : string) : option Z :=
  match rstrip (lstrip s) with
  | String "+" digits => int_digits digits 0 true
  | String "-" digits => Z.opp <$> int_digits digits 0 true
  | digits => int_digits digits 0 true
  end.

End PyStr.

(** ** lsp/server.py: requests on a document *)

Module Server.

Record Position : Set := mkPosition {
  line : Z;
  character : Z
}.

Record Range : Set := mkRange {
  range_start : Position;
  range_end : Position
}.

Record Location : Set := mkLocation {
  uri : string;
  range : Range
}.

Inductive DiagnosticSeverity : Set := Error | Warning.

Record Diagnostic : Set := mkDiagnostic {
  diagnostic_range : Range;
  message : string;
  severity : DiagnosticSeverity;
  source : string
}.

(** A [Hover] with Markdown contents. *)
Record Hover : Set := mkHover {
  contents : string;
  hover_range : Range
}.

(** The exception of a subscript out of range. *)
Inductive Exception : Set := IndexError.

(** How a request ends. *)
Inductive Result (A : Type) : Type :=
| Return (a : A)
| Raise (e : Exception).
Arguments Return {A} a.
Arguments Raise {A} e.

Definition bind {A B} (r : Result A) (k : A -> Result B) : Result B :=
  match r with
  | Return a => k a
  | Raise e => Raise e
  end.

(** The dictionaries of an [AetherScriptLanguageServer], keyed by
    document URI. *)
Record AetherScriptLanguageServer : Type := mkServer {
  document_cache : gmap string string;
  parsers : gmap string Parser.Parser;
  type_checkers : gmap string TypeChecker.TypeChecker;
  semantic_analyzers : gmap string SemanticAnalyzer.SemanticAnalyzer
}.

(** [AetherScriptLanguageServer.__init__] *)
Definition init : AetherScriptLanguageServer := mkServer empty empty empty empty.

(** [l[i]] for a list: a negative index counts from the end; [None]
    stands for [IndexError]. *)
Definition subscript {A} (l : list A) (i : Z) : option A :=
  let len := Z.of_nat (length l) in
  if (0 <=? i)%Z then l !! Z.to_nat i
  else if (0 <=? len + i)%Z then l !! Z.to_nat (len + i)
  else None.

(** [lines = text.split("\n");
     current_line = lines[line] if line < len(lines) else ""] *)
Definition current_line (text : string) (line : Z) : Result string :=
  let lines := PyStr.split (String Py.newline "") text in
  if (line <? Z.of_nat (length lines))%Z then
    match subscript lines line with
    | Some l => Return l
    | None => Raise IndexError
    end
  else Return "".

(** [c.isalnum() or c == "_"] *)
Definition is_word (c : ascii) : bool := Py.isalnum c || Ascii.eqb c "_".

(** [while word_start > 0 and is_word(current_line[word_start - 1]):
       word_start -= 1], from a [word_start] that is positive or 0. *)
Fixpoint word_start_from (current_line : string) (word_start : nat)
  : Result nat :=
  match word_start with
  | O => Return O
  | S before =>
      match String.get before current_line with
      | None => Raise IndexError
      | Some c =>
          if is_word c then word_start_from current_line before
          else Return word_start
      end
  end.

Definition find_word_start (current_line : string) (character : Z)
  : Result Z :=
  if (0 <? character)%Z
  then bind (word_start_from current_line (Z.to_nat character))
         (fun word_start => Return (Z.of_nat word_start))
  else Return character.

(** [while word_end < len(current_line) and is_word(current_line[word_end]):
       word_end += 1]; [remaining] is [len(current_line) - word_end],
    so that the first test is [remaining > 0]. *)
Fixpoint word_end_from (current_line : string) (remaining : nat)
    (word_end : Z) : Result Z :=
  match remaining with
  | O => Return word_end
  | S remaining' =>
      match PyStr.getitem current_line word_end with
      | None => Raise IndexError
      | Some c =>
          if is_word c
          then word_end_from current_line remaining' (word_end + 1)%Z
          else Return word_end
      end
  end.

Definition find_word_end (current_line : string) (character : Z)
  : Result Z :=
  word_end_from current_line
    (Z.to_nat (Z.of_nat (String.length current_line) - character)) character.

(** The word at a position, as [on_hover], [on_definition] and
    [on_references] each find it: the bounds and
    [current_line[word_start:word_end]]. *)
Definition word_at (text : string) (position : Position)
  : Result (Z * Z * string) :=
  bind (current_line text (line position)) (fun current_line =>
  bind (find_word_start current_line (character position)) (fun word_start =>
  bind (find_word_end current_line (character position)) (fun word_end =>
  Return (word_start, word_end,
          PyStr.slice current_line word_start word_end)))).

Definition hover_text (hover_info : string) : string :=
  "```aetherscript" +:+ String Py.newline hover_info
  +:+ String Py.newline "```".

Definition on_hover (self : AetherScriptLanguageServer) (uri : string)
    (position : Position) : Result (option Hover) :=
  match document_cache self !! uri with
  | None => Return None
  | Some text =>
      match semantic_analyzers self !! uri with
      | None => Return None
      | Some semantic_analyzer =>
          bind (word_at text position) (fun '(word_start, word_end, word) =>
          if bool_decide (word = "") then Return None
          else
            let lsp_location :=
              SemanticAnalyzer.mkLocation (line position + 1)
                (character position + 1) in
            match SemanticAnalyzer.find_hover_info semantic_analyzer word
                    lsp_location with
            | Some hover_info =>
                if bool_decide (hover_info <> "")
                then Return
                       (Some (mkHover (hover_text hover_info)
                                (mkRange
                                   (mkPosition (line position) word_start)
                                   (mkPosition (line position) word_end))))
                else Return None
            | None => Return None
            end)
      end
  end.

(** The range of [len(word)] characters at a place of the analyzer,
    whose lines and columns count from 1. *)
Definition word_range (location : SemanticAnalyzer.Location) (word : string)
  : Range :=
  mkRange
    (mkPosition (SemanticAnalyzer.line location - 1)
       (SemanticAnalyzer.column location - 1))
    (mkPosition (SemanticAnalyzer.line location - 1)
       (SemanticAnalyzer.column location - 1
        + Z.of_nat (String.length word))).

Definition on_definition (self : AetherScriptLanguageServer) (uri : string)
    (position : Position) : Result (option Location) :=
  match document_cache self !! uri with
  | None => Return None
  | Some text =>
      match semantic_analyzers self !! uri with
      | None => Return None
      | Some semantic_analyzer =>
          bind (word_at text position) (fun '(word_start, word_end, word) =>
          if bool_decide (word = "") then Return None
          else
            let lsp_location :=
              SemanticAnalyzer.mkLocation (line position + 1)
                (character position + 1) in
            match SemanticAnalyzer.find_definition semantic_analyzer word
                    lsp_location with
            | Some definition =>
                Return
                  (Some (mkLocation uri
                           (word_range
                              (SemanticAnalyzer.location definition) word)))
            | None => Return None
            end)
      end
  end.

Definition on_references (self : AetherScriptLanguageServer) (uri : string)
    (position : Position) : Result (list Location) :=
  match document_cache self !! uri with
  | None => Return []
  | Some text =>
      match semantic_analyzers self !! uri with
      | None => Return []
      | Some semantic_analyzer =>
          bind (word_at text position) (fun '(word_start, word_end, word) =>
          if bool_decide (word = "") then Return []
          else
            let lsp_location :=
              SemanticAnalyzer.mkLocation (line position + 1)
                (character position + 1) in
            match SemanticAnalyzer.find_definition semantic_analyzer word
                    lsp_location with
            | None => Return []
            | Some definition =>
                let references :=
                  SemanticAnalyzer.find_all_references semantic_analyzer word
                    (SemanticAnalyzer.location definition) in
                Return
                  (map (fun reference =>
                          mkLocation uri
                            (word_range
                               (SemanticAnalyzer.ref_location reference) word))
                     references)
            end)
      end
  end.

Definition parse_error_diagnostic (error : Parser.ParseError) : Diagnostic :=
  let token := Parser.token error in
  mkDiagnostic
    (mkRange
       (mkPosition (Lexer.tline token - 1) (Lexer.tcolumn token - 1))
       (mkPosition (Lexer.tline token - 1)
          (Lexer.tcolumn token - 1
           + Z.of_nat (String.length (Lexer.value token)))))
    (Parser.message error) Error "aetherscript-parser".

Definition type_error_diagnostic (error : TypeChecker.TypeError)
  : Diagnostic :=
  mkDiagnostic
    (mkRange
       (mkPosition (TypeChecker.line error - 1) (TypeChecker.column error - 1))
       (mkPosition (TypeChecker.line error - 1) (TypeChecker.column error)))
    (TypeChecker.message error) Error "aetherscript-type-checker".

(** The diagnostic at the start of the document, for an error whose
    place cannot be read. *)
Definition fallback_diagnostic (error : string) : Diagnostic :=
  mkDiagnostic (mkRange (mkPosition 0 0) (mkPosition 0 1)) error Warning
    "aetherscript-semantic-analyzer".

(** What one iteration of the loop over the semantic errors appends:
    one diagnostic, or none when the text after the last [" at "] has
    no colon. *)
Definition semantic_error_diagnostics (error : string) : list Diagnostic :=
  let parts := PyStr.split " at " error in
  if bool_decide (2 <= length parts) then
    let location_parts := PyStr.split ":" (List.last parts "") in
    if bool_decide (2 <= length location_parts) then
      match PyStr.int (nth 0 location_parts "") with
      | None => [fallback_diagnostic error]
      | Some line =>
          match PyStr.int (nth 1 location_parts "") with
          | None => [fallback_diagnostic error]
          | Some column =>
              [mkDiagnostic
                 (mkRange (mkPosition (line - 1) (column - 1))
                    (mkPosition (line - 1) column))
                 (nth 0 parts "") Warning "aetherscript-semantic-analyzer"]
          end
      end
    else []
  else [fallback_diagnostic error].

(** How a notification ends: the analyzers are stored and the
    diagnostics published, or nothing is done, or an exception of the
    parser leaves the server as it was before the analysis.  (The
    constructors of the LSP types are taken to accept any [int]; the
    writes to the log are left out.) *)
Inductive Analyzed : Type :=
| Published (self : AetherScriptLanguageServer)
    (diagnostics : list Diagnostic)
| Idle (self : AetherScriptLanguageServer)
| Failed (e : Parser.Exception) (self : AetherScriptLanguageServer)
| NoReturn.

Definition _analyze_document (uri text : string)
    (self : AetherScriptLanguageServer) : Analyzed :=
  match Parser.parse_source text with
  | Parser.Returned ast parser =>
      let parse_errors := Parser.errors parser in
      let type_checker := TypeChecker.check ast TypeChecker.init in
      let type_errors := TypeChecker.errors type_checker in
      let semantic_analyzer :=
        SemanticAnalyzer.analyze ast SemanticAnalyzer.init in
      let semantic_errors := SemanticAnalyzer.errors semantic_analyzer in
      Published
        (mkServer (document_cache self)
           (<[uri := parser]> (parsers self))
           (<[uri := type_checker]> (type_checkers self))
           (<[uri := semantic_analyzer]> (semantic_analyzers self)))
        (map parse_error_diagnostic parse_errors
         ++ map type_error_diagnostic type_errors
         ++ concat (map semantic_error_diagnostics semantic_errors))
  | Parser.Raised e _ => Failed e self
  | Parser.OutOfFuel => NoReturn
  end.

(** [self.document_cache[uri] = text] *)
Definition cache (uri text : string) (self : AetherScriptLanguageServer)
  : AetherScriptLanguageServer :=
  mkServer (<[uri := text]> (document_cache self)) (parsers self)
    (type_checkers self) (semantic_analyzers self).

Definition on_did_open (uri text : string)
    (self : AetherScriptLanguageServer) : Analyzed :=
  _analyze_document uri text (cache uri text self).

(** [content_changes] holds the texts of the changes. *)
Definition on_did_change (uri : string) (content_changes : list string)
    (self : AetherScriptLanguageServer) : Analyzed :=
  match content_changes with
  | text :: _ => _analyze_document uri text (cache uri text self)
  | [] => Idle self
  end.

Definition on_did_save (uri : string) (self : AetherScriptLanguageServer)
  : Analyzed :=
  match document_cache self !! uri with
  | Some text => _analyze_document uri text self
  | None => Idle self
  end.

End Server.

(** ** Definitions used to state the properties *)

Definition var_x_source : string := "var x: Int = 42;".

(** The source text made of the one character U+00B2, SUPERSCRIPT TWO. *)
Definition superscript_two_source : string := String "178"%char "".

(** [function f() -> Int { }  f = 1;] *)
Definition assign_to_function : Ast.Program :=
  Ast.mkProgram
    [Ast.FunctionDeclaration (Ast.mkIdent "f" 1 10) [] "Int" [] 1 1;
     Ast.ExpressionStatement
       (Ast.AssignmentExpression (Ast.Identifier "f" 2 1)
          (Ast.IntegerLiteral 1 2 5) 2 1) 2 1].

(** What [find_all_references] is specified to keep. *)
Definition refers_to (n : string) (loc : SemanticAnalyzer.Location)
    (r : SemanticAnalyzer.Reference) : Prop :=
  SemanticAnalyzer.ref_name r = n
  /\ SemanticAnalyzer.location (SemanticAnalyzer.definition r) = loc.

#[global] Instance refers_to_dec n loc r : Decision (refers_to n loc r).
Proof. unfold refers_to. apply _. Defined.

(** [tc'] differs from [tc] by appended errors only. *)
Definition only_errors (tc tc' : TypeChecker.TypeChecker) : Prop :=
  TypeChecker.store tc' = TypeChecker.store tc
  /\ TypeChecker.symbol_table tc' = TypeChecker.symbol_table tc
  /\ TypeChecker.current_function tc' = TypeChecker.current_function tc
  /\ exists new, TypeChecker.errors tc' = TypeChecker.errors tc ++ new.

(** [x: Int] declared, then [x] declared again with neither annotation
    nor initializer. *)
Definition declared_x : Ast.VarDecl :=
  Ast.mkVarDecl (Ast.mkIdent "x" 1 5) (Some "Int") None 1 1.
Definition bare_x : Ast.VarDecl :=
  Ast.mkVarDecl (Ast.mkIdent "x" 2 5) None None 2 1.

(** [sa'] differs from [sa] by appended references and by appended
    errors, each for an identifier that does not resolve. *)
Definition only_references (sa sa' : SemanticAnalyzer.SemanticAnalyzer)
  : Prop :=
  SemanticAnalyzer.store sa' = SemanticAnalyzer.store sa
  /\ SemanticAnalyzer.symbol_table sa' = SemanticAnalyzer.symbol_table sa
  /\ SemanticAnalyzer.definitions sa' = SemanticAnalyzer.definitions sa
  /\ SemanticAnalyzer.current_function sa'
     = SemanticAnalyzer.current_function sa
  /\ (exists new,
        SemanticAnalyzer.references sa'
        = SemanticAnalyzer.references sa ++ new)
  /\ (exists new,
        SemanticAnalyzer.errors sa' = SemanticAnalyzer.errors sa ++ new
        /\ Forall
             (fun m => exists y l c,
                         SemanticAnalyzer.resolve sa y = None
                         /\ m = SemanticAnalyzer.undefined_identifier y l c)
             new).

(** The node [x] occurs in an expression: anywhere in it. *)
Inductive occurs_in (x : Ast.Expression) : Ast.Expression -> Prop :=
| occurs_here : occurs_in x x
| occurs_binary_left e1 op e2 l c :
    occurs_in x e1 -> occurs_in x (Ast.BinaryExpression e1 op e2 l c)
| occurs_binary_right e1 op e2 l c :
    occurs_in x e2 -> occurs_in x (Ast.BinaryExpression e1 op e2 l c)
| occurs_unary op e l c :
    occurs_in x e -> occurs_in x (Ast.UnaryExpression op e l c)
| occurs_callee callee args l c :
    occurs_in x callee -> occurs_in x (Ast.CallExpression callee args l c)
| occurs_argument callee args e l c :
    e ∈ args -> occurs_in x e ->
    occurs_in x (Ast.CallExpression callee args l c)
| occurs_target e1 e2 l c :
    occurs_in x e1 -> occurs_in x (Ast.AssignmentExpression e1 e2 l c)
| occurs_value e1 e2 l c :
    occurs_in x e2 -> occurs_in x (Ast.AssignmentExpression e1 e2 l c)
| occurs_element elements e l c :
    e ∈ elements -> occurs_in x e ->
    occurs_in x (Ast.ArrayLiteral elements l c)
| occurs_array e1 e2 l c :
    occurs_in x e1 -> occurs_in x (Ast.IndexExpression e1 e2 l c)
| occurs_index e1 e2 l c :
    occurs_in x e2 -> occurs_in x (Ast.IndexExpression e1 e2 l c).

(** The node [x] occurs in an expression where the type checker visits
    whatever the symbols are: as an operand of a binary, unary or index
    expression, as an element of an array literal, or as the callee of
    a call, at any depth.  (The arguments of a call are visited only
    when the callee is a function of that arity, and the two sides of
    an assignment only when the target is a defined name.) *)
Inductive checked_in (x : Ast.Expression) : Ast.Expression -> Prop :=
| checked_here : checked_in x x
| checked_binary_left e1 op e2 l c :
    checked_in x e1 -> checked_in x (Ast.BinaryExpression e1 op e2 l c)
| checked_binary_right e1 op e2 l c :
    checked_in x e2 -> checked_in x (Ast.BinaryExpression e1 op e2 l c)
| checked_unary op e l c :
    checked_in x e -> checked_in x (Ast.UnaryExpression op e l c)
| checked_callee callee args l c :
    checked_in x callee -> checked_in x (Ast.CallExpression callee args l c)
| checked_element elements e l c :
    e ∈ elements -> checked_in x e ->
    checked_in x (Ast.ArrayLiteral elements l c)
| checked_array e1 e2 l c :
    checked_in x e1 -> checked_in x (Ast.IndexExpression e1 e2 l c)
| checked_index e1 e2 l c :
    checked_in x e2 -> checked_in x (Ast.IndexExpression e1 e2 l c).

(** [{ var x; }  var x = x;] *)
Definition shadowed_self_reference : Ast.Program :=
  Ast.mkProgram
    [Ast.BlockStatement
       [Ast.VariableDeclaration
          (Ast.mkVarDecl (Ast.mkIdent "x" 1 7) None None 1 3)] 1 1;
     Ast.VariableDeclaration
       (Ast.mkVarDecl (Ast.mkIdent "x" 2 5) None
          (Some (Ast.Identifier "x" 2 9)) 2 1)].

(** [var x = print(x, x);] *)
Definition self_reference_in_arguments : Ast.VarDecl :=
  Ast.mkVarDecl (Ast.mkIdent "x" 1 5) None
    (Some (Ast.CallExpression (Ast.Identifier "print" 1 9)
             [Ast.Identifier "x" 1 15; Ast.Identifier "x" 1 18] 1 9)) 1 1.

(** [var x = x + 1;] *)
Definition self_reference : Ast.VarDecl :=
  Ast.mkVarDecl (Ast.mkIdent "x" 1 5) None
    (Some (Ast.BinaryExpression (Ast.Identifier "x" 1 9) "+"
             (Ast.IntegerLiteral 1 1 13) 1 11)) 1 1.

(** Every scope object of the store [h] is still at its address in
    [h'], with the parent and the name it had: new scopes are new
    objects, and an old one changes by the symbols defined in it. *)
Definition keeps_scopes (h h' : Symbols.Store) : Prop :=
  forall a t,
    h !! a = Some t ->
    exists t', h' !! a = Some t'
               /\ Symbols.parent t' = Symbols.parent t
               /\ Symbols.scope_name t' = Symbols.scope_name t.

(** [function f(a: Int) -> Int { { var a; } for (var i; ; ) return a; }] *)
Definition nested_scopes : Ast.Program :=
  Ast.mkProgram
    [Ast.FunctionDeclaration (Ast.mkIdent "f" 1 10)
       [Ast.mkParameter (Ast.mkIdent "a" 1 12) "Int"] "Int"
       [Ast.BlockStatement
          [Ast.VariableDeclaration
             (Ast.mkVarDecl (Ast.mkIdent "a" 1 32) None None 1 28)] 1 26;
        Ast.ForStatement
          (Some (Ast.ForDeclaration
                   (Ast.mkVarDecl (Ast.mkIdent "i" 1 48) None None 1 44)))
          None None
          (Ast.ReturnStatement (Some (Ast.Identifier "a" 1 63)) 1 56) 1 39]
       1 1].

(** The walk from [tc] to [tc'] ends in the scope it started in. *)
Definition tc_restores (tc tc' : TypeChecker.TypeChecker) : Prop :=
  TypeChecker.symbol_table tc' = TypeChecker.symbol_table tc
  /\ keeps_scopes (TypeChecker.store tc) (TypeChecker.store tc').

Definition sa_restores (sa sa' : SemanticAnalyzer.SemanticAnalyzer) : Prop :=
  SemanticAnalyzer.symbol_table sa' = SemanticAnalyzer.symbol_table sa
  /\ keeps_scopes (SemanticAnalyzer.store sa) (SemanticAnalyzer.store sa').

(** Line and column reached from [(line, column)] by reading [s]: a
    newline starts the next line at column 1, any other character
    moves one column on. *)
Fixpoint position_from (s : string) (line column : Z) : Z * Z :=
  match s with
  | EmptyString => (line, column)
  | String c s' =>
      if Ascii.eqb c Py.newline then position_from s' (line + 1) 1
      else position_from s' line (column + 1)
  end.

(** The line and column of the character that follows the prefix
    [pre] of a source text; lines and columns count from 1. *)
Definition position_of (pre : string) : Z * Z := position_from pre 1 1.

(** The lexer over [src] has consumed [pre] and has [rest] ahead. *)
Definition at_position (src pre rest : string) (lx : Lexer.Lexer) : Prop :=
  src = pre +:+ rest
  /\ Lexer.source lx = src
  /\ Lexer.position lx = String.length pre
  /\ (Lexer.line lx, Lexer.column lx) = position_of pre
  /\ Lexer.current_char lx = String.get 0 rest.

(** *** String literals *)

Definition is_quote (c : ascii) : Prop :=
  c = Py.double_quote \/ c = Py.single_quote.

(** The body of the [while] loop of [Lexer.string], for the opening
    quote [quote]. *)
Definition string_body (quote : option ascii) (s : Lexer.Lexer * string)
  : option (flow (Lexer.Lexer * string)) :=
  let '(lx, result) := s in
  match Lexer.current_char lx with
  | Some c =>
      if negb (bool_decide (Some c = quote))
      then
        if Ascii.eqb c Py.backslash
           && bool_decide (Lexer.peek lx <> None)
        then
          let lx1 := Lexer.advance lx in
          match Lexer.current_char lx1 with
          | Some e =>
              Some (Continue (Lexer.advance lx1,
                              result +:+ Py.char_str (Lexer.escape_map e)))
          | None => None
          end
        else Some (Continue (Lexer.advance lx, result +:+ Py.char_str c))
      else Some (Break (lx, result))
  | None => Some (Break (lx, result))
  end.

(** The text [body] of a literal that opens with the quote [q] reads
    as the value [v]: a backslash and the character after it read as
    one character, [n], [t] and [r] after the backslash as newline,
    tab and carriage return and any other character as itself; every
    other character but the quote reads as itself.  [closed] tells
    whether the closing quote follows the body or the source ends
    after it; a backslash that is the last character of the source
    reads as itself. *)
Inductive reads_as (q : ascii) : bool -> string -> string -> Prop :=
| reads_nil closed : reads_as q closed "" ""
| reads_plain closed c body v :
    c <> q -> c <> Py.backslash -> reads_as q closed body v ->
    reads_as q closed (String c body) (String c v)
| reads_escape closed e body v :
    reads_as q closed body v ->
    reads_as q closed (String Py.backslash (String e body))
      (String (Lexer.escape_map e) v)
| reads_last_backslash :
    reads_as q false (String Py.backslash "") (String Py.backslash "").

(** The text that is written for the value [v] between quotes [q]:
    a backslash before each backslash and each quote. *)
Fixpoint escape (q : ascii) (v : string) : string :=
  match v with
  | "" => ""
  | String c v' =>
      if Ascii.eqb c Py.backslash || Ascii.eqb c q
      then String Py.backslash (String c (escape q v'))
      else String c (escape q v')
  end.

(** What follows the body of a literal: the closing quote and the rest
    of the source, or nothing when the source ends. *)
Definition literal_tail (q : ascii) (closed : bool) (rest : string) : string :=
  if closed then String q rest else "".

(** What a token says of the source it was read from: [text] is the
    part of [src] it was read from, which starts at the token's line
    and column.  The value is that text, except that a float read from
    text ending in a dot has a zero appended, and that a token read by
    [Lexer.string] carries the decoded content: its text is the
    opening quote, a body and the closing quote, for a STRING, or the
    opening quote and a body that runs to the end of the source, for
    an ERROR, and its value is what the body reads as.  Every STRING
    token is of this last kind. *)
Definition token_in_source (src : string) (t : Lexer.Token) : Prop :=
  exists pre text post,
    src = pre +:+ text +:+ post
    /\ text <> ""
    /\ (Lexer.tline t, Lexer.tcolumn t) = position_of pre
    /\ ((Lexer.type t <> Lexer.STRING /\ Lexer.value t = text)
        \/ (Lexer.type t = Lexer.FLOAT
            /\ (exists digits, text = digits +:+ ".")
            /\ Lexer.value t = text +:+ "0")
        \/ (exists q closed body,
              is_quote q
              /\ text = String q (body +:+ literal_tail q closed "")
              /\ reads_as q closed body (Lexer.value t)
              /\ Lexer.type t
                 = (if closed then Lexer.STRING else Lexer.ERROR)
              /\ (closed = false -> post = ""))).


(** No branch of [tokenize] but the last is taken for the character
    [c] followed by [next]. *)
Definition no_token_rule (c : ascii) (next : option ascii) : Prop :=
  Py.isspace c = false
  /\ Py.isalpha c = false
  /\ Py.isdigit c = false
  /\ (c ∉ [Py.double_quote; Py.single_quote])
  /\ (c ∉ String.list_ascii_of_string "_+-*/%=!<>(){}[],.;:")
  /\ ((c = "&"%char) -> next <> Some "&"%char)
  /\ ((c = "|"%char) -> next <> Some "|"%char).

(** From [pre], with [rest] ahead, the lexer has gone on over [text]
    and has [rest'] ahead. *)
Definition reached (src pre rest text rest' : string) (lx : Lexer.Lexer)
  : Prop :=
  rest = text +:+ rest' /\ at_position src (pre +:+ text) rest' lx.

(** The characters the lexer has not consumed. *)
Definition remaining (lx : Lexer.Lexer) : nat :=
  String.length (Lexer.source lx) - Lexer.position lx.

(** A token of the result other than the last: it is not EOF and it
    was read from the source at its position. *)
Definition token_ok (src : string) (t : Lexer.Token) : Prop :=
  Lexer.type t <> Lexer.EOF /\ token_in_source src t.

(** The states in which the loop of [tokenize] stands at the head of
    an iteration, for the source [src]: the first one, and each one
    that an iteration leads to. *)
Inductive loop_state (src : string)
  : Lexer.Lexer -> list Lexer.Token -> Prop :=
| loop_start : loop_state src (Lexer.init src) []
| loop_next lx tokens lx' tokens' :
    loop_state src lx tokens ->
    Lexer.tokenize_body (lx, tokens) = Some (Continue (lx', tokens')) ->
    loop_state src lx' tokens'.

(** [a@] *)
Definition stray_character_source : string := "a@".

(** An iteration of the loop of [tokenize] that goes on from [pre]:
    it consumes some text and appends tokens that are [token_ok]. *)
Definition step_ok (src pre rest : string)
    (r : option (flow (Lexer.Lexer * list Lexer.Token))) : Prop :=
  exists text rest' lx' tokens',
    r = Some (Continue (lx', tokens'))
    /\ reached src pre rest text rest' lx'
    /\ text <> ""
    /\ Forall (token_ok src) tokens'.


(** The parent of a scope object is at a lower address: scopes are
    made by [create_child_scope] of a scope that exists. *)
Definition ordered (h : Symbols.Store) : Prop :=
  forall a t p, h !! a = Some t -> Symbols.parent t = Some p -> p < a.

(** The tokens of a parser end with the one EOF token, and the parser
    has not gone past it. *)
Definition parser_ok (p : Parser.Parser) : Prop :=
  exists body eof,
    Parser.tokens p = body ++ [eof]
    /\ Lexer.type eof = Lexer.EOF
    /\ Forall (fun t => Lexer.type t <> Lexer.EOF) body
    /\ Parser.current p <= length body.

(** The tokens not consumed, the EOF token included. *)
Definition tokens_left (p : Parser.Parser) : nat :=
  length (Parser.tokens p) - Parser.current p.

(** A call from [p] ends by returning or by raising something other
    than [IndexError], in a state over the same tokens that has not
    moved back. *)
Definition ends_from {A} (p : Parser.Parser) (o : Parser.Outcome A) : Prop :=
  match o with
  | Parser.Returned _ p' =>
      parser_ok p' /\ Parser.tokens p' = Parser.tokens p
      /\ Parser.current p <= Parser.current p'
  | Parser.Raised e p' =>
      e <> Parser.IndexError
      /\ parser_ok p' /\ Parser.tokens p' = Parser.tokens p
      /\ Parser.current p <= Parser.current p'
  | Parser.OutOfFuel => False
  end.

(** The state in which a call ends. *)
Definition end_state {A} (p : Parser.Parser) (o : Parser.Outcome A)
  : Parser.Parser :=
  match o with
  | Parser.Returned _ p' | Parser.Raised _ p' => p'
  | Parser.OutOfFuel => p
  end.

(** Where [synchronize] stops. *)
Definition synchronized (p : Parser.Parser) : Prop :=
  (exists t, Parser.tokens p !! Parser.current p = Some t
             /\ Lexer.type t = Lexer.EOF)
  \/ (exists t, Parser.index (Parser.tokens p)
                  (Z.of_nat (Parser.current p) - 1) = Some t
                /\ Lexer.type t = Lexer.SEMICOLON)
  \/ (exists t, Parser.tokens p !! Parser.current p = Some t
                /\ Lexer.type t
                   ∈ [Lexer.FUNCTION; Lexer.SPELL; Lexer.IF; Lexer.WHILE;
                      Lexer.FOR; Lexer.RETURN]).

(** A call returns, or raises the [ValueError] of a literal. *)
Definition returns_or_ValueError {A} (o : Parser.Outcome A) : Prop :=
  match o with
  | Parser.Returned _ _ => True
  | Parser.Raised e _ => e = Parser.ValueError
  | Parser.OutOfFuel => False
  end.

(** The store is ordered and the current scope is one of its objects. *)
Definition sound_scopes (h : Symbols.Store) (current : nat) : Prop :=
  ordered h /\ current < length h.

(** From [tc] to [tc'] the scope objects are kept, and sound scopes
    stay sound. *)
Definition tc_step (tc tc' : TypeChecker.TypeChecker) : Prop :=
  keeps_scopes (TypeChecker.store tc) (TypeChecker.store tc')
  /\ (sound_scopes (TypeChecker.store tc) (TypeChecker.symbol_table tc) ->
      sound_scopes (TypeChecker.store tc') (TypeChecker.symbol_table tc')).

Definition sa_step (sa sa' : SemanticAnalyzer.SemanticAnalyzer) : Prop :=
  keeps_scopes (SemanticAnalyzer.store sa) (SemanticAnalyzer.store sa')
  /\ (sound_scopes (SemanticAnalyzer.store sa)
        (SemanticAnalyzer.symbol_table sa) ->
      sound_scopes (SemanticAnalyzer.store sa')
        (SemanticAnalyzer.symbol_table sa')).

(** *** Tokens *)


(** The characters of a word: [c.isalnum() or c == '_']. *)
Definition is_word_char (c : ascii) : bool := Py.isalnum c || Ascii.eqb c "_".

Fixpoint all_chars (p : ascii -> bool) (s : string) : bool :=
  match s with
  | EmptyString => true
  | String c s' => p c && all_chars p s'
  end.

(** The text [tokenize] gives the token of an operator or of a
    punctuation mark. *)
Definition punctuation (ty : Lexer.TokenType) : option string :=
  match ty with
  | Lexer.PLUS => Some "+" | Lexer.MINUS => Some "-"
  | Lexer.MULTIPLY => Some "*" | Lexer.DIVIDE => Some "/"
  | Lexer.MODULO => Some "%" | Lexer.ASSIGN => Some "="
  | Lexer.EQUALS => Some "==" | Lexer.NOT_EQUALS => Some "!="
  | Lexer.LESS_THAN => Some "<" | Lexer.GREATER_THAN => Some ">"
  | Lexer.LESS_EQUAL => Some "<=" | Lexer.GREATER_EQUAL => Some ">="
  | Lexer.AND => Some "&&" | Lexer.OR => Some "||" | Lexer.NOT => Some "!"
  | Lexer.LPAREN => Some "(" | Lexer.RPAREN => Some ")"
  | Lexer.LBRACE => Some "{" | Lexer.RBRACE => Some "}"
  | Lexer.LBRACKET => Some "[" | Lexer.RBRACKET => Some "]"
  | Lexer.COMMA => Some "," | Lexer.DOT => Some "."
  | Lexer.SEMICOLON => Some ";" | Lexer.COLON => Some ":"
  | _ => None
  end.

(** What the type of a token other than EOF says of its value. *)
Definition token_shape (t : Lexer.Token) : Prop :=
  match Lexer.type t with
  | Lexer.EOF => False
  | Lexer.ERROR | Lexer.STRING => True
  | Lexer.IDENTIFIER =>
      Lexer.value t <> "" /\ all_chars is_word_char (Lexer.value t) = true
      /\ Lexer.keywords !! Lexer.value t = None
  | Lexer.INTEGER =>
      Lexer.value t <> "" /\ all_chars Py.isdigit (Lexer.value t) = true
  | Lexer.FLOAT =>
      exists whole frac,
        Lexer.value t = whole +:+ "." +:+ frac
        /\ whole <> "" /\ frac <> ""
        /\ all_chars Py.isdigit whole = true
        /\ all_chars Py.isdigit frac = true
  | ty =>
      match punctuation ty with
      | Some text => Lexer.value t = text
      | None => Lexer.keywords !! Lexer.value t = Some ty
      end
  end.

(** The token [t] was read from the characters of [src] at the offsets
    from [start] up to [stop]. *)
Definition lexeme_at (src : string) (t : Lexer.Token) (start stop : nat)
  : Prop :=
  exists pre text post,
    src = pre +:+ text +:+ post
    /\ String.length pre = start
    /\ start + String.length text = stop
    /\ text <> ""
    /\ (Lexer.tline t, Lexer.tcolumn t) = position_of pre
    /\ (Lexer.value t = text
        \/ (Lexer.type t = Lexer.FLOAT
            /\ (exists digits, text = digits +:+ ".")
            /\ Lexer.value t = text +:+ "0")
        \/ ((Lexer.type t = Lexer.STRING \/ Lexer.type t = Lexer.ERROR)
            /\ exists q body, is_quote q /\ text = String q body)).

(** The spans follow each other from [from] up to [upto]: none is
    empty and none starts before the one before it stops. *)
Fixpoint spans_ordered (from : nat) (spans : list (nat * nat)) (upto : nat)
  : Prop :=
  match spans with
  | [] => from <= upto
  | (start, stop) :: spans' =>
      from <= start /\ start < stop /\ spans_ordered stop spans' upto
  end.

(** An iteration of the loop of [tokenize] from [pre]: it consumes
    some text, and appends nothing or one token read from that text. *)
Definition step_at (src pre rest : string) (tokens : list Lexer.Token)
    (r : option (flow (Lexer.Lexer * list Lexer.Token))) : Prop :=
  exists text rest' lx',
    reached src pre rest text rest' lx'
    /\ text <> ""
    /\ (r = Some (Continue (lx', tokens))
        \/ exists t,
             r = Some (Continue (lx', tokens ++ [t]))
             /\ lexeme_at src t (String.length pre)
                  (String.length pre + String.length text)
             /\ token_shape t).

Fixpoint count_newlines (s : string) : Z :=
  match s with
  | EmptyString => 0
  | String c s' =>
      (if Ascii.eqb c Py.newline then 1 else 0) + count_newlines s'
  end%Z.

(** What the loop of [number] has read: digits, or digits around one
    dot. *)
Definition number_text (result : string) (is_float : bool) : Prop :=
  if is_float
  then exists whole frac : string,
         result = whole +:+ "." +:+ frac /\ whole <> ""
         /\ all_chars Py.isdigit whole = true
         /\ all_chars Py.isdigit frac = true
  else all_chars Py.isdigit result = true.

(** *** The records of the semantic analyzer *)

(** An error message that ends with the place it is about, as the
    analyzer writes it: [<text> at <line>:<column>], where the text
    ends with a quote or with [defined], not with a [t]. *)
Definition located (msg : string) : Prop :=
  exists head last l c,
    msg = head +:+ String last (" at " +:+ Py.str l +:+ ":" +:+ Py.str c)
    /\ last <> "t"%char.

(** Every reference is bound to the Definition that [find_definition]
    returns for its name. *)
Definition references_bound (sa : SemanticAnalyzer.SemanticAnalyzer) : Prop :=
  Forall
    (fun r =>
       SemanticAnalyzer.find_definition sa (SemanticAnalyzer.ref_name r)
         (SemanticAnalyzer.ref_location r)
       = Some (SemanticAnalyzer.definition r))
    (SemanticAnalyzer.references sa).


(** From [sa] to [sa'] the Definitions recorded under each name are
    kept, in their order, before the new ones. *)
Definition definitions_kept (sa sa' : SemanticAnalyzer.SemanticAnalyzer)
  : Prop :=
  forall n,
    default [] (SemanticAnalyzer.definitions sa !! n)
    `prefix_of` default [] (SemanticAnalyzer.definitions sa' !! n).

(** [function print(x: Int) -> Int { }  print;] *)
Definition redefines_print : Ast.Program :=
  Ast.mkProgram
    [Ast.FunctionDeclaration (Ast.mkIdent "print" 1 10)
       [Ast.mkParameter (Ast.mkIdent "x" 1 16) "Int"] "Int" [] 1 1;
     Ast.ExpressionStatement (Ast.Identifier "print" 2 1) 2 1].

(** *** Numbers and messages as text *)

(** The number that a run of decimal digits writes, after the digits
    read so far. *)
Fixpoint decimal_value (s : string) (acc : Z) : Z :=
  match s with
  | EmptyString => acc
  | String c s' => decimal_value s' (10 * acc + Py.digit_value c)%Z
  end.

(** The character [c] is not [a]. *)
Definition differs_from (a c : ascii) : bool := negb (Ascii.eqb c a).

(** *** What the parser builds *)

(** The expression that [primary] builds from a token, if it builds
    one. *)
Definition expression_of_token (t : Lexer.Token) : option Ast.Expression :=
  match Lexer.type t with
  | Lexer.INTEGER =>
      match Py.int (Lexer.value t) with
      | Some n => Some (Ast.IntegerLiteral n (Lexer.tline t) (Lexer.tcolumn t))
      | None => None
      end
  | Lexer.FLOAT =>
      match Py.float (Lexer.value t) with
      | Some x => Some (Ast.FloatLiteral x (Lexer.tline t) (Lexer.tcolumn t))
      | None => None
      end
  | Lexer.STRING =>
      Some (Ast.StringLiteral (Lexer.value t) (Lexer.tline t)
              (Lexer.tcolumn t))
  | Lexer.IDENTIFIER =>
      Some (Ast.Identifier (Lexer.value t) (Lexer.tline t) (Lexer.tcolumn t))
  | _ => None
  end.

(** An expression built from one of the tokens. *)
Definition built_from (tokens : list Lexer.Token) (e : Ast.Expression)
  : Prop :=
  exists t, t ∈ tokens /\ expression_of_token t = Some e.

(** An expression statement over one of the tokens, at the place of
    the token. *)
Definition statement_of_token (tokens : list Lexer.Token) (s : Ast.Statement)
  : Prop :=
  exists t e,
    t ∈ tokens /\ expression_of_token t = Some e
    /\ s = Ast.ExpressionStatement e (Lexer.tline t) (Lexer.tcolumn t).

(** What [parse] has built when it is at [p], over the tokens it
    started with: statements of single tokens and errors at tokens,
    no more of them than tokens consumed. *)
Definition parsed (tokens : list Lexer.Token) (stmts : list Ast.Statement)
    (p : Parser.Parser) : Prop :=
  Parser.tokens p = tokens
  /\ Forall (statement_of_token tokens) stmts
  /\ Forall (fun error => Parser.token error ∈ tokens) (Parser.errors p)
  /\ length stmts + length (Parser.errors p) <= Parser.current p.

(** The outcome of a call builds [Q], or fails at a token, and leaves
    the errors as they were. *)
Definition builds {A} (Q : A -> Prop) (p : Parser.Parser)
    (o : Parser.Outcome A) : Prop :=
  match o with
  | Parser.Returned a p' => Q a /\ Parser.errors p' = Parser.errors p
  | Parser.Raised (Parser.RaiseParseError error) p' =>
      Parser.token error ∈ Parser.tokens p
      /\ Parser.errors p' = Parser.errors p
  | _ => True
  end.

(** *** What the server reports for a document *)

(** The identifiers other than [print] that are statements of their
    own, with their lines and columns, in the order of the program. *)
Definition undefined_names (stmts : list Ast.Statement)
  : list (string * Z * Z) :=
  omap (fun s =>
          match s with
          | Ast.ExpressionStatement (Ast.Identifier w l c) _ _ =>
              if bool_decide (w = "print") then None else Some (w, l, c)
          | _ => None
          end) stmts.

(** The places where [print] is a statement of its own. *)
Definition print_places (stmts : list Ast.Statement) : list (Z * Z) :=
  omap (fun s =>
          match s with
          | Ast.ExpressionStatement (Ast.Identifier w l c) _ _ =>
              if bool_decide (w = "print") then Some (l, c) else None
          | _ => None
          end) stmts.

(** The Definition of the built-in [print]. *)
Definition builtin_print_definition : SemanticAnalyzer.Definition_ :=
  SemanticAnalyzer.mkDefinition "print" "function"
    (SemanticAnalyzer.mkLocation 0 0) "Void"
    "Built-in function: print(value: Any) -> Void".

(** The two diagnostics of an identifier that is not defined: the
    error of the type checker and the warning of the analyzer. *)
Definition undefined_error (name : string * Z * Z) : Server.Diagnostic :=
  let '(w, l, c) := name in
  Server.mkDiagnostic
    (Server.mkRange (Server.mkPosition (l - 1) (c - 1))
       (Server.mkPosition (l - 1) c))
    ("Undefined identifier '" +:+ w +:+ "'") Server.Error
    "aetherscript-type-checker".

Definition undefined_warning (name : string * Z * Z) : Server.Diagnostic :=
  let '(w, l, c) := name in
  Server.mkDiagnostic
    (Server.mkRange (Server.mkPosition (l - 1) (c - 1))
       (Server.mkPosition (l - 1) c))
    ("Undefined identifier '" +:+ w +:+ "'") Server.Warning
    "aetherscript-semantic-analyzer".

(** *** Scopes during a walk *)

(** Among the scope objects of [h], only the one at [current] may
    differ in [h']. *)
Definition only_scope (current : nat) (h h' : Symbols.Store) : Prop :=
  length h <= length h'
  /\ forall a, a < length h -> a <> current -> h' !! a = h !! a.

(** A walk of the type checker from [tc] to [tc'] ends in the scope
    it started in and has changed, among the scopes that existed,
    only that one. *)
Definition tc_local (tc tc' : TypeChecker.TypeChecker) : Prop :=
  TypeChecker.symbol_table tc' = TypeChecker.symbol_table tc
  /\ only_scope (TypeChecker.symbol_table tc) (TypeChecker.store tc)
       (TypeChecker.store tc').

Definition sa_local (sa sa' : SemanticAnalyzer.SemanticAnalyzer) : Prop :=
  SemanticAnalyzer.symbol_table sa' = SemanticAnalyzer.symbol_table sa
  /\ only_scope (SemanticAnalyzer.symbol_table sa) (SemanticAnalyzer.store sa)
       (SemanticAnalyzer.store sa').

(** The statements that run in a scope of their own. *)
Definition opens_scope (s : Ast.Statement) : bool :=
  match s with
  | Ast.BlockStatement _ _ _ | Ast.ForStatement _ _ _ _ _ _ => true
  | _ => false
  end.

(** [{ var x: Int = 1; }] *)
Definition block_declares_x : Ast.Statement :=
  Ast.BlockStatement
    [Ast.VariableDeclaration
       (Ast.mkVarDecl (Ast.mkIdent "x" 1 7) (Some "Int")
          (Some (Ast.IntegerLiteral 1 1 16)) 1 3)] 1 1.

(** [function f(a: Int) -> Int { var b: Int = a; return b; }] *)
Definition function_f : Ast.Statement :=
  Ast.FunctionDeclaration (Ast.mkIdent "f" 1 10)
    [Ast.mkParameter (Ast.mkIdent "a" 1 12) "Int"] "Int"
    [Ast.VariableDeclaration
       (Ast.mkVarDecl (Ast.mkIdent "b" 1 32) (Some "Int")
          (Some (Ast.Identifier "a" 1 41)) 1 28);
     Ast.ReturnStatement (Some (Ast.Identifier "b" 1 51)) 1 44] 1 1.

(** [[1, 2][0]] *)
Definition first_of_literal : Ast.Expression :=
  Ast.IndexExpression
    (Ast.ArrayLiteral [Ast.IntegerLiteral 1 1 2; Ast.IntegerLiteral 2 1 5] 1 1)
    (Ast.IntegerLiteral 0 1 8) 1 1.

(** [var a: Array = [1];] *)
Definition declared_array : Ast.VarDecl :=
  Ast.mkVarDecl (Ast.mkIdent "a" 1 5) (Some "Array")
    (Some (Ast.ArrayLiteral [Ast.IntegerLiteral 1 1 17] 1 16)) 1 1.

(** ['a\nb\], a literal that is not closed and ends in a backslash. *)
Definition unterminated_literal : string := "'a\nb\".

(** The value [say "hi" \], with two quotes and a backslash. *)
Definition quoted_value : string :=
  "say " +:+ String Py.double_quote ("hi" +:+ String Py.double_quote
    (" " +:+ String Py.backslash "")).

(** [sep in s]: the text [s] holds the text [sep]. *)
Definition has_substring (sep s : string) : Prop :=
  exists pre post, s = pre +:+ sep +:+ post.

(** The same as a test. *)
Fixpoint find_substring (sep s : string) : bool :=
  String.prefix sep s
  || match s with
     | EmptyString => false
     | String _ s' => find_substring sep s'
     end.

(** [x;] *)
Definition undefined_x_source : string := "x;".

(** [((x)); 1; @] *)
Definition parenthesised_source : string := "((x)); 1; @".

(** * Properties *)

(** ** The pipeline on [var x: Int = 42;] *)

(** C1, as stated, fails: no run of the pipeline on [var x: Int = 42;]
    ends without parse errors and with a Definition recorded for [x]. *)
Lemma pipeline_var_x_claim_fails :
  ~ exists a,
      Pipeline.analyze_document var_x_source = Some a
      /\ Pipeline.parse_errors a = []
      /\ Pipeline.type_errors a = []
      /\ SemanticAnalyzer.info_errors (Pipeline.semantic_info a) = []
      /\ SemanticAnalyzer.info_definitions (Pipeline.semantic_info a) !! "x"
         = Some [SemanticAnalyzer.mkDefinition "x" "variable"
                   (SemanticAnalyzer.mkLocation 1 1) "Int" ""].
Proof.
  intros (a & Ha & Hp & _).
  vm_compute in Ha. injection Ha as <-. discriminate Hp.
Qed.

(** C1, amended: the parser has no production for declarations, so the
    pipeline on [var x: Int = 42;] returns an empty Program with one
    parse error, "Expected ';' after expression." at the token [x] at
    (1,5); there are no type errors and no semantic errors, no
    Definition is recorded for [x], and the only Definition recorded is
    the built-in [print] at (0,0). *)
Theorem pipeline_var_x :
  exists a,
    Pipeline.analyze_document var_x_source = Some a
    /\ Pipeline.ast a = Ast.mkProgram []
    /\ Pipeline.parse_errors a
       = [Parser.mkParseError (Lexer.mkToken Lexer.IDENTIFIER "x" 1 5)
            "Expected ';' after expression."]
    /\ Pipeline.type_errors a = []
    /\ SemanticAnalyzer.info_errors (Pipeline.semantic_info a) = []
    /\ SemanticAnalyzer.info_definitions (Pipeline.semantic_info a) !! "x"
       = None
    /\ SemanticAnalyzer.info_definitions (Pipeline.semantic_info a)
       = {[ "print" :=
              [SemanticAnalyzer.mkDefinition "print" "function"
                 (SemanticAnalyzer.mkLocation 0 0) "Void"
                 "Built-in function: print(value: Any) -> Void"] ]}.
Proof.
  eexists. split; [vm_compute; reflexivity|].
  repeat split; vm_compute; reflexivity.
Qed.

(** ** Assignment to a name that is not a variable *)

(** C3 at a failing input: the target [f] resolves to a function
    symbol, the mutability test is skipped for it, the value has the
    function's return type, and [check] reports no error at all. *)
Theorem assignment_to_function_unreported :
  TypeChecker.resolve
    (TypeChecker.check assign_to_function TypeChecker.init) "f"
  = Some (Symbols.FunctionSymbol "f" "Int" [] false)
  /\ TypeChecker.errors
       (TypeChecker.check assign_to_function TypeChecker.init) = [].
Proof. split; vm_compute; reflexivity. Qed.

(** What [visit_assignment_expression] does check: a target that is
    not an Identifier, or that does not resolve, is reported; for a
    target that resolves to a mutable variable the value is visited
    and one error is appended exactly when its type is not the
    variable's. *)
Lemma assignment_checks (target value : Ast.Expression) (l c : Z)
    (tc : TypeChecker.TypeChecker) :
  let result :=
    TypeChecker.visit_expression (Ast.AssignmentExpression target value l c)
      tc in
  ((forall n l' c', target <> Ast.Identifier n l' c') ->
   result = ("Unknown", TypeChecker.error "Invalid assignment target" l c tc))
  /\ (forall n l' c',
        target = Ast.Identifier n l' c' ->
        TypeChecker.resolve tc n = None ->
        result
        = ("Unknown",
           TypeChecker.error ("Undefined variable '" +:+ n +:+ "'") l c tc))
  /\ (forall n l' c' ty value_type tc',
        target = Ast.Identifier n l' c' ->
        TypeChecker.resolve tc n = Some (Symbols.VariableSymbol n ty true) ->
        TypeChecker.visit_expression value tc = (value_type, tc') ->
        (value_type = ty -> result = (ty, tc'))
        /\ (value_type <> ty ->
            result
            = (ty,
               TypeChecker.error
                 ("Cannot assign a value of type '" +:+ value_type
                  +:+ "' to a variable of type '" +:+ ty +:+ "'") l c tc'))).
Proof.
  cbv zeta. split; [|split].
  - intros Hnot. destruct target; try reflexivity.
    exfalso. eapply Hnot. reflexivity.
  - intros n l' c' -> Hres. cbn [TypeChecker.visit_expression].
    rewrite Hres. reflexivity.
  - intros n l' c' ty value_type tc' -> Hres Hval.
    cbn [TypeChecker.visit_expression]. rewrite Hres, Hval.
    cbn [Symbols.type_name].
    split; intros H; [rewrite bool_decide_false by tauto
                     | rewrite bool_decide_true by exact H]; reflexivity.
Qed.

(** ** Navigation queries *)

Section Navigation.
Import SemanticAnalyzer.

Lemma find_all_references_filter (sa : SemanticAnalyzer) (n : string)
    (loc : Location) :
  find_all_references sa n loc = filter (refers_to n loc) (references sa).
Proof.
  unfold find_all_references.
  induction (references sa) as [|r rs IH]; [reflexivity|].
  cbn [List.filter]. rewrite IH, filter_cons. clear IH.
  destruct loc as [l c], r as [rn rl [dn dk [dl dc] dt dd]].
  unfold refers_to. cbn.
  repeat case_bool_decide; cbn; repeat case_decide; try reflexivity;
    exfalso; intuition congruence.
Qed.

(** C8: when [find_definition] returns [d], the list that
    [find_all_references] returns for [d]'s location is the recorded
    references, in recorded order, whose name is the queried name and
    whose definition is located where [d] is; so each of its elements
    has that name and that definition location. *)
Theorem find_all_references_of_definition (sa : SemanticAnalyzer)
    (n : string) (loc : Location) (d : Definition_) :
  find_definition sa n loc = Some d ->
  find_all_references sa n (location d)
  = filter (refers_to n (location d)) (references sa)
  /\ Forall (fun r => ref_name r = n
                      /\ location (definition r) = location d)
       (find_all_references sa n (location d)).
Proof.
  intros _. rewrite find_all_references_filter. split; [reflexivity|].
  apply List.Forall_forall. intros r Hr.
  apply list_elem_of_In in Hr. apply list_elem_of_filter in Hr.
  exact (proj1 Hr).
Qed.

(** The analyzer after [print;]: the definition found for [print] is
    the built-in one, and its references are the one use. *)
Lemma find_all_references_of_definition_witness :
  let sa :=
    analyze
      (Ast.mkProgram [Ast.ExpressionStatement (Ast.Identifier "print" 1 1) 1 1])
      init in
  let d :=
    mkDefinition "print" "function" (mkLocation 0 0) "Void"
      "Built-in function: print(value: Any) -> Void" in
  find_definition sa "print" (mkLocation 1 1) = Some d
  /\ find_all_references sa "print" (mkLocation 0 0)
     = [mkReference "print" (mkLocation 1 1) d].
Proof.
  cbv zeta. split; [vm_compute; reflexivity|].
  etransitivity.
  - apply (find_all_references_of_definition _ "print" (mkLocation 1 1)
             (mkDefinition "print" "function" (mkLocation 0 0) "Void"
                "Built-in function: print(value: Any) -> Void")).
    vm_compute. reflexivity.
  - vm_compute. reflexivity.
Defined.

End Navigation.

(** ** Types of binary expressions *)

Section BinaryExpressions.
Import Ast TypeChecker.



End BinaryExpressions.

(** ** Expressions leave the scopes of the type checker alone *)

Section TypeCheckerExpressions.
Import Ast TypeChecker.

Lemma only_errors_refl tc : only_errors tc tc.
Proof. repeat split. exists []. symmetry. apply app_nil_r. Qed.

Lemma only_errors_trans tc1 tc2 tc3 :
  only_errors tc1 tc2 -> only_errors tc2 tc3 -> only_errors tc1 tc3.
Proof.
  intros (Hs & Ht & Hf & n1 & He) (Hs' & Ht' & Hf' & n2 & He').
  repeat split; try congruence.
  exists (n1 ++ n2). rewrite He', He, app_assoc. reflexivity.
Qed.

Lemma only_errors_error msg l c tc : only_errors tc (error msg l c tc).
Proof. repeat split. eexists. reflexivity. Qed.

Create HintDb tc_frame.
#[local] Hint Resolve only_errors_refl only_errors_error : tc_frame.

Lemma only_errors_resolve tc tc' n :
  only_errors tc tc' -> resolve tc' n = resolve tc n.
Proof. intros (Hs & Ht & _). unfold resolve. rewrite Hs, Ht. reflexivity. Qed.

Lemma binary_result_only_errors op lt rt l c tc :
  only_errors tc (snd (binary_result op lt rt l c tc)).
Proof.
  unfold binary_result. repeat case_match; cbn; auto with tc_frame.
Qed.

Lemma unary_result_only_errors op rt l c tc :
  only_errors tc (snd (unary_result op rt l c tc)).
Proof.
  unfold unary_result. repeat case_match; cbn; auto with tc_frame.
Qed.

Lemma argument_error_only_errors i f p t a tc :
  only_errors tc (argument_error i f p t a tc).
Proof. unfold argument_error. case_match; auto with tc_frame. Qed.

Lemma element_error_only_errors t1 t2 e tc :
  only_errors tc (element_error t1 t2 e tc).
Proof. unfold element_error. case_match; auto with tc_frame. Qed.

Lemma condition_error_only_errors k t e tc :
  only_errors tc (condition_error k t e tc).
Proof. unfold condition_error. case_match; auto with tc_frame. Qed.

Lemma visit_expression_only_errors (e : Expression) :
  forall tc, only_errors tc (snd (visit_expression e tc)).
Proof.
  induction e as
    [n l c | v l c | v l c | v l c | v l c
    | e1 op e2 l c IH1 IH2 | op e l c IH
    | callee args l c IHc IHargs | e1 e2 l c IH1 IH2
    | elements l c IHel | e1 e2 l c IH1 IH2] using Expression_nested_ind;
    intros tc; cbn [visit_expression]; auto with tc_frame.
  - unfold visit_identifier. case_match; cbn; auto with tc_frame.
  - specialize (IH1 tc). destruct (visit_expression e1 tc) as [lt tc1].
    specialize (IH2 tc1). destruct (visit_expression e2 tc1) as [rt tc2].
    cbn in *. eapply only_errors_trans; [exact IH1|].
    eapply only_errors_trans; [exact IH2|]. apply binary_result_only_errors.
  - specialize (IH tc). destruct (visit_expression e tc) as [rt tc1].
    cbn in *. eapply only_errors_trans; [exact IH|].
    apply unary_result_only_errors.
  - specialize (IHc tc). destruct (visit_expression callee tc) as [ct tc1].
    cbn in IHc. eapply only_errors_trans; [exact IHc|]. clear IHc tc.
    destruct callee; cbn; auto with tc_frame.
    match goal with
    | |- context [resolve tc1 ?n] =>
        destruct (resolve tc1 n) as [[? ? ?|fn fty params b]|]
    end; cbn; auto with tc_frame.
    case_bool_decide; cbn; auto with tc_frame.
    match goal with H : context [length params] |- _ => clear H end.
    generalize 0%nat. revert params tc1.
    induction IHargs as [|a args Ha _ IH]; intros params tc1 i;
      [apply only_errors_refl|].
    destruct params as [|p params]; [apply only_errors_refl|].
    specialize (Ha tc1). destruct (visit_expression a tc1) as [t tc2].
    cbn in Ha. eapply only_errors_trans; [exact Ha|].
    eapply only_errors_trans; [apply argument_error_only_errors|]. apply IH.
  - destruct e1; cbn; auto with tc_frame.
    match goal with
    | |- context [resolve tc ?n] => destruct (resolve tc n) as [sym|] eqn:Hres
    end; cbn; auto with tc_frame.
    match goal with
    | |- context [visit_expression e2 ?t] =>
        assert (Hpre : only_errors tc t)
          by (destruct sym as [? ? []|]; auto with tc_frame);
        specialize (IH2 t); destruct (visit_expression e2 t) as [vt tc2]
    end.
    cbn in *. eapply only_errors_trans; [exact Hpre|].
    eapply only_errors_trans; [exact IH2|].
    case_bool_decide; auto with tc_frame.
  - destruct IHel as [|first rest Hfirst Hrest]; cbn; auto with tc_frame.
    specialize (Hfirst tc). destruct (visit_expression first tc) as [t0 tc1].
    cbn in *. eapply only_errors_trans; [exact Hfirst|]. clear Hfirst tc.
    revert tc1. induction Hrest as [|a rest Ha _ IH]; intros tc1;
      [apply only_errors_refl|].
    specialize (Ha tc1). destruct (visit_expression a tc1) as [t tc2].
    cbn in Ha. eapply only_errors_trans; [exact Ha|].
    eapply only_errors_trans; [apply element_error_only_errors|]. apply IH.
  - specialize (IH1 tc). destruct (visit_expression e1 tc) as [lt tc1].
    specialize (IH2 tc1). destruct (visit_expression e2 tc1) as [rt tc2].
    cbn in *. eapply only_errors_trans; [exact IH1|].
    eapply only_errors_trans; [exact IH2|].
    case_match; cbn; auto with tc_frame.
    case_bool_decide; auto with tc_frame.
Qed.

End TypeCheckerExpressions.

(** ** Scopes in the store *)

Section Scopes.
Import Symbols.

Lemma define_length self symbol (h : Store) :
  length (define self symbol h) = length h.
Proof. unfold define. apply length_alter. Qed.

Lemma define_lookup self symbol (h : Store) t :
  h !! self = Some t ->
  define self symbol h !! self
  = Some (mkSymbolTable (<[name symbol := symbol]> (symbols t))
            (parent t) (scope_name t)).
Proof.
  intros Ht. unfold define. rewrite list_lookup_alter, Ht.
  case_decide; [reflexivity | congruence].
Qed.

Lemma resolve_define self symbol (h : Store) :
  self < length h ->
  resolve (define self symbol h) self (name symbol) = Some symbol.
Proof.
  intros Hlt. destruct (lookup_lt_is_Some_2 h self Hlt) as [t Ht].
  unfold resolve. rewrite define_length.
  destruct (length h) as [|k] eqn:Hk; [lia|].
  cbn [resolve_from]. rewrite (define_lookup _ _ _ _ Ht). cbn.
  rewrite lookup_insert_eq. reflexivity.
Qed.

Lemma contains_local_false (h : Store) self n t :
  h !! self = Some t -> contains_local h self n = false ->
  symbols t !! n = None.
Proof.
  intros Ht Hc. unfold contains_local, resolve_local in Hc. rewrite Ht in Hc.
  apply bool_decide_eq_false in Hc. destruct (symbols t !! n); [|reflexivity].
  exfalso. apply Hc. discriminate.
Qed.

End Scopes.

(** ** A declaration with neither annotation nor initializer *)

(** C10, as stated, fails: when [x] is already defined in the current
    scope, the type checker reports the bare declaration of [x] as a
    redeclaration and leaves [x] with its earlier type. *)
Lemma bare_redeclaration_is_reported :
  let tc :=
    TypeChecker.visit_statement (Ast.VariableDeclaration declared_x)
      TypeChecker.init in
  let tc' := TypeChecker.visit_statement (Ast.VariableDeclaration bare_x) tc in
  Ast.type_annotation bare_x = None
  /\ Ast.initializer bare_x = None
  /\ TypeChecker.errors tc = []
  /\ TypeChecker.errors tc'
     = [TypeChecker.mkTypeError
          "Variable 'x' is already defined in this scope" 2 1]
  /\ TypeChecker.resolve tc' "x"
     = Some (Symbols.VariableSymbol "x" "Int" true).
Proof. cbv zeta. repeat split; vm_compute; reflexivity. Qed.

(** C10, amended: for a VariableDeclaration with neither a type
    annotation nor an initializer whose name is not already defined in
    the current scope, the type checker appends no error and defines
    the variable with type_name "Void", so that a use of the name after
    the declaration has type Void and reports nothing; the semantic
    analyzer, in any state, records for the declaration a Definition
    with type_name "inferred".  The current scope is an object of the
    store, as it is throughout a walk ([tc_check_sound]). *)
Theorem bare_declaration (d : Ast.VarDecl) (tc : TypeChecker.TypeChecker)
    (sa : SemanticAnalyzer.SemanticAnalyzer) :
  Ast.type_annotation d = None ->
  Ast.initializer d = None ->
  TypeChecker.symbol_table tc < length (TypeChecker.store tc) ->
  TypeChecker.contains_local tc (Ast.name (Ast.var_name d)) = false ->
  let n := Ast.name (Ast.var_name d) in
  let tc' := TypeChecker.visit_statement (Ast.VariableDeclaration d) tc in
  let sa' := SemanticAnalyzer.visit_statement (Ast.VariableDeclaration d) sa in
  TypeChecker.errors tc' = TypeChecker.errors tc
  /\ TypeChecker.resolve tc' n = Some (Symbols.VariableSymbol n "Void" true)
  /\ (forall l c,
        TypeChecker.visit_expression (Ast.Identifier n l c) tc' = ("Void", tc'))
  /\ SemanticAnalyzer.definitions sa' !! n
     = Some (default [] (SemanticAnalyzer.definitions sa !! n)
             ++ [SemanticAnalyzer.mkDefinition n "variable"
                   (SemanticAnalyzer.mkLocation (Ast.var_line d)
                      (Ast.var_column d)) "inferred" ""]).
Proof.
  intros Hta Hinit Hvalid Hfresh n tc' sa'.
  assert (Htc' : tc' = TypeChecker.define (Symbols.VariableSymbol n "Void" true) tc).
  { subst tc'. cbn [TypeChecker.visit_statement].
    unfold TypeChecker.visit_variable_declaration.
    rewrite Hta, Hinit. cbv beta iota zeta. cbn [default].
    rewrite Hfresh. reflexivity. }
  assert (Hres : TypeChecker.resolve tc' n
                 = Some (Symbols.VariableSymbol n "Void" true)).
  { rewrite Htc'. unfold TypeChecker.resolve, TypeChecker.define. cbn.
    apply (resolve_define _ (Symbols.VariableSymbol n "Void" true)).
    exact Hvalid. }
  split; [rewrite Htc'; reflexivity|].
  split; [exact Hres|].
  split.
  - intros l c. cbn [TypeChecker.visit_expression].
    unfold TypeChecker.visit_identifier. rewrite Hres. reflexivity.
  - subst sa'. cbn [SemanticAnalyzer.visit_statement].
    unfold SemanticAnalyzer.visit_variable_declaration.
    rewrite Hta, Hinit. fold n. cbn [SemanticAnalyzer.annotation_or_inferred].
    case_match; cbn; apply lookup_insert_eq.
Qed.

(** The bare declaration of [x] in a fresh checker and analyzer. *)
Lemma bare_declaration_witness :
  TypeChecker.errors
    (TypeChecker.visit_statement (Ast.VariableDeclaration bare_x)
       TypeChecker.init) = []
  /\ TypeChecker.resolve
       (TypeChecker.visit_statement (Ast.VariableDeclaration bare_x)
          TypeChecker.init) "x"
     = Some (Symbols.VariableSymbol "x" "Void" true).
Proof.
  destruct (bare_declaration bare_x TypeChecker.init SemanticAnalyzer.init)
    as (He & Hr & _).
  - reflexivity.
  - reflexivity.
  - cbn. lia.
  - vm_compute. reflexivity.
  - split; [exact He | exact Hr].
Defined.

(** ** Expressions leave the scopes and definitions of the analyzer alone *)

Section AnalyzerExpressions.
Import Ast SemanticAnalyzer.

Lemma only_references_refl sa : only_references sa sa.
Proof.
  repeat split; try (exists []; symmetry; apply app_nil_r).
  exists []. split; [symmetry; apply app_nil_r | constructor].
Qed.

Lemma only_references_resolve sa sa' n :
  only_references sa sa' -> resolve sa' n = resolve sa n.
Proof. intros (Hs & Ht & _). unfold resolve. rewrite Hs, Ht. reflexivity. Qed.

Lemma only_references_trans sa1 sa2 sa3 :
  only_references sa1 sa2 -> only_references sa2 sa3 ->
  only_references sa1 sa3.
Proof.
  intros H12 H23.
  pose proof (fun n => only_references_resolve sa1 sa2 n H12) as Hres.
  revert Hres. revert H12 H23.
  intros (Hs & Ht & Hd & Hf & (r1 & Hr) & e1 & He & Hall)
         (Hs' & Ht' & Hd' & Hf' & (r2 & Hr') & e2 & He' & Hall') Hres.
  repeat split; try congruence.
  - exists (r1 ++ r2). rewrite Hr', Hr, app_assoc. reflexivity.
  - exists (e1 ++ e2). split; [rewrite He', He, app_assoc; reflexivity|].
    apply Forall_app. split; [exact Hall|].
    eapply Forall_impl; [exact Hall'|].
    intros m (y & l & c & Hy & ->). exists y, l, c.
    split; [|reflexivity]. rewrite <- (Hres y). exact Hy.
Qed.

Lemma visit_identifier_only_references n l c sa :
  only_references sa (visit_identifier n l c sa).
Proof.
  unfold visit_identifier. destruct (resolve sa n) as [sym|] eqn:Hres.
  - destruct (find_definition sa n (mkLocation l c)) as [d|];
      [|apply only_references_refl].
    repeat split; cbn.
    + eexists. reflexivity.
    + exists []. split; [symmetry; apply app_nil_r | constructor].
  - repeat split; cbn.
    + exists []. symmetry. apply app_nil_r.
    + eexists. split; [reflexivity|]. repeat constructor.
      exists n, l, c. split; [exact Hres | reflexivity].
Qed.

Lemma fold_visit_only_references (l : list Expression) :
  Forall (fun e => forall sa, only_references sa (visit_expression e sa)) l ->
  forall sa,
    only_references sa (fold_left (fun sa e => visit_expression e sa) l sa).
Proof.
  induction 1 as [|e l He _ IH]; intros sa; cbn [fold_left];
    [apply only_references_refl|].
  eapply only_references_trans; [apply He | apply IH].
Qed.

Lemma analyzer_visit_expression_only_references (e : Expression) :
  forall sa, only_references sa (visit_expression e sa).
Proof.
  induction e as
    [n l c | v l c | v l c | v l c | v l c
    | e1 op e2 l c IH1 IH2 | op e l c IH
    | callee args l c IHc IHargs | e1 e2 l c IH1 IH2
    | elements l c IHel | e1 e2 l c IH1 IH2] using Expression_nested_ind;
    intros sa; cbn [visit_expression];
    try apply only_references_refl.
  - apply visit_identifier_only_references.
  - eapply only_references_trans; [apply IH1 | apply IH2].
  - apply IH.
  - eapply only_references_trans;
      [apply IHc | apply fold_visit_only_references, IHargs].
  - eapply only_references_trans; [apply IH1 | apply IH2].
  - apply fold_visit_only_references, IHel.
  - eapply only_references_trans; [apply IH1 | apply IH2].
Qed.

Lemma only_references_In sa sa' r :
  only_references sa sa' -> r ∈ references sa -> r ∈ references sa'.
Proof.
  intros (_ & _ & _ & _ & (new & ->) & _) Hin.
  apply elem_of_app. left. exact Hin.
Qed.

Lemma only_references_find sa sa' n loc :
  only_references sa sa' ->
  find_definition sa' n loc = find_definition sa n loc.
Proof.
  intros (_ & _ & Hd & _). unfold find_definition. rewrite Hd. reflexivity.
Qed.

Lemma fold_visit_In (l : list Expression) e r :
  e ∈ l ->
  (forall sa, r ∈ references (visit_expression e sa)) ->
  forall sa, r ∈ references (fold_left (fun sa e => visit_expression e sa) l sa).
Proof.
  intros Hin Hr.
  induction l as [|a l IH]; intros sa; [inversion Hin|].
  cbn [fold_left]. apply elem_of_cons in Hin as [<- | Hin].
  - eapply only_references_In; [|apply Hr].
    apply fold_visit_only_references, Forall_forall.
    intros x _. apply analyzer_visit_expression_only_references.
  - apply IH. exact Hin.
Qed.

(** An identifier that resolves and has a recorded definition is
    recorded as a reference to the first one, wherever it occurs. *)
Lemma occurs_in_reference n l c d e :
  occurs_in (Identifier n l c) e ->
  forall sa,
    resolve sa n <> None ->
    find_definition sa n (mkLocation l c) = Some d ->
    mkReference n (mkLocation l c) d ∈ references (visit_expression e sa).
Proof.
  induction 1 as
    [ | e1 op e2 l' c' _ IH | e1 op e2 l' c' _ IH | op e l' c' _ IH
    | callee args l' c' _ IH | callee args e l' c' Hin _ IH
    | e1 e2 l' c' _ IH | e1 e2 l' c' _ IH
    | elements e l' c' Hin _ IH | e1 e2 l' c' _ IH | e1 e2 l' c' _ IH];
    intros sa Hres Hfind; cbn [visit_expression].
  - unfold visit_identifier. destruct (resolve sa n); [|congruence].
    rewrite Hfind. cbn. apply elem_of_app. right. apply list_elem_of_here.
  - eapply only_references_In;
      [apply analyzer_visit_expression_only_references | apply IH; assumption].
  - pose proof (analyzer_visit_expression_only_references e1 sa) as Hfr.
    apply IH.
    + rewrite (only_references_resolve _ _ _ Hfr). exact Hres.
    + rewrite (only_references_find _ _ _ _ Hfr). exact Hfind.
  - apply IH; assumption.
  - eapply only_references_In; [|apply IH; eassumption].
    apply fold_visit_only_references, Forall_forall.
    intros x _. apply analyzer_visit_expression_only_references.
  - pose proof (analyzer_visit_expression_only_references callee sa) as Hfr.
    revert Hfr. generalize (visit_expression callee sa). intros sa1 Hfr.
    assert (Hres1 : resolve sa1 n <> None)
      by (rewrite (only_references_resolve _ _ _ Hfr); exact Hres).
    assert (Hfind1 : find_definition sa1 n (mkLocation l c) = Some d)
      by (rewrite (only_references_find _ _ _ _ Hfr); exact Hfind).
    clear Hfr Hres Hfind sa. revert sa1 Hres1 Hfind1.
    induction args as [|a args IHargs]; intros sa Hres Hfind; [inversion Hin|].
    cbn [fold_left]. apply elem_of_cons in Hin as [<- | Hin].
    + eapply only_references_In; [|apply IH; eassumption].
      apply fold_visit_only_references, Forall_forall.
      intros x _. apply analyzer_visit_expression_only_references.
    + pose proof (analyzer_visit_expression_only_references a sa) as Hfr.
      apply IHargs; [exact Hin | |].
      * rewrite (only_references_resolve _ _ _ Hfr). exact Hres.
      * rewrite (only_references_find _ _ _ _ Hfr). exact Hfind.
  - eapply only_references_In;
      [apply analyzer_visit_expression_only_references | apply IH; assumption].
  - pose proof (analyzer_visit_expression_only_references e1 sa) as Hfr.
    apply IH.
    + rewrite (only_references_resolve _ _ _ Hfr). exact Hres.
    + rewrite (only_references_find _ _ _ _ Hfr). exact Hfind.
  - revert sa Hres Hfind.
    induction elements as [|a els IHels]; intros sa Hres Hfind;
      [inversion Hin|].
    cbn [fold_left]. apply elem_of_cons in Hin as [<- | Hin].
    + eapply only_references_In; [|apply IH; eassumption].
      apply fold_visit_only_references, Forall_forall.
      intros x _. apply analyzer_visit_expression_only_references.
    + pose proof (analyzer_visit_expression_only_references a sa) as Hfr.
      apply IHels; [exact Hin | |].
      * rewrite (only_references_resolve _ _ _ Hfr). exact Hres.
      * rewrite (only_references_find _ _ _ _ Hfr). exact Hfind.
  - eapply only_references_In;
      [apply analyzer_visit_expression_only_references | apply IH; assumption].
  - pose proof (analyzer_visit_expression_only_references e1 sa) as Hfr.
    apply IH.
    + rewrite (only_references_resolve _ _ _ Hfr). exact Hres.
    + rewrite (only_references_find _ _ _ _ Hfr). exact Hfind.
Qed.

End AnalyzerExpressions.

(** ** A variable used in its own initializer *)

Section SelfReference.
Import Ast.

Lemma only_errors_In tc tc' (x : TypeChecker.TypeError) :
  only_errors tc tc' -> x ∈ TypeChecker.errors tc -> x ∈ TypeChecker.errors tc'.
Proof.
  intros (_ & _ & _ & new & ->) Hin. apply elem_of_app. left. exact Hin.
Qed.

(** An identifier that does not resolve is reported wherever the type
    checker is sure to visit it. *)
Lemma checked_in_reported n l c e :
  checked_in (Identifier n l c) e ->
  forall tc,
    TypeChecker.resolve tc n = None ->
    TypeChecker.mkTypeError ("Undefined identifier '" +:+ n +:+ "'") l c
    ∈ TypeChecker.errors (snd (TypeChecker.visit_expression e tc)).
Proof.
  induction 1 as
    [ | e1 op e2 l' c' _ IH | e1 op e2 l' c' _ IH | op e l' c' _ IH
    | callee args l' c' _ IH | elements e l' c' Hin _ IH
    | e1 e2 l' c' _ IH | e1 e2 l' c' _ IH];
    intros tc Hres; cbn [TypeChecker.visit_expression].
  - unfold TypeChecker.visit_identifier. rewrite Hres. cbn.
    apply elem_of_app. right. apply list_elem_of_here.
  - specialize (IH tc Hres).
    destruct (TypeChecker.visit_expression e1 tc) as [lt tc1].
    pose proof (visit_expression_only_errors e2 tc1) as H2.
    destruct (TypeChecker.visit_expression e2 tc1) as [rt tc2].
    cbn in IH, H2.
    eapply only_errors_In; [apply binary_result_only_errors|].
    eapply only_errors_In; [exact H2 | exact IH].
  - pose proof (visit_expression_only_errors e1 tc) as H1.
    destruct (TypeChecker.visit_expression e1 tc) as [lt tc1]. cbn in H1.
    rewrite <- (only_errors_resolve _ _ n H1) in Hres. specialize (IH tc1 Hres).
    destruct (TypeChecker.visit_expression e2 tc1) as [rt tc2]. cbn in IH.
    eapply only_errors_In; [apply binary_result_only_errors | exact IH].
  - specialize (IH tc Hres).
    destruct (TypeChecker.visit_expression e tc) as [rt tc1]. cbn in IH.
    eapply only_errors_In; [apply unary_result_only_errors | exact IH].
  - pose proof
      (visit_expression_only_errors (CallExpression callee args l' c') tc)
      as Hall.
    cbn [TypeChecker.visit_expression] in Hall.
    specialize (IH tc Hres).
    pose proof (visit_expression_only_errors callee tc) as Hc.
    destruct (TypeChecker.visit_expression callee tc) as [ct tc1].
    cbn in IH, Hc.
    match goal with
    | |- _ ∈ TypeChecker.errors (snd ?r) =>
        assert (Hrest : only_errors tc1 (snd r))
    end.
    { clear IH Hc Hall Hres tc.
      pose proof
        (visit_expression_only_errors (CallExpression callee args l' c')) as H.
      destruct callee; cbn; auto using only_errors_error.
      match goal with
      | |- context [TypeChecker.resolve tc1 ?x] =>
          destruct (TypeChecker.resolve tc1 x) as [[? ? ?|fn fty params b]|]
      end; cbn; auto using only_errors_error.
      case_bool_decide; cbn; auto using only_errors_error.
      match goal with H : context [length params] |- _ => clear H end.
      clear H. generalize 0%nat. revert params tc1.
      induction args as [|a args IHa]; intros params tc1 i;
        [apply only_errors_refl|].
      destruct params as [|p params]; [apply only_errors_refl|].
      pose proof (visit_expression_only_errors a tc1) as Ha.
      destruct (TypeChecker.visit_expression a tc1) as [t tc2]. cbn in Ha.
      eapply only_errors_trans; [exact Ha|].
      eapply only_errors_trans; [apply argument_error_only_errors|].
      apply IHa. }
    eapply only_errors_In; [exact Hrest | exact IH].
  - destruct elements as [|first rest]; [inversion Hin|].
    apply elem_of_cons in Hin as [<- | Hin].
    + specialize (IH tc Hres).
      destruct (TypeChecker.visit_expression e tc) as [t0 tc1]. cbn in *.
      revert tc1 IH. induction rest as [|a rest IHr]; intros tc1 IH;
        [exact IH|].
      pose proof (visit_expression_only_errors a tc1) as Ha.
      destruct (TypeChecker.visit_expression a tc1) as [t tc2]. cbn in Ha.
      apply IHr. eapply only_errors_In; [apply element_error_only_errors|].
      eapply only_errors_In; [exact Ha | exact IH].
    + pose proof (visit_expression_only_errors first tc) as Hf.
      destruct (TypeChecker.visit_expression first tc) as [t0 tc1].
      cbn in Hf |- *.
      rewrite <- (only_errors_resolve _ _ n Hf) in Hres. clear Hf tc.
      revert tc1 Hres. induction rest as [|a rest IHr]; intros tc1 Hres;
        [inversion Hin|].
      apply elem_of_cons in Hin as [<- | Hin].
      * specialize (IH tc1 Hres).
        destruct (TypeChecker.visit_expression e tc1) as [t tc2]. cbn in IH.
        assert (Hnext : TypeChecker.mkTypeError
                          ("Undefined identifier '" +:+ n +:+ "'") l c
                        ∈ TypeChecker.errors
                            (TypeChecker.element_error t0 t e tc2))
          by (eapply only_errors_In;
              [apply element_error_only_errors | exact IH]).
        revert Hnext. generalize (TypeChecker.element_error t0 t e tc2).
        clear. induction rest as [|a rest IHr]; intros tc Hin; [exact Hin|].
        pose proof (visit_expression_only_errors a tc) as Ha.
        destruct (TypeChecker.visit_expression a tc) as [t tc2]. cbn in Ha.
        apply IHr. eapply only_errors_In; [apply element_error_only_errors|].
        eapply only_errors_In; [exact Ha | exact Hin].
      * pose proof (visit_expression_only_errors a tc1) as Ha.
        destruct (TypeChecker.visit_expression a tc1) as [t tc2]. cbn in Ha.
        apply (IHr Hin).
        rewrite <- Hres. unfold TypeChecker.resolve, TypeChecker.element_error.
        destruct Ha as (Hs & Ht & _).
        case_match; cbn; rewrite Hs, Ht; reflexivity.
  - specialize (IH tc Hres).
    destruct (TypeChecker.visit_expression e1 tc) as [lt tc1].
    pose proof (visit_expression_only_errors e2 tc1) as H2.
    destruct (TypeChecker.visit_expression e2 tc1) as [rt tc2].
    cbn in IH, H2.
    assert (Hin2 : TypeChecker.mkTypeError
                     ("Undefined identifier '" +:+ n +:+ "'") l c
                   ∈ TypeChecker.errors tc2)
      by (eapply only_errors_In; [exact H2 | exact IH]).
    case_match; cbn; [apply elem_of_app; left; exact Hin2|].
    case_bool_decide; cbn; [apply elem_of_app; left|]; exact Hin2.
  - pose proof (visit_expression_only_errors e1 tc) as H1.
    destruct (TypeChecker.visit_expression e1 tc) as [lt tc1]. cbn in H1.
    rewrite <- (only_errors_resolve _ _ n H1) in Hres. specialize (IH tc1 Hres).
    destruct (TypeChecker.visit_expression e2 tc1) as [rt tc2]. cbn in IH.
    case_match; cbn; [apply elem_of_app; left; exact IH|].
    case_bool_decide; cbn; [apply elem_of_app; left|]; exact IH.
Qed.

Lemma resolve_None_local (h : Symbols.Store) self n :
  self < length h -> Symbols.resolve h self n = None ->
  Symbols.contains_local h self n = false.
Proof.
  intros Hlt Hres. destruct (lookup_lt_is_Some_2 h self Hlt) as [t Ht].
  unfold Symbols.contains_local, Symbols.resolve_local. rewrite Ht.
  apply bool_decide_eq_false. intros Hne. apply Hne. clear Hne.
  unfold Symbols.resolve in Hres.
  destruct (length h) as [|k]; [lia|]. cbn [Symbols.resolve_from] in Hres.
  rewrite Ht in Hres. destruct (Symbols.symbols t !! n); [discriminate|].
  reflexivity.
Qed.

(** C9, as stated, fails.  First, in [{ var x; } var x = x;] no symbol
    [x] is in scope before the second declaration, and the analyzer
    binds the reference in its initializer to the Definition recorded
    in the block at (1,3), not to the one just recorded at (2,1).
    Second, in [var x = print(x, x);] the initializer contains [x], and
    the type checker reports the number of arguments only: it does not
    visit the arguments. *)
Lemma self_reference_claim_fails :
  (let sa0 :=
     SemanticAnalyzer.visit_statement
       (BlockStatement
          [VariableDeclaration (mkVarDecl (mkIdent "x" 1 7) None None 1 3)]
          1 1)
       SemanticAnalyzer.init in
   let sa := SemanticAnalyzer.analyze shadowed_self_reference
               SemanticAnalyzer.init in
   SemanticAnalyzer.resolve sa0 "x" = None
   /\ SemanticAnalyzer.references sa
      = [SemanticAnalyzer.mkReference "x" (SemanticAnalyzer.mkLocation 2 9)
           (SemanticAnalyzer.mkDefinition "x" "variable"
              (SemanticAnalyzer.mkLocation 1 3) "inferred" "")])
  /\ (TypeChecker.resolve TypeChecker.init "x" = None
      /\ TypeChecker.errors
           (TypeChecker.visit_variable_declaration self_reference_in_arguments
              TypeChecker.init)
         = [TypeChecker.mkTypeError
              "Function 'print' expects 1 arguments, but got 2" 1 9]).
Proof. cbv zeta. repeat split; vm_compute; reflexivity. Qed.

(** C9, amended: take a VariableDeclaration of [n] whose initializer
    contains an Identifier [n], with no symbol [n] in scope beforehand.
    If the Identifier stands where the type checker is sure to visit it
    ([checked_in]), [check] reports "Undefined identifier 'n'" at the
    Identifier, since it visits the initializer before it defines the
    symbol.  If moreover no Definition of [n] was recorded beforehand,
    the semantic analyzer, which records the Definition and defines
    the symbol first, records a Reference for the Identifier, wherever
    it stands in the initializer, bound to the Definition just
    recorded, and every error it appends is for an identifier other
    than [n].  The analyzer's current scope is an object of its store,
    as it is throughout a walk ([sa_analyze_sound]). *)
Theorem self_reference_in_initializer (d : VarDecl) (e : Expression)
    (l c : Z) (tc : TypeChecker.TypeChecker)
    (sa : SemanticAnalyzer.SemanticAnalyzer) :
  let n := name (var_name d) in
  let own :=
    SemanticAnalyzer.mkDefinition n "variable"
      (SemanticAnalyzer.mkLocation (var_line d) (var_column d))
      (SemanticAnalyzer.annotation_or_inferred (type_annotation d)) "" in
  initializer d = Some e ->
  (checked_in (Identifier n l c) e ->
   TypeChecker.resolve tc n = None ->
   TypeChecker.mkTypeError ("Undefined identifier '" +:+ n +:+ "'") l c
   ∈ TypeChecker.errors (TypeChecker.visit_statement (VariableDeclaration d) tc))
  /\ (occurs_in (Identifier n l c) e ->
      SemanticAnalyzer.symbol_table sa < length (SemanticAnalyzer.store sa) ->
      SemanticAnalyzer.resolve sa n = None ->
      SemanticAnalyzer.definitions sa !! n = None ->
      let sa' := SemanticAnalyzer.visit_statement (VariableDeclaration d) sa in
      SemanticAnalyzer.mkReference n (SemanticAnalyzer.mkLocation l c) own
      ∈ SemanticAnalyzer.references sa'
      /\ exists new,
           SemanticAnalyzer.errors sa' = SemanticAnalyzer.errors sa ++ new
           /\ Forall
                (fun m => exists y l' c',
                            y <> n
                            /\ m = SemanticAnalyzer.undefined_identifier y l' c')
                new).
Proof.
  intros n own Hinit. split.
  - intros Hocc Hres. cbn [TypeChecker.visit_statement].
    unfold TypeChecker.visit_variable_declaration. rewrite Hinit.
    pose proof (checked_in_reported _ _ _ _ Hocc tc Hres) as Hin.
    destruct (TypeChecker.visit_expression e tc) as [init_type tc1].
    cbn in Hin.
    cbv zeta.
    repeat case_match;
      cbn [TypeChecker.errors TypeChecker.error TypeChecker.define];
      repeat (apply elem_of_app; left); exact Hin.
  - intros Hocc Hvalid Hres Hnodef sa'. subst sa'.
    cbn [SemanticAnalyzer.visit_statement].
    unfold SemanticAnalyzer.visit_variable_declaration. rewrite Hinit.
    fold n. fold own.
    set (sa1 := SemanticAnalyzer._record_definition n "variable" _ _ "" sa).
    assert (Hlocal : SemanticAnalyzer.contains_local sa1 n = false)
      by (apply resolve_None_local; [exact Hvalid | exact Hres]).
    rewrite Hlocal.
    set (sa2 := SemanticAnalyzer.define _ sa1).
    assert (Hres2 : SemanticAnalyzer.resolve sa2 n <> None).
    { pose proof
        (resolve_define (SemanticAnalyzer.symbol_table sa)
           (Symbols.VariableSymbol n
              (SemanticAnalyzer.annotation_or_inferred (type_annotation d))
              true)
           (SemanticAnalyzer.store sa) Hvalid) as Hdef.
      intros Hnone. change (SemanticAnalyzer.resolve sa2 n)
        with (Symbols.resolve
                (Symbols.define (SemanticAnalyzer.symbol_table sa)
                   (Symbols.VariableSymbol n
                      (SemanticAnalyzer.annotation_or_inferred
                         (type_annotation d)) true)
                   (SemanticAnalyzer.store sa))
                (SemanticAnalyzer.symbol_table sa) n) in Hnone.
      cbn [Symbols.name] in Hdef. congruence. }
    assert (Hfind : SemanticAnalyzer.find_definition sa2 n
                      (SemanticAnalyzer.mkLocation l c) = Some own).
    { unfold SemanticAnalyzer.find_definition. cbn.
      rewrite lookup_insert_eq, Hnodef. reflexivity. }
    split.
    + apply occurs_in_reference; assumption.
    + destruct (analyzer_visit_expression_only_references e sa2)
        as (_ & _ & _ & _ & _ & new & He & Hall).
      exists new. split; [exact He|].
      eapply Forall_impl; [exact Hall|].
      intros m (y & l' & c' & Hy & ->). exists y, l', c'.
      split; [|reflexivity]. intros ->. apply Hres2. exact Hy.
Qed.

(** [var x = x + 1;] in a fresh checker and a fresh analyzer. *)
Lemma self_reference_in_initializer_witness :
  TypeChecker.mkTypeError "Undefined identifier 'x'" 1 9
  ∈ TypeChecker.errors
      (TypeChecker.visit_statement (VariableDeclaration self_reference)
         TypeChecker.init)
  /\ SemanticAnalyzer.mkReference "x" (SemanticAnalyzer.mkLocation 1 9)
       (SemanticAnalyzer.mkDefinition "x" "variable"
          (SemanticAnalyzer.mkLocation 1 1) "inferred" "")
     ∈ SemanticAnalyzer.references
         (SemanticAnalyzer.visit_statement (VariableDeclaration self_reference)
            SemanticAnalyzer.init).
Proof.
  destruct (self_reference_in_initializer self_reference
              (BinaryExpression (Identifier "x" 1 9) "+"
                 (IntegerLiteral 1 1 13) 1 11)
              1 9 TypeChecker.init SemanticAnalyzer.init eq_refl)
    as [Htc Hsa].
  split.
  - apply Htc; [apply checked_binary_left, checked_here | reflexivity].
  - apply Hsa.
    + apply occurs_binary_left, occurs_here.
    + cbn. lia.
    + reflexivity.
    + reflexivity.
Defined.

End SelfReference.

(** ** The current scope after a walk *)

Section ScopeRestoration.
Import Ast Symbols.

Lemma keeps_scopes_refl (h : Store) : keeps_scopes h h.
Proof. intros a t Ht. exists t. auto. Qed.

Lemma keeps_scopes_trans (h1 h2 h3 : Store) :
  keeps_scopes h1 h2 -> keeps_scopes h2 h3 -> keeps_scopes h1 h3.
Proof.
  intros H12 H23 a t Ht.
  destruct (H12 a t Ht) as (t2 & Ht2 & Hp2 & Hn2).
  destruct (H23 a t2 Ht2) as (t3 & Ht3 & Hp3 & Hn3).
  exists t3. repeat split; congruence.
Qed.

Lemma keeps_scopes_define self symbol (h : Store) :
  keeps_scopes h (define self symbol h).
Proof.
  intros a t Ht. unfold define. rewrite list_lookup_alter.
  case_decide; subst; rewrite Ht; eexists; (split; [reflexivity|]); auto.
Qed.

Lemma keeps_scopes_create_child (h : Store) self n :
  keeps_scopes h (fst (create_child_scope h self n)).
Proof.
  intros a t Ht. exists t. cbn. rewrite lookup_app_l_Some with (x := t); auto.
Qed.

Lemma create_child_scope_valid (h : Store) self n :
  snd (create_child_scope h self n) < length (fst (create_child_scope h self n)).
Proof. cbn. rewrite length_app. cbn. lia. Qed.

Lemma keeps_scopes_valid (h h' : Store) a :
  keeps_scopes h h' -> a < length h -> a < length h'.
Proof.
  intros Hk Ha. destruct (lookup_lt_is_Some_2 h a Ha) as [t Ht].
  destruct (Hk a t Ht) as (t' & Ht' & _).
  apply lookup_lt_is_Some. eauto.
Qed.

Lemma ordered_global : ordered [global].
Proof.
  intros [|a] t p Ht Hp; [|destruct a; discriminate Ht].
  injection Ht as <-. discriminate Hp.
Qed.

Lemma ordered_define self symbol (h : Store) :
  ordered h -> ordered (define self symbol h).
Proof.
  intros Ho a t p Ht Hp. unfold define in Ht.
  rewrite list_lookup_alter in Ht.
  destruct (h !! a) as [t0|] eqn:E.
  - apply (Ho a t0 p E). case_decide; subst.
    + rewrite E in Ht. injection Ht as <-. exact Hp.
    + congruence.
  - case_decide; subst; [rewrite E in Ht|]; discriminate Ht.
Qed.

Lemma ordered_create_child (h : Store) self n :
  ordered h -> self < length h ->
  ordered (fst (create_child_scope h self n)).
Proof.
  intros Ho Hself a t p Ht Hp. cbn in Ht.
  destruct (decide (a < length h)) as [Ha|Ha].
  - rewrite lookup_app_l in Ht by exact Ha. exact (Ho a t p Ht Hp).
  - rewrite lookup_app_r in Ht by lia.
    destruct (a - length h) as [|k] eqn:E; [|destruct k; discriminate Ht].
    injection Ht as <-. cbn in Hp. injection Hp as <-. lia.
Qed.

(** In an ordered store the chain of parents from a scope is shorter
    than the store, and [resolve] walks it to its end: more fuel finds
    nothing else. *)
Lemma resolve_from_enough (h : Store) (n : string) :
  ordered h ->
  forall k k' self, self < k -> self < k' ->
    resolve_from k h self n = resolve_from k' h self n.
Proof.
  intros Ho k. induction k as [|k IH]; intros k' self Hk Hk'; [lia|].
  destruct k' as [|k']; [lia|]. cbn [resolve_from].
  destruct (h !! self) as [t|] eqn:Ht; [|reflexivity].
  destruct (symbols t !! n); [reflexivity|].
  destruct (parent t) as [p|] eqn:Hp; [|reflexivity].
  pose proof (Ho self t p Ht Hp). apply IH; lia.
Qed.

Lemma resolve_enough (h : Store) (self : nat) (n : string) (k : nat) :
  ordered h -> self < length h -> length h <= k ->
  resolve h self n = resolve_from k h self n.
Proof.
  intros Ho Hself Hk. unfold resolve. apply resolve_from_enough; [exact Ho | |]; lia.
Qed.

End ScopeRestoration.

Section TypeCheckerScopes.
Import Ast Symbols TypeChecker.

Lemma tc_restores_refl tc : tc_restores tc tc.
Proof. split; [reflexivity | apply keeps_scopes_refl]. Qed.

Lemma tc_restores_trans tc1 tc2 tc3 :
  tc_restores tc1 tc2 -> tc_restores tc2 tc3 -> tc_restores tc1 tc3.
Proof.
  intros [H1 K1] [H2 K2]. split; [congruence|].
  eapply keeps_scopes_trans; eassumption.
Qed.

Lemma tc_restores_only_errors tc tc' : only_errors tc tc' -> tc_restores tc tc'.
Proof.
  intros (Hs & Ht & _). split; [exact Ht|]. rewrite Hs.
  apply keeps_scopes_refl.
Qed.

Lemma tc_restores_error msg l c tc : tc_restores tc (error msg l c tc).
Proof. split; [reflexivity | apply keeps_scopes_refl]. Qed.

Lemma tc_restores_define symbol tc : tc_restores tc (define symbol tc).
Proof. split; [reflexivity | apply keeps_scopes_define]. Qed.

Lemma tc_restores_expression e tc :
  tc_restores tc (snd (visit_expression e tc)).
Proof. apply tc_restores_only_errors, visit_expression_only_errors. Qed.

Lemma tc_restores_variable_declaration d tc :
  tc_restores tc (visit_variable_declaration d tc).
Proof.
  unfold visit_variable_declaration.
  pose proof (fun e => tc_restores_expression e tc) as He.
  destruct (initializer d) as [e|].
  - specialize (He e). destruct (visit_expression e tc) as [t tc1].
    cbn in He. eapply tc_restores_trans; [exact He|]. cbv zeta.
    repeat case_match;
      repeat first [apply tc_restores_refl
                   | eapply tc_restores_trans; [|apply tc_restores_define]
                   | eapply tc_restores_trans; [|apply tc_restores_error]].
  - cbv zeta.
    repeat case_match;
      repeat first [apply tc_restores_refl
                   | eapply tc_restores_trans; [|apply tc_restores_define]
                   | eapply tc_restores_trans; [|apply tc_restores_error]].
Qed.

Lemma tc_restores_return v l c tc :
  tc_restores tc (visit_return_statement v l c tc).
Proof.
  unfold visit_return_statement.
  destruct (current_function tc) as [f|]; [|apply tc_restores_error].
  destruct v as [e|].
  - pose proof (tc_restores_expression e tc) as He.
    destruct (visit_expression e tc) as [t tc1]. cbn in He.
    case_match; [|exact He].
    eapply tc_restores_trans; [exact He | apply tc_restores_error].
  - case_match; [apply tc_restores_error | apply tc_restores_refl].
Qed.

Lemma tc_restores_fold (l : list Statement) :
  Forall (fun s => forall tc, tc_restores tc (visit_statement s tc)) l ->
  forall tc,
    tc_restores tc (fold_left (fun tc s => visit_statement s tc) l tc).
Proof.
  induction 1 as [|s l Hs _ IH]; intros tc; cbn [fold_left];
    [apply tc_restores_refl|].
  eapply tc_restores_trans; [apply Hs | apply IH].
Qed.

Lemma keeps_scopes_enter n tc :
  keeps_scopes (store tc) (store (enter_child_scope n tc)).
Proof.
  unfold enter_child_scope.
  pose proof (keeps_scopes_create_child (store tc) (symbol_table tc) n) as H.
  destruct (create_child_scope (store tc) (symbol_table tc) n). exact H.
Qed.

Lemma keeps_scopes_parameters (params : list FunctionParameter) tc :
  keeps_scopes (store tc)
    (store (fold_left (fun tc param => define (parameter_symbol param) tc)
              params tc)).
Proof.
  revert tc. induction params as [|p params IH]; intros tc; cbn [fold_left];
    [apply keeps_scopes_refl|].
  eapply keeps_scopes_trans; [|apply IH]. apply keeps_scopes_define.
Qed.

Lemma tc_visit_statement_restores (s : Statement) :
  forall tc, tc_restores tc (visit_statement s tc).
Proof.
  induction s as
    [d | fname params rt body l c IHbody | v l c | stmts l c IHstmts
    | cond s1 s2 l c IH1 IH2 | cond s l c IH | i cond incr s l c IH
    | e l c] using Statement_nested_ind;
    intros tc; cbn [visit_statement].
  - apply tc_restores_variable_declaration.
  - cbv zeta.
    set (tc1 := if contains_local tc (Ast.name fname) then _ else _).
    assert (H1 : tc_restores tc tc1)
      by (subst tc1; case_match;
          [apply tc_restores_error | apply tc_restores_define]).
    set (tc2 := set_current_function _ (enter_child_scope (Ast.name fname) tc1)).
    set (tc3 := fold_left _ params tc2).
    split; [cbn; apply H1|]. cbn [store set_current_function set_symbol_table].
    eapply keeps_scopes_trans; [apply H1|].
    eapply keeps_scopes_trans; [apply (keeps_scopes_enter (Ast.name fname) tc1)|].
    change (store (enter_child_scope (Ast.name fname) tc1)) with (store tc2).
    eapply keeps_scopes_trans; [apply (keeps_scopes_parameters params tc2)|].
    apply (tc_restores_fold body IHbody tc3).
  - apply tc_restores_return.
  - cbv zeta. split; [reflexivity|].
    cbn [store set_symbol_table].
    eapply keeps_scopes_trans; [apply (keeps_scopes_enter "" tc)|].
    apply (tc_restores_fold stmts IHstmts).
  - pose proof (tc_restores_expression cond tc) as Hc.
    destruct (visit_expression cond tc) as [t tc1]. cbn in Hc.
    eapply tc_restores_trans; [exact Hc|].
    eapply tc_restores_trans;
      [apply tc_restores_only_errors, condition_error_only_errors|].
    eapply tc_restores_trans; [apply IH1|].
    destruct s2 as [s2|]; [apply IH2 | apply tc_restores_refl].
  - pose proof (tc_restores_expression cond tc) as Hc.
    destruct (visit_expression cond tc) as [t tc1]. cbn in Hc.
    eapply tc_restores_trans; [exact Hc|].
    eapply tc_restores_trans;
      [apply tc_restores_only_errors, condition_error_only_errors|].
    apply IH.
  - cbv zeta. split; [reflexivity|].
    cbn [store set_symbol_table].
    eapply keeps_scopes_trans; [apply (keeps_scopes_enter "" tc)|].
    generalize (enter_child_scope "" tc). intros tc0.
    eapply keeps_scopes_trans; [|apply IH].
    match goal with
    | |- keeps_scopes _ (store ?t3) =>
        assert (H3 : tc_restores tc0 t3); [|apply H3]
    end.
    eapply tc_restores_trans.
    { instantiate (1 := match i with
                        | Some (ForDeclaration d) =>
                            visit_variable_declaration d tc0
                        | Some (ForExpression e) =>
                            snd (visit_expression e tc0)
                        | None => tc0
                        end).
      destruct i as [[d|e]|];
        [apply tc_restores_variable_declaration
        | apply tc_restores_expression | apply tc_restores_refl]. }
    generalize (match i with
                | Some (ForDeclaration d) => visit_variable_declaration d tc0
                | Some (ForExpression e) => snd (visit_expression e tc0)
                | None => tc0
                end). intros tc1.
    eapply tc_restores_trans.
    { instantiate (1 := match cond with
                        | Some e =>
                            let '(condition_type, tc) :=
                              visit_expression e tc1 in
                            condition_error "For" condition_type e tc
                        | None => tc1
                        end).
      destruct cond as [e|]; [|apply tc_restores_refl].
      pose proof (tc_restores_expression e tc1) as Hc.
      destruct (visit_expression e tc1) as [t tc2]. cbn in Hc.
      eapply tc_restores_trans; [exact Hc|].
      apply tc_restores_only_errors, condition_error_only_errors. }
    destruct incr as [e|];
      [apply tc_restores_expression | apply tc_restores_refl].
  - apply tc_restores_expression.
Qed.

Lemma tc_check_restores (program : Program) (tc : TypeChecker) :
  tc_restores tc (check program tc).
Proof.
  unfold check, visit_program. apply tc_restores_fold.
  apply Forall_forall. intros s _. apply tc_visit_statement_restores.
Qed.

End TypeCheckerScopes.

Section AnalyzerScopes.
Import Ast Symbols SemanticAnalyzer.

Lemma sa_restores_refl sa : sa_restores sa sa.
Proof. split; [reflexivity | apply keeps_scopes_refl]. Qed.

Lemma sa_restores_trans sa1 sa2 sa3 :
  sa_restores sa1 sa2 -> sa_restores sa2 sa3 -> sa_restores sa1 sa3.
Proof.
  intros [H1 K1] [H2 K2]. split; [congruence|].
  eapply keeps_scopes_trans; eassumption.
Qed.

Lemma sa_restores_expression e sa : sa_restores sa (visit_expression e sa).
Proof.
  destruct (analyzer_visit_expression_only_references e sa) as (Hs & Ht & _).
  split; [exact Ht|]. rewrite Hs. apply keeps_scopes_refl.
Qed.

Lemma sa_restores_error msg sa : sa_restores sa (error msg sa).
Proof. split; [reflexivity | apply keeps_scopes_refl]. Qed.

Lemma sa_restores_define symbol sa : sa_restores sa (define symbol sa).
Proof. split; [reflexivity | apply keeps_scopes_define]. Qed.

Lemma sa_restores_record n k loc ty det sa :
  sa_restores sa (_record_definition n k loc ty det sa).
Proof. split; [reflexivity | apply keeps_scopes_refl]. Qed.

Lemma sa_restores_variable_declaration d sa :
  sa_restores sa (visit_variable_declaration d sa).
Proof.
  unfold visit_variable_declaration. cbv zeta.
  eapply sa_restores_trans; [apply sa_restores_record|].
  eapply sa_restores_trans.
  - instantiate (1 := if contains_local _ _ then _ else _).
    case_match; [apply sa_restores_error | apply sa_restores_define].
  - destruct (initializer d);
      [apply sa_restores_expression | apply sa_restores_refl].
Qed.

Lemma sa_restores_parameter p sa : sa_restores sa (visit_parameter p sa).
Proof.
  unfold visit_parameter. cbv zeta.
  eapply sa_restores_trans; [apply sa_restores_record|].
  apply sa_restores_define.
Qed.

Lemma sa_restores_parameters (params : list FunctionParameter) sa :
  sa_restores sa (fold_left (fun sa param => visit_parameter param sa) params sa).
Proof.
  revert sa. induction params as [|p params IH]; intros sa; cbn [fold_left];
    [apply sa_restores_refl|].
  eapply sa_restores_trans; [apply sa_restores_parameter | apply IH].
Qed.

Lemma sa_restores_fold (l : list Statement) :
  Forall (fun s => forall sa, sa_restores sa (visit_statement s sa)) l ->
  forall sa,
    sa_restores sa (fold_left (fun sa s => visit_statement s sa) l sa).
Proof.
  induction 1 as [|s l Hs _ IH]; intros sa; cbn [fold_left];
    [apply sa_restores_refl|].
  eapply sa_restores_trans; [apply Hs | apply IH].
Qed.

Lemma sa_keeps_scopes_enter n sa :
  keeps_scopes (store sa) (store (enter_child_scope n sa)).
Proof.
  unfold enter_child_scope.
  pose proof (keeps_scopes_create_child (store sa) (symbol_table sa) n) as H.
  destruct (create_child_scope (store sa) (symbol_table sa) n). exact H.
Qed.

Lemma sa_visit_statement_restores (s : Statement) :
  forall sa, sa_restores sa (visit_statement s sa).
Proof.
  induction s as
    [d | fname params rt body l c IHbody | v l c | stmts l c IHstmts
    | cond s1 s2 l c IH1 IH2 | cond s l c IH | i cond incr s l c IH
    | e l c] using Statement_nested_ind;
    intros sa; cbn [visit_statement].
  - apply sa_restores_variable_declaration.
  - cbv zeta.
    set (sa0 := _record_definition (Ast.name fname) "function" _ rt _ sa).
    set (sa1 := if contains_local sa0 (Ast.name fname) then _ else _).
    assert (H1 : sa_restores sa sa1).
    { apply (sa_restores_trans sa sa0);
        [subst sa0; apply sa_restores_record|].
      subst sa1.
      case_match; [apply sa_restores_error | apply sa_restores_define]. }
    set (sa2 := set_current_function _ (enter_child_scope (Ast.name fname) sa1)).
    set (sa3 := fold_left _ params sa2).
    split; [cbn; apply H1|]. cbn [store set_current_function set_symbol_table].
    eapply keeps_scopes_trans; [apply H1|].
    eapply keeps_scopes_trans;
      [apply (sa_keeps_scopes_enter (Ast.name fname) sa1)|].
    change (store (enter_child_scope (Ast.name fname) sa1)) with (store sa2).
    eapply keeps_scopes_trans; [apply (sa_restores_parameters params sa2)|].
    apply (sa_restores_fold body IHbody sa3).
  - destruct v; [apply sa_restores_expression | apply sa_restores_refl].
  - cbv zeta. split; [reflexivity|].
    cbn [store set_symbol_table].
    eapply keeps_scopes_trans; [apply (sa_keeps_scopes_enter "" sa)|].
    apply (sa_restores_fold stmts IHstmts).
  - cbv zeta.
    eapply sa_restores_trans; [apply sa_restores_expression|].
    eapply sa_restores_trans; [apply IH1|].
    destruct s2 as [s2|]; [apply IH2 | apply sa_restores_refl].
  - eapply sa_restores_trans; [apply sa_restores_expression | apply IH].
  - cbv zeta. split; [reflexivity|].
    cbn [store set_symbol_table].
    eapply keeps_scopes_trans; [apply (sa_keeps_scopes_enter "" sa)|].
    generalize (enter_child_scope "" sa). intros sa0.
    eapply keeps_scopes_trans; [|apply IH].
    match goal with
    | |- keeps_scopes _ (store ?t3) =>
        assert (H3 : sa_restores sa0 t3); [|apply H3]
    end.
    eapply sa_restores_trans.
    { instantiate (1 := match i with
                        | Some (ForDeclaration d) =>
                            visit_variable_declaration d sa0
                        | Some (ForExpression e) => visit_expression e sa0
                        | None => sa0
                        end).
      destruct i as [[d|e]|];
        [apply sa_restores_variable_declaration
        | apply sa_restores_expression | apply sa_restores_refl]. }
    generalize (match i with
                | Some (ForDeclaration d) => visit_variable_declaration d sa0
                | Some (ForExpression e) => visit_expression e sa0
                | None => sa0
                end). intros sa1.
    eapply sa_restores_trans.
    { instantiate (1 := match cond with
                        | Some e => visit_expression e sa1
                        | None => sa1
                        end).
      destruct cond; [apply sa_restores_expression | apply sa_restores_refl]. }
    destruct incr; [apply sa_restores_expression | apply sa_restores_refl].
  - apply sa_restores_expression.
Qed.

Lemma sa_analyze_restores (program : Program) (sa : SemanticAnalyzer) :
  sa_restores sa (analyze program sa).
Proof.
  unfold analyze, visit_program. apply sa_restores_fold.
  apply Forall_forall. intros s _. apply sa_visit_statement_restores.
Qed.

End AnalyzerScopes.

(** C6: after [check] and after [analyze], from any state of the
    checker or analyzer, the [symbol_table] field holds the address it
    held before the call, and the scope object at that address (as
    every scope object that existed before) is the same object, with
    its parent and name: for the fresh checker and analyzer this is the
    root scope "global", which has no parent.  The same holds of the
    visit of each single statement, so every function declaration,
    block and for statement restores the scope it replaced. *)
Theorem scope_restored (program : Ast.Program) :
  (forall tc, tc_restores tc (TypeChecker.check program tc))
  /\ (forall sa, sa_restores sa (SemanticAnalyzer.analyze program sa))
  /\ (forall s tc, tc_restores tc (TypeChecker.visit_statement s tc))
  /\ (forall s sa, sa_restores sa (SemanticAnalyzer.visit_statement s sa))
  /\ TypeChecker.symbol_table (TypeChecker.check program TypeChecker.init) = 0
  /\ SemanticAnalyzer.symbol_table
       (SemanticAnalyzer.analyze program SemanticAnalyzer.init) = 0
  /\ (exists t,
        TypeChecker.store (TypeChecker.check program TypeChecker.init) !! 0
        = Some t
        /\ Symbols.parent t = None /\ Symbols.scope_name t = "global")
  /\ (exists t,
        SemanticAnalyzer.store
          (SemanticAnalyzer.analyze program SemanticAnalyzer.init) !! 0
        = Some t
        /\ Symbols.parent t = None /\ Symbols.scope_name t = "global").
Proof.
  split; [intros tc; apply tc_check_restores|].
  split; [intros sa; apply sa_analyze_restores|].
  split; [intros s tc; apply tc_visit_statement_restores|].
  split; [intros s sa; apply sa_visit_statement_restores|].
  destruct (tc_check_restores program TypeChecker.init) as [Ht Kt].
  destruct (sa_analyze_restores program SemanticAnalyzer.init) as [Hs Ks].
  split; [exact Ht|]. split; [exact Hs|]. split.
  - destruct (Kt 0 _ eq_refl) as (t & Hl & Hp & Hn). exists t. auto.
  - destruct (Ks 0 _ eq_refl) as (t & Hl & Hp & Hn). exists t. auto.
Qed.

(** The scopes made for [nested_scopes] stay in the store, and the
    current scope is the root again. *)
Example nested_scopes_restored :
  let tc := TypeChecker.check nested_scopes TypeChecker.init in
  length (TypeChecker.store tc) = 4
  /\ TypeChecker.symbol_table tc = 0
  /\ TypeChecker.errors tc = [].
Proof. cbv zeta. repeat split; vm_compute; reflexivity. Qed.

(** ** Strings and loops *)

Section Strings.

Lemma string_app_cons (c : ascii) (s1 s2 : string) :
  String c s1 +:+ s2 = String c (s1 +:+ s2).
Proof. reflexivity. Qed.

Lemma string_app_nil_l (s : string) : "" +:+ s = s.
Proof. reflexivity. Qed.

Lemma string_app_nil_r (s : string) : s +:+ "" = s.
Proof.
  induction s as [|c s IH]; [reflexivity|].
  rewrite string_app_cons, IH. reflexivity.
Qed.

Lemma string_app_assoc (s1 s2 s3 : string) :
  (s1 +:+ s2) +:+ s3 = s1 +:+ (s2 +:+ s3).
Proof.
  induction s1 as [|c s1 IH]; [reflexivity|].
  rewrite !string_app_cons, IH. reflexivity.
Qed.

Lemma string_length_app (s1 s2 : string) :
  String.length (s1 +:+ s2) = String.length s1 + String.length s2.
Proof.
  induction s1 as [|c s1 IH]; [reflexivity|].
  rewrite string_app_cons. cbn [String.length]. rewrite IH. reflexivity.
Qed.

Lemma string_get_after (pre rest : string) (n : nat) :
  String.get (String.length pre + n) (pre +:+ rest) = String.get n rest.
Proof.
  rewrite Nat.add_comm. symmetry. apply String.append_correct2.
Qed.

Lemma string_app_snoc (s : string) (c : ascii) (rest : string) :
  (s +:+ String c "") +:+ rest = s +:+ String c rest.
Proof. rewrite string_app_assoc. reflexivity. Qed.

Lemma string_snoc_not_empty (s : string) (c : ascii) : s +:+ String c "" <> "".
Proof. destruct s; discriminate. Qed.

Lemma position_from_app (s1 s2 : string) (l c : Z) :
  position_from (s1 +:+ s2) l c
  = position_from s2 (fst (position_from s1 l c)) (snd (position_from s1 l c)).
Proof.
  revert l c. induction s1 as [|a s1 IH]; intros l c; [reflexivity|].
  rewrite string_app_cons. cbn [position_from].
  destruct (Ascii.eqb a Py.newline); apply IH.
Qed.

Lemma endswith_snoc (s : string) (c d : ascii) :
  Py.endswith (s +:+ String c "") d = Ascii.eqb c d.
Proof.
  induction s as [|a s IH]; [reflexivity|].
  rewrite string_app_cons. cbn [Py.endswith]. rewrite IH.
  destruct (s +:+ String c "") eqn:E; [|reflexivity].
  exfalso. exact (string_snoc_not_empty _ _ E).
Qed.

Lemma endswith_split (s : string) (c : ascii) :
  Py.endswith s c = true -> exists s', s = s' +:+ String c "".
Proof.
  induction s as [|a s IH]; [discriminate|].
  destruct s as [|b s].
  - cbn. intros H. apply Ascii.eqb_eq in H. subst. exists "". reflexivity.
  - intros H. destruct (IH H) as [s' Hs']. exists (String a s').
    rewrite string_app_cons, <- Hs'. reflexivity.
Qed.

End Strings.

Section Loops.
Context {St : Type} (I Q : St -> Prop) (m : St -> nat)
  (body : St -> option (flow St)).

(** A loop whose body keeps [I] and lowers [m] until it breaks with
    [Q] returns, with [Q], once the fuel exceeds [m]. *)
Lemma loop_returns :
  (forall s, I s ->
     (exists s', body s = Some (Continue s') /\ I s' /\ m s' < m s)
     \/ (exists s', body s = Some (Break s') /\ Q s')) ->
  forall fuel s, I s -> m s < fuel ->
    exists s', loop fuel body s = Some s' /\ Q s'.
Proof.
  intros Hbody fuel. induction fuel as [|fuel IH]; intros s Hs Hm; [lia|].
  cbn [loop].
  destruct (Hbody s Hs) as [(s' & -> & Hs' & Hlt) | (s' & -> & Hq)].
  - apply IH; [exact Hs' | lia].
  - exists s'. split; [reflexivity | exact Hq].
Qed.

End Loops.

(** ** The lexer and the text it reads *)

Section LexerPositions.
Import Lexer.

Lemma at_position_init (src : String.string) : at_position src "" src (init src).
Proof. repeat split. Qed.

Lemma at_position_current src pre c rest lx :
  at_position src pre (String c rest) lx -> current_char lx = Some c.
Proof. intros (_ & _ & _ & _ & H). exact H. Qed.

Lemma at_position_end src pre lx :
  at_position src pre "" lx -> current_char lx = None.
Proof. intros (_ & _ & _ & _ & H). exact H. Qed.

Lemma at_position_peek src pre c rest lx :
  at_position src pre (String c rest) lx -> peek lx = String.get 0 rest.
Proof.
  intros (Hsrc & Hs & Hp & _). unfold peek. rewrite Hs, Hp, Hsrc.
  apply (string_get_after pre (String c rest) 1).
Qed.

Lemma at_position_remaining src pre rest lx :
  at_position src pre rest lx -> remaining lx = String.length rest.
Proof.
  intros (Hsrc & Hs & Hp & _). unfold remaining.
  rewrite Hs, Hp, Hsrc, string_length_app. lia.
Qed.

Lemma at_position_fuel src pre rest lx :
  at_position src pre rest lx -> fuel lx = S (String.length src).
Proof. intros (_ & Hs & _). unfold fuel. rewrite Hs. reflexivity. Qed.

Lemma at_position_source src pre rest lx :
  at_position src pre rest lx -> source lx = src.
Proof. intros (_ & Hs & _). exact Hs. Qed.

Lemma at_position_bound src pre rest lx :
  at_position src pre rest lx -> String.length rest <= String.length src.
Proof. intros (Hsrc & _). rewrite Hsrc, string_length_app. lia. Qed.

Lemma advance_at_position src pre c rest lx :
  at_position src pre (String c rest) lx ->
  at_position src (pre +:+ String c "") rest (advance lx).
Proof.
  intros (Hsrc & Hs & Hp & Hlc & Hcur). unfold at_position, advance. cbn.
  split; [rewrite string_app_snoc; exact Hsrc|].
  split; [exact Hs|].
  split; [rewrite string_length_app, Hp; cbn; lia|].
  split.
  - unfold position_of in *. rewrite position_from_app, <- Hlc.
    rewrite Hcur. cbn. destruct (Ascii.eqb c Py.newline); reflexivity.
  - rewrite Hs, Hp, Hsrc.
    replace (S (String.length pre)) with (String.length pre + 1) by lia.
    apply (string_get_after pre (String c rest) 1).
Qed.

Lemma reached_start src pre rest lx :
  at_position src pre rest lx -> reached src pre rest "" rest lx.
Proof. intros H. split; [reflexivity|]. rewrite string_app_nil_r. exact H. Qed.

Lemma reached_advance src pre rest text c rest' lx :
  reached src pre rest text (String c rest') lx ->
  reached src pre rest (text +:+ String c "") rest' (advance lx).
Proof.
  intros [Hrest Hat]. split.
  - rewrite string_app_snoc. exact Hrest.
  - rewrite <- string_app_assoc. apply advance_at_position. exact Hat.
Qed.

Lemma reached_remaining src pre rest text rest' lx :
  reached src pre rest text rest' lx -> remaining lx = String.length rest'.
Proof. intros [_ H]. exact (at_position_remaining _ _ _ _ H). Qed.

Lemma reached_bound src pre rest text rest' lx :
  reached src pre rest text rest' lx ->
  String.length rest' < S (String.length src).
Proof. intros [_ H]. pose proof (at_position_bound _ _ _ _ H). lia. Qed.

Lemma skip_whitespace_reaches src pre rest lx :
  at_position src pre rest lx ->
  exists text rest' lx',
    skip_whitespace lx = Some lx'
    /\ reached src pre rest text rest' lx'
    /\ (forall c r, rest = String c r -> Py.isspace c = true -> text <> "").
Proof.
  intros Hat. unfold skip_whitespace.
  rewrite (at_position_fuel _ _ _ _ Hat).
  destruct
    (loop_returns
       (fun lx1 => exists text rest', reached src pre rest text rest' lx1)
       (fun lx1 =>
          exists text rest',
            reached src pre rest text rest' lx1
            /\ match rest' with
               | String c _ => Py.isspace c = false
               | EmptyString => True
               end)
       remaining
       (fun lx =>
          match current_char lx with
          | Some c =>
              if Py.isspace c then Some (Continue (advance lx))
              else Some (Break lx)
          | None => Some (Break lx)
          end))
    with (fuel := S (String.length src)) (s := lx)
    as (lx' & Hloop & text & rest' & Hreach & Hstop).
  - intros lx1 (text & rest' & Hreach).
    destruct rest' as [|c rest'].
    + right. exists lx1.
      rewrite (at_position_end _ _ _ (proj2 Hreach)).
      split; [reflexivity|]. exists text, "". split; [exact Hreach | exact I].
    + rewrite (at_position_current _ _ _ _ _ (proj2 Hreach)).
      destruct (Py.isspace c) eqn:Hc.
      * left. exists (advance lx1). split; [reflexivity|].
        pose proof (reached_advance _ _ _ _ _ _ _ Hreach) as Hnext.
        split; [eauto|].
        rewrite (reached_remaining _ _ _ _ _ _ Hnext),
          (reached_remaining _ _ _ _ _ _ Hreach). cbn. lia.
      * right. exists lx1. split; [reflexivity|].
        exists text, (String c rest'). split; [exact Hreach | exact Hc].
  - exists "", rest. apply reached_start. exact Hat.
  - rewrite (at_position_remaining _ _ _ _ Hat).
    pose proof (at_position_bound _ _ _ _ Hat). lia.
  - exists text, rest', lx'. split; [exact Hloop|]. split; [exact Hreach|].
    intros c r -> Hc ->. destruct Hreach as [Hrest _].
    rewrite string_app_nil_l in Hrest. subst rest'. congruence.
Qed.

Lemma reached_step src pre rest text c rest' lx :
  reached src pre rest text (String c rest') lx ->
  reached src pre rest (text +:+ String c "") rest' (advance lx)
  /\ remaining (advance lx) < remaining lx.
Proof.
  intros Hreach. pose proof (reached_advance _ _ _ _ _ _ _ Hreach) as Hnext.
  split; [exact Hnext|].
  rewrite (reached_remaining _ _ _ _ _ _ Hnext),
    (reached_remaining _ _ _ _ _ _ Hreach). cbn. lia.
Qed.

Lemma reached_fuel src pre rest text rest' lx :
  reached src pre rest text rest' lx -> remaining lx < S (String.length src).
Proof.
  intros H. rewrite (reached_remaining _ _ _ _ _ _ H).
  exact (reached_bound _ _ _ _ _ _ H).
Qed.

Lemma get_0_Some (s : String.string) (c : ascii) :
  String.get 0 s = Some c -> exists r, s = String c r.
Proof. destruct s as [|a r]; [discriminate|]. cbn. intros [= ->]. eauto. Qed.

Lemma is_char_get_0 (s : String.string) (c : ascii) :
  is_char (String.get 0 s) c = true -> exists r, s = String c r.
Proof.
  destruct s as [|a r]; [discriminate|]. cbn. intros H.
  apply Ascii.eqb_eq in H. subst. eauto.
Qed.

Lemma skip_comment_reaches src pre rest1 lx :
  at_position src pre (String "/" rest1) lx ->
  is_char (peek lx) "/" || is_char (peek lx) "*" = true ->
  exists text rest' lx',
    skip_comment lx = Some lx'
    /\ reached src pre (String "/" rest1) text rest' lx'
    /\ text <> "".
Proof.
  intros Hat Hpeek. unfold skip_comment.
  rewrite (at_position_current _ _ _ _ _ Hat), (at_position_fuel _ _ _ _ Hat).
  pose proof (at_position_peek _ _ _ _ _ Hat) as Hpk. rewrite Hpk in *.
  cbn [is_char Ascii.eqb]. change (Ascii.eqb "/" "/") with true.
  cbn [andb].
  destruct (is_char (String.get 0 rest1) "/") eqn:Hslash.
  - destruct
      (loop_returns
         (fun lx1 =>
            exists text rest', reached src pre (String "/" rest1) text rest' lx1)
         (fun lx1 =>
            exists text rest',
              reached src pre (String "/" rest1) text rest' lx1
              /\ match rest' with
                 | String c _ => c = Py.newline
                 | EmptyString => True
                 end)
         remaining
         (fun lx =>
            match current_char lx with
            | Some c =>
                if negb (Ascii.eqb c Py.newline)
                then Some (Continue (advance lx))
                else Some (Break lx)
            | None => Some (Break lx)
            end))
      with (fuel := S (String.length src)) (s := lx)
      as (lx' & Hloop & text & rest' & Hreach & Hstop).
    + intros lx1 (text & rest' & Hreach).
      destruct rest' as [|c rest'].
      * right. exists lx1. rewrite (at_position_end _ _ _ (proj2 Hreach)).
        split; [reflexivity|]. exists text, "". auto.
      * rewrite (at_position_current _ _ _ _ _ (proj2 Hreach)).
        destruct (Ascii.eqb c Py.newline) eqn:Hc; cbn [negb].
        -- right. exists lx1. split; [reflexivity|].
           exists text, (String c rest'). split; [exact Hreach|].
           apply Ascii.eqb_eq. exact Hc.
        -- left. exists (advance lx1). split; [reflexivity|].
           destruct (reached_step _ _ _ _ _ _ _ Hreach) as [Hnext Hlt].
           split; [eauto | exact Hlt].
    + exists "", (String "/" rest1). apply reached_start. exact Hat.
    + apply (reached_fuel src pre (String "/" rest1) "" (String "/" rest1)).
      apply reached_start. exact Hat.
    + exists text, rest', lx'. split; [exact Hloop|]. split; [exact Hreach|].
      intros ->. destruct Hreach as [Hrest _].
      rewrite string_app_nil_l in Hrest. subst rest'. discriminate.
  - cbn [orb] in Hpeek. destruct (is_char_get_0 _ _ Hpeek) as [rest2 ->].
    pose proof (reached_start _ _ _ _ Hat) as H0.
    apply reached_advance in H0. apply reached_advance in H0.
    rewrite string_app_nil_l in H0.
    change (String "/" "" +:+ String "*" "") with "/*" in H0.
    destruct
      (loop_returns
         (fun lx1 =>
            exists text rest',
              reached src pre (String "/" (String "*" rest2)) text rest' lx1
              /\ text <> "")
         (fun lx1 =>
            exists text rest',
              reached src pre (String "/" (String "*" rest2)) text rest' lx1
              /\ text <> "")
         remaining
         (fun lx =>
            match current_char lx with
            | Some c =>
                if Ascii.eqb c "*" && is_char (peek lx) "/"
                then Some (Break (advance (advance lx)))
                else Some (Continue (advance lx))
            | None => Some (Break lx)
            end))
      with (fuel := S (String.length src)) (s := advance (advance lx))
      as (lx' & Hloop & text & rest' & Hreach & Hne).
    + intros lx1 (text & rest' & Hreach & Hne).
      destruct rest' as [|c rest'].
      * right. exists lx1. rewrite (at_position_end _ _ _ (proj2 Hreach)).
        split; [reflexivity|]. exists text, "". auto.
      * rewrite (at_position_current _ _ _ _ _ (proj2 Hreach)).
        rewrite (at_position_peek _ _ _ _ _ (proj2 Hreach)).
        destruct (Ascii.eqb c "*" && is_char (String.get 0 rest') "/")
          eqn:Hc.
        -- right. exists (advance (advance lx1)). split; [reflexivity|].
           apply andb_true_iff in Hc as [_ Hc].
           destruct (is_char_get_0 _ _ Hc) as [rest3 ->].
           apply reached_advance in Hreach. apply reached_advance in Hreach.
           eexists _, rest3. split; [exact Hreach|].
           apply string_snoc_not_empty.
        -- left. exists (advance lx1). split; [reflexivity|].
           destruct (reached_step _ _ _ _ _ _ _ Hreach) as [Hnext Hlt].
           split; [|exact Hlt]. eexists _, rest'. split; [exact Hnext|].
           apply string_snoc_not_empty.
    + exists "/*", rest2. split; [exact H0 | discriminate].
    + exact (reached_fuel _ _ _ _ _ _ H0).
    + exists text, rest', lx'. auto.
Qed.

Lemma isalpha_isalnum (c : ascii) : Py.isalpha c = true -> Py.isalnum c = true.
Proof. intros H. unfold Py.isalnum. rewrite H. reflexivity. Qed.

Lemma identifier_reaches src pre c0 rest0 lx :
  at_position src pre (String c0 rest0) lx ->
  Py.isalpha c0 || Ascii.eqb c0 "_" = true ->
  exists text rest' lx',
    identifier lx
    = Some (mkToken (default IDENTIFIER (keywords !! text)) text
              (line lx) (column lx), lx')
    /\ reached src pre (String c0 rest0) text rest' lx'
    /\ text <> "".
Proof.
  intros Hat Hfirst. unfold identifier.
  rewrite (at_position_fuel _ _ _ _ Hat).
  destruct
    (loop_returns
       (fun '(lx1, result) =>
          exists rest', reached src pre (String c0 rest0) result rest' lx1)
       (fun '(lx1, result) =>
          exists rest',
            reached src pre (String c0 rest0) result rest' lx1
            /\ match rest' with
               | String c _ => Py.isalnum c || Ascii.eqb c "_" = false
               | EmptyString => True
               end)
       (fun s => remaining (fst s))
       (fun '(lx, result) =>
          match current_char lx with
          | Some c =>
              if Py.isalnum c || Ascii.eqb c "_"
              then Some (Continue (advance lx, result +:+ Py.char_str c))
              else Some (Break (lx, result))
          | None => Some (Break (lx, result))
          end))
    with (fuel := S (String.length src)) (s := (lx, ""))
    as ([lx' text] & Hloop & rest' & Hreach & Hstop).
  - intros [lx1 result] (rest' & Hreach).
    destruct rest' as [|c rest'].
    + right. exists (lx1, result).
      rewrite (at_position_end _ _ _ (proj2 Hreach)).
      split; [reflexivity|]. exists "". auto.
    + rewrite (at_position_current _ _ _ _ _ (proj2 Hreach)).
      destruct (Py.isalnum c || Ascii.eqb c "_") eqn:Hc.
      * left. eexists (_, _). split; [reflexivity|].
        destruct (reached_step _ _ _ _ _ _ _ Hreach) as [Hnext Hlt].
        split; [exists rest'; exact Hnext | exact Hlt].
      * right. exists (lx1, result). split; [reflexivity|].
        exists (String c rest'). auto.
  - exists (String c0 rest0). apply reached_start. exact Hat.
  - apply (reached_fuel src pre (String c0 rest0) "" (String c0 rest0)).
    apply reached_start. exact Hat.
  - rewrite Hloop. exists text, rest', lx'. split; [reflexivity|].
    split; [exact Hreach|]. intros ->. destruct Hreach as [Hrest _].
    rewrite string_app_nil_l in Hrest. subst rest'.
    apply orb_true_iff in Hfirst. apply orb_false_iff in Hstop as [H1 H2].
    destruct Hfirst as [Ha|Hu]; [|congruence].
    rewrite (isalpha_isalnum _ Ha) in H1. discriminate.
Qed.

Lemma isdigit_not_dot (c : ascii) : Py.isdigit c = true -> Ascii.eqb c "." = false.
Proof.
  intros H. destruct (Ascii.eqb c ".") eqn:E; [|reflexivity].
  apply Ascii.eqb_eq in E. subst. discriminate.
Qed.

Lemma number_reaches src pre c0 rest0 lx :
  at_position src pre (String c0 rest0) lx ->
  Py.isdigit c0 = true ->
  exists text rest' lx' tok,
    number lx = Some (tok, lx')
    /\ reached src pre (String c0 rest0) text rest' lx'
    /\ text <> ""
    /\ tline tok = line lx /\ tcolumn tok = column lx
    /\ (type tok = INTEGER \/ type tok = FLOAT)
    /\ (value tok = text
        \/ (type tok = FLOAT /\ (exists digits, text = digits +:+ ".")
            /\ value tok = text +:+ "0")).
Proof.
  intros Hat Hfirst. unfold number.
  rewrite (at_position_fuel _ _ _ _ Hat).
  destruct
    (loop_returns
       (fun '(lx1, result, is_float) =>
          exists rest',
            reached src pre (String c0 rest0) result rest' lx1
            /\ (result = "" -> is_float = false)
            /\ (Py.endswith result "." = true -> is_float = true))
       (fun '(lx1, result, is_float) =>
          exists rest',
            reached src pre (String c0 rest0) result rest' lx1
            /\ (Py.endswith result "." = true -> is_float = true)
            /\ result <> "")
       (fun s => remaining (fst (fst s)))
       (fun '(lx, result, is_float) =>
          match current_char lx with
          | Some c =>
              if Py.isdigit c || Ascii.eqb c "."
              then
                if Ascii.eqb c "." && is_float
                then Some (Break (lx, result, is_float))
                else Some (Continue (advance lx, result +:+ Py.char_str c,
                                     Ascii.eqb c "." || is_float))
              else Some (Break (lx, result, is_float))
          | None => Some (Break (lx, result, is_float))
          end))
    with (fuel := S (String.length src)) (s := (lx, "", false))
    as ([[lx' text] is_float] & Hloop & rest' & Hreach & Hdot & Hne).
  - intros [[lx1 result] is_float] (rest' & Hreach & Hempty & Hdot).
    assert (Hne : forall c r, rest' = String c r ->
                  Py.isdigit c = false \/ is_float = true -> result <> "").
    { intros c r -> Hor ->. destruct Hreach as [Hrest _].
      rewrite string_app_nil_l in Hrest. injection Hrest as <- <-.
      destruct Hor as [H|H]; [congruence|].
      rewrite (Hempty eq_refl) in H. discriminate. }
    destruct rest' as [|c rest'].
    + right. exists (lx1, result, is_float).
      rewrite (at_position_end _ _ _ (proj2 Hreach)).
      split; [reflexivity|]. exists "". split; [exact Hreach|].
      split; [exact Hdot|]. intros ->. destruct Hreach as [Hrest _].
      discriminate Hrest.
    + rewrite (at_position_current _ _ _ _ _ (proj2 Hreach)).
      destruct (Py.isdigit c || Ascii.eqb c ".") eqn:Hc.
      * destruct (Ascii.eqb c "." && is_float) eqn:Hbreak.
        -- right. exists (lx1, result, is_float). split; [reflexivity|].
           exists (String c rest'). split; [exact Hreach|].
           split; [exact Hdot|]. apply (Hne c rest' eq_refl). right.
           apply andb_true_iff in Hbreak. tauto.
        -- left. eexists (_, _, _). split; [reflexivity|].
           destruct (reached_step _ _ _ _ _ _ _ Hreach) as [Hnext Hlt].
           split; [|exact Hlt]. exists rest'. split; [exact Hnext|].
           split.
           ++ intros H. exfalso. exact (string_snoc_not_empty _ _ H).
           ++ unfold Py.char_str. rewrite endswith_snoc. intros ->.
              reflexivity.
      * right. exists (lx1, result, is_float). split; [reflexivity|].
        exists (String c rest'). split; [exact Hreach|].
        split; [exact Hdot|]. apply (Hne c rest' eq_refl). left.
        apply orb_false_iff in Hc. tauto.
  - exists (String c0 rest0). split; [apply reached_start; exact Hat|].
    split; [reflexivity | discriminate].
  - apply (reached_fuel src pre (String c0 rest0) "" (String c0 rest0)).
    apply reached_start. exact Hat.
  - rewrite Hloop. eexists text, rest', lx', _. split; [reflexivity|].
    split; [exact Hreach|]. split; [exact Hne|]. cbn.
    split; [reflexivity|]. split; [reflexivity|].
    split; [destruct is_float; auto|].
    destruct (Py.endswith text ".") eqn:Hend; [|left; reflexivity].
    right. rewrite (Hdot eq_refl). split; [reflexivity|].
    split; [apply endswith_split; exact Hend | reflexivity].
Qed.

Lemma string_reaches src pre q rest0 lx :
  at_position src pre (String q rest0) lx ->
  exists body rest' lx' tok,
    string lx = Some (tok, lx')
    /\ reached src pre (String q rest0) (String q body) rest' lx'
    /\ tline tok = line lx /\ tcolumn tok = column lx
    /\ (type tok = STRING \/ type tok = ERROR).
Proof.
  intros Hat. unfold string.
  rewrite (at_position_fuel _ _ _ _ Hat), (at_position_current _ _ _ _ _ Hat).
  pose proof (reached_start _ _ _ _ Hat) as H0.
  apply reached_advance in H0. rewrite string_app_nil_l in H0.
  cbv zeta.
  match goal with
  | |- context [loop ?f0 ?b0 ?s0] =>
      destruct
        (loop_returns
           (fun '(lx1, result) =>
              exists body rest',
                reached src pre (String q rest0) (String q body) rest' lx1)
           (fun '(lx1, result) =>
              exists body rest',
                reached src pre (String q rest0) (String q body) rest' lx1
                /\ match rest' with
                   | String c _ => c = q
                   | EmptyString => True
                   end)
           (fun s => remaining (fst s)) b0)
        with (fuel := f0) (s := s0)
        as ([lx' result] & Hloop & body & rest' & Hreach & Hstop)
  end.
  - intros [lx1 result] (body & rest' & Hreach).
    destruct rest' as [|c rest'].
    + right. exists (lx1, result).
      rewrite (at_position_end _ _ _ (proj2 Hreach)).
      split; [reflexivity|]. exists body, "". auto.
    + rewrite (at_position_current _ _ _ _ _ (proj2 Hreach)).
      rewrite (at_position_peek _ _ _ _ _ (proj2 Hreach)).
      case_bool_decide as Hq; cbn [negb].
      * right. exists (lx1, result). split; [reflexivity|].
        exists body, (String c rest'). split; [exact Hreach|]. congruence.
      * destruct (reached_step _ _ _ _ _ _ _ Hreach) as [Hnext Hlt].
        rewrite string_app_cons in Hnext.
        destruct (Ascii.eqb c Py.backslash
                  && bool_decide (String.get 0 rest' <> None)) eqn:Hesc.
        -- apply andb_true_iff in Hesc as [_ Hpk].
           apply bool_decide_eq_true in Hpk.
           destruct rest' as [|e rest']; [contradiction Hpk; reflexivity|].
           rewrite (at_position_current _ _ _ _ _ (proj2 Hnext)).
           left. eexists (_, _). split; [reflexivity|].
           destruct (reached_step _ _ _ _ _ _ _ Hnext) as [Hnext2 Hlt2].
           rewrite string_app_cons in Hnext2.
           split; [eexists _, rest'; exact Hnext2|]. cbn [fst] in *. lia.
        -- left. eexists (_, _). split; [reflexivity|].
           split; [eexists _, rest'; exact Hnext | exact Hlt].
  - exists "", rest0. exact H0.
  - exact (reached_fuel _ _ _ _ _ _ H0).
  - rewrite Hloop. destruct rest' as [|c rest'].
    + rewrite (at_position_end _ _ _ (proj2 Hreach)).
      eexists body, "", lx', _. split; [reflexivity|].
      split; [exact Hreach|]. cbn. auto.
    + rewrite (at_position_current _ _ _ _ _ (proj2 Hreach)).
      apply reached_advance in Hreach. rewrite string_app_cons in Hreach.
      eexists _, rest', (advance lx'), _. split; [reflexivity|].
      split; [exact Hreach|]. cbn. auto.
Qed.

End LexerPositions.

(** ** The text of a string literal *)

Section LiteralText.
Import Lexer.

Lemma is_quote_not_backslash q : is_quote q -> q <> Py.backslash.
Proof. intros [->| ->]; discriminate. Qed.

Lemma string_body_loop q src closed body v :
  q <> Py.backslash ->
  reads_as q closed body v ->
  forall pre rest lx acc k,
    at_position src pre (body +:+ literal_tail q closed rest) lx ->
    String.length body < k ->
    exists lx',
      loop k (string_body (Some q)) (lx, acc) = Some (lx', acc +:+ v)
      /\ at_position src (pre +:+ body) (literal_tail q closed rest) lx'.
Proof.
  intros Hqb.
  induction 1 as [closed|closed c body v Hq Hb _ IH|closed e body v _ IH|];
    intros pre rest lx acc k Hat Hk.
  - rewrite string_app_nil_l in Hat. destruct k as [|k]; [cbn in Hk; lia|].
    exists lx. rewrite !string_app_nil_r. split; [|exact Hat].
    cbn [loop string_body]. destruct closed; cbn [literal_tail] in Hat.
    + rewrite (at_position_current _ _ _ _ _ Hat).
      rewrite bool_decide_eq_true_2 by reflexivity. reflexivity.
    + rewrite (at_position_end _ _ _ Hat). reflexivity.
  - rewrite string_app_cons in Hat. destruct k as [|k]; [lia|].
    cbn [String.length] in Hk. cbn [loop string_body].
    rewrite (at_position_current _ _ _ _ _ Hat).
    rewrite bool_decide_eq_false_2 by congruence. cbn [negb].
    replace (Ascii.eqb c Py.backslash) with false
      by (symmetry; apply Ascii.eqb_neq; exact Hb).
    cbn [andb].
    destruct (IH (pre +:+ String c "") rest (advance lx)
                (acc +:+ Py.char_str c) k)
      as (lx' & Hloop & Hat'); [|lia|].
    { apply advance_at_position. exact Hat. }
    exists lx'. rewrite Hloop. unfold Py.char_str.
    rewrite string_app_assoc, string_app_cons, string_app_nil_l.
    split; [reflexivity|].
    rewrite string_app_assoc, string_app_cons, string_app_nil_l in Hat'.
    exact Hat'.
  - rewrite !string_app_cons in Hat. destruct k as [|k]; [lia|].
    cbn [String.length] in Hk. cbn [loop string_body].
    rewrite (at_position_current _ _ _ _ _ Hat).
    rewrite bool_decide_eq_false_2 by congruence. cbn [negb].
    rewrite (at_position_peek _ _ _ _ _ Hat). cbn [String.get].
    rewrite Ascii.eqb_refl, bool_decide_eq_true_2 by discriminate.
    cbn [andb]. cbv zeta.
    pose proof (advance_at_position _ _ _ _ _ Hat) as Hat1.
    rewrite (at_position_current _ _ _ _ _ Hat1).
    pose proof (advance_at_position _ _ _ _ _ Hat1) as Hat2.
    destruct (IH _ rest (advance (advance lx))
                (acc +:+ Py.char_str (escape_map e)) k Hat2)
      as (lx' & Hloop & Hat'); [lia|].
    exists lx'. rewrite Hloop. unfold Py.char_str.
    rewrite string_app_assoc, string_app_cons, string_app_nil_l.
    split; [reflexivity|].
    rewrite !string_app_assoc, !string_app_cons, !string_app_nil_l in Hat'.
    exact Hat'.
  - cbn [literal_tail] in *. rewrite string_app_nil_r in Hat.
    cbn [String.length] in Hk.
    destruct k as [|[|k]]; [lia | lia |].
    cbn [loop string_body].
    rewrite (at_position_current _ _ _ _ _ Hat).
    rewrite bool_decide_eq_false_2 by congruence. cbn [negb].
    rewrite (at_position_peek _ _ _ _ _ Hat). cbn [String.get].
    rewrite Ascii.eqb_refl.
    rewrite (bool_decide_eq_false_2 (None <> None))
      by (intros H; apply H; reflexivity).
    cbn [andb loop string_body].
    pose proof (advance_at_position _ _ _ _ _ Hat) as Hat1.
    rewrite (at_position_end _ _ _ Hat1).
    exists (advance lx). split; [reflexivity | exact Hat1].
Qed.

(** The loop of [string] over a literal whose body reads as [v]. *)
Lemma string_reads_body (q : ascii) (src pre : String.string)
    (closed : bool) (body v rest : String.string) (lx : Lexer) :
  is_quote q ->
  reads_as q closed body v ->
  at_position src pre (String q (body +:+ literal_tail q closed rest)) lx ->
  exists lx',
    loop (fuel lx) (string_body (current_char lx)) (advance lx, "")
    = Some (lx', v)
    /\ at_position src (pre +:+ String q body) (literal_tail q closed rest)
         lx'.
Proof.
  intros Hq Hbody Hat.
  rewrite (at_position_fuel _ _ _ _ Hat), (at_position_current _ _ _ _ _ Hat).
  pose proof (advance_at_position _ _ _ _ _ Hat) as Hat1.
  destruct (string_body_loop q src closed body v
              (is_quote_not_backslash q Hq) Hbody
              (pre +:+ String q "") rest (advance lx) ""
              (S (String.length src)) Hat1) as (lx' & Hloop & Hat').
  - pose proof (at_position_bound _ _ _ _ Hat1) as Hb.
    rewrite string_length_app in Hb. lia.
  - exists lx'. rewrite Hloop, string_app_nil_l. split; [reflexivity|].
    rewrite string_app_assoc, string_app_cons, string_app_nil_l in Hat'.
    exact Hat'.
Qed.

(** What [string] returns for a literal whose body reads as [v]. *)
Lemma string_reads (q : ascii) (src pre : String.string) (closed : bool)
    (body v rest : String.string) (lx : Lexer) :
  is_quote q ->
  reads_as q closed body v ->
  at_position src pre (String q (body +:+ literal_tail q closed rest)) lx ->
  exists lx',
    string lx
    = Some (mkToken (if closed then STRING else ERROR) v (line lx)
              (column lx), lx')
    /\ at_position src (pre +:+ String q (body +:+ literal_tail q closed ""))
         (if closed then rest else "") lx'.
Proof.
  intros Hq Hbody Hat. unfold string. cbv zeta.
  change (loop ?k _ ?s) with (loop k (string_body (current_char lx)) s).
  destruct (string_reads_body q src pre closed body v rest lx Hq Hbody Hat)
    as (lx' & -> & Hat').
  destruct closed; cbn [literal_tail] in *.
  - rewrite (at_position_current _ _ _ _ _ Hat').
    exists (advance lx'). split; [reflexivity|].
    apply advance_at_position in Hat'.
    rewrite string_app_assoc in Hat'. exact Hat'.
  - rewrite (at_position_end _ _ _ Hat').
    exists lx'. split; [reflexivity|].
    rewrite string_app_nil_r. exact Hat'.
Qed.

(** Every text after an opening quote is a body that reads as some
    value, followed by the closing quote or by the end of the
    source. *)
Lemma reads_as_total (q : ascii) (rest0 : String.string) :
  exists closed body v rest,
    rest0 = body +:+ literal_tail q closed rest /\ reads_as q closed body v.
Proof.
  remember (String.length rest0) as n eqn:Hn.
  assert (Hle : String.length rest0 <= n) by lia. clear Hn.
  revert rest0 Hle. induction n as [|n IH]; intros rest0 Hle.
  - destruct rest0; [|cbn in Hle; lia].
    exists false, "", "", "". split; [reflexivity | constructor].
  - destruct rest0 as [|c r].
    { exists false, "", "", "". split; [reflexivity | constructor]. }
    cbn [String.length] in Hle.
    destruct (ascii_dec c q) as [->|Hq].
    { exists true, "", "", r. split; [reflexivity | constructor]. }
    destruct (ascii_dec c Py.backslash) as [->|Hb].
    + destruct r as [|e r'].
      { exists false, (String Py.backslash ""), (String Py.backslash ""), "".
        split; [reflexivity | apply reads_last_backslash]. }
      cbn [String.length] in Hle.
      destruct (IH r') as (closed & body & v & rest & -> & Hr); [lia|].
      exists closed, (String Py.backslash (String e body)),
        (String (escape_map e) v), rest.
      split; [reflexivity | apply reads_escape; exact Hr].
    + destruct (IH r) as (closed & body & v & rest & -> & Hr); [lia|].
      exists closed, (String c body), (String c v), rest.
      split; [reflexivity | apply reads_plain; assumption].
Qed.

(** [string] on any text after a quote: the token carries what the
    body of the literal reads as. *)
Lemma string_scans src pre q rest0 lx :
  is_quote q ->
  at_position src pre (String q rest0) lx ->
  exists closed body rest' lx' tok,
    string lx = Some (tok, lx')
    /\ reached src pre (String q rest0)
         (String q (body +:+ literal_tail q closed "")) rest' lx'
    /\ tline tok = line lx /\ tcolumn tok = column lx
    /\ type tok = (if closed then STRING else ERROR)
    /\ reads_as q closed body (value tok)
    /\ (closed = false -> rest' = "").
Proof.
  intros Hq Hat.
  destruct (reads_as_total q rest0) as (closed & body & v & rest & -> & Hr).
  destruct (string_reads q src pre closed body v rest lx Hq Hr Hat)
    as (lx' & Hrun & Hat').
  eexists closed, body, (if closed then rest else ""), lx', _.
  split; [exact Hrun|]. split.
  { split; [|exact Hat'].
    destruct closed; cbn [literal_tail].
    - rewrite string_app_cons, string_app_assoc, string_app_cons,
        string_app_nil_l. reflexivity.
    - rewrite !string_app_nil_r. reflexivity. }
  cbn [tline tcolumn type value].
  repeat (split; [reflexivity|]). split; [exact Hr|].
  intros ->. reflexivity.
Qed.

(** A body reads as one value only. *)
Lemma reads_as_functional q closed body v v' :
  reads_as q closed body v -> reads_as q closed body v' -> v = v'.
Proof.
  intros H. revert v'.
  induction H as [closed|closed c body v Hq Hb _ IH|closed e body v _ IH|];
    intros v' H'; inversion H'; subst; try congruence.
  - f_equal. apply IH. assumption.
  - f_equal. apply IH. assumption.
Qed.

Lemma reads_as_escape q v : is_quote q -> reads_as q true (escape q v) v.
Proof.
  intros Hq. induction v as [|c v IH]; cbn [escape]; [apply reads_nil|].
  destruct (Ascii.eqb c Py.backslash || Ascii.eqb c q) eqn:E.
  - assert (He : escape_map c = c).
    { apply orb_true_iff in E as [E|E]; apply Ascii.eqb_eq in E; subst c;
        [reflexivity|]. destruct Hq as [->| ->]; reflexivity. }
    rewrite <- He at 2. apply reads_escape. exact IH.
  - apply orb_false_iff in E as [E1 E2].
    apply Ascii.eqb_neq in E1, E2. apply reads_plain; assumption.
Qed.

End LiteralText.

(** ** The loop of [tokenize] *)

Section Tokenize.
Import Lexer.

Lemma keywords_not_STRING (s : String.string) :
  default IDENTIFIER (keywords !! s) <> STRING.
Proof.
  destruct (keywords !! s) as [ty|] eqn:H; [|discriminate].
  cbn. intros ->. unfold keywords in H.
  apply elem_of_list_to_map_2 in H.
  repeat (apply elem_of_cons in H as [H|H]; [discriminate H|]).
  inversion H.
Qed.

Lemma keywords_not_EOF (s : String.string) :
  default IDENTIFIER (keywords !! s) <> EOF.
Proof.
  destruct (keywords !! s) as [ty|] eqn:H; [|discriminate].
  cbn. intros ->. unfold keywords in H.
  apply elem_of_list_to_map_2 in H.
  repeat (apply elem_of_cons in H as [H|H]; [discriminate H|]).
  inversion H.
Qed.

Lemma token_ok_intro src pre rest text rest' lx lx' tok :
  at_position src pre rest lx ->
  reached src pre rest text rest' lx' ->
  text <> "" ->
  tline tok = line lx -> tcolumn tok = column lx ->
  type tok <> EOF ->
  ((type tok <> STRING /\ value tok = text)
   \/ (type tok = FLOAT /\ (exists digits, text = digits +:+ ".")
       /\ value tok = text +:+ "0")
   \/ (exists q closed body,
         is_quote q
         /\ text = String q (body +:+ literal_tail q closed "")
         /\ reads_as q closed body (value tok)
         /\ type tok = (if closed then STRING else ERROR)
         /\ (closed = false -> rest' = ""))) ->
  token_ok src tok.
Proof.
  intros (Hsrc & _ & _ & Hlc & _) [Hrest _] Hne Hl Hc Hty Hval.
  split; [exact Hty|]. exists pre, text, rest'.
  split; [rewrite Hsrc, Hrest; reflexivity|].
  split; [exact Hne|]. split; [rewrite Hl, Hc; exact Hlc | exact Hval].
Qed.

Lemma Forall_snoc_ok src tokens tok :
  Forall (token_ok src) tokens -> token_ok src tok ->
  Forall (token_ok src) (tokens ++ [tok]).
Proof.
  intros H1 H2. apply Forall_app. split; [exact H1|].
  constructor; [exact H2 | constructor].
Qed.

Lemma emit_ok src pre c x rest lx tokens ty :
  at_position src pre (String c rest) lx ->
  Forall (token_ok src) tokens ->
  Ascii.eqb c x = true -> ty <> EOF -> ty <> STRING ->
  step_ok src pre (String c rest) (emit ty (String x "") lx tokens).
Proof.
  intros Hat Hall Hc Hty Hs. apply Ascii.eqb_eq in Hc. subst x.
  pose proof (reached_advance _ _ _ _ _ _ _ (reached_start _ _ _ _ Hat))
    as Hnext.
  rewrite string_app_nil_l in Hnext.
  eexists _, _, _, _. split; [reflexivity|]. split; [exact Hnext|].
  split; [discriminate|]. apply Forall_snoc_ok; [exact Hall|].
  eapply token_ok_intro; try eassumption; try reflexivity; try discriminate.
  left. split; [exact Hs | reflexivity].
Qed.

Lemma emit2_ok src pre c x y rest lx tokens ty :
  at_position src pre (String c rest) lx ->
  Forall (token_ok src) tokens ->
  Ascii.eqb c x = true -> is_char (peek lx) y = true -> ty <> EOF ->
  ty <> STRING ->
  step_ok src pre (String c rest)
    (emit2 ty (String x (String y "")) lx tokens).
Proof.
  intros Hat Hall Hc Hpk Hty Hs. apply Ascii.eqb_eq in Hc. subst x.
  rewrite (at_position_peek _ _ _ _ _ Hat) in Hpk.
  destruct (is_char_get_0 _ _ Hpk) as [rest2 ->].
  pose proof (reached_advance _ _ _ _ _ _ _ (reached_start _ _ _ _ Hat))
    as Hnext.
  apply reached_advance in Hnext. rewrite string_app_nil_l in Hnext.
  eexists _, _, _, _. split; [reflexivity|]. split; [exact Hnext|].
  split; [discriminate|]. apply Forall_snoc_ok; [exact Hall|].
  eapply token_ok_intro; try eassumption; try reflexivity; try discriminate.
  left. split; [exact Hs | reflexivity].
Qed.

Lemma tokenize_body_ok src pre c rest lx tokens :
  at_position src pre (String c rest) lx ->
  Forall (token_ok src) tokens ->
  step_ok src pre (String c rest) (tokenize_body (lx, tokens)).
Proof.
  intros Hat Hall. unfold tokenize_body.
  rewrite (at_position_current _ _ _ _ _ Hat).
  destruct (Py.isspace c) eqn:Hspace.
  { destruct (skip_whitespace_reaches _ _ _ _ Hat)
      as (text & rest' & lx' & Hrun & Hreach & Hne).
    unfold skip. rewrite Hrun. exists text, rest', lx', tokens.
    split; [reflexivity|]. split; [exact Hreach|].
    split; [exact (Hne c rest eq_refl Hspace) | exact Hall]. }
  destruct (Ascii.eqb c "/"
            && (is_char (peek lx) "/" || is_char (peek lx) "*")) eqn:Hcomment.
  { apply andb_true_iff in Hcomment as [Hc Hpk].
    apply Ascii.eqb_eq in Hc. subst c.
    destruct (skip_comment_reaches _ _ _ _ Hat Hpk)
      as (text & rest' & lx' & Hrun & Hreach & Hne).
    unfold skip. rewrite Hrun. exists text, rest', lx', tokens. auto. }
  destruct (Py.isalpha c || Ascii.eqb c "_") eqn:Halpha.
  { destruct (identifier_reaches _ _ _ _ _ Hat Halpha)
      as (text & rest' & lx' & Hrun & Hreach & Hne).
    unfold scan. rewrite Hrun. eexists text, rest', lx', _.
    split; [reflexivity|]. split; [exact Hreach|]. split; [exact Hne|].
    apply Forall_snoc_ok; [exact Hall|].
    eapply token_ok_intro; try eassumption; try reflexivity.
    - apply keywords_not_EOF.
    - left. split; [apply keywords_not_STRING | reflexivity]. }
  destruct (Py.isdigit c) eqn:Hdigit.
  { destruct (number_reaches _ _ _ _ _ Hat Hdigit)
      as (text & rest' & lx' & tok & Hrun & Hreach & Hne & Hl & Hc & Hty
          & Hval).
    unfold scan. rewrite Hrun. eexists text, rest', lx', _.
    split; [reflexivity|]. split; [exact Hreach|]. split; [exact Hne|].
    apply Forall_snoc_ok; [exact Hall|].
    eapply token_ok_intro; try eassumption.
    - destruct Hty as [-> | ->]; discriminate.
    - destruct Hval as [Hv | Hv]; [left | right; left; exact Hv].
      split; [destruct Hty as [-> | ->]; discriminate | exact Hv]. }
  destruct (Ascii.eqb c Py.double_quote || Ascii.eqb c Py.single_quote)
    eqn:Hquote.
  { assert (Hq : is_quote c).
    { apply orb_true_iff in Hquote.
      destruct Hquote as [H|H]; apply Ascii.eqb_eq in H; [left|right];
        exact H. }
    destruct (string_scans _ _ _ _ _ Hq Hat)
      as (closed & body & rest' & lx' & tok & Hrun & Hreach & Hl & Hc & Hty
          & Hr & Hend).
    unfold scan. rewrite Hrun. eexists _, rest', lx', _.
    split; [reflexivity|]. split; [exact Hreach|]. split; [discriminate|].
    apply Forall_snoc_ok; [exact Hall|].
    eapply token_ok_intro; try eassumption; try discriminate.
    - rewrite Hty. destruct closed; discriminate.
    - right. right. exists c, closed, body. auto. }
  repeat match goal with
         | |- step_ok _ _ _ (if Ascii.eqb c ?x && ?b then _ else _) =>
             let H := fresh "Hc" in
             destruct (Ascii.eqb c x && b) eqn:H;
             [apply andb_true_iff in H as [? ?];
              eapply emit2_ok; solve [eassumption | discriminate]|]
         | |- step_ok _ _ _ (if Ascii.eqb c ?x then _ else _) =>
             let H := fresh "Hc" in
             destruct (Ascii.eqb c x) eqn:H;
             [first [eapply emit_ok; solve [eassumption | discriminate]
                    | let Hp := fresh "Hp" in
                      destruct (is_char (peek lx) "=") eqn:Hp;
                      [eapply emit2_ok | eapply emit_ok];
                      solve [eassumption | discriminate]]|]
         end.
  unfold Py.char_str.
  eapply emit_ok; first [eassumption | discriminate | apply Ascii.eqb_refl].
Qed.

End Tokenize.

Section TokenizeResult.
Import Lexer.

(** [tokenize] returns: the tokens read from the source, each
    [token_ok], and then one EOF token placed after the last
    character. *)
Lemma lex_returns (src : String.string) :
  exists tokens,
    lex src
    = Some (tokens
            ++ [mkToken EOF "" (fst (position_of src)) (snd (position_of src))])
    /\ Forall (token_ok src) tokens.
Proof.
  unfold lex, tokenize.
  pose proof (at_position_init src) as Hinit.
  rewrite (at_position_fuel _ _ _ _ Hinit).
  destruct
    (loop_returns
       (fun '(lx, tokens) =>
          (exists pre rest, at_position src pre rest lx)
          /\ Forall (token_ok src) tokens)
       (fun '(lx, tokens) =>
          at_position src src "" lx /\ Forall (token_ok src) tokens)
       (fun s => remaining (fst s))
       tokenize_body)
    with (fuel := S (String.length src)) (s := (init src, @nil Token))
    as ([lx' tokens] & Hloop & Hat & Hall).
  - intros [lx tokens] [(pre & rest & Hat) Hall].
    destruct rest as [|c rest].
    + right. exists (lx, tokens). unfold tokenize_body.
      rewrite (at_position_end _ _ _ Hat). split; [reflexivity|].
      split; [|exact Hall].
      pose proof Hat as (Hsrc & _). rewrite string_app_nil_r in Hsrc.
      subst pre. exact Hat.
    + left.
      destruct (tokenize_body_ok _ _ _ _ _ _ Hat Hall)
        as (text & rest' & lx1 & tokens1 & Hrun & Hreach & Hne & Hall1).
      exists (lx1, tokens1). split; [exact Hrun|].
      split; [split; [exists (pre +:+ text), rest'; exact (proj2 Hreach)
                     | exact Hall1]|].
      cbn [fst]. rewrite (reached_remaining _ _ _ _ _ _ Hreach),
        (at_position_remaining _ _ _ _ Hat), (proj1 Hreach),
        string_length_app.
      destruct text; [congruence | cbn; lia].
  - split; [exists "", src; exact Hinit | constructor].
  - cbn [fst]. rewrite (at_position_remaining _ _ _ _ Hinit). lia.
  - rewrite Hloop. exists tokens. split; [|exact Hall].
    destruct Hat as (_ & _ & _ & Hlc & _). rewrite <- Hlc. reflexivity.
Qed.

(** An iteration of the loop of [tokenize] keeps the tokens it was
    given, and stops only at the end of the source. *)
Lemma tokenize_body_extends lx tokens r :
  tokenize_body (lx, tokens) = Some r ->
  match r with
  | Continue (_, tokens') => exists more, tokens' = tokens ++ more
  | Break s => s = (lx, tokens)
  end.
Proof.
  unfold tokenize_body.
  destruct (current_char lx) as [c|]; [|intros [= <-]; reflexivity].
  unfold skip, scan, emit, emit2. intros H.
  repeat match type of H with
         | (if ?b then _ else _) = _ => destruct b
         | match ?x with _ => _ end = _ => destruct x
         end;
    try discriminate H; injection H as <-; cbn;
    solve [exists []; symmetry; apply app_nil_r | eexists; reflexivity].
Qed.

Lemma loop_extends (f : nat) :
  forall lx tokens lx' tokens',
    loop f tokenize_body (lx, tokens) = Some (lx', tokens') ->
    exists more, tokens' = tokens ++ more.
Proof.
  induction f as [|f IH]; intros lx tokens lx' tokens' H; [discriminate H|].
  cbn [loop] in H.
  destruct (tokenize_body (lx, tokens)) as [[[lx1 tokens1]|s1]|] eqn:E;
    [| |discriminate H]; apply tokenize_body_extends in E.
  - destruct E as [more ->]. destruct (IH _ _ _ _ H) as [more' ->].
    exists (more ++ more'). rewrite app_assoc. reflexivity.
  - subst s1. injection H as <- <-. exists []. symmetry. apply app_nil_r.
Qed.

(** The run of the loop goes through each of its states. *)
Lemma loop_state_result src lx tokens r :
  loop_state src lx tokens ->
  loop (fuel (init src)) tokenize_body (init src, []) = Some r ->
  exists f, loop f tokenize_body (lx, tokens) = Some r.
Proof.
  intros Hstate Hrun. induction Hstate as [|lx tokens lx' tokens' _ IH Hstep].
  - eauto.
  - destruct IH as [[|f] Hf]; [discriminate Hf|].
    cbn [loop] in Hf. rewrite Hstep in Hf. eauto.
Qed.

Lemma loop_state_at_position src lx tokens :
  loop_state src lx tokens ->
  (exists pre rest, at_position src pre rest lx)
  /\ Forall (token_ok src) tokens.
Proof.
  induction 1 as [|lx tokens lx' tokens' _ [(pre & rest & Hat) Hall] Hstep].
  - split; [exists "", src; apply at_position_init | constructor].
  - destruct rest as [|c rest].
    + unfold tokenize_body in Hstep.
      rewrite (at_position_end _ _ _ Hat) in Hstep. discriminate Hstep.
    + destruct (tokenize_body_ok _ _ _ _ _ _ Hat Hall)
        as (text & rest' & lx1 & tokens1 & Hrun & Hreach & _ & Hall1).
      rewrite Hstep in Hrun. injection Hrun as -> ->.
      split; [exists (pre +:+ text), rest'; exact (proj2 Hreach)
             | exact Hall1].
Qed.

(** In a state whose current character matches no token rule, an
    iteration appends the ERROR token of that character. *)
Lemma tokenize_body_no_rule lx tokens c :
  current_char lx = Some c ->
  no_token_rule c (peek lx) ->
  tokenize_body (lx, tokens)
  = Some (Continue
            (advance lx,
             tokens ++ [mkToken ERROR (String c "") (line lx) (column lx)])).
Proof.
  intros Hcur (Hspace & Halpha & Hdigit & Hquote & Hops & Hand & Hor).
  unfold tokenize_body. rewrite Hcur, Hspace, Halpha, Hdigit.
  assert (Hneq : forall x,
            x ∈ [Py.double_quote; Py.single_quote]
                ++ String.list_ascii_of_string "_+-*/%=!<>(){}[],.;:" ->
            Ascii.eqb c x = false).
  { intros x Hx. destruct (Ascii.eqb c x) eqn:E; [|reflexivity].
    apply Ascii.eqb_eq in E. subst x.
    apply elem_of_app in Hx as [Hx|Hx]; contradiction. }
  repeat match goal with
         | |- context [Ascii.eqb c ?x] =>
             rewrite (Hneq x)
               by (apply (bool_decide_unpack _); vm_compute; exact I)
         end.
  cbn [andb orb].
  assert (Hamp : Ascii.eqb c "&" && is_char (peek lx) "&" = false).
  { destruct (Ascii.eqb c "&") eqn:E; [|reflexivity].
    apply Ascii.eqb_eq in E. specialize (Hand E).
    destruct (peek lx) as [a|]; [|reflexivity]. cbn.
    destruct (Ascii.eqb a "&") eqn:E2; [|reflexivity].
    apply Ascii.eqb_eq in E2. congruence. }
  assert (Hbar : Ascii.eqb c "|" && is_char (peek lx) "|" = false).
  { destruct (Ascii.eqb c "|") eqn:E; [|reflexivity].
    apply Ascii.eqb_eq in E. specialize (Hor E).
    destruct (peek lx) as [a|]; [|reflexivity]. cbn.
    destruct (Ascii.eqb a "|") eqn:E2; [|reflexivity].
    apply Ascii.eqb_eq in E2. congruence. }
  rewrite Hamp, Hbar. reflexivity.
Qed.

(** C7: for every source [tokenize] returns a list; the list ends with
    an EOF token and holds no other EOF token; and every character at
    which the loop of [tokenize] stands and which matches no token
    rule gives an ERROR token of the returned list whose value is that
    one character, placed at the character's line and column in the
    source.  In any state of the lexer whose current character matches
    no token rule, the loop appends that token and moves past the
    character. *)
Theorem tokenize_returns (src : String.string) :
  (exists tokens eof,
     lex src = Some (tokens ++ [eof])
     /\ type eof = EOF
     /\ Forall (fun t => type t <> EOF) tokens
     /\ forall lx seen c,
          loop_state src lx seen ->
          current_char lx = Some c ->
          no_token_rule c (peek lx) ->
          mkToken ERROR (String c "") (line lx) (column lx) ∈ tokens
          /\ exists pre rest,
               src = pre +:+ String c rest
               /\ (line lx, column lx) = position_of pre)
  /\ (forall lx tokens c,
        current_char lx = Some c ->
        no_token_rule c (peek lx) ->
        tokenize_body (lx, tokens)
        = Some (Continue
                  (advance lx,
                   tokens ++ [mkToken ERROR (String c "") (line lx)
                                (column lx)]))).
Proof.
  split; [|apply tokenize_body_no_rule].
  destruct (lex_returns src) as (tokens & Hlex & Hall).
  eexists tokens, _. split; [exact Hlex|]. split; [reflexivity|].
  split.
  { eapply Forall_impl; [exact Hall|]. intros t [Ht _]. exact Ht. }
  intros lx seen c Hstate Hcur Hrule.
  unfold lex, tokenize in Hlex.
  destruct (loop (fuel (init src)) tokenize_body (init src, []))
    as [[lx_end tokens_end]|] eqn:Hrun; [|discriminate Hlex].
  injection Hlex as Hlex. apply app_inj_tail in Hlex as [<- _].
  split.
  - pose proof (loop_next src lx seen _ _ Hstate
                  (tokenize_body_no_rule lx seen c Hcur Hrule)) as Hnext.
    destruct (loop_state_result _ _ _ _ Hnext Hrun) as [f Hf].
    destruct (loop_extends _ _ _ _ _ Hf) as [more ->].
    apply elem_of_app. left. apply elem_of_app. right.
    apply list_elem_of_here.
  - destruct (loop_state_at_position _ _ _ Hstate)
      as [(pre & rest & Hat) _].
    pose proof Hat as (Hsrc & _ & _ & Hlc & Hget).
    rewrite Hcur in Hget. symmetry in Hget.
    destruct (get_0_Some _ _ Hget) as [rest' ->].
    exists pre, rest'. split; [exact Hsrc | exact Hlc].
Qed.

(** In [a@] the loop stands at [@] after the identifier, and the
    returned list holds the ERROR token of [@] at 1:2. *)
Lemma tokenize_returns_witness :
  exists tokens eof,
    lex stray_character_source = Some (tokens ++ [eof])
    /\ mkToken ERROR "@" 1 2 ∈ tokens.
Proof.
  destruct (tokenize_returns stray_character_source)
    as [(tokens & eof & Hlex & _ & _ & Herror) _].
  exists tokens, eof. split; [exact Hlex|].
  refine (proj1 (Herror (advance (init stray_character_source))
                   [mkToken IDENTIFIER "a" 1 1] "@"%char _ eq_refl _)).
  - eapply loop_next; [apply loop_start | reflexivity].
  - repeat split; try reflexivity; try discriminate;
      apply (bool_decide_unpack _); vm_compute; exact I.
Defined.

End TokenizeResult.

(** ** Tokens and the source text *)

Section TokenText.
Import Lexer.




End TokenText.

(** ** What [Parser.parse] catches *)

Section ParserRuns.
Import Parser.

Lemma parser_ok_peek p :
  parser_ok p ->
  exists t, Parser.peek p = Returned t p
            /\ tokens p !! current p = Some t
            /\ (Lexer.type t = EOF <-> tokens_left p = 1).
Proof.
  intros (body & eof & Htok & Heof & Hbody & Hcur).
  unfold peek, subscript, index, tokens_left.
  rewrite (proj2 (Z.leb_le 0 _)) by lia. rewrite Nat2Z.id, Htok.
  rewrite length_app. cbn [length].
  destruct (decide (current p < length body)) as [Hlt|Hge].
  - destruct (lookup_lt_is_Some_2 body _ Hlt) as [t Ht].
    rewrite lookup_app_l by exact Hlt. rewrite Ht. exists t.
    split; [reflexivity|]. split; [reflexivity|].
    rewrite Forall_forall in Hbody.
    pose proof (Hbody t (list_elem_of_lookup_2 _ _ _ Ht)). split; [tauto | lia].
  - assert (current p = length body) as -> by lia.
    rewrite list_lookup_middle by reflexivity. exists eof.
    split; [reflexivity|]. split; [reflexivity|]. split; [lia | tauto].
Qed.

Lemma parser_ok_is_at_end p :
  parser_ok p ->
  is_at_end p = Returned (bool_decide (tokens_left p = 1)) p.
Proof.
  intros Hok. destruct (parser_ok_peek p Hok) as (t & Hpeek & _ & Hiff).
  unfold is_at_end, bind, ret. rewrite Hpeek. f_equal.
  apply bool_decide_ext. exact Hiff.
Qed.

Lemma parser_ok_previous p :
  parser_ok p ->
  exists t, index (tokens p) (Z.of_nat (current p) - 1) = Some t
            /\ previous p = Returned t p.
Proof.
  intros (body & eof & Htok & _ & _ & Hcur).
  assert (Hidx : exists t,
            index (tokens p) (Z.of_nat (current p) - 1) = Some t).
  { unfold index. rewrite Htok, length_app. cbn [length].
    destruct (current p) as [|k] eqn:Hk.
    - rewrite (proj2 (Z.leb_gt 0 _)) by lia.
      replace (Z.to_nat (Z.of_nat (length body + 1) + (Z.of_nat 0 - 1)))
        with (length body) by lia.
      rewrite list_lookup_middle by reflexivity. eauto.
    - rewrite (proj2 (Z.leb_le 0 _)) by lia.
      replace (Z.to_nat (Z.of_nat (S k) - 1)) with k by lia.
      rewrite lookup_app_l by lia.
      destruct (lookup_lt_is_Some_2 body k ltac:(lia)) as [t ->]. eauto. }
  destruct Hidx as [t Ht]. exists t. split; [exact Ht|].
  unfold previous, subscript. rewrite Ht. reflexivity.
Qed.

Lemma parser_ok_step p :
  parser_ok p -> tokens_left p <> 1 ->
  parser_ok (mkParser (tokens p) (S (current p)) (errors p)).
Proof.
  intros (body & eof & Htok & Heof & Hbody & Hcur) Hleft.
  exists body, eof. cbn. repeat split; try assumption.
  unfold tokens_left in Hleft. rewrite Htok, length_app in Hleft.
  cbn in Hleft. lia.
Qed.

Lemma parser_ok_errors p errs :
  parser_ok p -> parser_ok (mkParser (tokens p) (current p) errs).
Proof. intros (body & eof & H). exists body, eof. exact H. Qed.

Lemma parser_ok_left p : parser_ok p -> 1 <= tokens_left p.
Proof.
  intros (body & eof & Htok & _ & _ & Hcur). unfold tokens_left.
  rewrite Htok, length_app. cbn. lia.
Qed.

(** [advance] moves one token on unless the parser is at the end. *)
Lemma parser_ok_advance p :
  parser_ok p ->
  exists t p',
    advance p = Returned t p'
    /\ parser_ok p' /\ tokens p' = tokens p /\ errors p' = errors p
    /\ (if bool_decide (tokens_left p = 1) then p' = p
        else current p' = S (current p)).
Proof.
  intros Hok. unfold advance. unfold bind at 1.
  rewrite (parser_ok_is_at_end p Hok).
  case_bool_decide as Hend; unfold bind, ret.
  - destruct (parser_ok_previous p Hok) as (t & _ & Ht). rewrite Ht.
    exists t, p. auto.
  - pose proof (parser_ok_step p Hok Hend) as Hok'.
    destruct (parser_ok_previous _ Hok') as (t & _ & Ht). rewrite Ht.
    eexists t, _. repeat split; [exact Hok'|..]; reflexivity.
Qed.

Lemma parser_ok_check p ty :
  parser_ok p -> exists b, check ty p = Returned b p.
Proof.
  intros Hok. unfold check, bind, ret.
  rewrite (parser_ok_is_at_end p Hok).
  case_bool_decide; [eauto|].
  destruct (parser_ok_peek p Hok) as (t & -> & _). eauto.
Qed.

Lemma ends_from_refl {A} (a : A) p : parser_ok p -> ends_from p (Returned a p).
Proof. intros H. repeat split; [exact H | lia]. Qed.

Lemma parser_ok_consume p ty msg :
  parser_ok p -> ends_from p (consume ty msg p).
Proof.
  intros Hok. unfold consume. unfold bind at 1.
  destruct (parser_ok_check p ty Hok) as [b ->]. destruct b.
  - destruct (parser_ok_advance p Hok) as (t & p' & -> & Hok' & Htok & _ & Hmv).
    cbn. repeat split; [exact Hok' | exact Htok|].
    case_bool_decide; [subst; lia | lia].
  - unfold bind, raise. destruct (parser_ok_peek p Hok) as (t & -> & _).
    cbn. repeat split; [discriminate | exact Hok | lia].
Qed.

(** [primary] ends when the fuel covers the tokens left, and it has
    consumed a token unless it started at the end. *)
Lemma primary_ends (fuel : nat) :
  forall p,
    parser_ok p -> tokens_left p <= fuel ->
    ends_from p (primary fuel p)
    /\ (tokens_left p <> 1 ->
        current p < current (end_state p (primary fuel p))).
Proof.
  induction fuel as [|fuel IH]; intros p Hok Hfuel.
  { pose proof (parser_ok_left p Hok). lia. }
  cbn [primary]. cbv zeta. unfold bind, ret, raise.
  destruct (parser_ok_peek p Hok) as (token & Hpeek & _ & Heof).
  rewrite Hpeek. cbv beta iota.
  destruct (parser_ok_advance p Hok)
    as (t1 & p1 & Hadv & Hok1 & Htok1 & _ & Hmv).
  assert (Hcur1 : current p <= current p1)
    by (case_bool_decide; [subst; lia | lia]).
  assert (Hstrict : tokens_left p <> 1 -> current p < current p1)
    by (intros Hne; rewrite bool_decide_false in Hmv by exact Hne; lia).
  assert (Hsimple : forall (o : Outcome Ast.Expression),
            (exists e, o = Returned e p1) \/ (exists x, x <> IndexError
                                                       /\ o = Raised x p1) ->
            ends_from p o
            /\ (tokens_left p <> 1 -> current p < current (end_state p o))).
  { intros o [[e ->] | (x & Hx & ->)]; cbn; auto. }
  destruct (Lexer.type token) eqn:Hty; rewrite Hadv; cbv beta iota;
    try (apply Hsimple;
         solve [left; eauto | right; eexists; split; [|reflexivity];
                discriminate]).
  - destruct (Py.int (Lexer.value token)); apply Hsimple;
      [left; eauto | right; eexists; split; [|reflexivity]; discriminate].
  - destruct (Py.float (Lexer.value token)); apply Hsimple;
      [left; eauto | right; eexists; split; [|reflexivity]; discriminate].
  - assert (Hne : tokens_left p <> 1)
      by (intros H1; apply Heof in H1; congruence).
    specialize (Hstrict Hne).
    assert (Hleft1 : tokens_left p1 <= fuel).
    { unfold tokens_left in *. rewrite Htok1. lia. }
    destruct (IH p1 Hok1 Hleft1) as [Hends _].
    destruct (primary fuel p1) as [e p2|x p2|]; cbn in Hends; [| |tauto].
    + destruct Hends as (Hok2 & Htok2 & Hcur2).
      pose proof (parser_ok_consume p2 RPAREN "Expected ')' after expression."
                    Hok2) as Hc.
      destruct (consume RPAREN "Expected ')' after expression." p2)
        as [t3 p3|x p3|]; cbn in Hc |- *; [| |tauto].
      * destruct Hc as (H1 & H2 & H3).
        split; [repeat split; [exact H1 | congruence | lia]|]. intros _. lia.
      * destruct Hc as (H0 & H1 & H2 & H3).
        split; [repeat split; [exact H0 | exact H1 | congruence | lia]|].
        intros _. lia.
    + destruct Hends as (H0 & Hok2 & Htok2 & Hcur2). cbn.
      split; [repeat split; [exact H0 | exact Hok2 | congruence | lia]|].
      intros _. lia.
Qed.

Lemma declaration_ends (fuel : nat) p :
  parser_ok p -> tokens_left p <= fuel ->
  ends_from p (declaration fuel p)
  /\ (tokens_left p <> 1 ->
      current p < current (end_state p (declaration fuel p))).
Proof.
  intros Hok Hfuel.
  unfold declaration, statement, expression_statement, expression.
  destruct (primary_ends fuel p Hok Hfuel) as [Hends Hmv].
  unfold bind, ret.
  destruct (primary fuel p) as [e p1|x p1|]; cbn in Hends, Hmv;
    [| |tauto].
  - destruct Hends as (Hok1 & Htok1 & Hcur1).
    pose proof (parser_ok_consume p1 SEMICOLON "Expected ';' after expression."
                  Hok1) as Hc.
    destruct (consume SEMICOLON "Expected ';' after expression." p1)
      as [t2 p2|x p2|]; cbn in Hc |- *; [| |tauto].
    + destruct Hc as (H1 & H2 & H3).
      split; [repeat split; [exact H1 | congruence | lia]|].
      intros Hne. specialize (Hmv Hne). lia.
    + destruct Hc as (H0 & H1 & H2 & H3).
      split; [repeat split; [exact H0 | exact H1 | congruence | lia]|].
      intros Hne. specialize (Hmv Hne). lia.
  - cbn. split; [exact Hends | exact Hmv].
Qed.

(** [synchronize] returns, and it stops at the end of the tokens,
    after a semicolon, or before a token that starts a statement. *)
Lemma synchronize_loop_ends (fuel : nat) :
  forall p,
    parser_ok p -> tokens_left p <= fuel ->
    exists p',
      synchronize_loop fuel p = Returned tt p'
      /\ parser_ok p' /\ tokens p' = tokens p /\ errors p' = errors p
      /\ current p <= current p'
      /\ synchronized p'.
Proof.
  induction fuel as [|fuel IH]; intros p Hok Hfuel.
  { pose proof (parser_ok_left p Hok). lia. }
  cbn [synchronize_loop]. unfold bind, ret.
  rewrite (parser_ok_is_at_end p Hok).
  destruct (parser_ok_peek p Hok) as (t & Hpeek & Hcur & Heof).
  case_bool_decide as Hend.
  { exists p. repeat split; try assumption; try lia.
    left. exists t. split; [exact Hcur | tauto]. }
  destruct (parser_ok_previous p Hok) as (prev & Hidx & Hprev).
  rewrite Hprev. cbv beta iota.
  case_bool_decide as Hsemi.
  { exists p. repeat split; try assumption; try lia.
    right. left. exists prev. auto. }
  rewrite Hpeek. cbv beta iota. unfold statement_start.
  case_bool_decide as Hstart.
  { exists p. repeat split; try assumption; try lia.
    right. right. exists t. auto. }
  destruct (parser_ok_advance p Hok)
    as (t1 & p1 & Hadv & Hok1 & Htok1 & Herr1 & Hmv).
  rewrite bool_decide_false in Hmv by exact Hend.
  rewrite Hadv. cbv beta iota.
  destruct (IH p1 Hok1) as (p' & Hrun & Hok' & Htok' & Herr' & Hcur' & Hsync).
  { unfold tokens_left in *. rewrite Htok1. lia. }
  exists p'. rewrite Hrun.
  repeat split; try assumption; try congruence; lia.
Qed.

Lemma synchronize_ends (fuel : nat) p :
  parser_ok p -> tokens_left p <= fuel ->
  exists p',
    synchronize fuel p = Returned tt p'
    /\ parser_ok p' /\ tokens p' = tokens p /\ errors p' = errors p
    /\ current p <= current p'
    /\ synchronized p'.
Proof.
  intros Hok Hfuel. unfold synchronize, bind.
  destruct (parser_ok_advance p Hok)
    as (t1 & p1 & Hadv & Hok1 & Htok1 & Herr1 & Hmv).
  rewrite Hadv.
  assert (Hcur1 : current p <= current p1)
    by (case_bool_decide; [subst; lia | lia]).
  destruct (synchronize_loop_ends fuel p1 Hok1)
    as (p' & Hrun & Hok' & Htok' & Herr' & Hcur' & Hsync).
  { unfold tokens_left in *. rewrite Htok1. lia. }
  exists p'. rewrite Hrun.
  repeat split; try assumption; try congruence; lia.
Qed.

(** A run of the [try] statement of [parse] returns, having consumed a
    token, or ends with the [ValueError] of a literal. *)
Lemma try_declaration_ends (depth : nat) stmts p :
  parser_ok p -> tokens_left p <= depth -> tokens_left p <> 1 ->
  (exists stmts' p',
     try_declaration depth stmts p = Returned stmts' p'
     /\ parser_ok p' /\ tokens p' = tokens p /\ current p < current p')
  \/ (exists p', try_declaration depth stmts p = Raised ValueError p').
Proof.
  intros Hok Hdepth Hne. unfold try_declaration.
  destruct (declaration_ends depth p Hok Hdepth) as [Hends Hmv].
  specialize (Hmv Hne).
  destruct (declaration depth p) as [s p1|e p1|]; cbn in Hends, Hmv;
    [| |tauto].
  - destruct Hends as (Hok1 & Htok1 & _). left. eauto 10.
  - destruct Hends as (Hnot & Hok1 & Htok1 & _).
    destruct e as [error| |]; [|right; eauto|congruence].
    left.
    destruct (synchronize_ends depth
                (mkParser (tokens p1) (current p1) (errors p1 ++ [error])))
      as (p' & Hrun & Hok' & Htok' & _ & Hcur' & _).
    { apply parser_ok_errors. exact Hok1. }
    { unfold tokens_left in *. cbn. rewrite Htok1. lia. }
    rewrite Hrun. exists stmts, p'. cbn in *.
    repeat split; [exact Hok' | congruence | lia].
Qed.

Lemma parse_loop_ends (fuel depth : nat) :
  forall stmts p,
    parser_ok p -> tokens_left p <= fuel -> tokens_left p <= depth ->
    returns_or_ValueError (parse_loop fuel depth stmts p).
Proof.
  induction fuel as [|fuel IH]; intros stmts p Hok Hfuel Hdepth.
  { pose proof (parser_ok_left p Hok). lia. }
  cbn [parse_loop]. unfold bind, ret.
  rewrite (parser_ok_is_at_end p Hok).
  case_bool_decide as Hend; [exact I|].
  destruct (try_declaration_ends depth stmts p Hok Hdepth Hend)
    as [(stmts' & p' & -> & Hok' & Htok' & Hcur') | (p' & ->)];
    [|reflexivity].
  apply IH; [exact Hok' | |]; unfold tokens_left in *; rewrite Htok'; lia.
Qed.

(** For every source, [parse] returns a Program unless [int] or
    [float] raises [ValueError] on a literal: a [ParseError] never
    leaves the call, no subscript is out of range, and the run ends. *)
Lemma parse_returns_or_ValueError (src : string) :
  (exists program p, parse_source src = Returned program p)
  \/ (exists p, parse_source src = Raised ValueError p).
Proof.
  unfold parse_source, init.
  destruct (lex_returns src) as (body & -> & Hall).
  set (p0 := mkParser _ 0 []).
  assert (Hok : parser_ok p0).
  { eexists body, _. split; [reflexivity|]. split; [reflexivity|].
    split; [|unfold p0; cbn; lia].
    eapply Forall_impl; [exact Hall|]. intros t [Ht _]. exact Ht. }
  assert (Hfuel : tokens_left p0 <= fuel p0)
    by (unfold fuel, tokens_left; lia).
  pose proof (parse_loop_ends (fuel p0) (fuel p0) [] p0 Hok Hfuel Hfuel)
    as Hrun.
  unfold parse, bind, ret.
  destruct (parse_loop (fuel p0) (fuel p0) [] p0) as [stmts p'|e p'|];
    cbn in Hrun.
  - left. eauto.
  - right. rewrite Hrun. eauto.
  - contradiction.
Qed.

(** C4 at a failing input: on the source [superscript_two_source] the
    lexer returns an INTEGER token, since [isdigit] holds of U+00B2,
    and [int] of its text raises [ValueError] inside [primary];
    [parse] catches [ParseError] only, so the exception leaves the
    call and no Program is returned.  This [ValueError] is the one way
    in which [parse] as embedded here does not return a Program: for
    every source it returns one or raises [ValueError].  (In the
    source the interpreter's [RecursionError], on parentheses nested
    too deeply, is one more exception that [parse] does not catch.) *)
Theorem parse_propagates_ValueError :
  Lexer.lex superscript_two_source
  = Some [Lexer.mkToken Lexer.INTEGER superscript_two_source 1 1;
          Lexer.mkToken Lexer.EOF "" 1 2]
  /\ (exists p, parse_source superscript_two_source = Raised ValueError p)
  /\ (forall src,
        (exists program p, parse_source src = Returned program p)
        \/ (exists p, parse_source src = Raised ValueError p)).
Proof.
  split; [vm_compute; reflexivity|].
  split; [eexists; vm_compute; reflexivity|].
  exact parse_returns_or_ValueError.
Qed.

End ParserRuns.

(** ** The stores that the walks build *)

Section SoundStores.
Import Ast Symbols.

Lemma sound_define self symbol (h : Store) :
  sound_scopes h self -> sound_scopes (define self symbol h) self.
Proof.
  intros [Ho Hv]. split; [apply ordered_define; exact Ho|].
  rewrite define_length. exact Hv.
Qed.

Lemma sound_create_child (h : Store) self n :
  sound_scopes h self ->
  sound_scopes (fst (create_child_scope h self n))
    (snd (create_child_scope h self n)).
Proof.
  intros [Ho Hv]. split; [apply ordered_create_child; assumption|].
  apply create_child_scope_valid.
Qed.

Lemma sound_restore (h h' : Store) previous current :
  keeps_scopes h h' -> sound_scopes h previous -> sound_scopes h' current ->
  sound_scopes h' previous.
Proof.
  intros Hk [_ Hv] [Ho _]. split; [exact Ho|].
  exact (keeps_scopes_valid _ _ _ Hk Hv).
Qed.

End SoundStores.

Section TypeCheckerStores.
Import Ast Symbols TypeChecker.

Lemma tc_step_refl tc : tc_step tc tc.
Proof. split; [apply keeps_scopes_refl | auto]. Qed.

Lemma tc_step_trans tc1 tc2 tc3 :
  tc_step tc1 tc2 -> tc_step tc2 tc3 -> tc_step tc1 tc3.
Proof.
  intros [K1 S1] [K2 S2]. split; [eapply keeps_scopes_trans; eassumption|].
  auto.
Qed.

Lemma tc_step_only_errors tc tc' : only_errors tc tc' -> tc_step tc tc'.
Proof.
  intros (Hs & Ht & _). unfold tc_step. rewrite Hs, Ht.
  split; [apply keeps_scopes_refl | auto].
Qed.

Lemma tc_step_error msg l c tc : tc_step tc (error msg l c tc).
Proof. apply tc_step_only_errors, only_errors_error. Qed.

Lemma tc_step_define symbol tc : tc_step tc (define symbol tc).
Proof. split; [apply keeps_scopes_define | apply sound_define]. Qed.

Lemma tc_step_expression e tc : tc_step tc (snd (visit_expression e tc)).
Proof. apply tc_step_only_errors, visit_expression_only_errors. Qed.

Lemma tc_step_enter n tc : tc_step tc (enter_child_scope n tc).
Proof.
  split; [apply keeps_scopes_enter|]. unfold enter_child_scope.
  intros Hs.
  pose proof (sound_create_child (store tc) (symbol_table tc) n Hs) as H.
  destruct (create_child_scope (store tc) (symbol_table tc) n). exact H.
Qed.

Lemma tc_step_set_function f tc : tc_step tc (set_current_function f tc).
Proof. split; [apply keeps_scopes_refl | auto]. Qed.

(** Going back to the scope [tc0] was in, after steps from [tc0]. *)
Lemma tc_step_restore tc0 tc :
  tc_step tc0 tc -> tc_step tc0 (set_symbol_table (symbol_table tc0) tc).
Proof.
  intros [K S]. split; [exact K|]. intros Hs. cbn.
  exact (sound_restore _ _ _ _ K Hs (S Hs)).
Qed.

Lemma tc_step_variable_declaration d tc :
  tc_step tc (visit_variable_declaration d tc).
Proof.
  unfold visit_variable_declaration.
  pose proof (fun e => tc_step_expression e tc) as He.
  destruct (initializer d) as [e|].
  - specialize (He e). destruct (visit_expression e tc) as [t tc1].
    cbn in He. eapply tc_step_trans; [exact He|]. cbv zeta.
    repeat case_match;
      repeat first [apply tc_step_refl
                   | eapply tc_step_trans; [|apply tc_step_define]
                   | eapply tc_step_trans; [|apply tc_step_error]].
  - cbv zeta.
    repeat case_match;
      repeat first [apply tc_step_refl
                   | eapply tc_step_trans; [|apply tc_step_define]
                   | eapply tc_step_trans; [|apply tc_step_error]].
Qed.

Lemma tc_step_return v l c tc : tc_step tc (visit_return_statement v l c tc).
Proof.
  unfold visit_return_statement.
  destruct (current_function tc) as [f|]; [|apply tc_step_error].
  destruct v as [e|].
  - pose proof (tc_step_expression e tc) as He.
    destruct (visit_expression e tc) as [t tc1]. cbn in He.
    case_match; [|exact He].
    eapply tc_step_trans; [exact He | apply tc_step_error].
  - case_match; [apply tc_step_error | apply tc_step_refl].
Qed.

Lemma tc_step_fold (l : list Statement) :
  Forall (fun s => forall tc, tc_step tc (visit_statement s tc)) l ->
  forall tc, tc_step tc (fold_left (fun tc s => visit_statement s tc) l tc).
Proof.
  induction 1 as [|s l Hs _ IH]; intros tc; cbn [fold_left];
    [apply tc_step_refl|].
  eapply tc_step_trans; [apply Hs | apply IH].
Qed.

Lemma tc_step_parameters (params : list FunctionParameter) tc :
  tc_step tc
    (fold_left (fun tc param => define (parameter_symbol param) tc) params tc).
Proof.
  revert tc. induction params as [|p params IH]; intros tc; cbn [fold_left];
    [apply tc_step_refl|].
  eapply tc_step_trans; [apply tc_step_define | apply IH].
Qed.

Lemma tc_visit_statement_step (s : Statement) :
  forall tc, tc_step tc (visit_statement s tc).
Proof.
  induction s as
    [d | fname params rt body l c IHbody | v l c | stmts l c IHstmts
    | cond s1 s2 l c IH1 IH2 | cond s l c IH | i cond incr s l c IH
    | e l c] using Statement_nested_ind;
    intros tc; cbn [visit_statement].
  - apply tc_step_variable_declaration.
  - cbv zeta.
    set (tc1 := if contains_local tc (Ast.name fname) then _ else _).
    assert (H1 : tc_step tc tc1)
      by (subst tc1; case_match; [apply tc_step_error | apply tc_step_define]).
    eapply tc_step_trans; [exact H1|].
    eapply tc_step_trans; [|apply tc_step_set_function].
    apply tc_step_restore.
    eapply tc_step_trans; [apply (tc_step_enter (Ast.name fname))|].
    eapply tc_step_trans; [apply tc_step_set_function|].
    eapply tc_step_trans; [apply tc_step_parameters|].
    apply (tc_step_fold body IHbody).
  - apply tc_step_return.
  - cbv zeta. apply tc_step_restore.
    eapply tc_step_trans; [apply (tc_step_enter "")|].
    apply (tc_step_fold stmts IHstmts).
  - pose proof (tc_step_expression cond tc) as Hc.
    destruct (visit_expression cond tc) as [t tc1]. cbn in Hc.
    eapply tc_step_trans; [exact Hc|].
    eapply tc_step_trans;
      [apply tc_step_only_errors, condition_error_only_errors|].
    eapply tc_step_trans; [apply IH1|].
    destruct s2 as [s2|]; [apply IH2 | apply tc_step_refl].
  - pose proof (tc_step_expression cond tc) as Hc.
    destruct (visit_expression cond tc) as [t tc1]. cbn in Hc.
    eapply tc_step_trans; [exact Hc|].
    eapply tc_step_trans;
      [apply tc_step_only_errors, condition_error_only_errors|].
    apply IH.
  - cbv zeta. apply tc_step_restore.
    eapply tc_step_trans; [apply (tc_step_enter "")|].
    generalize (enter_child_scope "" tc). intros tc0.
    eapply tc_step_trans; [|apply IH].
    eapply tc_step_trans.
    { instantiate (1 := match i with
                        | Some (ForDeclaration d) =>
                            visit_variable_declaration d tc0
                        | Some (ForExpression e) =>
                            snd (visit_expression e tc0)
                        | None => tc0
                        end).
      destruct i as [[d|e]|];
        [apply tc_step_variable_declaration
        | apply tc_step_expression | apply tc_step_refl]. }
    generalize (match i with
                | Some (ForDeclaration d) => visit_variable_declaration d tc0
                | Some (ForExpression e) => snd (visit_expression e tc0)
                | None => tc0
                end). intros tc1.
    eapply tc_step_trans.
    { instantiate (1 := match cond with
                        | Some e =>
                            let '(condition_type, tc) :=
                              visit_expression e tc1 in
                            condition_error "For" condition_type e tc
                        | None => tc1
                        end).
      destruct cond as [e|]; [|apply tc_step_refl].
      pose proof (tc_step_expression e tc1) as Hc.
      destruct (visit_expression e tc1) as [t tc2]. cbn [snd] in Hc.
      eapply tc_step_trans; [exact Hc|].
      apply tc_step_only_errors, condition_error_only_errors. }
    destruct incr as [e|];
      [apply tc_step_expression | apply tc_step_refl].
  - apply tc_step_expression.
Qed.

(** Every state that [check] reaches from the fresh checker, at the
    end of a statement of the program, has sound scopes: the current
    scope exists, and [resolve] has the fuel to follow its parents. *)
Lemma tc_check_sound (program : Program) :
  sound_scopes (store (check program init)) (symbol_table (check program init)).
Proof.
  assert (Hstep : tc_step init (check program init)).
  { unfold check, visit_program. apply tc_step_fold.
    apply Forall_forall. intros s _. apply tc_visit_statement_step. }
  apply Hstep. split; [|cbn; lia].
  apply (ordered_define 0 builtin_print [global]), ordered_global.
Qed.

End TypeCheckerStores.

Section AnalyzerStores.
Import Ast Symbols SemanticAnalyzer.

Lemma sa_step_refl sa : sa_step sa sa.
Proof. split; [apply keeps_scopes_refl | auto]. Qed.

Lemma sa_step_trans sa1 sa2 sa3 :
  sa_step sa1 sa2 -> sa_step sa2 sa3 -> sa_step sa1 sa3.
Proof.
  intros [K1 S1] [K2 S2]. split; [eapply keeps_scopes_trans; eassumption|].
  auto.
Qed.

Lemma sa_step_expression e sa : sa_step sa (visit_expression e sa).
Proof.
  destruct (analyzer_visit_expression_only_references e sa) as (Hs & Ht & _).
  unfold sa_step. rewrite Hs, Ht. split; [apply keeps_scopes_refl | auto].
Qed.

Lemma sa_step_error msg sa : sa_step sa (error msg sa).
Proof. split; [apply keeps_scopes_refl | auto]. Qed.

Lemma sa_step_record n k loc ty det sa :
  sa_step sa (_record_definition n k loc ty det sa).
Proof. split; [apply keeps_scopes_refl | auto]. Qed.

Lemma sa_step_define symbol sa : sa_step sa (define symbol sa).
Proof. split; [apply keeps_scopes_define | apply sound_define]. Qed.

Lemma sa_step_enter n sa : sa_step sa (enter_child_scope n sa).
Proof.
  split; [apply sa_keeps_scopes_enter|]. unfold enter_child_scope.
  intros Hs.
  pose proof (sound_create_child (store sa) (symbol_table sa) n Hs) as H.
  destruct (create_child_scope (store sa) (symbol_table sa) n). exact H.
Qed.

Lemma sa_step_set_function f sa : sa_step sa (set_current_function f sa).
Proof. split; [apply keeps_scopes_refl | auto]. Qed.

Lemma sa_step_restore sa0 sa :
  sa_step sa0 sa -> sa_step sa0 (set_symbol_table (symbol_table sa0) sa).
Proof.
  intros [K S]. split; [exact K|]. intros Hs. cbn.
  exact (sound_restore _ _ _ _ K Hs (S Hs)).
Qed.

Lemma sa_step_variable_declaration d sa :
  sa_step sa (visit_variable_declaration d sa).
Proof.
  unfold visit_variable_declaration. cbv zeta.
  eapply sa_step_trans; [apply sa_step_record|].
  eapply sa_step_trans.
  - instantiate (1 := if contains_local _ _ then _ else _).
    case_match; [apply sa_step_error | apply sa_step_define].
  - destruct (initializer d); [apply sa_step_expression | apply sa_step_refl].
Qed.

Lemma sa_step_parameters (params : list FunctionParameter) sa :
  sa_step sa (fold_left (fun sa param => visit_parameter param sa) params sa).
Proof.
  revert sa. induction params as [|p params IH]; intros sa; cbn [fold_left];
    [apply sa_step_refl|].
  eapply sa_step_trans; [|apply IH]. unfold visit_parameter. cbv zeta.
  eapply sa_step_trans; [apply sa_step_record | apply sa_step_define].
Qed.

Lemma sa_step_fold (l : list Statement) :
  Forall (fun s => forall sa, sa_step sa (visit_statement s sa)) l ->
  forall sa, sa_step sa (fold_left (fun sa s => visit_statement s sa) l sa).
Proof.
  induction 1 as [|s l Hs _ IH]; intros sa; cbn [fold_left];
    [apply sa_step_refl|].
  eapply sa_step_trans; [apply Hs | apply IH].
Qed.

Lemma sa_visit_statement_step (s : Statement) :
  forall sa, sa_step sa (visit_statement s sa).
Proof.
  induction s as
    [d | fname params rt body l c IHbody | v l c | stmts l c IHstmts
    | cond s1 s2 l c IH1 IH2 | cond s l c IH | i cond incr s l c IH
    | e l c] using Statement_nested_ind;
    intros sa; cbn [visit_statement].
  - apply sa_step_variable_declaration.
  - cbv zeta.
    set (sa0 := _record_definition (Ast.name fname) "function" _ rt _ sa).
    set (sa1 := if contains_local sa0 (Ast.name fname) then _ else _).
    assert (H1 : sa_step sa sa1).
    { apply (sa_step_trans sa sa0); [subst sa0; apply sa_step_record|].
      subst sa1. case_match; [apply sa_step_error | apply sa_step_define]. }
    eapply sa_step_trans; [exact H1|].
    eapply sa_step_trans; [|apply sa_step_set_function].
    apply sa_step_restore.
    eapply sa_step_trans; [apply (sa_step_enter (Ast.name fname))|].
    eapply sa_step_trans; [apply sa_step_set_function|].
    eapply sa_step_trans; [apply sa_step_parameters|].
    apply (sa_step_fold body IHbody).
  - destruct v; [apply sa_step_expression | apply sa_step_refl].
  - cbv zeta. apply sa_step_restore.
    eapply sa_step_trans; [apply (sa_step_enter "")|].
    apply (sa_step_fold stmts IHstmts).
  - cbv zeta.
    eapply sa_step_trans; [apply sa_step_expression|].
    eapply sa_step_trans; [apply IH1|].
    destruct s2 as [s2|]; [apply IH2 | apply sa_step_refl].
  - eapply sa_step_trans; [apply sa_step_expression | apply IH].
  - cbv zeta. apply sa_step_restore.
    eapply sa_step_trans; [apply (sa_step_enter "")|].
    generalize (enter_child_scope "" sa). intros sa0.
    eapply sa_step_trans; [|apply IH].
    eapply sa_step_trans.
    { instantiate (1 := match i with
                        | Some (ForDeclaration d) =>
                            visit_variable_declaration d sa0
                        | Some (ForExpression e) => visit_expression e sa0
                        | None => sa0
                        end).
      destruct i as [[d|e]|];
        [apply sa_step_variable_declaration
        | apply sa_step_expression | apply sa_step_refl]. }
    generalize (match i with
                | Some (ForDeclaration d) => visit_variable_declaration d sa0
                | Some (ForExpression e) => visit_expression e sa0
                | None => sa0
                end). intros sa1.
    eapply sa_step_trans.
    { instantiate (1 := match cond with
                        | Some e => visit_expression e sa1
                        | None => sa1
                        end).
      destruct cond; [apply sa_step_expression | apply sa_step_refl]. }
    destruct incr; [apply sa_step_expression | apply sa_step_refl].
  - apply sa_step_expression.
Qed.

Lemma sa_analyze_sound (program : Program) :
  sound_scopes (store (analyze program init))
    (symbol_table (analyze program init)).
Proof.
  assert (Hstep : sa_step init (analyze program init)).
  { unfold analyze, visit_program. apply sa_step_fold.
    apply Forall_forall. intros s _. apply sa_visit_statement_step. }
  apply Hstep. split; [|cbn; lia].
  apply (ordered_define 0 builtin_print [global]), ordered_global.
Qed.

End AnalyzerStores.

(** ** Scopes: definition, lookup and shadowing *)

Section ScopeLaws.
Import Symbols.

Lemma resolve_from_define_other self symbol (h : Store) n :
  n <> name symbol ->
  forall k a, resolve_from k (define self symbol h) a n = resolve_from k h a n.
Proof.
  intros Hn k. induction k as [|k IH]; intros a; [reflexivity|].
  cbn [resolve_from]. unfold define at 1. rewrite list_lookup_alter.
  destruct (h !! a) as [t|] eqn:Ht.
  - case_decide; subst.
    + rewrite Ht. cbn. rewrite lookup_insert_ne by congruence.
      destruct (symbols t !! n); [reflexivity|].
      destruct (parent t); [apply IH | reflexivity].
    + destruct (symbols t !! n); [reflexivity|].
      destruct (parent t); [apply IH | reflexivity].
  - case_decide; subst; [rewrite Ht|]; reflexivity.
Qed.

Lemma resolve_from_app (h ext : Store) n :
  ordered h ->
  forall k a, a < length h ->
    resolve_from k (h ++ ext) a n = resolve_from k h a n.
Proof.
  intros Ho k. induction k as [|k IH]; intros a Ha; [reflexivity|].
  cbn [resolve_from]. rewrite lookup_app_l by exact Ha.
  destruct (h !! a) as [t|] eqn:Ht; [|reflexivity].
  destruct (symbols t !! n); [reflexivity|].
  destruct (parent t) as [p|] eqn:Hp; [|reflexivity].
  apply IH. pose proof (Ho a t p Ht Hp). lia.
Qed.

(** X1: A symbol defined in a scope is found from that scope under its
    name, where it replaces an earlier symbol of the name; from every
    scope, every other name resolves as before. *)
Theorem define_then_resolve (h : Store) (self : nat) (symbol : Symbol) :
  self < length h ->
  resolve (define self symbol h) self (name symbol) = Some symbol
  /\ contains_local (define self symbol h) self (name symbol) = true
  /\ (forall a n, n <> name symbol ->
        resolve (define self symbol h) a n = resolve h a n).
Proof.
  intros Hself. split; [apply resolve_define; exact Hself|]. split.
  - destruct (lookup_lt_is_Some_2 h self Hself) as [t Ht].
    unfold contains_local, resolve_local.
    rewrite (define_lookup _ _ _ _ Ht). cbn. rewrite lookup_insert_eq.
    apply bool_decide_eq_true. discriminate.
  - intros a n Hn. unfold resolve. rewrite define_length.
    apply resolve_from_define_other. exact Hn.
Qed.

Lemma define_then_resolve_witness :
  resolve (define 0 (VariableSymbol "x" "Int" true) [global]) 0 "x"
  = Some (VariableSymbol "x" "Int" true).
Proof.
  apply (define_then_resolve [global] 0 (VariableSymbol "x" "Int" true)).
  cbn. lia.
Defined.

(** X2: A symbol defined in a new child scope shadows the name there and
    nowhere else: the child resolves the name to the new symbol and
    every other name as its parent does, and the parent resolves
    every name as before. *)
Theorem child_scope_shadows (h : Store) (self : nat) (scope : string)
    (symbol : Symbol) :
  ordered h -> self < length h ->
  let h1 := fst (create_child_scope h self scope) in
  let child := snd (create_child_scope h self scope) in
  let h2 := define child symbol h1 in
  resolve h2 child (name symbol) = Some symbol
  /\ (forall n, n <> name symbol -> resolve h2 child n = resolve h self n)
  /\ (forall n, resolve h1 child n = resolve h self n)
  /\ (forall n, resolve h2 self n = resolve h self n).
Proof.
  intros Ho Hself h1 child h2.
  assert (Hchild : child = length h) by reflexivity.
  assert (Hh1 : exists nm, h1 = h ++ [mkSymbolTable empty (Some self) nm]).
  { eexists. reflexivity. }
  destruct Hh1 as [nm Hh1]. clearbody h1 child. subst child.
  assert (Hlen1 : length h1 = S (length h)).
  { rewrite Hh1, length_app. cbn. lia. }
  assert (Ho1 : ordered h1).
  { pose proof (ordered_create_child h self nm Ho Hself) as H.
    destruct (decide (nm = "")) as [->|Hnm].
    - intros a t p Ht Hp. rewrite Hh1 in Ht.
      destruct (decide (a < length h)) as [Ha|Ha].
      + rewrite lookup_app_l in Ht by exact Ha. exact (Ho a t p Ht Hp).
      + rewrite lookup_app_r in Ht by lia.
        destruct (a - length h) as [|k] eqn:E; [|destruct k; discriminate Ht].
        injection Ht as <-. cbn in Hp. injection Hp as <-. lia.
    - unfold create_child_scope in H. cbn in H.
      rewrite bool_decide_eq_true_2 in H by exact Hnm. rewrite Hh1. exact H. }
  assert (Hup : forall n a, a < length h -> resolve h1 a n = resolve h a n).
  { intros n a Ha. unfold resolve. rewrite Hlen1, Hh1.
    rewrite resolve_from_app by assumption.
    apply resolve_from_enough; [exact Ho | lia | lia]. }
  assert (Hfresh : forall n, resolve h1 (length h) n = resolve h self n).
  { intros n. rewrite <- (Hup n self Hself). unfold resolve at 1.
    rewrite Hlen1. cbn [resolve_from].
    assert (Hl : h1 !! length h = Some (mkSymbolTable empty (Some self) nm)).
    { rewrite Hh1, lookup_app_r by lia. rewrite Nat.sub_diag. reflexivity. }
    rewrite Hl. cbn. rewrite lookup_empty.
    unfold resolve. rewrite Hlen1.
    apply resolve_from_enough; [exact Ho1 | lia | lia]. }
  split; [apply resolve_define; lia|].
  split; [|split; [exact Hfresh|]].
  - intros n Hn. rewrite <- Hfresh. unfold resolve, h2.
    rewrite define_length. apply resolve_from_define_other. exact Hn.
  - intros n. rewrite <- (Hup n self Hself). unfold resolve, h2.
    rewrite define_length, Hlen1.
    transitivity (resolve_from (length h) (define (length h) symbol h1) self n).
    { apply resolve_from_enough; [apply ordered_define; exact Ho1 | lia | lia]. }
    transitivity (resolve_from (length h) h1 self n).
    2:{ apply resolve_from_enough; [exact Ho1 | lia | lia]. }
    unfold define. rewrite Hh1.
    rewrite alter_app_r_alt by lia.
    rewrite !resolve_from_app by assumption. reflexivity.
Qed.

Lemma child_scope_shadows_witness :
  let h1 := fst (create_child_scope [global] 0 "") in
  let h2 := define 1 (VariableSymbol "x" "Int" true) h1 in
  resolve h2 1 "x" = Some (VariableSymbol "x" "Int" true)
  /\ resolve h2 0 "x" = None.
Proof.
  destruct (child_scope_shadows [global] 0 "" (VariableSymbol "x" "Int" true)
              ordered_global ltac:(cbn; lia)) as (H1 & _ & _ & H2).
  split; [exact H1 | exact (H2 "x")].
Defined.

End ScopeLaws.

(** ** The tokens of a source: their order, their number and their form *)


Section TokenShapes.
Import Lexer.

Lemma all_chars_app p (s1 s2 : String.string) :
  all_chars p (s1 +:+ s2) = all_chars p s1 && all_chars p s2.
Proof.
  induction s1 as [|c s1 IH]; [rewrite string_app_nil_l; reflexivity|].
  rewrite string_app_cons. cbn. rewrite IH, andb_assoc. reflexivity.
Qed.

Lemma all_chars_snoc p (s : String.string) c :
  all_chars p (s +:+ String c "") = all_chars p s && p c.
Proof. rewrite all_chars_app. cbn. rewrite andb_true_r. reflexivity. Qed.

Lemma endswith_app_cons (s1 : String.string) a (s2 : String.string) c :
  Py.endswith (s1 +:+ String a s2) c = Py.endswith (String a s2) c.
Proof.
  induction s1 as [|b s1 IH]; [rewrite string_app_nil_l; reflexivity|].
  rewrite string_app_cons.
  change (Py.endswith (String b (s1 +:+ String a s2)) c)
    with (match s1 +:+ String a s2 with
          | EmptyString => Ascii.eqb b c
          | _ => Py.endswith (s1 +:+ String a s2) c
          end).
  destruct (s1 +:+ String a s2) eqn:E; [|exact IH].
  destruct s1; discriminate E.
Qed.

Lemma endswith_all_digits (s : String.string) :
  all_chars Py.isdigit s = true -> Py.endswith s "." = false.
Proof.
  induction s as [|c s IH]; [reflexivity|]. cbn [all_chars].
  intros H. apply andb_true_iff in H as [Hc Hs].
  destruct s as [|d s]; [exact (isdigit_not_dot _ Hc) | exact (IH Hs)].
Qed.

Lemma identifier_scans src pre c0 rest0 lx :
  at_position src pre (String c0 rest0) lx ->
  Py.isalpha c0 || Ascii.eqb c0 "_" = true ->
  exists text rest' lx',
    identifier lx
    = Some (mkToken (default IDENTIFIER (keywords !! text)) text
              (line lx) (column lx), lx')
    /\ reached src pre (String c0 rest0) text rest' lx'
    /\ text <> ""
    /\ all_chars is_word_char text = true
    /\ match rest' with
       | String c _ => is_word_char c = false
       | EmptyString => True
       end.
Proof.
  intros Hat Hfirst. unfold identifier.
  rewrite (at_position_fuel _ _ _ _ Hat).
  destruct
    (loop_returns
       (fun '(lx1, result) =>
          exists rest', reached src pre (String c0 rest0) result rest' lx1
                        /\ all_chars is_word_char result = true)
       (fun '(lx1, result) =>
          exists rest',
            reached src pre (String c0 rest0) result rest' lx1
            /\ all_chars is_word_char result = true
            /\ match rest' with
               | String c _ => is_word_char c = false
               | EmptyString => True
               end)
       (fun s => remaining (fst s))
       (fun '(lx, result) =>
          match current_char lx with
          | Some c =>
              if Py.isalnum c || Ascii.eqb c "_"
              then Some (Continue (advance lx, result +:+ Py.char_str c))
              else Some (Break (lx, result))
          | None => Some (Break (lx, result))
          end))
    with (fuel := S (String.length src)) (s := (lx, ""))
    as ([lx' text] & Hloop & rest' & Hreach & Hall & Hstop).
  - intros [lx1 result] (rest' & Hreach & Hall).
    destruct rest' as [|c rest'].
    + right. exists (lx1, result).
      rewrite (at_position_end _ _ _ (proj2 Hreach)).
      split; [reflexivity|]. exists "". auto.
    + rewrite (at_position_current _ _ _ _ _ (proj2 Hreach)).
      destruct (Py.isalnum c || Ascii.eqb c "_") eqn:Hc.
      * left. eexists (_, _). split; [reflexivity|].
        destruct (reached_step _ _ _ _ _ _ _ Hreach) as [Hnext Hlt].
        split; [|exact Hlt]. exists rest'. split; [exact Hnext|].
        unfold Py.char_str. rewrite all_chars_snoc, Hall. exact Hc.
      * right. exists (lx1, result). split; [reflexivity|].
        exists (String c rest'). auto.
  - exists (String c0 rest0). split; [|reflexivity].
    apply reached_start. exact Hat.
  - apply (reached_fuel src pre (String c0 rest0) "" (String c0 rest0)).
    apply reached_start. exact Hat.
  - rewrite Hloop. exists text, rest', lx'. split; [reflexivity|].
    split; [exact Hreach|]. split; [|split; [exact Hall | exact Hstop]].
    intros ->. destruct Hreach as [Hrest _].
    rewrite string_app_nil_l in Hrest. subst rest'.
    unfold is_word_char in Hstop.
    apply orb_true_iff in Hfirst. apply orb_false_iff in Hstop as [H1 H2].
    destruct Hfirst as [Ha|Hu]; [|congruence].
    rewrite (isalpha_isalnum _ Ha) in H1. discriminate.
Qed.

Lemma number_scans src pre c0 rest0 lx :
  at_position src pre (String c0 rest0) lx ->
  Py.isdigit c0 = true ->
  exists text rest' lx' (is_float : bool),
    number lx
    = Some (mkToken (if is_float then FLOAT else INTEGER)
              (if Py.endswith text "." then text +:+ "0" else text)
              (line lx) (column lx), lx')
    /\ reached src pre (String c0 rest0) text rest' lx'
    /\ text <> ""
    /\ number_text text is_float
    /\ match rest' with
       | String c _ =>
           Py.isdigit c = false /\ (Ascii.eqb c "." = true -> is_float = true)
       | EmptyString => True
       end.
Proof.
  intros Hat Hfirst. unfold number.
  rewrite (at_position_fuel _ _ _ _ Hat).
  destruct
    (loop_returns
       (fun '(lx1, result, is_float) =>
          exists rest',
            reached src pre (String c0 rest0) result rest' lx1
            /\ number_text result is_float)
       (fun '(lx1, result, is_float) =>
          exists rest',
            reached src pre (String c0 rest0) result rest' lx1
            /\ number_text result is_float
            /\ match rest' with
               | String c _ =>
                   Py.isdigit c = false
                   /\ (Ascii.eqb c "." = true -> is_float = true)
               | EmptyString => True
               end)
       (fun s => remaining (fst (fst s)))
       (fun '(lx, result, is_float) =>
          match current_char lx with
          | Some c =>
              if Py.isdigit c || Ascii.eqb c "."
              then
                if Ascii.eqb c "." && is_float
                then Some (Break (lx, result, is_float))
                else Some (Continue (advance lx, result +:+ Py.char_str c,
                                     Ascii.eqb c "." || is_float))
              else Some (Break (lx, result, is_float))
          | None => Some (Break (lx, result, is_float))
          end))
    with (fuel := S (String.length src)) (s := (lx, "", false))
    as ([[lx' text] is_float] & Hloop & rest' & Hreach & Htext & Hstop).
  - intros [[lx1 result] is_float] (rest' & Hreach & Htext).
    destruct rest' as [|c rest'].
    + right. exists (lx1, result, is_float).
      rewrite (at_position_end _ _ _ (proj2 Hreach)).
      split; [reflexivity|]. exists "". auto.
    + rewrite (at_position_current _ _ _ _ _ (proj2 Hreach)).
      destruct (Py.isdigit c) eqn:Hd.
      * pose proof (isdigit_not_dot _ Hd) as Hnd. rewrite Hnd. cbn [orb andb].
        left. eexists (_, _, _). split; [reflexivity|].
        destruct (reached_step _ _ _ _ _ _ _ Hreach) as [Hnext Hlt].
        split; [|exact Hlt]. exists rest'. split; [exact Hnext|].
        unfold number_text in *. unfold Py.char_str.
        destruct is_float.
        -- destruct Htext as (whole & frac & -> & Hw & Hwd & Hfd).
           exists whole, (frac +:+ String c "").
           rewrite !string_app_assoc.
           split; [reflexivity|]. split; [exact Hw|]. split; [exact Hwd|].
           rewrite all_chars_snoc, Hfd. exact Hd.
        -- rewrite all_chars_snoc, Htext. exact Hd.
      * cbn [orb]. destruct (Ascii.eqb c ".") eqn:Hdot.
        -- destruct is_float; cbn [andb orb].
           ++ right. exists (lx1, result, true). split; [reflexivity|].
              exists (String c rest'). split; [exact Hreach|].
              split; [exact Htext|]. split; [exact Hd | reflexivity].
           ++ left. eexists (_, _, _). split; [reflexivity|].
              destruct (reached_step _ _ _ _ _ _ _ Hreach) as [Hnext Hlt].
              split; [|exact Hlt]. exists rest'. split; [exact Hnext|].
              apply Ascii.eqb_eq in Hdot. subst c.
              unfold number_text in *. exists result, "".
              split; [reflexivity|]. split; [|split; [exact Htext|reflexivity]].
              intros ->. destruct Hreach as [Hrest _].
              rewrite string_app_nil_l in Hrest. injection Hrest as Hc0 _.
              subst c0. discriminate Hfirst.
        -- right. exists (lx1, result, is_float). split; [reflexivity|].
           exists (String c rest'). split; [exact Hreach|].
           split; [exact Htext|]. split; [exact Hd | intros H; congruence].
  - exists (String c0 rest0). split; [apply reached_start; exact Hat|].
    reflexivity.
  - apply (reached_fuel src pre (String c0 rest0) "" (String c0 rest0)).
    apply reached_start. exact Hat.
  - rewrite Hloop. exists text, rest', lx', is_float.
    split; [reflexivity|]. split; [exact Hreach|].
    split; [|split; [exact Htext | exact Hstop]].
    intros ->. destruct Hreach as [Hrest _].
    rewrite string_app_nil_l in Hrest. subst rest'.
    destruct Hstop as [Hstop _]. congruence.
Qed.

Lemma number_token_shape text is_float l c :
  text <> "" -> number_text text is_float ->
  token_shape (mkToken (if is_float then FLOAT else INTEGER)
                 (if Py.endswith text "." then text +:+ "0" else text) l c)
  /\ (Py.endswith text "." = true -> is_float = true).
Proof.
  intros Hne Htext. unfold number_text in Htext. destruct is_float.
  - destruct Htext as (whole & frac & -> & Hw & Hwd & Hfd).
    split; [|reflexivity]. unfold token_shape. cbn [type value].
    change ("." +:+ frac) with (String "." frac).
    rewrite endswith_app_cons.
    destruct frac as [|d frac].
    + cbn [Py.endswith]. rewrite Ascii.eqb_refl. exists whole, "0".
      rewrite string_app_assoc. repeat split; auto; discriminate.
    + change (Py.endswith (String "." (String d frac)) ".")
        with (Py.endswith (String d frac) ".").
      rewrite (endswith_all_digits _ Hfd).
      exists whole, (String d frac). repeat split; auto; discriminate.
  - rewrite (endswith_all_digits _ Htext). split; [|discriminate].
    unfold token_shape. cbn [type value]. auto.
Qed.

Lemma keyword_shape (text : String.string) l c :
  text <> "" -> all_chars is_word_char text = true ->
  token_shape (mkToken (default IDENTIFIER (keywords !! text)) text l c).
Proof.
  intros Hne Hall. destruct (keywords !! text) as [ty|] eqn:H.
  - cbn [default]. unfold keywords in H.
    apply elem_of_list_to_map_2 in H.
    repeat (apply elem_of_cons in H as [H|H];
            [injection H as -> ->; vm_compute; reflexivity|]).
    inversion H.
  - cbn [default]. unfold token_shape. cbn [type value]. auto.
Qed.

Lemma lexeme_at_intro src pre rest text rest' lx lx' tok :
  at_position src pre rest lx ->
  reached src pre rest text rest' lx' ->
  text <> "" ->
  tline tok = line lx -> tcolumn tok = column lx ->
  (value tok = text
   \/ (type tok = FLOAT /\ (exists digits, text = digits +:+ ".")
       /\ value tok = text +:+ "0")
   \/ ((type tok = STRING \/ type tok = ERROR)
       /\ exists q body, is_quote q /\ text = String q body)) ->
  lexeme_at src tok (String.length pre)
    (String.length pre + String.length text).
Proof.
  intros (Hsrc & _ & _ & Hlc & _) [Hrest _] Hne Hl Hc Hval.
  exists pre, text, rest'.
  split; [rewrite Hsrc, Hrest; reflexivity|].
  split; [reflexivity|]. split; [reflexivity|].
  split; [exact Hne|]. split; [rewrite Hl, Hc; exact Hlc | exact Hval].
Qed.

Lemma emit_step src pre c x rest lx tokens ty :
  at_position src pre (String c rest) lx ->
  Ascii.eqb c x = true ->
  token_shape (mkToken ty (String x "") (line lx) (column lx)) ->
  step_at src pre (String c rest) tokens (emit ty (String x "") lx tokens).
Proof.
  intros Hat Hc Hshape. apply Ascii.eqb_eq in Hc. subst x.
  pose proof (reached_advance _ _ _ _ _ _ _ (reached_start _ _ _ _ Hat))
    as Hnext.
  rewrite string_app_nil_l in Hnext.
  eexists _, _, _. split; [exact Hnext|]. split; [discriminate|].
  right. eexists. split; [reflexivity|]. split; [|exact Hshape].
  eapply lexeme_at_intro; try eassumption; try reflexivity; try discriminate.
  left. reflexivity.
Qed.

Lemma emit2_step src pre c x y rest lx tokens ty :
  at_position src pre (String c rest) lx ->
  Ascii.eqb c x = true -> is_char (peek lx) y = true ->
  token_shape (mkToken ty (String x (String y "")) (line lx) (column lx)) ->
  step_at src pre (String c rest) tokens
    (emit2 ty (String x (String y "")) lx tokens).
Proof.
  intros Hat Hc Hpk Hshape. apply Ascii.eqb_eq in Hc. subst x.
  rewrite (at_position_peek _ _ _ _ _ Hat) in Hpk.
  destruct (is_char_get_0 _ _ Hpk) as [rest2 ->].
  pose proof (reached_advance _ _ _ _ _ _ _ (reached_start _ _ _ _ Hat))
    as Hnext.
  apply reached_advance in Hnext. rewrite string_app_nil_l in Hnext.
  eexists _, _, _. split; [exact Hnext|]. split; [discriminate|].
  right. eexists. split; [reflexivity|]. split; [|exact Hshape].
  eapply lexeme_at_intro; try eassumption; try reflexivity; try discriminate.
  left. reflexivity.
Qed.

Lemma tokenize_body_step src pre c rest lx tokens :
  at_position src pre (String c rest) lx ->
  step_at src pre (String c rest) tokens (tokenize_body (lx, tokens)).
Proof.
  intros Hat. unfold tokenize_body.
  rewrite (at_position_current _ _ _ _ _ Hat).
  destruct (Py.isspace c) eqn:Hspace.
  { destruct (skip_whitespace_reaches _ _ _ _ Hat)
      as (text & rest' & lx' & Hrun & Hreach & Hne).
    unfold skip. rewrite Hrun. exists text, rest', lx'.
    split; [exact Hreach|].
    split; [exact (Hne c rest eq_refl Hspace) | left; reflexivity]. }
  destruct (Ascii.eqb c "/"
            && (is_char (peek lx) "/" || is_char (peek lx) "*")) eqn:Hcomment.
  { apply andb_true_iff in Hcomment as [Hc Hpk].
    apply Ascii.eqb_eq in Hc. subst c.
    destruct (skip_comment_reaches _ _ _ _ Hat Hpk)
      as (text & rest' & lx' & Hrun & Hreach & Hne).
    unfold skip. rewrite Hrun. exists text, rest', lx'. auto. }
  destruct (Py.isalpha c || Ascii.eqb c "_") eqn:Halpha.
  { destruct (identifier_scans _ _ _ _ _ Hat Halpha)
      as (text & rest' & lx' & Hrun & Hreach & Hne & Hall & _).
    unfold scan. rewrite Hrun. exists text, rest', lx'.
    split; [exact Hreach|]. split; [exact Hne|].
    right. eexists. split; [reflexivity|].
    split; [|apply keyword_shape; assumption].
    eapply lexeme_at_intro; try eassumption; try reflexivity.
    left. reflexivity. }
  destruct (Py.isdigit c) eqn:Hdigit.
  { destruct (number_scans _ _ _ _ _ Hat Hdigit)
      as (text & rest' & lx' & is_float & Hrun & Hreach & Hne & Htext & _).
    destruct (number_token_shape text is_float (line lx) (column lx) Hne Htext)
      as [Hshape Hdot].
    unfold scan. rewrite Hrun. exists text, rest', lx'.
    split; [exact Hreach|]. split; [exact Hne|].
    right. eexists. split; [reflexivity|]. split; [|exact Hshape].
    eapply lexeme_at_intro; try eassumption; try reflexivity.
    cbn [value type].
    destruct (Py.endswith text ".") eqn:Hend; [|left; reflexivity].
    right. left. rewrite (Hdot eq_refl). split; [reflexivity|].
    split; [apply endswith_split; exact Hend | reflexivity]. }
  destruct (Ascii.eqb c Py.double_quote || Ascii.eqb c Py.single_quote)
    eqn:Hquote.
  { destruct (string_reaches _ _ _ _ _ Hat)
      as (body & rest' & lx' & tok & Hrun & Hreach & Hl & Hc & Hty).
    unfold scan. rewrite Hrun. eexists _, rest', lx'.
    split; [exact Hreach|]. split; [discriminate|].
    right. eexists. split; [reflexivity|]. split.
    - eapply lexeme_at_intro; try eassumption; try discriminate.
      right. right. split; [exact Hty|]. exists c, body.
      split; [|reflexivity]. apply orb_true_iff in Hquote.
      destruct Hquote as [H|H]; apply Ascii.eqb_eq in H; [left|right]; exact H.
    - unfold token_shape. destruct Hty as [-> | ->]; exact I. }
  repeat match goal with
         | |- step_at _ _ _ _ (if Ascii.eqb c ?x && ?b then _ else _) =>
             let H := fresh "Hc" in
             destruct (Ascii.eqb c x && b) eqn:H;
             [apply andb_true_iff in H as [? ?];
              eapply emit2_step; solve [eassumption | reflexivity]|]
         | |- step_at _ _ _ _ (if Ascii.eqb c ?x then _ else _) =>
             let H := fresh "Hc" in
             destruct (Ascii.eqb c x) eqn:H;
             [first [eapply emit_step; solve [eassumption | reflexivity]
                    | let Hp := fresh "Hp" in
                      destruct (is_char (peek lx) "=") eqn:Hp;
                      [eapply emit2_step | eapply emit_step];
                      solve [eassumption | reflexivity]]|]
         end.
  unfold Py.char_str.
  eapply emit_step; first [eassumption | apply Ascii.eqb_refl | exact I].
Qed.

Lemma spans_ordered_snoc spans : forall from upto start stop,
  spans_ordered from spans upto -> upto <= start -> start < stop ->
  spans_ordered from (spans ++ [(start, stop)]) stop.
Proof.
  induction spans as [|[a b] spans IH]; intros from upto start stop H Hle Hlt.
  - cbn in *. lia.
  - cbn in *. destruct H as (H1 & H2 & H3). split; [exact H1|].
    split; [exact H2|]. eapply IH; eassumption.
Qed.

Lemma spans_ordered_upto spans : forall from upto upto',
  spans_ordered from spans upto -> upto <= upto' ->
  spans_ordered from spans upto'.
Proof.
  induction spans as [|[a b] spans IH]; intros from upto upto' H Hle.
  - cbn in *. lia.
  - cbn in *. destruct H as (H1 & H2 & H3). split; [exact H1|].
    split; [exact H2|]. eapply IH; eassumption.
Qed.

Lemma spans_ordered_length spans : forall from upto,
  spans_ordered from spans upto -> from + length spans <= upto.
Proof.
  induction spans as [|[a b] spans IH]; intros from upto H.
  - cbn in *. lia.
  - cbn in *. destruct H as (H1 & H2 & H3). specialize (IH _ _ H3). lia.
Qed.

(** [tokenize] returns the tokens in the order of the source, each read
    from a span of its own and of the shape of its type, and then the
    EOF token placed after the last character. *)
Lemma lex_spans (src : String.string) :
  exists tokens spans,
    lex src
    = Some (tokens
            ++ [mkToken EOF "" (fst (position_of src)) (snd (position_of src))])
    /\ Forall2 (fun t span => lexeme_at src t (fst span) (snd span))
         tokens spans
    /\ spans_ordered 0 spans (String.length src)
    /\ Forall token_shape tokens.
Proof.
  unfold lex, tokenize.
  pose proof (at_position_init src) as Hinit.
  rewrite (at_position_fuel _ _ _ _ Hinit).
  destruct
    (loop_returns
       (fun '(lx, tokens) =>
          exists pre rest spans,
            at_position src pre rest lx
            /\ Forall2 (fun t span => lexeme_at src t (fst span) (snd span))
                 tokens spans
            /\ spans_ordered 0 spans (String.length pre)
            /\ Forall token_shape tokens)
       (fun '(lx, tokens) =>
          exists spans,
            at_position src src "" lx
            /\ Forall2 (fun t span => lexeme_at src t (fst span) (snd span))
                 tokens spans
            /\ spans_ordered 0 spans (String.length src)
            /\ Forall token_shape tokens)
       (fun s => remaining (fst s))
       tokenize_body)
    with (fuel := S (String.length src)) (s := (init src, @nil Token))
    as ([lx' tokens] & Hloop & spans & Hat & Hspans & Hord & Hall).
  - intros [lx tokens] (pre & rest & spans & Hat & Hspans & Hord & Hall).
    destruct rest as [|c rest].
    + right. exists (lx, tokens). unfold tokenize_body.
      rewrite (at_position_end _ _ _ Hat). split; [reflexivity|].
      pose proof Hat as (Hsrc & _). rewrite string_app_nil_r in Hsrc.
      subst pre. exists spans. auto.
    + left.
      destruct (tokenize_body_step _ _ _ _ _ tokens Hat)
        as (text & rest' & lx1 & Hreach & Hne & Hrun).
      assert (Hlt : remaining lx1 < remaining lx).
      { rewrite (reached_remaining _ _ _ _ _ _ Hreach),
          (at_position_remaining _ _ _ _ Hat), (proj1 Hreach),
          string_length_app.
        destruct text; [congruence | cbn; lia]. }
      assert (Htext : 0 < String.length text).
      { destruct text; [congruence | cbn; lia]. }
      destruct Hrun as [Hrun | (t & Hrun & Hlex & Hshape)].
      * exists (lx1, tokens). split; [exact Hrun|]. split; [|exact Hlt].
        exists (pre +:+ text), rest', spans.
        split; [exact (proj2 Hreach)|]. split; [exact Hspans|].
        split; [|exact Hall].
        eapply spans_ordered_upto; [exact Hord|].
        rewrite string_length_app. lia.
      * exists (lx1, tokens ++ [t]). split; [exact Hrun|]. split; [|exact Hlt].
        exists (pre +:+ text), rest',
          (spans ++ [(String.length pre,
                      String.length pre + String.length text)]).
        split; [exact (proj2 Hreach)|].
        split; [apply Forall2_app; [exact Hspans|];
                constructor; [exact Hlex | constructor]|].
        split.
        -- rewrite string_length_app.
           eapply spans_ordered_snoc; [exact Hord | lia | lia].
        -- apply Forall_app. split; [exact Hall|].
           constructor; [exact Hshape | constructor].
  - exists "", src, []. split; [exact Hinit|].
    split; [constructor|]. split; [cbn; lia | constructor].
  - cbn [fst]. rewrite (at_position_remaining _ _ _ _ Hinit). lia.
  - rewrite Hloop. exists tokens, spans. split; [|auto].
    destruct Hat as (_ & _ & _ & Hlc & _). rewrite <- Hlc. reflexivity.
Qed.

(** X3: The tokens of every source are in the order of the source: each
    token before the final EOF was read from a span of characters of
    its own, the spans follow each other without overlap from the
    start of the source, and the last one stops within it.  (Between
    the spans lie the whitespace and the comments.) *)
Theorem tokens_in_source_order (src : String.string) :
  exists tokens spans eof,
    lex src = Some (tokens ++ [eof])
    /\ type eof = EOF
    /\ Forall2 (fun t span => lexeme_at src t (fst span) (snd span))
         tokens spans
    /\ spans_ordered 0 spans (String.length src).
Proof.
  destruct (lex_spans src) as (tokens & spans & Hlex & Hspans & Hord & _).
  exists tokens, spans. eexists. split; [exact Hlex|].
  split; [reflexivity|]. split; [exact Hspans | exact Hord].
Qed.

(** X4: The type of a token tells the form of its value: an IDENTIFIER is
    a word that is no keyword, a keyword token carries its keyword, an
    INTEGER is a run of [isdigit] characters, a FLOAT is two such runs
    around one dot, and an operator or punctuation token carries its
    own text. *)
Theorem token_value_matches_type (src : String.string) :
  exists tokens eof,
    lex src = Some (tokens ++ [eof])
    /\ eof = mkToken EOF "" (fst (position_of src)) (snd (position_of src))
    /\ Forall token_shape tokens.
Proof.
  destruct (lex_spans src) as (tokens & spans & Hlex & _ & _ & Hall).
  exists tokens. eexists. split; [exact Hlex|]. split; [reflexivity|].
  exact Hall.
Qed.

(** X5: A source of [n] characters has at most [n] tokens before the EOF
    token: every token is read from at least one character. *)
Theorem token_count_bounded (src : String.string) :
  exists tokens,
    lex src = Some tokens /\ length tokens <= String.length src + 1.
Proof.
  destruct (lex_spans src) as (tokens & spans & Hlex & Hspans & Hord & _).
  eexists. split; [exact Hlex|].
  rewrite length_app. cbn [length].
  rewrite (Forall2_length _ _ _ Hspans).
  pose proof (spans_ordered_length _ _ _ Hord). lia.
Qed.

Lemma count_newlines_app (s1 s2 : String.string) :
  count_newlines (s1 +:+ s2) = (count_newlines s1 + count_newlines s2)%Z.
Proof.
  induction s1 as [|c s1 IH]; [rewrite string_app_nil_l; reflexivity|].
  rewrite string_app_cons. cbn [count_newlines]. rewrite IH. lia.
Qed.

Lemma count_newlines_nonneg (s : String.string) : (0 <= count_newlines s)%Z.
Proof.
  induction s as [|c s IH]; cbn [count_newlines]; [lia|].
  destruct (Ascii.eqb c Py.newline); lia.
Qed.

Lemma position_from_bounds (s : String.string) : forall l c,
  (1 <= c)%Z ->
  fst (position_from s l c) = (l + count_newlines s)%Z
  /\ (1 <= snd (position_from s l c)
      <= c + Z.of_nat (String.length s))%Z.
Proof.
  induction s as [|a s IH]; intros l c Hc.
  - cbn. lia.
  - cbn [position_from count_newlines String.length].
    destruct (Ascii.eqb a Py.newline).
    + destruct (IH (l + 1)%Z 1%Z ltac:(lia)) as [H1 H2]. split; lia.
    + destruct (IH l (c + 1)%Z ltac:(lia)) as [H1 H2]. split; lia.
Qed.

(** X6: Lines and columns count from 1 and stay within the source: a token
    is on a line that the source has, and the EOF token is on the last
    line, where the source ends. *)
Theorem token_positions_in_range (src : String.string) :
  exists tokens eof,
    lex src = Some (tokens ++ [eof])
    /\ Forall
         (fun t =>
            (1 <= tline t <= 1 + count_newlines src)%Z
            /\ (1 <= tcolumn t <= 1 + Z.of_nat (String.length src))%Z)
         (tokens ++ [eof])
    /\ tline eof = (1 + count_newlines src)%Z
    /\ (tline eof, tcolumn eof) = position_of src.
Proof.
  destruct (lex_spans src) as (tokens & spans & Hlex & Hspans & _ & _).
  exists tokens. eexists. split; [exact Hlex|].
  destruct (position_from_bounds src 1 1 ltac:(lia)) as [Hl Hc].
  fold (position_of src) in Hl, Hc.
  split; [|split; [exact Hl | cbn; destruct (position_of src); reflexivity]].
  apply Forall_app. split.
  - clear Hlex. induction Hspans as [|t span tokens spans Ht _ IH];
      constructor; [|exact IH].
    destruct Ht as (pre & text & post & Hsrc & _ & _ & _ & Hpos & _).
    destruct (position_from_bounds pre 1 1 ltac:(lia)) as [Hl' Hc'].
    fold (position_of pre) in Hl', Hc'. rewrite <- Hpos in Hl', Hc'.
    cbn [fst snd] in Hl', Hc'.
    rewrite Hsrc, !count_newlines_app, !string_length_app.
    pose proof (count_newlines_nonneg pre).
    pose proof (count_newlines_nonneg text).
    pose proof (count_newlines_nonneg post). lia.
  - constructor; [|constructor]. cbn [tline tcolumn].
    pose proof (count_newlines_nonneg src). lia.
Qed.

End TokenShapes.

(** ** Invariants of the semantic analyzer's walk *)

Section AnalyzerInvariant.
Import Ast Symbols SemanticAnalyzer.

Variable I : SemanticAnalyzer -> Prop.
Hypothesis I_error : forall msg sa, located msg -> I sa -> I (error msg sa).
Hypothesis I_reference : forall n loc d sa,
  find_definition sa n loc = Some d -> I sa -> I (_record_reference n loc d sa).
Hypothesis I_record : forall n k loc ty det sa,
  I sa -> I (_record_definition n k loc ty det sa).
Hypothesis I_define : forall symbol sa,
  (forall loc, find_definition sa (Symbols.name symbol) loc <> None) ->
  I sa -> I (define symbol sa).
Hypothesis I_enter : forall n sa, I sa -> I (enter_child_scope n sa).
Hypothesis I_scope : forall a sa, I sa -> I (set_symbol_table a sa).
Hypothesis I_function : forall f sa, I sa -> I (set_current_function f sa).

Lemma located_undefined n l c : located (undefined_identifier n l c).
Proof.
  unfold undefined_identifier.
  exists ("Undefined identifier '" +:+ n), "'"%char, l, c.
  split; [|discriminate]. rewrite !string_app_assoc. reflexivity.
Qed.

Lemma located_defined (kind n : string) l c :
  located (kind +:+ " '" +:+ n +:+ "' is already defined at "
           +:+ Py.str l +:+ ":" +:+ Py.str c).
Proof.
  exists (kind +:+ " '" +:+ n +:+ "' is already define"), "d"%char, l, c.
  split; [|discriminate]. rewrite !string_app_assoc. reflexivity.
Qed.

Lemma find_definition_recorded n k loc ty det sa loc' :
  find_definition (_record_definition n k loc ty det sa) n loc' <> None.
Proof.
  unfold find_definition, _record_definition. cbn.
  rewrite lookup_insert_eq. cbn.
  destruct (default [] (definitions sa !! n)); discriminate.
Qed.

Lemma invariant_identifier n l c sa : I sa -> I (visit_identifier n l c sa).
Proof.
  intros H. unfold visit_identifier.
  destruct (resolve sa n); [|apply I_error; [apply located_undefined | exact H]].
  destruct (find_definition sa n (mkLocation l c)) eqn:E; [|exact H].
  apply I_reference; assumption.
Qed.

Lemma invariant_fold_expressions (l : list Expression) :
  Forall (fun e => forall sa, I sa -> I (visit_expression e sa)) l ->
  forall sa, I sa -> I (fold_left (fun sa e => visit_expression e sa) l sa).
Proof.
  induction 1 as [|e l He _ IH]; intros sa H; cbn [fold_left]; auto.
Qed.

Lemma invariant_expression (e : Expression) :
  forall sa, I sa -> I (visit_expression e sa).
Proof.
  induction e using Expression_nested_ind; intros sa Hsa;
    cbn [visit_expression]; auto using invariant_identifier.
  - apply invariant_fold_expressions; auto.
  - apply invariant_fold_expressions; auto.
Qed.

Lemma invariant_variable_declaration d sa :
  I sa -> I (visit_variable_declaration d sa).
Proof.
  intros H. unfold visit_variable_declaration. cbv zeta.
  match goal with
  | |- I (match _ with Some e => visit_expression e ?s | None => ?s end) =>
      assert (H1 : I s)
  end.
  { case_match.
    - apply I_error; [|apply I_record; exact H].
      apply (located_defined "Variable").
    - apply I_define; [|apply I_record; exact H].
      intros loc. apply find_definition_recorded. }
  destruct (initializer d); [apply invariant_expression|]; exact H1.
Qed.

Lemma invariant_parameters (params : list FunctionParameter) :
  forall sa, I sa ->
    I (fold_left (fun sa param => visit_parameter param sa) params sa).
Proof.
  induction params as [|p params IH]; intros sa H; cbn [fold_left]; [exact H|].
  apply IH. unfold visit_parameter. cbv zeta.
  apply I_define; [|apply I_record; exact H].
  intros loc. apply find_definition_recorded.
Qed.

Lemma invariant_fold_statements (l : list Statement) :
  Forall (fun s => forall sa, I sa -> I (visit_statement s sa)) l ->
  forall sa, I sa -> I (fold_left (fun sa s => visit_statement s sa) l sa).
Proof.
  induction 1 as [|s l Hs _ IH]; intros sa H; cbn [fold_left]; auto.
Qed.

(** A property of the analyzer's state that each of its steps keeps is
    kept by the walk over a statement. *)
Lemma invariant_statement (s : Statement) :
  forall sa, I sa -> I (visit_statement s sa).
Proof.
  induction s as
    [d | fname params rt body l c IHbody | v l c | stmts l c IHstmts
    | cond s1 s2 l c IH1 IH2 | cond s l c IH | i cond incr s l c IH
    | e l c] using Statement_nested_ind;
    intros sa Hsa; cbn [visit_statement].
  - apply invariant_variable_declaration. exact Hsa.
  - cbv zeta. apply I_function, I_scope.
    apply invariant_fold_statements; [exact IHbody|].
    apply invariant_parameters. apply I_function, I_enter.
    case_match.
    + apply I_error; [|apply I_record; exact Hsa].
      apply (located_defined "Function").
    + apply I_define; [|apply I_record; exact Hsa].
      intros loc. apply find_definition_recorded.
  - destruct v; [apply invariant_expression|]; exact Hsa.
  - cbv zeta. apply I_scope.
    apply invariant_fold_statements; [exact IHstmts|].
    apply I_enter. exact Hsa.
  - cbv zeta.
    assert (H1 : I (visit_statement s1 (visit_expression cond sa)))
      by (apply IH1, invariant_expression; exact Hsa).
    destruct s2 as [s2|]; [apply IH2|]; exact H1.
  - apply IH, invariant_expression. exact Hsa.
  - cbv zeta. apply I_scope. apply IH.
    assert (H0 : I (enter_child_scope "" sa)) by (apply I_enter; exact Hsa).
    revert H0. generalize (enter_child_scope "" sa). intros sa0 H0.
    assert (H1 : I (match i with
                    | Some (ForDeclaration d) => visit_variable_declaration d sa0
                    | Some (ForExpression e) => visit_expression e sa0
                    | None => sa0
                    end)).
    { destruct i as [[d|e]|];
        [apply invariant_variable_declaration
        | apply invariant_expression |]; exact H0. }
    revert H1.
    generalize (match i with
                | Some (ForDeclaration d) => visit_variable_declaration d sa0
                | Some (ForExpression e) => visit_expression e sa0
                | None => sa0
                end). intros sa1 H1.
    assert (H2 : I (match cond with
                    | Some e => visit_expression e sa1
                    | None => sa1
                    end))
      by (destruct cond; [apply invariant_expression|]; exact H1).
    revert H2.
    generalize (match cond with
                | Some e => visit_expression e sa1
                | None => sa1
                end). intros sa2 H2.
    destruct incr; [apply invariant_expression|]; exact H2.
  - apply invariant_expression. exact Hsa.
Qed.

Lemma invariant_analyze (program : Program) (sa : SemanticAnalyzer) :
  I sa -> I (analyze program sa).
Proof.
  unfold analyze, visit_program. apply invariant_fold_statements.
  apply Forall_forall. intros s _. apply invariant_statement.
Qed.

End AnalyzerInvariant.

Section AnalyzerRecords.
Import Ast Symbols SemanticAnalyzer.

Lemma find_definition_record_kept n k loc ty det sa m loc1 loc2 d :
  find_definition sa m loc1 = Some d ->
  find_definition (_record_definition n k loc ty det sa) m loc2 = Some d.
Proof.
  unfold find_definition, _record_definition. cbn. intros H.
  destruct (decide (m = n)) as [->|Hne].
  - rewrite lookup_insert_eq. cbn.
    destruct (default [] (definitions sa !! n)); [discriminate | exact H].
  - rewrite lookup_insert_ne by congruence. exact H.
Qed.

Lemma references_bound_init : references_bound init.
Proof. constructor. Qed.

Lemma references_bound_analyze (program : Program) sa :
  references_bound sa -> references_bound (analyze program sa).
Proof.
  apply invariant_analyze; clear sa; unfold references_bound.
  - intros msg sa _ H. exact H.
  - intros n loc d sa Hd H. cbn. apply Forall_app. split; [exact H|].
    constructor; [|constructor]. cbn. exact Hd.
  - intros n k loc ty det sa H. cbn [references _record_definition].
    eapply Forall_impl; [exact H|]. intros r Hr.
    eapply find_definition_record_kept. exact Hr.
  - intros symbol sa _ H. exact H.
  - intros n sa H. unfold enter_child_scope.
    destruct (create_child_scope _ _ _). exact H.
  - intros a sa H. exact H.
  - intros f sa H. exact H.
Qed.

(** X7: Every reference that [analyze] records is bound to the first
    Definition recorded under its name, the one [find_definition]
    returns: the Definitions recorded later under the name get no
    references. *)
Theorem references_bound_to_first_definition (program : Program) :
  Forall
    (fun r =>
       exists later,
         definitions (analyze program init) !! ref_name r
         = Some (definition r :: later))
    (references (analyze program init)).
Proof.
  pose proof (references_bound_analyze program init references_bound_init) as H.
  unfold references_bound in H.
  eapply Forall_impl; [exact H|]. intros r Hr. cbv beta in *.
  unfold find_definition in Hr.
  destruct (definitions (analyze program init) !! ref_name r) as [[|d ds]|];
    try discriminate Hr.
  injection Hr as ->. eauto.
Qed.

(** X8: So the references of a name are found by the name alone: for the
    Definition that [find_definition] returns, [find_all_references]
    returns every reference of that name. *)
Theorem references_found_by_name (program : Program) (n : string)
    (loc : Location) (d : Definition_) :
  find_definition (analyze program init) n loc = Some d ->
  find_all_references (analyze program init) n (location d)
  = List.filter (fun r => bool_decide (ref_name r = n))
      (references (analyze program init)).
Proof.
  intros Hd.
  pose proof (references_bound_analyze program init references_bound_init) as H.
  unfold references_bound in H. unfold find_all_references.
  induction (references (analyze program init)) as [|r rs IH]; [reflexivity|].
  apply Forall_cons in H as [Hr Hrs]. cbn [List.filter].
  rewrite (IH Hrs).
  case_bool_decide as Hn; cbn [andb]; [|reflexivity].
  subst n. unfold find_definition in Hr, Hd. rewrite Hd in Hr.
  injection Hr as <-.
  rewrite !bool_decide_eq_true_2 by reflexivity. reflexivity.
Qed.

Lemma references_found_by_name_witness :
  find_all_references (analyze redefines_print init) "print" (mkLocation 0 0)
  = List.filter (fun r => bool_decide (ref_name r = "print"))
      (references (analyze redefines_print init)).
Proof.
  apply (references_found_by_name redefines_print "print" (mkLocation 2 1)
           (mkDefinition "print" "function" (mkLocation 0 0) "Void"
              "Built-in function: print(value: Any) -> Void")).
  vm_compute. reflexivity.
Defined.





(** Every error message of [analyze] ends with its place,
    [ at <line>:<column>]. *)
Lemma errors_located (program : Program) sa :
  Forall located (errors sa) -> Forall located (errors (analyze program sa)).
Proof.
  apply (invariant_analyze (fun sa => Forall located (errors sa))); clear sa.
  - intros msg sa Hmsg H. cbn. apply Forall_app. split; [exact H|].
    constructor; [exact Hmsg | constructor].
  - intros n loc d sa _ H. exact H.
  - intros n k loc ty det sa H. exact H.
  - intros symbol sa _ H. exact H.
  - intros n sa H. unfold enter_child_scope.
    destruct (create_child_scope _ _ _). exact H.
  - intros a sa H. exact H.
  - intros f sa H. exact H.
Qed.

Lemma definitions_kept_analyze (program : Program) sa0 sa :
  definitions_kept sa0 sa -> definitions_kept sa0 (analyze program sa).
Proof.
  apply (invariant_analyze (definitions_kept sa0)); clear sa;
    unfold definitions_kept.
  - intros msg sa _ H. exact H.
  - intros n loc d sa _ H. exact H.
  - intros n k loc ty det sa H m. cbn [definitions _record_definition].
    destruct (decide (m = n)) as [->|Hne].
    + rewrite lookup_insert_eq. cbn [default].
      etransitivity; [apply H|]. apply prefix_app_r. reflexivity.
    + rewrite lookup_insert_ne by congruence. apply H.
  - intros symbol sa _ H. exact H.
  - intros n sa H. unfold enter_child_scope.
    destruct (create_child_scope _ _ _). exact H.
  - intros a sa H. exact H.
  - intros f sa H. exact H.
Qed.

(** X10: The Definitions of a name are only ever added to, at the end: what
    [find_definition] returns for a name before a run of [analyze], it
    returns after the run, whatever the program declares. *)
Theorem first_definition_kept (program : Program) (sa : SemanticAnalyzer)
    (n : string) (loc loc' : Location) (d : Definition_) :
  find_definition sa n loc = Some d ->
  find_definition (analyze program sa) n loc' = Some d
  /\ definitions_kept sa (analyze program sa).
Proof.
  intros Hd.
  assert (Hk : definitions_kept sa (analyze program sa)).
  { apply definitions_kept_analyze. intros m. reflexivity. }
  split; [|exact Hk].
  specialize (Hk n). unfold find_definition in *.
  destruct (default [] (definitions sa !! n)) as [|d0 ds]; [discriminate Hd|].
  injection Hd as ->. destruct Hk as [k ->]. reflexivity.
Qed.

Lemma first_definition_kept_witness :
  find_definition (analyze redefines_print init) "print" (mkLocation 2 1)
  = Some (mkDefinition "print" "function" (mkLocation 0 0) "Void"
            "Built-in function: print(value: Any) -> Void").
Proof.
  apply (first_definition_kept redefines_print init "print" (mkLocation 0 0)).
  vm_compute. reflexivity.
Defined.

End AnalyzerRecords.

(** ** Numbers as text *)

Section NumbersAsText.

Lemma pretty_N_char_decimal (d : N) :
  (d < 10)%N ->
  Py.isdecimal (pretty_N_char d) = true
  /\ Py.digit_value (pretty_N_char d) = Z.of_N d.
Proof.
  intros H.
  assert (d = 0 \/ d = 1 \/ d = 2 \/ d = 3 \/ d = 4 \/ d = 5 \/ d = 6
          \/ d = 7 \/ d = 8 \/ d = 9)%N as Hd by lia.
  repeat (destruct Hd as [-> | Hd]; [split; reflexivity|]).
  subst d. split; reflexivity.
Qed.

Lemma decimal_value_app (s1 s2 : string) (acc : Z) :
  decimal_value (s1 +:+ s2) acc = decimal_value s2 (decimal_value s1 acc).
Proof.
  revert acc. induction s1 as [|c s1 IH]; intros acc;
    [rewrite string_app_nil_l; reflexivity|].
  rewrite string_app_cons. cbn [decimal_value]. apply IH.
Qed.

Lemma decimal_value_acc (s : string) (acc : Z) :
  decimal_value s acc
  = (acc * 10 ^ Z.of_nat (String.length s) + decimal_value s 0)%Z.
Proof.
  revert acc. induction s as [|c s IH]; intros acc.
  - cbn. lia.
  - cbn [decimal_value String.length].
    rewrite IH, (IH (10 * 0 + Py.digit_value c)%Z).
    rewrite Nat2Z.inj_succ, Z.pow_succ_r by lia. lia.
Qed.

(** The digits [pretty_N_go] puts before its accumulator. *)
Lemma pretty_N_go_digits (x : N) :
  forall s,
    exists ds,
      pretty_N_go x s = ds +:+ s
      /\ all_chars Py.isdecimal ds = true
      /\ decimal_value ds 0 = Z.of_N x
      /\ ((0 < x)%N -> ds <> "").
Proof.
  induction (N.lt_wf_0 x) as [x _ IH]. intros s.
  destruct (decide (x = 0)%N) as [->|Hx].
  - exists "". rewrite pretty_N_go_0. repeat split; try reflexivity. lia.
  - assert (0 < x)%N as Hpos by lia.
    rewrite pretty_N_go_step by exact Hpos.
    destruct (IH (x `div` 10)%N (N.div_lt x 10 Hpos eq_refl)
                (String (pretty_N_char (x `mod` 10)) s))
      as (ds & Heq & Hall & Hval & _).
    destruct (pretty_N_char_decimal (x `mod` 10)%N) as [Hdec Hdv].
    { apply N.mod_lt. lia. }
    exists (ds +:+ String (pretty_N_char (x `mod` 10)) "").
    split; [rewrite Heq, string_app_snoc; reflexivity|].
    split; [rewrite all_chars_snoc, Hall; exact Hdec|].
    split.
    + rewrite decimal_value_app. cbn [decimal_value]. rewrite Hval, Hdv.
      rewrite (N.div_mod x 10) at 3 by lia. lia.
    + intros _. apply string_snoc_not_empty.
Qed.

(** [str(z)] is a run of decimal digits, after a minus sign when [z]
    is negative, and the digits are those of [z]. *)
Lemma str_digits (z : Z) :
  exists ds,
    Py.str z = (if (z <? 0)%Z then String "-" ds else ds)
    /\ ds <> ""
    /\ all_chars Py.isdecimal ds = true
    /\ decimal_value ds 0 = Z.abs z.
Proof.
  unfold Py.str, pretty, pretty_Z. destruct z as [|p|p].
  - exists "0". repeat split; try reflexivity. discriminate.
  - unfold pretty, pretty_positive, pretty, pretty_N.
    rewrite decide_False by discriminate.
    destruct (pretty_N_go_digits (N.pos p) "") as (ds & Heq & Hall & Hval & Hne).
    rewrite string_app_nil_r in Heq. exists ds.
    split; [exact Heq|]. split; [apply Hne; lia|]. split; [exact Hall|].
    rewrite Hval. reflexivity.
  - unfold pretty, pretty_positive, pretty, pretty_N.
    rewrite decide_False by discriminate.
    destruct (pretty_N_go_digits (N.pos p) "") as (ds & Heq & Hall & Hval & Hne).
    rewrite string_app_nil_r in Heq. exists ds.
    split; [rewrite Heq; reflexivity|]. split; [apply Hne; lia|].
    split; [exact Hall|]. rewrite Hval. reflexivity.
Qed.

Lemma int_digits_decimal (ds : string) :
  all_chars Py.isdecimal ds = true ->
  forall acc, Py.int_digits ds acc = Some (decimal_value ds acc).
Proof.
  induction ds as [|c ds IH]; intros Hall acc; [reflexivity|].
  cbn [all_chars] in Hall. apply andb_true_iff in Hall as [Hc Hds].
  cbn [Py.int_digits decimal_value]. rewrite Hc. apply IH. exact Hds.
Qed.

Lemma int_digits_underscores_decimal (ds : string) :
  all_chars Py.isdecimal ds = true -> ds <> "" ->
  forall acc flag,
    PyStr.int_digits ds acc flag = Some (decimal_value ds acc).
Proof.
  induction ds as [|c ds IH]; intros Hall Hne acc flag; [congruence|].
  cbn [all_chars] in Hall. apply andb_true_iff in Hall as [Hc Hds].
  cbn [PyStr.int_digits decimal_value]. rewrite Hc.
  destruct ds as [|d ds]; [reflexivity|].
  apply IH; [exact Hds | discriminate].
Qed.

Lemma isdecimal_not_space (c : ascii) :
  Py.isdecimal c = true -> PyStr.int_space c = false.
Proof.
  unfold Py.isdecimal, PyStr.int_space, Py.between, Py.is_code.
  intros H. apply andb_true_iff in H as [H1 H2].
  apply N.leb_le in H1, H2.
  repeat (apply orb_false_iff; split);
    try (apply andb_false_iff; right; apply N.leb_gt; lia);
    apply N.eqb_neq; lia.
Qed.

Lemma rstrip_decimal (ds : string) :
  all_chars Py.isdecimal ds = true -> PyStr.rstrip ds = ds.
Proof.
  induction ds as [|c ds IH]; intros Hall; [reflexivity|].
  cbn [all_chars] in Hall. apply andb_true_iff in Hall as [Hc Hds].
  cbn [PyStr.rstrip]. rewrite (IH Hds).
  destruct ds; [|reflexivity].
  rewrite (isdecimal_not_space _ Hc). reflexivity.
Qed.

(** [int(str(z)) == z] *)
Lemma int_str (z : Z) : PyStr.int (Py.str z) = Some z.
Proof.
  destruct (str_digits z) as (ds & Heq & Hne & Hall & Hval).
  rewrite Heq. unfold PyStr.int.
  destruct ds as [|d ds]; [congruence|].
  pose proof Hall as Hall'. cbn [all_chars] in Hall'.
  apply andb_true_iff in Hall' as [Hd _].
  destruct (z <? 0)%Z eqn:Hz.
  - cbn [PyStr.lstrip]. change (PyStr.int_space "-") with false. cbv iota.
    change (PyStr.rstrip (String "-" (String d ds)))
      with (match PyStr.rstrip (String d ds) with
            | EmptyString => if PyStr.int_space "-" then EmptyString
                             else String "-" ""
            | r => String "-" r
            end).
    rewrite (rstrip_decimal _ Hall).
    rewrite (int_digits_underscores_decimal _ Hall Hne).
    cbn [fmap option_fmap option_map]. rewrite Hval. f_equal.
    apply Z.ltb_lt in Hz. lia.
  - cbn [PyStr.lstrip]. rewrite (isdecimal_not_space _ Hd).
    rewrite (rstrip_decimal _ Hall).
    pose proof (int_digits_underscores_decimal _ Hall Hne 0%Z true) as Hint.
    rewrite Hval in Hint. apply Z.ltb_ge in Hz.
    rewrite Z.abs_eq in Hint by exact Hz.
    destruct d as [[] [] [] [] [] [] [] []];
      first [exact Hint | discriminate Hd].
Qed.

End NumbersAsText.

(** ** Splitting an error message *)

Section Splitting.

Lemma prefix_cons_ne (a : ascii) (sep : string) (c : ascii) (s : string) :
  differs_from a c = true -> String.prefix (String a sep) (String c s) = false.
Proof.
  unfold differs_from. intros H. cbn [String.prefix].
  destruct (ascii_dec a c) as [->|_]; [|reflexivity].
  rewrite Ascii.eqb_refl in H. discriminate H.
Qed.

(** A text without the first character of the separator is one piece. *)
Lemma split_from_without (a : ascii) (sep s : string) :
  all_chars (differs_from a) s = true ->
  forall piece,
    PyStr.split_from (String a sep) s 0 piece = [piece +:+ s].
Proof.
  induction s as [|c s IH]; intros Hall piece.
  - cbn. rewrite string_app_nil_r. reflexivity.
  - cbn [all_chars] in Hall. apply andb_true_iff in Hall as [Hc Hs].
    cbn [PyStr.split_from]. rewrite (prefix_cons_ne _ _ _ _ Hc).
    rewrite (IH Hs), string_app_snoc. reflexivity.
Qed.

Lemma split_from_nonempty (sep s : string) :
  forall skip piece, PyStr.split_from sep s skip piece <> [].
Proof.
  induction s as [|c s IH]; intros skip piece; cbn [PyStr.split_from];
    [discriminate|].
  destruct skip; [|apply IH]. destruct (String.prefix sep (String c s));
    [discriminate | apply IH].
Qed.

(** The two sides of a colon, when neither holds a colon. *)
Lemma split_colon (s1 s2 : string) :
  all_chars (differs_from ":") s1 = true ->
  all_chars (differs_from ":") s2 = true ->
  PyStr.split ":" (s1 +:+ ":" +:+ s2) = [s1; s2].
Proof.
  intros H1 H2. unfold PyStr.split.
  assert (Hgen : forall piece,
            PyStr.split_from ":" (s1 +:+ ":" +:+ s2) 0 piece
            = [piece +:+ s1; s2]).
  { induction s1 as [|c s1 IH]; intros piece.
    - rewrite string_app_nil_l, string_app_nil_r.
      change (":" +:+ s2) with (String ":" s2).
      cbn [PyStr.split_from String.prefix].
      destruct (ascii_dec ":" ":") as [_|Hne]; [|congruence].
      destruct s2; cbn [String.prefix String.length Nat.sub].
      + reflexivity.
      + rewrite (split_from_without ":" "" _ H2), string_app_nil_l.
        reflexivity.
    - cbn [all_chars] in H1. apply andb_true_iff in H1 as [Hc Hs].
      rewrite string_app_cons. cbn [PyStr.split_from].
      rewrite (prefix_cons_ne _ _ _ _ Hc), (IH Hs), string_app_snoc.
      reflexivity. }
  rewrite Hgen, string_app_nil_l. reflexivity.
Qed.

Lemma endswith_cons (c : ascii) (s : string) (x : ascii) :
  s <> "" -> Py.endswith (String c s) x = Py.endswith s x.
Proof. destruct s; [congruence | reflexivity]. Qed.

Lemma prefix_nil (s : string) : String.prefix "" s = true.
Proof. destruct s; reflexivity. Qed.

Lemma split_from_at_head (tail piece : string) :
  PyStr.split_from " at " (" at " +:+ tail) 0 piece
  = piece :: PyStr.split " at " tail.
Proof.
  change (" at " +:+ tail)
    with (String " " (String "a" (String "t" (String " " tail)))).
  cbn [PyStr.split_from String.prefix].
  repeat match goal with
         | |- context [ascii_dec ?a ?b] =>
             destruct (ascii_dec a b); [|congruence]
         end.
  rewrite prefix_nil. reflexivity.
Qed.

Lemma prefix_at_app (y tail : string) :
  y <> "" -> Py.endswith y "t" = false ->
  String.prefix " at " (y +:+ " at " +:+ tail) = String.prefix " at " y.
Proof.
  intros Hne Hend.
  destruct y as [|c1 [|c2 [|c3 [|c4 y4]]]]; [congruence|..];
    rewrite ?string_app_cons, ?string_app_nil_l;
    change (" at " +:+ tail)
      with (String " " (String "a" (String "t" (String " " tail))));
    cbn [String.prefix];
    repeat match goal with
           | |- context [ascii_dec ?a ?b] => destruct (ascii_dec a b)
           end;
    rewrite ?prefix_nil; try reflexivity; try discriminate.
  subst. discriminate Hend.
Qed.

Lemma prefix_at_true (y : string) :
  String.prefix " at " y = true -> exists y4, y = " at " +:+ y4.
Proof.
  destruct y as [|c1 [|c2 [|c3 [|c4 y4]]]]; cbn [String.prefix];
    repeat match goal with
           | |- context [ascii_dec ?a ?b] => destruct (ascii_dec a b)
           end;
    try discriminate.
  intros _. subst. exists y4. reflexivity.
Qed.

(** An occurrence of [" at "] that follows a text not ending in [t]
    is found by [split], whatever the text is: the pieces are those of
    the text and then those of what follows the occurrence. *)
Lemma split_at_located (tail : string) :
  forall n y, String.length y <= n -> Py.endswith y "t" = false ->
    forall piece,
      PyStr.split_from " at " (y +:+ " at " +:+ tail) 0 piece
      = PyStr.split_from " at " y 0 piece ++ PyStr.split " at " tail.
Proof.
  induction n as [|n IH]; intros y Hlen Hend piece.
  - destruct y; [|cbn in Hlen; lia].
    rewrite string_app_nil_l. apply split_from_at_head.
  - destruct y as [|c1 y1];
      [rewrite string_app_nil_l; apply split_from_at_head|].
    cbn [String.length] in Hlen.
    assert (Hend1 : Py.endswith y1 "t" = false).
    { destruct y1; [reflexivity|]. rewrite endswith_cons in Hend by discriminate.
      exact Hend. }
    pose proof (prefix_at_app (String c1 y1) tail ltac:(discriminate) Hend)
      as Hpre.
    rewrite string_app_cons in Hpre |- *.
    cbn [PyStr.split_from]. rewrite Hpre.
    destruct (String.prefix " at " (String c1 y1)) eqn:Hp.
    + destruct (prefix_at_true _ Hp) as [y4 Hy].
      change (" at " +:+ y4)
        with (String " " (String "a" (String "t" (String " " y4)))) in Hy.
      injection Hy as -> ->.
      rewrite !string_app_cons.
      cbn [PyStr.split_from String.length Nat.sub].
      rewrite <- app_comm_cons. f_equal.
      apply IH; [cbn in Hlen; lia|].
      destruct y4; [reflexivity|].
      rewrite !endswith_cons in Hend1 by discriminate. exact Hend1.
    + apply IH; [lia | exact Hend1].
Qed.

End Splitting.

(** ** The word at a position *)

Section WordAtPosition.
Import Server.

Lemma string_get_Some (s : string) (i : nat) :
  i < String.length s -> exists c, String.get i s = Some c.
Proof.
  revert i. induction s as [|a s IH]; intros i Hi; [cbn in Hi; lia|].
  destruct i as [|i]; [exists a; reflexivity|].
  cbn in Hi. apply (IH i). lia.
Qed.

Lemma string_get_None (s : string) (i : nat) :
  String.length s <= i -> String.get i s = None.
Proof.
  revert i. induction s as [|a s IH]; intros i Hi; [destruct i; reflexivity|].
  destruct i as [|i]; [cbn in Hi; lia|].
  cbn in Hi. apply (IH i). lia.
Qed.

Lemma word_start_from_spec (l : string) :
  forall n, n <= String.length l ->
    exists ws,
      word_start_from l n = Return ws
      /\ ws <= n
      /\ (forall i, ws <= i < n ->
            exists c, String.get i l = Some c /\ is_word c = true)
      /\ (ws = 0 \/ exists c, String.get (ws - 1) l = Some c
                              /\ is_word c = false).
Proof.
  induction n as [|n IH]; intros Hn.
  - exists 0. split; [reflexivity|]. split; [lia|]. split; [intros; lia|].
    left. reflexivity.
  - cbn [word_start_from].
    destruct (string_get_Some l n ltac:(lia)) as [c Hc]. rewrite Hc.
    destruct (is_word c) eqn:Hw.
    + destruct (IH ltac:(lia)) as (ws & Hrun & Hle & Hall & Hstop).
      exists ws. split; [exact Hrun|]. split; [lia|]. split; [|exact Hstop].
      intros i Hi. destruct (decide (i = n)) as [->|Hne]; [eauto|].
      apply Hall. lia.
    + exists (S n). split; [reflexivity|]. split; [lia|].
      split; [intros; lia|]. right. exists c.
      replace (S n - 1) with n by lia. auto.
Qed.

Lemma getitem_of_nat (l : string) (k : nat) :
  PyStr.getitem l (Z.of_nat k) = String.get k l.
Proof.
  unfold PyStr.getitem. rewrite (proj2 (Z.leb_le 0 (Z.of_nat k))) by lia.
  rewrite Nat2Z.id. reflexivity.
Qed.

Lemma word_end_from_spec (l : string) :
  forall r k, k + r = String.length l ->
    exists k',
      word_end_from l r (Z.of_nat k) = Return (Z.of_nat k')
      /\ k <= k' <= String.length l
      /\ (forall i, k <= i < k' ->
            exists c, String.get i l = Some c /\ is_word c = true)
      /\ (k' = String.length l
          \/ exists c, String.get k' l = Some c /\ is_word c = false).
Proof.
  induction r as [|r IH]; intros k Hk.
  - exists k. split; [reflexivity|]. split; [lia|]. split; [intros; lia|].
    left. lia.
  - cbn [word_end_from]. rewrite getitem_of_nat.
    destruct (string_get_Some l k ltac:(lia)) as [c Hc]. rewrite Hc.
    destruct (is_word c) eqn:Hw.
    + destruct (IH (S k) ltac:(lia)) as (k' & Hrun & Hle & Hall & Hstop).
      exists k'. replace (Z.of_nat k + 1)%Z with (Z.of_nat (S k)) by lia.
      split; [exact Hrun|]. split; [lia|]. split; [|exact Hstop].
      intros i Hi. destruct (decide (i = k)) as [->|Hne]; [eauto|].
      apply Hall. lia.
    + exists k. split; [reflexivity|]. split; [lia|].
      split; [intros; lia|]. right. eauto.
Qed.

Lemma substring_chars (p : ascii -> bool) (s : string) :
  forall a n,
    (forall i, a <= i < a + n ->
       exists c, String.get i s = Some c /\ p c = true) ->
    all_chars p (String.substring a n s) = true
    /\ String.length (String.substring a n s) = n.
Proof.
  induction s as [|c s IH]; intros a n H.
  - destruct n as [|n].
    + destruct a; split; reflexivity.
    + destruct (H a ltac:(lia)) as (x & Hx & _). destruct a; discriminate Hx.
  - destruct a as [|a].
    + destruct n as [|n]; [split; reflexivity|].
      cbn [String.substring all_chars String.length].
      destruct (H 0 ltac:(lia)) as (x & Hx & Hp). cbn in Hx.
      injection Hx as ->. rewrite Hp.
      destruct (IH 0 n) as [H1 H2].
      { intros i Hi. apply (H (S i)). lia. }
      split; [exact H1 | rewrite H2; reflexivity].
    + cbn [String.substring]. apply IH. intros i Hi.
      apply (H (S i)). lia.
Qed.

Lemma slice_within (l : string) (a b : nat) :
  a <= b <= String.length l ->
  PyStr.slice l (Z.of_nat a) (Z.of_nat b) = String.substring a (b - a) l.
Proof.
  intros H. unfold PyStr.slice, PyStr.slice_bound.
  rewrite !(proj2 (Z.ltb_ge _ 0)) by lia.
  rewrite !Z.min_r by lia. rewrite Nat2Z.id. f_equal. lia.
Qed.

(** X11: The word that [on_hover], [on_definition] and [on_references]
    find at a character of a line: the longest run of word characters
    around the character, which may be empty. *)
Theorem word_around_character (current_line : string) (character : nat) :
  character <= String.length current_line ->
  exists word_start word_end : nat,
    find_word_start current_line (Z.of_nat character)
    = Return (Z.of_nat word_start)
    /\ find_word_end current_line (Z.of_nat character)
       = Return (Z.of_nat word_end)
    /\ word_start <= character <= word_end
    /\ word_end <= String.length current_line
    /\ PyStr.slice current_line (Z.of_nat word_start) (Z.of_nat word_end)
       = String.substring word_start (word_end - word_start) current_line
    /\ String.length
         (PyStr.slice current_line (Z.of_nat word_start) (Z.of_nat word_end))
       = word_end - word_start
    /\ all_chars is_word
         (PyStr.slice current_line (Z.of_nat word_start) (Z.of_nat word_end))
       = true
    /\ (word_start = 0
        \/ exists c, String.get (word_start - 1) current_line = Some c
                     /\ is_word c = false)
    /\ (word_end = String.length current_line
        \/ exists c, String.get word_end current_line = Some c
                     /\ is_word c = false).
Proof.
  intros Hc.
  destruct (word_start_from_spec current_line character Hc)
    as (ws & Hws & Hle & Hbefore & Hstop).
  destruct (word_end_from_spec current_line
              (String.length current_line - character) character ltac:(lia))
    as (we & Hwe & Hle' & Hafter & Hstop').
  exists ws, we.
  split.
  { unfold find_word_start. destruct character as [|n].
    - cbn in Hws. injection Hws as <-. reflexivity.
    - rewrite (proj2 (Z.ltb_lt 0 (Z.of_nat (S n)))) by lia.
      rewrite Nat2Z.id, Hws. reflexivity. }
  split.
  { unfold find_word_end.
    replace (Z.to_nat (Z.of_nat (String.length current_line)
                       - Z.of_nat character))
      with (String.length current_line - character) by lia.
    exact Hwe. }
  split; [lia|]. split; [lia|].
  rewrite slice_within by lia.
  destruct (substring_chars is_word current_line ws (we - ws)) as [H1 H2].
  { intros i Hi. destruct (decide (i < character)) as [Hlt|Hge].
    - apply Hbefore. lia.
    - apply Hafter. lia. }
  auto.
Qed.

Lemma word_around_character_witness :
  exists word_start word_end : nat,
    find_word_start "a = foo_1 + 2" 6 = Return (Z.of_nat word_start)
    /\ find_word_end "a = foo_1 + 2" 6 = Return (Z.of_nat word_end)
    /\ PyStr.slice "a = foo_1 + 2" (Z.of_nat word_start) (Z.of_nat word_end)
       = "foo_1".
Proof.
  destruct (word_around_character "a = foo_1 + 2" 6 ltac:(cbn; lia))
    as (ws & we & Hws & Hwe & _).
  exists ws, we. split; [exact Hws|]. split; [exact Hwe|].
  vm_compute in Hws, Hwe.
  injection Hws as Hws. injection Hwe as Hwe.
  apply (Nat2Z.inj 4) in Hws. apply (Nat2Z.inj 9) in Hwe. subst.
  vm_compute. reflexivity.
Defined.

(** X12: A position past the end of its line makes each of the three
    requests raise [IndexError], from the subscript
    [current_line[word_start - 1]]: so does a position after column 0
    on a line that the document does not have. *)
Theorem position_past_line_end (self : AetherScriptLanguageServer)
    (uri text : string) (sa : SemanticAnalyzer.SemanticAnalyzer)
    (position : Position) (line_text : string) :
  document_cache self !! uri = Some text ->
  semantic_analyzers self !! uri = Some sa ->
  current_line text (line position) = Return line_text ->
  (Z.of_nat (String.length line_text) < character position)%Z ->
  on_hover self uri position = Raise IndexError
  /\ on_definition self uri position = Raise IndexError
  /\ on_references self uri position = Raise IndexError.
Proof.
  intros Hdoc Hsa Hline Hpast.
  assert (Hword : word_at text position = Raise IndexError).
  { unfold word_at. rewrite Hline. cbn [bind].
    unfold find_word_start.
    rewrite (proj2 (Z.ltb_lt 0 (character position))) by lia.
    destruct (Z.to_nat (character position)) as [|n] eqn:Hn; [lia|].
    cbn [word_start_from].
    rewrite string_get_None by lia. reflexivity. }
  unfold on_hover, on_definition, on_references.
  rewrite Hdoc, Hsa, Hword. auto.
Qed.

Lemma position_past_line_end_witness :
  on_hover (mkServer {["doc" := "x;"]} empty empty
              {["doc" := SemanticAnalyzer.init]})
    "doc" (mkPosition 0 3)
  = Raise IndexError.
Proof.
  refine (proj1 (position_past_line_end _ "doc" "x;" SemanticAnalyzer.init
                   (mkPosition 0 3) "x;" _ _ _ _)).
  - apply lookup_singleton_eq.
  - apply lookup_singleton_eq.
  - vm_compute. reflexivity.
  - cbn. lia.
Defined.

End WordAtPosition.

(** ** Diagnostics *)

Section Diagnostics.
Import Server.

Lemma all_chars_impl (p q : ascii -> bool) (s : string) :
  (forall c, p c = true -> q c = true) ->
  all_chars p s = true -> all_chars q s = true.
Proof.
  intros Hpq. induction s as [|c s IH]; [reflexivity|]. cbn [all_chars].
  intros H. apply andb_true_iff in H as [Hc Hs].
  rewrite (Hpq c Hc), (IH Hs). reflexivity.
Qed.

Lemma str_differs (x : ascii) (z : Z) :
  Py.isdecimal x = false -> x <> "-"%char ->
  all_chars (differs_from x) (Py.str z) = true.
Proof.
  intros Hx Hminus.
  destruct (str_digits z) as (ds & -> & _ & Hall & _).
  assert (Hds : all_chars (differs_from x) ds = true).
  { eapply all_chars_impl; [|exact Hall]. intros c Hc. unfold differs_from.
    destruct (Ascii.eqb c x) eqn:E; [|reflexivity].
    apply Ascii.eqb_eq in E. congruence. }
  destruct (z <? 0)%Z; [|exact Hds]. cbn [all_chars]. rewrite Hds.
  unfold differs_from. destruct (Ascii.eqb "-" x) eqn:E; [|reflexivity].
  apply Ascii.eqb_eq in E. congruence.
Qed.

Lemma last_app_singleton {A} (l : list A) (x d : A) :
  List.last (l ++ [x]) d = x.
Proof. apply last_last. Qed.

Lemma nth_0_app {A} (l k : list A) (d : A) :
  l <> [] -> nth 0 (l ++ k) d = nth 0 l d.
Proof. destruct l; [congruence | reflexivity]. Qed.

(** The diagnostic of an error message that ends with its place. *)
Lemma located_diagnostic (text : string) (l c : Z) :
  Py.endswith text "t" = false ->
  semantic_error_diagnostics
    (text +:+ " at " +:+ Py.str l +:+ ":" +:+ Py.str c)
  = [mkDiagnostic
       (mkRange (mkPosition (l - 1) (c - 1)) (mkPosition (l - 1) c))
       (nth 0 (PyStr.split " at " text) "") Warning
       "aetherscript-semantic-analyzer"].
Proof.
  intros Hend. unfold semantic_error_diagnostics.
  assert (Hparts : PyStr.split " at "
                     (text +:+ " at " +:+ Py.str l +:+ ":" +:+ Py.str c)
                   = PyStr.split " at " text
                     ++ [Py.str l +:+ ":" +:+ Py.str c]).
  { unfold PyStr.split at 1.
    rewrite (split_at_located _ (String.length text) text (le_n _) Hend).
    f_equal. unfold PyStr.split.
    rewrite (split_from_without " " "at "), string_app_nil_l; [reflexivity|].
    rewrite !all_chars_app.
    rewrite !str_differs by (reflexivity || discriminate). reflexivity. }
  rewrite Hparts. cbv zeta.
  pose proof (split_from_nonempty " at " text 0 "") as Hne.
  fold (PyStr.split " at " text) in Hne.
  rewrite bool_decide_eq_true_2.
  2:{ rewrite length_app. cbn [length].
      destruct (PyStr.split " at " text); [congruence | cbn; lia]. }
  rewrite last_app_singleton.
  rewrite split_colon by (apply str_differs; reflexivity || discriminate).
  rewrite bool_decide_eq_true_2 by (cbn; lia).
  cbn [nth]. rewrite !int_str.
  rewrite nth_0_app by exact Hne. reflexivity.
Qed.

(** X13: Every error that [analyze] reports becomes one diagnostic, a
    warning on the character at the line and column that the message
    ends with. *)
Theorem semantic_errors_become_warnings (program : Ast.Program) :
  Forall
    (fun error =>
       exists text l c,
         error = text +:+ " at " +:+ Py.str l +:+ ":" +:+ Py.str c
         /\ semantic_error_diagnostics error
            = [mkDiagnostic
                 (mkRange (mkPosition (l - 1) (c - 1))
                    (mkPosition (l - 1) c))
                 (nth 0 (PyStr.split " at " text) "") Warning
                 "aetherscript-semantic-analyzer"])
    (SemanticAnalyzer.errors
       (SemanticAnalyzer.analyze program SemanticAnalyzer.init)).
Proof.
  pose proof (errors_located program SemanticAnalyzer.init
                (Forall_nil_2 _)) as H.
  eapply Forall_impl; [exact H|].
  intros error (head & last & l & c & -> & Hlast).
  exists (head +:+ String last ""), l, c.
  split; [rewrite string_app_snoc; reflexivity|].
  rewrite <- (string_app_snoc head last).
  apply located_diagnostic. rewrite endswith_snoc.
  destruct (Ascii.eqb last "t") eqn:E; [|reflexivity].
  apply Ascii.eqb_eq in E. congruence.
Qed.

End Diagnostics.

Section Notifications.
Import Server.

Lemma split_from_clean_prefix (a : ascii) (sep s1 s2 : string) :
  all_chars (differs_from a) s1 = true ->
  forall piece,
    PyStr.split_from (String a sep) (s1 +:+ s2) 0 piece
    = PyStr.split_from (String a sep) s2 0 (piece +:+ s1).
Proof.
  induction s1 as [|c s1 IH]; intros Hall piece.
  - rewrite string_app_nil_l, string_app_nil_r. reflexivity.
  - cbn [all_chars] in Hall. apply andb_true_iff in Hall as [Hc Hs].
    rewrite string_app_cons. cbn [PyStr.split_from].
    rewrite (prefix_cons_ne _ _ _ _ Hc), (IH Hs), string_app_snoc.
    reflexivity.
Qed.

(** An undefined identifier whose name has no space, as every name
    that the lexer reads, is published as a warning on the first
    character of the identifier, with the message up to the name. *)
Lemma undefined_diagnostic (n : string) (l c : Z) :
  all_chars (differs_from " ") n = true ->
  semantic_error_diagnostics (SemanticAnalyzer.undefined_identifier n l c)
  = [mkDiagnostic
       (mkRange (mkPosition (l - 1) (c - 1)) (mkPosition (l - 1) c))
       ("Undefined identifier '" +:+ n +:+ "'") Warning
       "aetherscript-semantic-analyzer"].
Proof.
  intros Hn. unfold SemanticAnalyzer.undefined_identifier.
  replace ("Undefined identifier '" +:+ n +:+ "' at " +:+ Py.str l +:+ ":"
           +:+ Py.str c)
    with (("Undefined identifier '" +:+ n +:+ "'") +:+ " at " +:+ Py.str l
          +:+ ":" +:+ Py.str c)
    by (rewrite !string_app_assoc; reflexivity).
  rewrite located_diagnostic.
  2:{ rewrite <- string_app_assoc.
      apply (endswith_snoc ("Undefined identifier '" +:+ n) "'" "t"). }
  do 2 f_equal. unfold PyStr.split.
  change ("Undefined identifier '" +:+ n +:+ "'")
    with ("Undefined"
          +:+ String " " ("identifier"
                          +:+ String " " (String "'" (n +:+ "'")))).
  rewrite (split_from_clean_prefix " " "at " "Undefined") by reflexivity.
  cbn [PyStr.split_from].
  change ("identifier" +:+ String " " (String "'" (n +:+ "'")))
    with (String "i" ("dentifier"
                      +:+ String " " (String "'" (n +:+ "'")))) at 1.
  cbn [String.prefix].
  destruct (ascii_dec " " " ") as [_|Hne]; [|congruence].
  destruct (ascii_dec "a" "i") as [Heq|_]; [discriminate Heq|].
  rewrite (split_from_clean_prefix " " "at " "identifier") by reflexivity.
  cbn [PyStr.split_from String.prefix].
  destruct (ascii_dec " " " ") as [_|Hne]; [|congruence].
  destruct (ascii_dec "a" "'") as [Heq|_]; [discriminate Heq|].
  rewrite (split_from_without " " "at ").
  - cbn [nth]. rewrite !string_app_nil_l, !string_app_assoc. reflexivity.
  - cbn [all_chars]. rewrite all_chars_app, Hn. reflexivity.
Qed.

Lemma located_singleton (errors : list string) :
  Forall located errors ->
  length (concat (map semantic_error_diagnostics errors)) = length errors.
Proof.
  induction 1 as [|error errors Herror _ IH]; [reflexivity|].
  cbn [map concat length]. rewrite length_app, IH.
  destruct Herror as (head & last & l & c & -> & Hlast).
  rewrite <- (string_app_snoc head last).
  rewrite located_diagnostic; [reflexivity|].
  rewrite endswith_snoc.
  destruct (Ascii.eqb last "t") eqn:E; [|reflexivity].
  apply Ascii.eqb_eq in E. congruence.
Qed.

(** X15: What opening a document does.  When the handler publishes, the
    text is in the cache, the parser, type checker and analyzer of the
    text are stored under the URI, the other documents keep theirs,
    and one diagnostic is published for each parse error, each type
    error and each semantic error.  When the parser raises, the text
    is in the cache, nothing is published, and the analyzers are
    those of the text before.  The handler never returns without one
    of the two. *)
Theorem did_open_outcome (uri text : string)
    (self : AetherScriptLanguageServer) :
  (forall self' diagnostics,
     on_did_open uri text self = Published self' diagnostics ->
     exists ast parser,
       Parser.parse_source text = Parser.Returned ast parser
       /\ document_cache self' = <[uri := text]> (document_cache self)
       /\ parsers self' = <[uri := parser]> (parsers self)
       /\ type_checkers self'
          = <[uri := TypeChecker.check ast TypeChecker.init]>
              (type_checkers self)
       /\ semantic_analyzers self'
          = <[uri := SemanticAnalyzer.analyze ast SemanticAnalyzer.init]>
              (semantic_analyzers self)
       /\ length diagnostics
          = length (Parser.errors parser)
            + length (TypeChecker.errors
                        (TypeChecker.check ast TypeChecker.init))
            + length (SemanticAnalyzer.errors
                        (SemanticAnalyzer.analyze ast
                           SemanticAnalyzer.init)))
  /\ (forall e self',
        on_did_open uri text self = Failed e self' ->
        document_cache self' = <[uri := text]> (document_cache self)
        /\ parsers self' = parsers self
        /\ type_checkers self' = type_checkers self
        /\ semantic_analyzers self' = semantic_analyzers self)
  /\ (forall self', on_did_open uri text self <> Idle self').
Proof.
  unfold on_did_open, _analyze_document.
  destruct (Parser.parse_source text) as [ast parser|e p|].
  - split; [|split; intros; discriminate].
    intros self' diagnostics [= <- <-].
    exists ast, parser. cbn. repeat (split; [reflexivity|]).
    rewrite !length_app, !length_map.
    rewrite located_singleton; [lia|].
    apply errors_located. constructor.
  - split; [intros; discriminate|]. split; [|intros; discriminate].
    intros e' self' [= <- <-]. cbn. auto.
  - repeat split; intros; discriminate.
Qed.

(** Opening [x;] publishes one diagnostic of the type checker and one
    of the analyzer. *)
Lemma did_open_outcome_witness :
  match on_did_open "file:///a" undefined_x_source init with
  | Published self' diagnostics =>
      document_cache self' = {["file:///a" := undefined_x_source]}
      /\ length diagnostics = 2
  | _ => False
  end.
Proof.
  destruct (on_did_open "file:///a" undefined_x_source init)
    as [self' diagnostics| | |] eqn:E;
    try (vm_compute in E; discriminate E).
  destruct (proj1 (did_open_outcome "file:///a" undefined_x_source init)
              self' diagnostics E)
    as (ast & parser & Hparse & Hcache & _ & _ & _ & Hlen).
  split; [exact Hcache|]. rewrite Hlen.
  vm_compute in Hparse. injection Hparse as <- <-. reflexivity.
Defined.

End Notifications.

Section Requests.
Import Server.

Lemma find_definition_kept (program : Ast.Program)
    (sa : SemanticAnalyzer.SemanticAnalyzer) (n : string)
    (loc loc' : SemanticAnalyzer.Location) (d : SemanticAnalyzer.Definition_) :
  SemanticAnalyzer.find_definition sa n loc = Some d ->
  SemanticAnalyzer.find_definition (SemanticAnalyzer.analyze program sa) n loc'
  = Some d.
Proof.
  intros Hd.
  assert (Hk : definitions_kept sa (SemanticAnalyzer.analyze program sa)).
  { apply definitions_kept_analyze. intros m. reflexivity. }
  specialize (Hk n). unfold SemanticAnalyzer.find_definition in *.
  destruct (default [] (SemanticAnalyzer.definitions sa !! n)) as [|d0 ds];
    [discriminate Hd|].
  injection Hd as ->. destruct Hk as [k ->]. reflexivity.
Qed.

(** X16: Whatever the document declares, the word [print] leads to the
    built-in function: its place, line 0 and column 0 for the
    analyzer, is line -1 and character -1 for the client, and the
    hover text is that of the built-in. *)
Theorem print_leads_to_builtin (self : AetherScriptLanguageServer)
    (uri text : string) (program : Ast.Program) (position : Position)
    (word_start word_end : Z) :
  document_cache self !! uri = Some text ->
  semantic_analyzers self !! uri
  = Some (SemanticAnalyzer.analyze program SemanticAnalyzer.init) ->
  word_at text position = Return (word_start, word_end, "print") ->
  on_definition self uri position
  = Return (Some (mkLocation uri
                    (mkRange (mkPosition (-1) (-1)) (mkPosition (-1) 4))))
  /\ on_hover self uri position
     = Return
         (Some (mkHover
                  (hover_text
                     ("function print: Void"
                      +:+ String Py.newline
                            "Built-in function: print(value: Any) -> Void"))
                  (mkRange (mkPosition (line position) word_start)
                     (mkPosition (line position) word_end)))).
Proof.
  intros Hdoc Hsa Hword.
  assert (Hdef : forall loc,
            SemanticAnalyzer.find_definition
              (SemanticAnalyzer.analyze program SemanticAnalyzer.init)
              "print" loc
            = Some (SemanticAnalyzer.mkDefinition "print" "function"
                      (SemanticAnalyzer.mkLocation 0 0) "Void"
                      "Built-in function: print(value: Any) -> Void")).
  { intros loc.
    apply (find_definition_kept program SemanticAnalyzer.init "print"
             (SemanticAnalyzer.mkLocation 0 0)).
    vm_compute. reflexivity. }
  unfold on_definition, on_hover, SemanticAnalyzer.find_hover_info.
  rewrite Hdoc, Hsa, Hword. cbn [bind].
  rewrite bool_decide_eq_false_2 by discriminate.
  rewrite !Hdef. split; reflexivity.
Qed.

Lemma print_leads_to_builtin_witness :
  on_definition
    (mkServer {["doc" := "print;"]} empty empty
       {["doc" := SemanticAnalyzer.analyze redefines_print
                    SemanticAnalyzer.init]})
    "doc" (mkPosition 0 2)
  = Return (Some (mkLocation "doc"
                    (mkRange (mkPosition (-1) (-1)) (mkPosition (-1) 4)))).
Proof.
  refine (proj1 (print_leads_to_builtin _ "doc" "print;" redefines_print
                   (mkPosition 0 2) 0 5 _ _ _)).
  - apply lookup_singleton_eq.
  - apply lookup_singleton_eq.
  - vm_compute. reflexivity.
Defined.

Lemma find_all_references_bound (sa : SemanticAnalyzer.SemanticAnalyzer)
    (n : string) (loc : SemanticAnalyzer.Location)
    (d : SemanticAnalyzer.Definition_) :
  references_bound sa ->
  SemanticAnalyzer.find_definition sa n loc = Some d ->
  SemanticAnalyzer.find_all_references sa n (SemanticAnalyzer.location d)
  = List.filter (fun r => bool_decide (SemanticAnalyzer.ref_name r = n))
      (SemanticAnalyzer.references sa).
Proof.
  intros H Hd. unfold references_bound in H.
  unfold SemanticAnalyzer.find_all_references.
  induction (SemanticAnalyzer.references sa) as [|r rs IH]; [reflexivity|].
  apply Forall_cons in H as [Hr Hrs]. cbn [List.filter].
  rewrite (IH Hrs).
  case_bool_decide as Hn; cbn [andb]; [|reflexivity].
  subst n. unfold SemanticAnalyzer.find_definition in Hr, Hd.
  rewrite Hd in Hr. injection Hr as <-.
  rewrite !bool_decide_eq_true_2 by reflexivity. reflexivity.
Qed.

(** X17: A request for the references of the word at a position, when the
    word has a Definition, returns the place of every reference that
    the analysis of the document recorded under that word, each as
    wide as the word. *)
Theorem references_of_word (self : AetherScriptLanguageServer)
    (uri text : string) (program : Ast.Program) (position : Position)
    (word_start word_end : Z) (word : string)
    (d : SemanticAnalyzer.Definition_) :
  let sa := SemanticAnalyzer.analyze program SemanticAnalyzer.init in
  document_cache self !! uri = Some text ->
  semantic_analyzers self !! uri = Some sa ->
  word_at text position = Return (word_start, word_end, word) ->
  word <> "" ->
  SemanticAnalyzer.find_definition sa word
    (SemanticAnalyzer.mkLocation (line position + 1) (character position + 1))
  = Some d ->
  on_references self uri position
  = Return
      (map (fun r =>
              mkLocation uri
                (word_range (SemanticAnalyzer.ref_location r) word))
         (List.filter
            (fun r => bool_decide (SemanticAnalyzer.ref_name r = word))
            (SemanticAnalyzer.references sa))).
Proof.
  intros sa Hdoc Hsa Hword Hne Hd. unfold on_references.
  rewrite Hdoc, Hsa, Hword. cbn [bind].
  rewrite bool_decide_eq_false_2 by exact Hne.
  rewrite Hd. do 2 f_equal.
  eapply find_all_references_bound; [|exact Hd].
  apply references_bound_analyze, references_bound_init.
Qed.

Lemma references_of_word_witness :
  on_references
    (mkServer {["doc" := "print;"]} empty empty
       {["doc" := SemanticAnalyzer.analyze redefines_print
                    SemanticAnalyzer.init]})
    "doc" (mkPosition 0 2)
  = Return [mkLocation "doc" (mkRange (mkPosition 1 0) (mkPosition 1 5))].
Proof.
  refine (references_of_word _ "doc" "print;" redefines_print
            (mkPosition 0 2) 0 5 "print"
            (SemanticAnalyzer.mkDefinition "print" "function"
               (SemanticAnalyzer.mkLocation 0 0) "Void"
               "Built-in function: print(value: Any) -> Void") _ _ _ _ _).
  - apply lookup_singleton_eq.
  - apply lookup_singleton_eq.
  - vm_compute. reflexivity.
  - discriminate.
  - vm_compute. reflexivity.
Defined.

End Requests.

(** ** What the parser builds and how it recovers *)

Section ParserBuilds.
Import Lexer Parser Ast.

Lemma consume_builds p ty msg :
  parser_ok p -> builds (fun _ => True) p (consume ty msg p).
Proof.
  intros Hok. unfold consume. unfold bind at 1.
  destruct (parser_ok_check p ty Hok) as [b ->]. destruct b.
  - destruct (parser_ok_advance p Hok) as (t & p' & -> & _ & _ & Herr & _).
    cbn. auto.
  - unfold bind, raise.
    destruct (parser_ok_peek p Hok) as (t & -> & Hcur & _). cbn.
    split; [|reflexivity]. eapply list_elem_of_lookup_2. exact Hcur.
Qed.

Lemma primary_builds (fuel : nat) :
  forall p,
    parser_ok p -> tokens_left p <= fuel ->
    builds (built_from (tokens p)) p (primary fuel p).
Proof.
  induction fuel as [|fuel IH]; intros p Hok Hfuel.
  { pose proof (parser_ok_left p Hok). lia. }
  cbn [primary]. cbv zeta. unfold bind, ret, raise.
  destruct (parser_ok_peek p Hok) as (token & Hpeek & Hcur & Heof).
  rewrite Hpeek. cbv beta iota.
  assert (Hin : token ∈ tokens p)
    by (eapply list_elem_of_lookup_2; exact Hcur).
  destruct (parser_ok_advance p Hok)
    as (t1 & p1 & Hadv & Hok1 & Htok1 & Herr1 & Hmv).
  destruct (Lexer.type token) eqn:Hty; rewrite Hadv; cbv beta iota;
    try (cbn; split; [exact Hin | exact Herr1]).
  - cbn. split; [|exact Herr1]. exists token. split; [exact Hin|].
    unfold expression_of_token. rewrite Hty. reflexivity.
  - destruct (Py.int (Lexer.value token)) as [n|] eqn:Hn; cbn; [|exact I].
    split; [|exact Herr1]. exists token. split; [exact Hin|].
    unfold expression_of_token. rewrite Hty, Hn. reflexivity.
  - destruct (Py.float (Lexer.value token)) as [x|] eqn:Hx; cbn; [|exact I].
    split; [|exact Herr1]. exists token. split; [exact Hin|].
    unfold expression_of_token. rewrite Hty, Hx. reflexivity.
  - cbn. split; [|exact Herr1]. exists token. split; [exact Hin|].
    unfold expression_of_token. rewrite Hty. reflexivity.
  - assert (Hne : tokens_left p <> 1)
      by (intros H1; apply Heof in H1; congruence).
    rewrite bool_decide_false in Hmv by exact Hne.
    assert (Hleft1 : tokens_left p1 <= fuel).
    { unfold tokens_left in *. rewrite Htok1. lia. }
    pose proof (IH p1 Hok1 Hleft1) as Hb.
    destruct (primary_ends fuel p1 Hok1 Hleft1) as [Hends _].
    destruct (primary fuel p1) as [e p2|x p2|]; cbn in Hb, Hends; [| |tauto].
    + destruct Hends as (Hok2 & Htok2 & _). destruct Hb as [Hbuilt Herr2].
      pose proof (consume_builds p2 RPAREN "Expected ')' after expression."
                    Hok2) as Hc.
      destruct (consume RPAREN "Expected ')' after expression." p2)
        as [t3 p3|x p3|]; cbn in Hc |- *.
      * destruct Hc as [_ Herr3]. rewrite <- Htok1.
        split; [exact Hbuilt | congruence].
      * destruct x as [error| |]; [|exact I|exact I].
        destruct Hc as [Hin3 Herr3]. split; congruence.
      * exact I.
    + destruct x as [error| |]; cbn; [|exact I|exact I].
      destruct Hb as [Hin2 Herr2]. split; congruence.
Qed.

Lemma expression_of_token_place t e :
  expression_of_token t = Some e ->
  expr_line e = tline t /\ expr_column e = tcolumn t.
Proof.
  unfold expression_of_token.
  destruct (Lexer.type t); try discriminate.
  - intros [= <-]. auto.
  - destruct (Py.int (value t)); [|discriminate]. intros [= <-]. auto.
  - destruct (Py.float (value t)); [|discriminate]. intros [= <-]. auto.
  - intros [= <-]. auto.
Qed.

Lemma declaration_builds (fuel : nat) p :
  parser_ok p -> tokens_left p <= fuel ->
  builds (statement_of_token (tokens p)) p (declaration fuel p).
Proof.
  intros Hok Hfuel.
  unfold declaration, statement, expression_statement, expression.
  pose proof (primary_builds fuel p Hok Hfuel) as Hb.
  destruct (primary_ends fuel p Hok Hfuel) as [Hends _].
  unfold bind, ret.
  destruct (primary fuel p) as [e p1|x p1|]; cbn in Hb, Hends; [| |tauto].
  - destruct Hends as (Hok1 & Htok1 & _).
    destruct Hb as [(t & Hin & He) Herr1].
    pose proof (consume_builds p1 SEMICOLON "Expected ';' after expression."
                  Hok1) as Hc.
    destruct (consume SEMICOLON "Expected ';' after expression." p1)
      as [t2 p2|x p2|]; cbn in Hc |- *.
    + destruct Hc as [_ Herr2]. split; [|congruence].
      exists t, e. split; [exact Hin|]. split; [exact He|].
      destruct (expression_of_token_place _ _ He) as [-> ->]. reflexivity.
    + destruct x as [error| |]; [|exact I|exact I].
      destruct Hc as [Hin2 Herr2]. split; congruence.
    + exact I.
  - destruct x as [error| |]; cbn; [|exact I|exact I]. exact Hb.
Qed.

(** One run of the [try] statement of [parse] keeps what was parsed:
    it adds a statement or an error, and consumes a token. *)
Lemma try_declaration_parsed (depth : nat) toks stmts p :
  parser_ok p -> tokens_left p <= depth -> tokens_left p <> 1 ->
  parsed toks stmts p ->
  (exists stmts' p',
     try_declaration depth stmts p = Returned stmts' p'
     /\ parser_ok p' /\ current p < current p'
     /\ parsed toks stmts' p')
  \/ (exists p', try_declaration depth stmts p = Raised ValueError p').
Proof.
  intros Hok Hdepth Hne (Htoks & Hstmts & Herrs & Hcount).
  unfold try_declaration.
  destruct (declaration_ends depth p Hok Hdepth) as [Hends Hmv].
  pose proof (declaration_builds depth p Hok Hdepth) as Hb.
  specialize (Hmv Hne).
  destruct (declaration depth p) as [s p1|e p1|]; cbn in Hends, Hmv, Hb;
    [| |tauto].
  - destruct Hends as (Hok1 & Htok1 & _). destruct Hb as [Hs Herr1].
    left. exists (stmts ++ [s]), p1. split; [reflexivity|].
    split; [exact Hok1|]. split; [exact Hmv|].
    split; [congruence|]. rewrite Htoks in Hs.
    split; [apply Forall_app; split; [exact Hstmts|];
            constructor; [exact Hs | constructor]|].
    split; [rewrite Herr1; exact Herrs|].
    rewrite length_app, Herr1. cbn. lia.
  - destruct Hends as (Hnot & Hok1 & Htok1 & _).
    destruct e as [error| |]; [|right; eauto|congruence].
    destruct Hb as [Hin Herr1]. left.
    destruct (synchronize_ends depth
                (mkParser (tokens p1) (current p1) (errors p1 ++ [error])))
      as (p' & Hrun & Hok' & Htok' & Herr' & Hcur' & _).
    { apply parser_ok_errors. exact Hok1. }
    { unfold tokens_left in *. cbn. rewrite Htok1. lia. }
    rewrite Hrun. exists stmts, p'. cbn in *.
    split; [reflexivity|]. split; [exact Hok'|]. split; [lia|].
    split; [congruence|]. split; [exact Hstmts|].
    rewrite Herr', Herr1.
    split; [apply Forall_app; split; [exact Herrs|];
            constructor; [rewrite <- Htoks; exact Hin | constructor]|].
    rewrite length_app. cbn. lia.
Qed.

Lemma parse_loop_parsed (fuel depth : nat) toks :
  forall stmts p,
    parser_ok p -> tokens_left p <= fuel -> tokens_left p <= depth ->
    parsed toks stmts p ->
    match parse_loop fuel depth stmts p with
    | Returned stmts' p' =>
        parsed toks stmts' p' /\ parser_ok p' /\ tokens_left p' = 1
    | Raised e _ => e = ValueError
    | OutOfFuel => False
    end.
Proof.
  induction fuel as [|fuel IH]; intros stmts p Hok Hfuel Hdepth Hp.
  { pose proof (parser_ok_left p Hok). lia. }
  cbn [parse_loop]. unfold bind, ret.
  rewrite (parser_ok_is_at_end p Hok).
  case_bool_decide as Hend; [auto|].
  destruct (try_declaration_parsed depth toks stmts p Hok Hdepth Hend Hp)
    as [(stmts' & p' & -> & Hok' & Hcur' & Hp') | (p' & ->)];
    [|reflexivity].
  pose proof Hp as (Ht & _). pose proof Hp' as (Ht' & _).
  apply IH; [exact Hok' | | | exact Hp'];
    unfold tokens_left in *; rewrite Ht', <- Ht; lia.
Qed.

Lemma lex_parser_ok (src : String.string) :
  exists toks, lex src = Some toks /\ parser_ok (mkParser toks 0 []).
Proof.
  destruct (lex_returns src) as (tokens & Hlex & Hall).
  eexists. split; [exact Hlex|]. eexists tokens, _.
  split; [reflexivity|]. split; [reflexivity|].
  split; [|cbn; lia].
  eapply Forall_impl; [exact Hall|]. intros t [Ht _]. exact Ht.
Qed.

(** [parse] on the tokens of a source: it returns at the EOF token
    with what it has [parsed], or a literal makes it raise
    [ValueError]. *)
Lemma parse_source_parsed (src : String.string) :
  match parse_source src with
  | Returned program p =>
      lex src = Some (tokens p)
      /\ parsed (tokens p) (statements program) p
      /\ parser_ok p /\ tokens_left p = 1
  | Raised e _ => e = ValueError
  | OutOfFuel => False
  end.
Proof.
  unfold parse_source, init.
  destruct (lex_parser_ok src) as (toks & -> & Hok).
  unfold parse, bind, ret, fuel. cbn [tokens].
  assert (Hleft0 : tokens_left (mkParser toks 0 []) <= S (length toks))
    by (unfold tokens_left; cbn; lia).
  assert (Hp0 : parsed toks [] (mkParser toks 0 [])).
  { repeat split; try constructor; cbn; lia. }
  pose proof (parse_loop_parsed (S (length toks)) (S (length toks)) toks []
                (mkParser toks 0 []) Hok Hleft0 Hleft0 Hp0) as H.
  destruct (parse_loop (S (length toks)) (S (length toks)) []
              (mkParser toks 0 [])) as [stmts p'|e p'|]; [|exact H|exact H].
  destruct H as (Hp & Hok' & Hleft). pose proof Hp as (Ht & _).
  cbn [statements]. rewrite Ht. auto.
Qed.

(** X18: What [parse] returns for a source, whenever it returns: the
    parser stands at the EOF token of the tokens of the source; every
    statement is an expression statement over one literal or
    identifier token, placed at that token, parentheses around it
    being dropped; every recorded error is at a token of the source;
    and statements and errors together are fewer than the tokens.
    (When [parse] does not return it has raised: the [ValueError] of
    a literal, or the interpreter's [RecursionError] on parentheses
    nested too deeply, which has no counterpart here.) *)
Theorem parse_builds_token_statements (src : String.string)
    (program : Program) (p : Parser) :
  parse_source src = Returned program p ->
  lex src = Some (tokens p)
  /\ (exists eof, tokens p !! current p = Some eof
                  /\ Lexer.type eof = EOF)
  /\ Forall (statement_of_token (tokens p)) (statements program)
  /\ Forall (fun error => token error ∈ tokens p) (errors p)
  /\ length (statements program) + length (errors p) < length (tokens p).
Proof.
  intros Hparse. pose proof (parse_source_parsed src) as H.
  rewrite Hparse in H.
  destruct H as (Hlex & (_ & Hs & He & Hcount) & Hok & Hleft).
  split; [exact Hlex|].
  destruct (parser_ok_peek p Hok) as (t & _ & Hcur & Heof).
  split; [exists t; split; [exact Hcur | tauto]|].
  split; [exact Hs|]. split; [exact He|].
  unfold tokens_left in Hleft. lia.
Qed.

(** [((x)); 1; @]: two statements and one error, from ten tokens. *)
Lemma parse_builds_token_statements_witness :
  match parse_source parenthesised_source with
  | Returned program p =>
      length (statements program) = 2 /\ length (errors p) = 1
      /\ Forall (statement_of_token (tokens p)) (statements program)
  | _ => False
  end.
Proof.
  destruct (parse_source parenthesised_source) as [program p| |] eqn:E;
    try (vm_compute in E; discriminate E).
  pose proof (parse_builds_token_statements parenthesised_source program p E)
    as (_ & _ & Hs & _).
  vm_compute in E. injection E as <- <-.
  split; [reflexivity|]. split; [reflexivity | exact Hs].
Defined.

(** X19: Error recovery: from any state over tokens that end with EOF,
    [synchronize] returns without raising, leaves the tokens and the
    errors as they are, consumes at least one token unless it started
    at EOF, and stops at EOF, after a semicolon or before a token that
    starts a statement. *)
Theorem synchronize_stops_at_boundary (p : Parser.Parser) :
  parser_ok p ->
  exists p',
    synchronize (fuel p) p = Returned tt p'
    /\ tokens p' = tokens p /\ errors p' = errors p
    /\ (if bool_decide (tokens_left p = 1) then current p' = current p
        else current p < current p')
    /\ current p' < length (tokens p)
    /\ synchronized p'.
Proof.
  intros Hok. unfold synchronize, bind.
  destruct (parser_ok_advance p Hok)
    as (t1 & p1 & Hadv & Hok1 & Htok1 & Herr1 & Hmv).
  rewrite Hadv.
  destruct (synchronize_loop_ends (fuel p) p1 Hok1)
    as (p' & Hrun & Hok' & Htok' & Herr' & Hcur' & Hsync).
  { unfold tokens_left, fuel in *. rewrite Htok1. lia. }
  exists p'. rewrite Hrun.
  split; [reflexivity|]. split; [congruence|]. split; [congruence|].
  pose proof (parser_ok_left p' Hok') as Hleft'.
  unfold tokens_left in Hleft'. rewrite Htok', Htok1 in Hleft'.
  split; [|split; [lia | exact Hsync]].
  case_bool_decide as Hend.
  - subst p1.
    destruct (parser_ok_is_at_end p Hok) as [].
    assert (Hlen : current p' <= current p).
    { unfold tokens_left in Hend. lia. }
    lia.
  - lia.
Qed.

Lemma synchronize_stops_at_boundary_witness :
  exists p',
    synchronize 4
      (mkParser [mkToken PLUS "+" 1 1; mkToken INTEGER "1" 1 2;
                 mkToken SEMICOLON ";" 1 3; mkToken EOF "" 1 4] 0 [])
    = Returned tt p'
    /\ current p' = 3.
Proof.
  destruct (synchronize_stops_at_boundary
              (mkParser [mkToken PLUS "+" 1 1; mkToken INTEGER "1" 1 2;
                         mkToken SEMICOLON ";" 1 3; mkToken EOF "" 1 4] 0 []))
    as (p' & Hrun & _).
  - eexists [_; _; _], _. split; [reflexivity|]. split; [reflexivity|].
    split; [repeat constructor; discriminate | cbn; lia].
  - exists p'. split; [exact Hrun|].
    vm_compute in Hrun. injection Hrun as <-. reflexivity.
Defined.

Lemma parser_ok_check_value p ty t :
  parser_ok p -> tokens p !! current p = Some t ->
  check ty p
  = Returned (bool_decide (Lexer.type t = ty /\ Lexer.type t <> EOF)) p.
Proof.
  intros Hok Hcur.
  destruct (parser_ok_peek p Hok) as (t' & Hpeek & Hcur' & Heof).
  assert (t' = t) by congruence. subst t'.
  unfold check, bind, ret. rewrite (parser_ok_is_at_end p Hok).
  case_bool_decide as Hend.
  - rewrite bool_decide_eq_false_2; [reflexivity|].
    intros [_ H]. apply H, Heof, Hend.
  - rewrite Hpeek. f_equal. apply bool_decide_ext. split.
    + intros H. split; [exact H|]. intros H'. apply Hend, Heof, H'.
    + intros [H _]. exact H.
Qed.

(** X20: [match] consumes the current token exactly when its type is one
    of those given and it is not the EOF token: it then returns
    [True], and otherwise returns [False] and leaves the parser as it
    is.  It never raises and never moves past EOF. *)
Theorem match_consumes_one_of (types : list TokenType) (p : Parser.Parser) :
  parser_ok p ->
  exists t,
    tokens p !! current p = Some t
    /\ match_ types p
       = if bool_decide (Lexer.type t ∈ types /\ Lexer.type t <> EOF)
         then Returned true (mkParser (tokens p) (S (current p)) (errors p))
         else Returned false p.
Proof.
  intros Hok.
  destruct (parser_ok_peek p Hok) as (t & Hpeek & Hcur & Heof).
  exists t. split; [exact Hcur|].
  induction types as [|ty types IH].
  - cbn. rewrite bool_decide_eq_false_2; [reflexivity|].
    intros [H _]. inversion H.
  - cbn [match_]. unfold bind at 1.
    rewrite (parser_ok_check_value p ty t Hok Hcur).
    destruct (decide (Lexer.type t = ty /\ Lexer.type t <> EOF)) as [Hty|Hty];
      [rewrite (bool_decide_eq_true_2 _ Hty)
      | rewrite (bool_decide_eq_false_2 _ Hty)]; cbv beta iota.
    + destruct Hty as [Hty Hne].
      destruct (parser_ok_advance p Hok)
        as (t1 & p1 & Hadv & _ & Htok1 & Herr1 & Hmv).
      rewrite bool_decide_false in Hmv by (intros H; apply Hne, Heof, H).
      unfold bind, ret. rewrite Hadv.
      rewrite bool_decide_eq_true_2
        by (split; [rewrite Hty; apply list_elem_of_here | exact Hne]).
      destruct p1 as [toks1 cur1 errs1]. cbn in *. subst. reflexivity.
    + rewrite IH.
      rewrite (bool_decide_ext (Lexer.type t ∈ types /\ Lexer.type t <> EOF)
                 (Lexer.type t ∈ ty :: types /\ Lexer.type t <> EOF));
        [reflexivity|].
      split.
      * intros [Hin Hne]. split; [right; exact Hin | exact Hne].
      * intros [Hin Hne]. split; [|exact Hne].
        apply elem_of_cons in Hin as [Heq|Hin]; [|exact Hin].
        exfalso. apply Hty. auto.
Qed.

Lemma match_consumes_one_of_witness :
  match_ [MINUS; PLUS]
    (mkParser [mkToken PLUS "+" 1 1; mkToken EOF "" 1 2] 0 [])
  = Returned true (mkParser [mkToken PLUS "+" 1 1; mkToken EOF "" 1 2] 1 []).
Proof.
  destruct (match_consumes_one_of [MINUS; PLUS]
              (mkParser [mkToken PLUS "+" 1 1; mkToken EOF "" 1 2] 0 []))
    as (t & Ht & Hrun).
  - eexists [_], _. split; [reflexivity|]. split; [reflexivity|].
    split; [repeat constructor; discriminate | cbn; lia].
  - cbn in Ht. injection Ht as <-. exact Hrun.
Defined.

End ParserBuilds.

(** ** The whole pipeline on a document *)

Section WholePipeline.
Import Ast.

Lemma resolve_builtins (h : Symbols.Store) (w : string) :
  h = [Symbols.mkSymbolTable (<["print" := TypeChecker.builtin_print]> ∅)
         None "global"] ->
  Symbols.resolve h 0 w
  = if bool_decide (w = "print") then Some TypeChecker.builtin_print
    else None.
Proof.
  intros ->. unfold Symbols.resolve. cbn.
  case_bool_decide as Hw.
  - subst w. rewrite lookup_insert_eq. reflexivity.
  - rewrite lookup_insert_ne by congruence. rewrite lookup_empty.
    reflexivity.
Qed.

Lemma checker_store :
  TypeChecker.store TypeChecker.init
  = [Symbols.mkSymbolTable (<["print" := TypeChecker.builtin_print]> ∅)
       None "global"].
Proof. reflexivity. Qed.

Lemma analyzer_store :
  SemanticAnalyzer.store SemanticAnalyzer.init
  = [Symbols.mkSymbolTable (<["print" := TypeChecker.builtin_print]> ∅)
       None "global"].
Proof. reflexivity. Qed.

(** The type checker over statements of single tokens: it reports the
    identifiers that are not [print], and changes nothing else. *)
Lemma check_token_statements toks (stmts : list Statement) :
  Forall (statement_of_token toks) stmts ->
  forall errs,
    fold_left (fun tc s => TypeChecker.visit_statement s tc) stmts
      (TypeChecker.mkTypeChecker (TypeChecker.store TypeChecker.init) 0
         errs None)
    = TypeChecker.mkTypeChecker (TypeChecker.store TypeChecker.init) 0
        (errs
         ++ map (fun '(w, l, c) =>
                   TypeChecker.mkTypeError
                     ("Undefined identifier '" +:+ w +:+ "'") l c)
              (undefined_names stmts))
        None.
Proof.
  induction 1 as [|s stmts Hs _ IH]; intros errs.
  - cbn. rewrite app_nil_r. reflexivity.
  - destruct Hs as (t & e & _ & He & ->). cbn [fold_left].
    unfold expression_of_token in He.
    destruct (Lexer.type t); try discriminate He.
    + injection He as <-. cbn [TypeChecker.visit_statement
                                 TypeChecker.visit_expression].
      unfold TypeChecker.visit_identifier, TypeChecker.resolve.
      cbn [TypeChecker.store TypeChecker.symbol_table].
      rewrite (resolve_builtins _ (Lexer.value t) checker_store).
      unfold undefined_names. cbn [omap list_omap].
      case_bool_decide as Hw.
      * cbn [snd]. apply IH.
      * cbn [snd]. unfold TypeChecker.error.
        cbn [TypeChecker.store TypeChecker.symbol_table TypeChecker.errors
               TypeChecker.current_function].
        rewrite IH. cbn [map]. rewrite <- app_assoc. reflexivity.
    + destruct (Py.int (Lexer.value t)); [|discriminate He].
      injection He as <-. apply IH.
    + destruct (Py.float (Lexer.value t)); [|discriminate He].
      injection He as <-. apply IH.
    + injection He as <-. apply IH.
Qed.

Lemma analyzer_init_form :
  SemanticAnalyzer.init
  = SemanticAnalyzer.mkSemanticAnalyzer
      (SemanticAnalyzer.store SemanticAnalyzer.init) 0
      (SemanticAnalyzer.definitions SemanticAnalyzer.init) [] [] None.
Proof. reflexivity. Qed.

(** The analyzer over statements of single tokens: it reports the
    identifiers that are not [print], records a reference to the
    built-in for each [print], and records no Definition. *)
Lemma analyze_token_statements toks (stmts : list Statement) :
  Forall (statement_of_token toks) stmts ->
  forall refs errs,
    fold_left (fun sa s => SemanticAnalyzer.visit_statement s sa) stmts
      (SemanticAnalyzer.mkSemanticAnalyzer
         (SemanticAnalyzer.store SemanticAnalyzer.init) 0
         (SemanticAnalyzer.definitions SemanticAnalyzer.init) refs errs None)
    = SemanticAnalyzer.mkSemanticAnalyzer
        (SemanticAnalyzer.store SemanticAnalyzer.init) 0
        (SemanticAnalyzer.definitions SemanticAnalyzer.init)
        (refs
         ++ map (fun '(l, c) =>
                   SemanticAnalyzer.mkReference "print"
                     (SemanticAnalyzer.mkLocation l c)
                     builtin_print_definition)
              (print_places stmts))
        (errs
         ++ map (fun '(w, l, c) => SemanticAnalyzer.undefined_identifier w l c)
              (undefined_names stmts))
        None.
Proof.
  induction 1 as [|s stmts Hs _ IH]; intros refs errs.
  - cbn. rewrite !app_nil_r. reflexivity.
  - destruct Hs as (t & e & _ & He & ->). cbn [fold_left].
    unfold expression_of_token in He.
    destruct (Lexer.type t); try discriminate He.
    + injection He as <-. cbn [SemanticAnalyzer.visit_statement
                                 SemanticAnalyzer.visit_expression].
      unfold SemanticAnalyzer.visit_identifier, SemanticAnalyzer.resolve.
      cbn [SemanticAnalyzer.store SemanticAnalyzer.symbol_table].
      rewrite (resolve_builtins _ (Lexer.value t) analyzer_store).
      unfold undefined_names, print_places. cbn [omap list_omap].
      case_bool_decide as Hw.
      * rewrite Hw.
        change (SemanticAnalyzer.find_definition _ "print" _)
          with (Some builtin_print_definition).
        cbv iota. unfold SemanticAnalyzer._record_reference.
        cbn [SemanticAnalyzer.store SemanticAnalyzer.symbol_table
               SemanticAnalyzer.definitions SemanticAnalyzer.references
               SemanticAnalyzer.errors SemanticAnalyzer.current_function].
        rewrite IH. cbn [map]. rewrite <- app_assoc. reflexivity.
      * unfold SemanticAnalyzer.error.
        cbn [SemanticAnalyzer.store SemanticAnalyzer.symbol_table
               SemanticAnalyzer.definitions SemanticAnalyzer.references
               SemanticAnalyzer.errors SemanticAnalyzer.current_function].
        rewrite IH. cbn [map]. rewrite <- app_assoc. reflexivity.
    + destruct (Py.int (Lexer.value t)); [|discriminate He].
      injection He as <-. apply IH.
    + destruct (Py.float (Lexer.value t)); [|discriminate He].
      injection He as <-. apply IH.
    + injection He as <-. apply IH.
Qed.

(** The names of the identifiers of a program of [parse] have no
    space: they are words. *)
Lemma undefined_names_words toks (stmts : list Statement) :
  (forall t, t ∈ toks -> Lexer.type t = Lexer.IDENTIFIER ->
             all_chars is_word_char (Lexer.value t) = true) ->
  Forall (statement_of_token toks) stmts ->
  Forall (fun name => all_chars (differs_from " ") (fst (fst name)) = true)
    (undefined_names stmts).
Proof.
  intros Htoks. induction 1 as [|s stmts Hs _ IH]; [constructor|].
  destruct Hs as (t & e & Hin & He & ->).
  unfold undefined_names. cbn [omap list_omap].
  unfold expression_of_token in He.
  pose proof (Htoks t Hin) as Hshape.
  destruct (Lexer.type t); try discriminate He.
  - injection He as <-. case_bool_decide; [exact IH|].
    constructor; [|exact IH]. cbn [fst].
    eapply all_chars_impl; [|exact (Hshape eq_refl)].
    intros c Hc. unfold differs_from.
    destruct (Ascii.eqb c " ") eqn:E; [|reflexivity].
    apply Ascii.eqb_eq in E. subst c. discriminate Hc.
  - destruct (Py.int (Lexer.value t)); [|discriminate He].
    injection He as <-. exact IH.
  - destruct (Py.float (Lexer.value t)); [|discriminate He].
    injection He as <-. exact IH.
  - injection He as <-. exact IH.
Qed.

Lemma lex_identifiers_words (src : string) toks :
  Lexer.lex src = Some toks ->
  forall t, t ∈ toks -> Lexer.type t = Lexer.IDENTIFIER ->
            all_chars is_word_char (Lexer.value t) = true.
Proof.
  intros Hlex t Hin Hty.
  destruct (lex_spans src) as (tokens & spans & Hlex' & _ & _ & Hall).
  rewrite Hlex in Hlex'. injection Hlex' as ->.
  apply elem_of_app in Hin as [Hin|Hin].
  - pose proof (proj1 (Forall_forall _ _) Hall t Hin) as Hshape.
    unfold token_shape in Hshape. rewrite Hty in Hshape. tauto.
  - apply list_elem_of_singleton in Hin. subst t. discriminate Hty.
Qed.

Lemma undefined_warnings (names : list (string * Z * Z)) :
  Forall (fun name => all_chars (differs_from " ") (fst (fst name)) = true)
    names ->
  concat (map Server.semantic_error_diagnostics
            (map (fun '(w, l, c) => SemanticAnalyzer.undefined_identifier w l c)
               names))
  = map undefined_warning names.
Proof.
  induction 1 as [|[[w l] c] names Hw _ IH]; [reflexivity|].
  cbn [map concat]. rewrite IH, (undefined_diagnostic w l c Hw). reflexivity.
Qed.



(** X22: What opening a document publishes, whenever it publishes: a
    diagnostic for each parse error, then for each identifier, other
    than [print], that stands as a statement an error of the type
    checker, and then for each of them again a warning of the analyzer
    with the same message on the same character. *)
Theorem published_diagnostics (uri src : string)
    (self self' : Server.AetherScriptLanguageServer)
    (diagnostics : list Server.Diagnostic) :
  Server.on_did_open uri src self = Server.Published self' diagnostics ->
  exists program parser,
    Parser.parse_source src = Parser.Returned program parser
    /\ diagnostics
       = map Server.parse_error_diagnostic (Parser.errors parser)
         ++ map undefined_error (undefined_names (statements program))
         ++ map undefined_warning (undefined_names (statements program)).
Proof.
  unfold Server.on_did_open, Server._analyze_document.
  pose proof (parse_source_parsed src) as H.
  destruct (Parser.parse_source src) as [program p|e p|];
    [|discriminate|discriminate].
  intros [= _ <-].
  destruct H as (Hlex & (_ & Hs & _) & _).
  exists program, p. split; [reflexivity|]. cbv zeta.
  unfold TypeChecker.check, TypeChecker.visit_program,
    SemanticAnalyzer.analyze, SemanticAnalyzer.visit_program.
  change TypeChecker.init
    with (TypeChecker.mkTypeChecker (TypeChecker.store TypeChecker.init) 0
            [] None).
  rewrite analyzer_init_form.
  rewrite (check_token_statements _ _ Hs), (analyze_token_statements _ _ Hs).
  cbn [TypeChecker.errors SemanticAnalyzer.errors app].
  f_equal. f_equal.
  - rewrite map_map. apply map_ext. intros [[w l] c]. reflexivity.
  - apply undefined_warnings.
    eapply undefined_names_words; [|exact Hs].
    exact (lex_identifiers_words src _ Hlex).
Qed.

(** Opening [x;] publishes the error and the warning for [x]. *)
Lemma published_diagnostics_witness :
  match Server.on_did_open "file:///a" undefined_x_source Server.init with
  | Server.Published _ diagnostics =>
      diagnostics
      = [undefined_error ("x", 1%Z, 1%Z); undefined_warning ("x", 1%Z, 1%Z)]
  | _ => False
  end.
Proof.
  destruct (Server.on_did_open "file:///a" undefined_x_source Server.init)
    as [self' diagnostics| | |] eqn:E;
    try (vm_compute in E; discriminate E).
  destruct (published_diagnostics _ _ _ _ _ E)
    as (program & parser & Hparse & ->).
  vm_compute in Hparse. injection Hparse as <- <-. reflexivity.
Defined.

End WholePipeline.

(** ** What a nested scope leaves behind *)

Section LocalScopes.
Import Ast Symbols.

Lemma only_scope_refl c (h : Store) : only_scope c h h.
Proof. split; [lia | auto]. Qed.

Lemma only_scope_trans c (h1 h2 h3 : Store) :
  only_scope c h1 h2 -> only_scope c h2 h3 -> only_scope c h1 h3.
Proof.
  intros [L1 H1] [L2 H2]. split; [lia|]. intros a Ha Hc.
  rewrite H2 by (lia || exact Hc). apply H1; assumption.
Qed.

Lemma only_scope_define c symbol (h : Store) :
  only_scope c h (define c symbol h).
Proof.
  split; [rewrite define_length; lia|]. intros a _ Hc. unfold define.
  rewrite list_lookup_alter_ne by congruence. reflexivity.
Qed.

(** A scope made and used inside leaves every scope that existed as
    it was. *)
Lemma only_scope_child c (h h' : Store) t :
  only_scope (length h) (h ++ [t]) h' -> only_scope c h h'.
Proof.
  intros [L H]. rewrite length_app in L. cbn in L. split; [lia|].
  intros a Ha _. rewrite H.
  - apply lookup_app_l. exact Ha.
  - rewrite length_app. cbn. lia.
  - lia.
Qed.

Lemma resolve_from_extension (h h' : Store) (n : string) :
  ordered h ->
  (forall a, a < length h -> h' !! a = h !! a) ->
  forall k self, self < length h ->
    resolve_from k h' self n = resolve_from k h self n.
Proof.
  intros Ho Hsame k. induction k as [|k IH]; intros self Hself; [reflexivity|].
  cbn [resolve_from]. rewrite (Hsame self Hself).
  destruct (h !! self) as [t|] eqn:Ht; [|reflexivity].
  destruct (symbols t !! n); [reflexivity|].
  destruct (parent t) as [p|] eqn:Hp; [|reflexivity].
  apply IH. pose proof (Ho self t p Ht Hp). lia.
Qed.

Lemma resolve_extension (h h' : Store) (self : nat) (n : string) :
  ordered h -> self < length h -> length h <= length h' ->
  (forall a, a < length h -> h' !! a = h !! a) ->
  resolve h' self n = resolve h self n.
Proof.
  intros Ho Hself Hlen Hsame. unfold resolve.
  rewrite (resolve_from_extension h h' n Ho Hsame) by exact Hself.
  apply resolve_from_enough; [exact Ho | lia | lia].
Qed.

End LocalScopes.

Section TypeCheckerLocal.
Import Ast Symbols TypeChecker.

Lemma tc_local_refl tc : tc_local tc tc.
Proof. split; [reflexivity | apply only_scope_refl]. Qed.

Lemma tc_local_trans tc1 tc2 tc3 :
  tc_local tc1 tc2 -> tc_local tc2 tc3 -> tc_local tc1 tc3.
Proof.
  intros [H1 K1] [H2 K2]. split; [congruence|].
  rewrite H1 in K2. eapply only_scope_trans; eassumption.
Qed.

Lemma tc_local_only_errors tc tc' : only_errors tc tc' -> tc_local tc tc'.
Proof.
  intros (Hs & Ht & _). split; [exact Ht|]. rewrite Hs.
  apply only_scope_refl.
Qed.

Lemma tc_local_error msg l c tc : tc_local tc (error msg l c tc).
Proof. apply tc_local_only_errors, only_errors_error. Qed.

Lemma tc_local_define symbol tc : tc_local tc (define symbol tc).
Proof. split; [reflexivity | apply only_scope_define]. Qed.

Lemma tc_local_expression e tc : tc_local tc (snd (visit_expression e tc)).
Proof. apply tc_local_only_errors, visit_expression_only_errors. Qed.

Lemma tc_local_variable_declaration d tc :
  tc_local tc (visit_variable_declaration d tc).
Proof.
  unfold visit_variable_declaration.
  assert (H1 : tc_local tc
                 (snd (match initializer d with
                       | Some e => visit_expression e tc
                       | None => ("Void", tc)
                       end)))
    by (destruct (initializer d);
        [apply tc_local_expression | apply tc_local_refl]).
  destruct (match initializer d with
            | Some e => visit_expression e tc
            | None => ("Void", tc)
            end) as [init_type tc1]. cbn [snd] in H1. cbv zeta.
  eapply tc_local_trans; [exact H1|].
  set (tc2 := match type_annotation d with Some _ => _ | None => tc1 end).
  assert (H2 : tc_local tc1 tc2).
  { subst tc2. destruct (type_annotation d); [|apply tc_local_refl].
    repeat case_match; first [apply tc_local_error | apply tc_local_refl]. }
  clearbody tc2. eapply tc_local_trans; [exact H2|].
  case_match; [apply tc_local_error | apply tc_local_define].
Qed.

Lemma tc_local_return v l c tc : tc_local tc (visit_return_statement v l c tc).
Proof.
  unfold visit_return_statement.
  destruct (current_function tc); [|apply tc_local_error].
  destruct v as [e|].
  - pose proof (tc_local_expression e tc) as H.
    destruct (visit_expression e tc) as [t tc1]. cbn in H.
    case_match; [|exact H].
    eapply tc_local_trans; [exact H | apply tc_local_error].
  - case_match; [apply tc_local_error | apply tc_local_refl].
Qed.

Lemma tc_local_fold (l : list Statement) :
  Forall (fun s => forall tc, tc_local tc (visit_statement s tc)) l ->
  forall tc, tc_local tc (fold_left (fun tc s => visit_statement s tc) l tc).
Proof.
  induction 1 as [|s l Hs _ IH]; intros tc; cbn [fold_left];
    [apply tc_local_refl|].
  eapply tc_local_trans; [apply Hs | apply IH].
Qed.

Lemma tc_local_parameters (params : list FunctionParameter) tc :
  tc_local tc
    (fold_left (fun tc param => define (parameter_symbol param) tc) params tc).
Proof.
  revert tc. induction params as [|p params IH]; intros tc; cbn [fold_left];
    [apply tc_local_refl|].
  eapply tc_local_trans; [apply tc_local_define | apply IH].
Qed.

(** A walk that starts in a new child scope of [tc] and is local to
    it leaves the scopes of [tc] as they were. *)
Lemma tc_local_inside n tc tc' :
  tc_local (enter_child_scope n tc) tc' ->
  only_scope (symbol_table tc) (store tc) (store tc')
  /\ forall a, a < length (store tc) -> store tc' !! a = store tc !! a.
Proof.
  unfold enter_child_scope, create_child_scope. intros [_ H].
  cbn [store symbol_table] in H.
  split; [eapply only_scope_child; exact H|].
  intros a Ha. destruct H as [L H]. rewrite H.
  - apply lookup_app_l. exact Ha.
  - rewrite length_app. lia.
  - lia.
Qed.

Lemma tc_local_for i cond incr s tc0 :
  (forall tc, tc_local tc (visit_statement s tc)) ->
  tc_local tc0
    (visit_statement s
       (let tc :=
          match i with
          | Some (ForDeclaration d) => visit_variable_declaration d tc0
          | Some (ForExpression e) => snd (visit_expression e tc0)
          | None => tc0
          end in
        let tc :=
          match cond with
          | Some e =>
              let '(condition_type, tc) := visit_expression e tc in
              condition_error "For" condition_type e tc
          | None => tc
          end in
        match incr with
        | Some e => snd (visit_expression e tc)
        | None => tc
        end)).
Proof.
  intros IH. cbv zeta.
  eapply tc_local_trans; [|apply IH].
  eapply tc_local_trans.
  { instantiate (1 := match i with
                      | Some (ForDeclaration d) =>
                          visit_variable_declaration d tc0
                      | Some (ForExpression e) =>
                          snd (visit_expression e tc0)
                      | None => tc0
                      end).
    destruct i as [[d|e]|];
      [apply tc_local_variable_declaration
      | apply tc_local_expression | apply tc_local_refl]. }
  generalize (match i with
              | Some (ForDeclaration d) => visit_variable_declaration d tc0
              | Some (ForExpression e) => snd (visit_expression e tc0)
              | None => tc0
              end). intros tc1.
  eapply tc_local_trans.
  { instantiate (1 := match cond with
                      | Some e =>
                          let '(condition_type, tc) :=
                            visit_expression e tc1 in
                          condition_error "For" condition_type e tc
                      | None => tc1
                      end).
    destruct cond as [e|]; [|apply tc_local_refl].
    pose proof (tc_local_expression e tc1) as Hc.
    destruct (visit_expression e tc1) as [t tc2]. cbn in Hc.
    eapply tc_local_trans; [exact Hc|].
    apply tc_local_only_errors, condition_error_only_errors. }
  destruct incr as [e|];
    [apply tc_local_expression | apply tc_local_refl].
Qed.

Lemma tc_visit_statement_local (s : Statement) :
  forall tc, tc_local tc (visit_statement s tc).
Proof.
  induction s as
    [d | fname params rt body l c IHbody | v l c | stmts l c IHstmts
    | cond s1 s2 l c IH1 IH2 | cond s l c IH | i cond incr s l c IH
    | e l c] using Statement_nested_ind;
    intros tc; cbn [visit_statement].
  - apply tc_local_variable_declaration.
  - cbv zeta.
    set (tc1 := if contains_local tc (Ast.name fname) then _ else _).
    assert (H1 : tc_local tc tc1)
      by (subst tc1; case_match;
          [apply tc_local_error | apply tc_local_define]).
    eapply tc_local_trans; [exact H1|].
    split; [reflexivity|].
    cbn [store set_current_function set_symbol_table].
    eapply (tc_local_inside (Ast.name fname) tc1).
    eapply tc_local_trans; [|apply (tc_local_fold body IHbody)].
    eapply tc_local_trans; [|apply tc_local_parameters].
    split; [reflexivity | apply only_scope_refl].
  - apply tc_local_return.
  - cbv zeta. split; [reflexivity|]. cbn [store set_symbol_table].
    eapply (tc_local_inside "" tc). apply (tc_local_fold stmts IHstmts).
  - pose proof (tc_local_expression cond tc) as Hc.
    destruct (visit_expression cond tc) as [t tc1]. cbn in Hc.
    eapply tc_local_trans; [exact Hc|].
    eapply tc_local_trans;
      [apply tc_local_only_errors, condition_error_only_errors|].
    eapply tc_local_trans; [apply IH1|].
    destruct s2 as [s2|]; [apply IH2 | apply tc_local_refl].
  - pose proof (tc_local_expression cond tc) as Hc.
    destruct (visit_expression cond tc) as [t tc1]. cbn in Hc.
    eapply tc_local_trans; [exact Hc|].
    eapply tc_local_trans;
      [apply tc_local_only_errors, condition_error_only_errors|].
    apply IH.
  - cbv zeta. split; [reflexivity|]. cbn [store set_symbol_table].
    eapply (tc_local_inside "" tc). apply tc_local_for. exact IH.
  - apply tc_local_expression.
Qed.

End TypeCheckerLocal.

Section AnalyzerLocal.
Import Ast Symbols SemanticAnalyzer.

Lemma sa_local_refl sa : sa_local sa sa.
Proof. split; [reflexivity | apply only_scope_refl]. Qed.

Lemma sa_local_trans sa1 sa2 sa3 :
  sa_local sa1 sa2 -> sa_local sa2 sa3 -> sa_local sa1 sa3.
Proof.
  intros [H1 K1] [H2 K2]. split; [congruence|].
  rewrite H1 in K2. eapply only_scope_trans; eassumption.
Qed.

Lemma sa_local_error msg sa : sa_local sa (error msg sa).
Proof. split; [reflexivity | apply only_scope_refl]. Qed.

Lemma sa_local_record n k loc ty det sa :
  sa_local sa (_record_definition n k loc ty det sa).
Proof. split; [reflexivity | apply only_scope_refl]. Qed.

Lemma sa_local_define symbol sa : sa_local sa (define symbol sa).
Proof. split; [reflexivity | apply only_scope_define]. Qed.

Lemma sa_local_expression e sa : sa_local sa (visit_expression e sa).
Proof.
  apply (invariant_expression (sa_local sa)).
  - intros msg sa' _ H. eapply sa_local_trans; [exact H|apply sa_local_error].
  - intros n loc d sa' _ H. eapply sa_local_trans; [exact H|].
    split; [reflexivity | apply only_scope_refl].
  - apply sa_local_refl.
Qed.

Lemma sa_local_variable_declaration d sa :
  sa_local sa (visit_variable_declaration d sa).
Proof.
  unfold visit_variable_declaration. cbv zeta.
  match goal with
  | |- sa_local _ (match _ with Some e => visit_expression e ?s | None => ?s end) =>
      assert (H1 : sa_local sa s)
  end.
  { eapply sa_local_trans; [apply sa_local_record|].
    case_match; [apply sa_local_error | apply sa_local_define]. }
  destruct (initializer d); [|exact H1].
  eapply sa_local_trans; [exact H1 | apply sa_local_expression].
Qed.

Lemma sa_local_fold (l : list Statement) :
  Forall (fun s => forall sa, sa_local sa (visit_statement s sa)) l ->
  forall sa, sa_local sa (fold_left (fun sa s => visit_statement s sa) l sa).
Proof.
  induction 1 as [|s l Hs _ IH]; intros sa; cbn [fold_left];
    [apply sa_local_refl|].
  eapply sa_local_trans; [apply Hs | apply IH].
Qed.

Lemma sa_local_parameters (params : list FunctionParameter) sa :
  sa_local sa (fold_left (fun sa param => visit_parameter param sa) params sa).
Proof.
  revert sa. induction params as [|p params IH]; intros sa; cbn [fold_left];
    [apply sa_local_refl|].
  eapply sa_local_trans; [|apply IH]. unfold visit_parameter. cbv zeta.
  eapply sa_local_trans; [apply sa_local_record | apply sa_local_define].
Qed.

Lemma sa_local_inside n sa sa' :
  sa_local (enter_child_scope n sa) sa' ->
  only_scope (symbol_table sa) (store sa) (store sa')
  /\ forall a, a < length (store sa) -> store sa' !! a = store sa !! a.
Proof.
  unfold enter_child_scope, create_child_scope. intros [_ H].
  cbn [store symbol_table] in H.
  split; [eapply only_scope_child; exact H|].
  intros a Ha. destruct H as [L H]. rewrite H.
  - apply lookup_app_l. exact Ha.
  - rewrite length_app. lia.
  - lia.
Qed.

Lemma sa_local_option (o : option Expression) sa :
  sa_local sa (match o with Some e => visit_expression e sa | None => sa end).
Proof. destruct o; [apply sa_local_expression | apply sa_local_refl]. Qed.

Lemma sa_local_for i (cond incr : option Expression) s sa0 :
  (forall sa, sa_local sa (visit_statement s sa)) ->
  sa_local sa0
    (visit_statement s
       (let sa :=
          match i with
          | Some (ForDeclaration d) => visit_variable_declaration d sa0
          | Some (ForExpression e) => visit_expression e sa0
          | None => sa0
          end in
        let sa :=
          match cond with
          | Some e => visit_expression e sa
          | None => sa
          end in
        match incr with
        | Some e => visit_expression e sa
        | None => sa
        end)).
Proof.
  intros IH. cbv zeta.
  eapply sa_local_trans; [|apply IH].
  eapply sa_local_trans; [|apply sa_local_option].
  eapply sa_local_trans; [|apply sa_local_option].
  destruct i as [[d|e]|];
    [apply sa_local_variable_declaration
    | apply sa_local_expression | apply sa_local_refl].
Qed.

Lemma sa_visit_statement_local (s : Statement) :
  forall sa, sa_local sa (visit_statement s sa).
Proof.
  induction s as
    [d | fname params rt body l c IHbody | v l c | stmts l c IHstmts
    | cond s1 s2 l c IH1 IH2 | cond s l c IH | i cond incr s l c IH
    | e l c] using Statement_nested_ind;
    intros sa; cbn [visit_statement].
  - apply sa_local_variable_declaration.
  - cbv zeta.
    set (sa1 := if contains_local _ (Ast.name fname) then _ else _).
    assert (H1 : sa_local sa sa1)
      by (subst sa1; eapply sa_local_trans; [apply sa_local_record|];
          case_match; [apply sa_local_error | apply sa_local_define]).
    eapply sa_local_trans; [exact H1|].
    split; [reflexivity|].
    cbn [store set_current_function set_symbol_table].
    eapply (sa_local_inside (Ast.name fname) sa1).
    eapply sa_local_trans; [|apply (sa_local_fold body IHbody)].
    eapply sa_local_trans; [|apply sa_local_parameters].
    split; [reflexivity | apply only_scope_refl].
  - apply sa_local_option.
  - cbv zeta. split; [reflexivity|]. cbn [store set_symbol_table].
    eapply (sa_local_inside "" sa). apply (sa_local_fold stmts IHstmts).
  - cbv zeta.
    eapply sa_local_trans; [apply (sa_local_expression cond)|].
    eapply sa_local_trans; [apply IH1|].
    destruct s2 as [s2|]; [apply IH2 | apply sa_local_refl].
  - eapply sa_local_trans; [apply (sa_local_expression cond) | apply IH].
  - cbv zeta. split; [reflexivity|]. cbn [store set_symbol_table].
    eapply (sa_local_inside "" sa). apply sa_local_for. exact IH.
  - apply sa_local_expression.
Qed.

End AnalyzerLocal.

Section NestedScopes.
Import Ast Symbols.

Lemma checker_nested_store s tc :
  opens_scope s = true ->
  TypeChecker.symbol_table (TypeChecker.visit_statement s tc)
  = TypeChecker.symbol_table tc
  /\ length (TypeChecker.store tc)
     <= length (TypeChecker.store (TypeChecker.visit_statement s tc))
  /\ forall a, a < length (TypeChecker.store tc) ->
       TypeChecker.store (TypeChecker.visit_statement s tc) !! a
       = TypeChecker.store tc !! a.
Proof.
  intros Hs. destruct s as [| | |stmts l c| | |i cond incr s l c|];
    try discriminate Hs; cbn [TypeChecker.visit_statement]; cbv zeta;
    (split; [reflexivity|]); cbn [TypeChecker.store TypeChecker.set_symbol_table].
  - destruct (tc_local_inside "" tc
                (fold_left (fun tc s => TypeChecker.visit_statement s tc) stmts
                   (TypeChecker.enter_child_scope "" tc))) as [[L _] H].
    { apply tc_local_fold. apply Forall_forall. intros s _.
      apply tc_visit_statement_local. }
    split; assumption.
  - match goal with
    | |- context [TypeChecker.store ?t] =>
        lazymatch t with
        | TypeChecker.visit_statement _ _ =>
            destruct (tc_local_inside "" tc t) as [[L _] H]
        end
    end.
    { apply tc_local_for. apply tc_visit_statement_local. }
    split; assumption.
Qed.

Lemma analyzer_nested_store s sa :
  opens_scope s = true ->
  SemanticAnalyzer.symbol_table (SemanticAnalyzer.visit_statement s sa)
  = SemanticAnalyzer.symbol_table sa
  /\ length (SemanticAnalyzer.store sa)
     <= length (SemanticAnalyzer.store (SemanticAnalyzer.visit_statement s sa))
  /\ forall a, a < length (SemanticAnalyzer.store sa) ->
       SemanticAnalyzer.store (SemanticAnalyzer.visit_statement s sa) !! a
       = SemanticAnalyzer.store sa !! a.
Proof.
  intros Hs. destruct s as [| | |stmts l c| | |i cond incr s l c|];
    try discriminate Hs; cbn [SemanticAnalyzer.visit_statement]; cbv zeta;
    (split; [reflexivity|]);
    cbn [SemanticAnalyzer.store SemanticAnalyzer.set_symbol_table].
  - destruct (sa_local_inside "" sa
                (fold_left (fun sa s => SemanticAnalyzer.visit_statement s sa)
                   stmts (SemanticAnalyzer.enter_child_scope "" sa)))
      as [[L _] H].
    { apply sa_local_fold. apply Forall_forall. intros s _.
      apply sa_visit_statement_local. }
    split; assumption.
  - match goal with
    | |- context [SemanticAnalyzer.store ?t] =>
        lazymatch t with
        | SemanticAnalyzer.visit_statement _ _ =>
            destruct (sa_local_inside "" sa t) as [[L _] H]
        end
    end.
    { apply sa_local_for. apply sa_visit_statement_local. }
    split; assumption.
Qed.

(** X23: A block and a [for] statement run in a child scope that the type
    checker leaves when the statement ends: afterwards the current
    scope is the one before the statement, every scope object that
    existed is as it was, and every name resolves as before.  Nothing
    that the statement declared is visible after it. *)
Theorem checker_discards_nested_scope (s : Statement)
    (tc : TypeChecker.TypeChecker) :
  opens_scope s = true ->
  sound_scopes (TypeChecker.store tc) (TypeChecker.symbol_table tc) ->
  let tc' := TypeChecker.visit_statement s tc in
  TypeChecker.symbol_table tc' = TypeChecker.symbol_table tc
  /\ (forall a, a < length (TypeChecker.store tc) ->
        TypeChecker.store tc' !! a = TypeChecker.store tc !! a)
  /\ forall n, TypeChecker.resolve tc' n = TypeChecker.resolve tc n.
Proof.
  intros Hs [Ho Hc] tc'.
  destruct (checker_nested_store s tc Hs) as (Ht & L & H).
  split; [exact Ht|]. split; [exact H|]. intros n.
  unfold TypeChecker.resolve. subst tc'. rewrite Ht.
  apply resolve_extension; assumption.
Qed.

Lemma checker_discards_nested_scope_witness :
  TypeChecker.resolve
    (TypeChecker.visit_statement block_declares_x TypeChecker.init) "x"
  = None.
Proof.
  refine (eq_trans
            (proj2 (proj2 (checker_discards_nested_scope block_declares_x
                             TypeChecker.init eq_refl _)) "x") _).
  - split; [|cbn; lia]. apply ordered_define, ordered_global.
  - reflexivity.
Defined.

(** X24: The semantic analyzer treats a block and a [for] statement the
    same way: the current scope, the scope objects that existed and
    the resolution of every name are after the statement what they
    were before it. *)
Theorem analyzer_discards_nested_scope (s : Statement)
    (sa : SemanticAnalyzer.SemanticAnalyzer) :
  opens_scope s = true ->
  sound_scopes (SemanticAnalyzer.store sa) (SemanticAnalyzer.symbol_table sa) ->
  let sa' := SemanticAnalyzer.visit_statement s sa in
  SemanticAnalyzer.symbol_table sa' = SemanticAnalyzer.symbol_table sa
  /\ (forall a, a < length (SemanticAnalyzer.store sa) ->
        SemanticAnalyzer.store sa' !! a = SemanticAnalyzer.store sa !! a)
  /\ forall n, SemanticAnalyzer.resolve sa' n = SemanticAnalyzer.resolve sa n.
Proof.
  intros Hs [Ho Hc] sa'.
  destruct (analyzer_nested_store s sa Hs) as (Ht & L & H).
  split; [exact Ht|]. split; [exact H|]. intros n.
  unfold SemanticAnalyzer.resolve. subst sa'. rewrite Ht.
  apply resolve_extension; assumption.
Qed.

Lemma analyzer_discards_nested_scope_witness :
  SemanticAnalyzer.resolve
    (SemanticAnalyzer.visit_statement block_declares_x SemanticAnalyzer.init)
    "x"
  = None.
Proof.
  refine (eq_trans
            (proj2 (proj2 (analyzer_discards_nested_scope block_declares_x
                             SemanticAnalyzer.init eq_refl _)) "x") _).
  - split; [|cbn; lia]. apply ordered_define, ordered_global.
  - reflexivity.
Defined.

Lemma resolve_define_other self symbol (h : Store) a n :
  n <> name symbol -> resolve (define self symbol h) a n = resolve h a n.
Proof.
  intros Hn. unfold resolve. rewrite define_length.
  apply resolve_from_define_other. exact Hn.
Qed.

(** X25: A function declaration adds to the type checker's current scope
    the function's symbol, with the declared return type and one
    symbol for each parameter, when the name is not yet defined in
    that scope, and leaves the name as it was when it is.  Every other
    name resolves after the declaration as before it: the parameters
    and what the body declares stay in the function's own scope. *)
Theorem checker_function_scope (fname : Ident)
    (params : list FunctionParameter) (rt : string) (body : list Statement)
    (l c : Z) (tc : TypeChecker.TypeChecker) :
  sound_scopes (TypeChecker.store tc) (TypeChecker.symbol_table tc) ->
  let tc' :=
    TypeChecker.visit_statement (FunctionDeclaration fname params rt body l c)
      tc in
  let f := Ast.name fname in
  TypeChecker.symbol_table tc' = TypeChecker.symbol_table tc
  /\ TypeChecker.resolve tc' f
     = (if TypeChecker.contains_local tc f then TypeChecker.resolve tc f
        else Some (FunctionSymbol f rt
                     (map TypeChecker.parameter_symbol params) false))
  /\ forall n, n <> f -> TypeChecker.resolve tc' n = TypeChecker.resolve tc n.
Proof.
  intros [Ho Hc] tc' f. subst tc'. cbn [TypeChecker.visit_statement]. cbv zeta.
  fold f.
  set (func := FunctionSymbol f rt (map TypeChecker.parameter_symbol params)
                 false).
  set (tc1 := if TypeChecker.contains_local tc f then _ else _).
  assert (Hcur : TypeChecker.symbol_table tc1 = TypeChecker.symbol_table tc)
    by (subst tc1; destruct (TypeChecker.contains_local tc f); reflexivity).
  assert (Hlen : length (TypeChecker.store tc1) = length (TypeChecker.store tc))
    by (subst tc1; destruct (TypeChecker.contains_local tc f); cbn;
        [reflexivity | apply define_length]).
  assert (Ho1 : ordered (TypeChecker.store tc1))
    by (subst tc1; destruct (TypeChecker.contains_local tc f); cbn;
        [exact Ho | apply ordered_define; exact Ho]).
  match goal with
  | |- context [TypeChecker.set_symbol_table _ ?t] =>
      destruct (tc_local_inside f tc1 t) as [[L _] H]; [|set (tc2 := t) in *]
  end.
  { eapply tc_local_trans;
      [|apply tc_local_fold, Forall_forall; intros s _;
        apply tc_visit_statement_local].
    eapply tc_local_trans; [|apply tc_local_parameters].
    split; [reflexivity | apply only_scope_refl]. }
  assert (Hres : forall n,
            TypeChecker.resolve
              (TypeChecker.set_current_function
                 (TypeChecker.current_function
                    (TypeChecker.enter_child_scope f tc1))
                 (TypeChecker.set_symbol_table
                    (TypeChecker.symbol_table tc1) tc2)) n
            = TypeChecker.resolve tc1 n).
  { intros n. unfold TypeChecker.resolve. cbn.
    apply resolve_extension; [exact Ho1 | lia | exact L | exact H]. }
  split; [exact Hcur|]. split.
  - rewrite Hres. subst tc1. unfold TypeChecker.resolve.
    destruct (TypeChecker.contains_local tc f); cbn; [reflexivity|].
    apply (resolve_define _ func). exact Hc.
  - intros n Hn. rewrite Hres. subst tc1. unfold TypeChecker.resolve.
    destruct (TypeChecker.contains_local tc f); cbn; [reflexivity|].
    apply (resolve_define_other _ func). exact Hn.
Qed.

Lemma checker_function_scope_witness :
  TypeChecker.resolve
    (TypeChecker.visit_statement function_f TypeChecker.init) "a"
  = None.
Proof.
  refine (eq_trans
            (proj2 (proj2 (checker_function_scope (mkIdent "f" 1 10)
                             [mkParameter (mkIdent "a" 1 12) "Int"] "Int"
                             _ 1 1 TypeChecker.init _)) "a" _) _).
  - split; [|cbn; lia]. apply ordered_define, ordered_global.
  - discriminate.
  - reflexivity.
Defined.

(** X26: The semantic analyzer does the same with a function declaration:
    the function's symbol is added to the current scope unless the
    name is defined there already, and no other name resolves
    differently after the declaration. *)
Theorem analyzer_function_scope (fname : Ident)
    (params : list FunctionParameter) (rt : string) (body : list Statement)
    (l c : Z) (sa : SemanticAnalyzer.SemanticAnalyzer) :
  sound_scopes (SemanticAnalyzer.store sa) (SemanticAnalyzer.symbol_table sa) ->
  let sa' :=
    SemanticAnalyzer.visit_statement
      (FunctionDeclaration fname params rt body l c) sa in
  let f := Ast.name fname in
  SemanticAnalyzer.symbol_table sa' = SemanticAnalyzer.symbol_table sa
  /\ SemanticAnalyzer.resolve sa' f
     = (if SemanticAnalyzer.contains_local sa f
        then SemanticAnalyzer.resolve sa f
        else Some (FunctionSymbol f rt
                     (map SemanticAnalyzer.parameter_symbol params) false))
  /\ forall n, n <> f ->
       SemanticAnalyzer.resolve sa' n = SemanticAnalyzer.resolve sa n.
Proof.
  intros [Ho Hc] sa' f. subst sa'. cbn [SemanticAnalyzer.visit_statement].
  cbv zeta. fold f.
  set (func := FunctionSymbol f rt
                 (map SemanticAnalyzer.parameter_symbol params) false).
  set (sa0 := SemanticAnalyzer._record_definition f "function" _ _ _ sa).
  change (SemanticAnalyzer.contains_local sa f)
    with (SemanticAnalyzer.contains_local sa0 f).
  change (SemanticAnalyzer.resolve sa)
    with (SemanticAnalyzer.resolve sa0).
  change (SemanticAnalyzer.symbol_table sa)
    with (SemanticAnalyzer.symbol_table sa0).
  assert (Ho0 : ordered (SemanticAnalyzer.store sa0)) by exact Ho.
  assert (Hc0 : SemanticAnalyzer.symbol_table sa0
                < length (SemanticAnalyzer.store sa0)) by exact Hc.
  clearbody sa0. clear Ho Hc sa.
  set (sa1 := if SemanticAnalyzer.contains_local sa0 f then _ else _).
  assert (Hcur : SemanticAnalyzer.symbol_table sa1
                 = SemanticAnalyzer.symbol_table sa0)
    by (subst sa1; destruct (SemanticAnalyzer.contains_local sa0 f);
        reflexivity).
  assert (Hlen : length (SemanticAnalyzer.store sa1)
                 = length (SemanticAnalyzer.store sa0))
    by (subst sa1; destruct (SemanticAnalyzer.contains_local sa0 f); cbn;
        [reflexivity | apply define_length]).
  assert (Ho1 : ordered (SemanticAnalyzer.store sa1))
    by (subst sa1; destruct (SemanticAnalyzer.contains_local sa0 f); cbn;
        [exact Ho0 | apply ordered_define; exact Ho0]).
  match goal with
  | |- context [SemanticAnalyzer.set_symbol_table _ ?t] =>
      destruct (sa_local_inside f sa1 t) as [[L _] H]; [|set (sa2 := t) in *]
  end.
  { eapply sa_local_trans;
      [|apply sa_local_fold, Forall_forall; intros s _;
        apply sa_visit_statement_local].
    eapply sa_local_trans; [|apply sa_local_parameters].
    split; [reflexivity | apply only_scope_refl]. }
  assert (Hres : forall n,
            SemanticAnalyzer.resolve
              (SemanticAnalyzer.set_current_function
                 (SemanticAnalyzer.current_function
                    (SemanticAnalyzer.enter_child_scope f sa1))
                 (SemanticAnalyzer.set_symbol_table
                    (SemanticAnalyzer.symbol_table sa1) sa2)) n
            = SemanticAnalyzer.resolve sa1 n).
  { intros n. unfold SemanticAnalyzer.resolve. cbn.
    apply resolve_extension; [exact Ho1 | lia | exact L | exact H]. }
  split; [exact Hcur|]. split.
  - rewrite Hres. subst sa1. unfold SemanticAnalyzer.resolve.
    destruct (SemanticAnalyzer.contains_local sa0 f); cbn; [reflexivity|].
    apply (resolve_define _ func). exact Hc0.
  - intros n Hn. rewrite Hres. subst sa1. unfold SemanticAnalyzer.resolve.
    destruct (SemanticAnalyzer.contains_local sa0 f); cbn; [reflexivity|].
    apply (resolve_define_other _ func). exact Hn.
Qed.

Lemma analyzer_function_scope_witness :
  SemanticAnalyzer.resolve
    (SemanticAnalyzer.visit_statement function_f SemanticAnalyzer.init) "a"
  = None.
Proof.
  refine (eq_trans
            (proj2 (proj2 (analyzer_function_scope (mkIdent "f" 1 10)
                             [mkParameter (mkIdent "a" 1 12) "Int"] "Int"
                             _ 1 1 SemanticAnalyzer.init _)) "a" _) _).
  - split; [|cbn; lia]. apply ordered_define, ordered_global.
  - discriminate.
  - reflexivity.
Defined.

End NestedScopes.

(** ** Arrays in the type checker *)

Section Arrays.
Import Ast Symbols TypeChecker.

Lemma substring_app_snoc (t : string) (a : ascii) :
  String.substring 0 (String.length t) (t +:+ String a "") = t.
Proof.
  induction t as [|b t IH]; [reflexivity|].
  change (String b t +:+ String a "") with (String b (t +:+ String a "")).
  cbn [String.length String.substring]. f_equal. exact IH.
Qed.

Lemma length_app_string (s t : string) :
  String.length (s +:+ t) = String.length s + String.length t.
Proof.
  induction s as [|a s IH]; [reflexivity|].
  change (String a s +:+ t) with (String a (s +:+ t)).
  cbn [String.length]. rewrite IH. reflexivity.
Qed.

Lemma element_type_of_array (t : string) :
  element_type_of ("Array<" +:+ t +:+ ">") = t.
Proof.
  unfold element_type_of.
  change ("Array<" +:+ t +:+ ">")
    with (String "A" (String "r" (String "r" (String "a" (String "y"
            (String "<" (t +:+ ">"))))))).
  cbn [String.length]. rewrite length_app_string. cbn [String.length].
  replace (S (S (S (S (S (S (String.length t + 1)))))) - 7)
    with (String.length t) by lia.
  cbn [String.substring]. apply substring_app_snoc.
Qed.

Lemma prefix_array (t : string) : String.prefix "Array<" ("Array<" +:+ t) = true.
Proof.
  rewrite !string_app_cons, string_app_nil_l. cbn. apply prefix_nil.
Qed.

Lemma array_literal_type es l c tc :
  exists t, fst (visit_expression (ArrayLiteral es l c) tc)
            = "Array<" +:+ t +:+ ">".
Proof.
  destruct es as [|first rest]; cbn [visit_expression].
  - exists "Any". reflexivity.
  - destruct (visit_expression first tc) as [t tc1]. exists t. reflexivity.
Qed.

Lemma array_type_not_named (t : string) : "Array<" +:+ t ∉ types.
Proof.
  unfold types. intros H. repeat (apply elem_of_cons in H as [H|H];
    [discriminate H|]). inversion H.
Qed.

(** X27: Indexing recovers the element type: when the indexed expression
    has a type [Array<t>], the index expression has the type [t],
    whatever string [t] is; and when the index is an [Int] the index
    expression reports nothing beyond what its two parts report.  So
    [[e, ...][i]] has the type of [e]. *)
Theorem index_recovers_element_type (array index : Expression) (l c : Z)
    (tc : TypeChecker) (t : string) :
  fst (visit_expression array tc) = "Array<" +:+ t +:+ ">" ->
  let tc1 := snd (visit_expression array tc) in
  let '(index_type, tc2) := visit_expression index tc1 in
  fst (visit_expression (IndexExpression array index l c) tc) = t
  /\ only_errors tc2 (snd (visit_expression (IndexExpression array index l c) tc))
  /\ (index_type = "Int" ->
      snd (visit_expression (IndexExpression array index l c) tc) = tc2).
Proof.
  intros Ht tc1. subst tc1. cbn [visit_expression].
  destruct (visit_expression array tc) as [at_ tc1]. cbn [fst snd] in *.
  subst at_.
  destruct (visit_expression index tc1) as [it tc2].
  rewrite prefix_array. cbn [negb fst snd].
  split; [apply element_type_of_array|]. split.
  - case_bool_decide; [apply only_errors_error | apply only_errors_refl].
  - intros ->. reflexivity.
Qed.

Lemma index_recovers_element_type_witness :
  fst (visit_expression first_of_literal init) = "Int".
Proof.
  refine (proj1 (index_recovers_element_type
                   (ArrayLiteral [IntegerLiteral 1 1 2; IntegerLiteral 2 1 5]
                      1 1)
                   (IntegerLiteral 0 1 8) 1 1 init "Int" _)).
  reflexivity.
Defined.

(** X28: A declaration with a type annotation and an initializer is never
    accepted when the initializer's type is not one of the built-in
    type names: right after the initializer's own errors comes an
    error at the declaration, either that the annotation is an unknown
    type or that the initializer's type cannot be assigned to it.
    Every array literal is such an initializer, its type being
    [Array<...>]: an annotated variable cannot be initialised with an
    array literal. *)
Theorem annotated_initializer_needs_type_name (d : VarDecl) (annotation : string)
    (e : Expression) (tc : TypeChecker) :
  type_annotation d = Some annotation ->
  initializer d = Some e ->
  fst (visit_expression e tc) ∉ types
  \/ (exists elements l c, e = ArrayLiteral elements l c) ->
  exists msg rest,
    errors (visit_variable_declaration d tc)
    = errors (snd (visit_expression e tc))
      ++ mkTypeError msg (var_line d) (var_column d) :: rest
    /\ (msg = "Unknown type '" +:+ annotation +:+ "'"
        \/ msg = "Cannot assign a value of type '"
                 +:+ fst (visit_expression e tc)
                 +:+ "' to a variable of type '" +:+ annotation +:+ "'").
Proof.
  intros Ha Hi Hty.
  assert (Hty' : fst (visit_expression e tc) ∉ types).
  { destruct Hty as [Hty|(es & l & c & ->)]; [exact Hty|].
    destruct (array_literal_type es l c tc) as [t ->].
    apply array_type_not_named. }
  clear Hty. rename Hty' into Hty.
  unfold visit_variable_declaration. rewrite Ha, Hi.
  destruct (visit_expression e tc) as [init_type tc1]. cbn [fst snd] in *.
  cbv zeta.
  set (tc2 := if bool_decide (annotation ∉ types) then _ else _).
  assert (H2 : exists msg,
             errors tc2 = errors tc1
                          ++ [mkTypeError msg (var_line d) (var_column d)]
             /\ (msg = "Unknown type '" +:+ annotation +:+ "'"
                 \/ msg = "Cannot assign a value of type '" +:+ init_type
                          +:+ "' to a variable of type '" +:+ annotation
                          +:+ "'")).
  { subst tc2. case_bool_decide as Hin.
    - eexists. split; [reflexivity | left; reflexivity].
    - assert (Hne : init_type <> annotation).
      { intros ->. exact (Hty Hin). }
      rewrite (bool_decide_eq_true_2 _ Hne).
      rewrite bool_decide_eq_true_2 by discriminate. cbn [andb].
      eexists. split; [reflexivity | right; reflexivity]. }
  destruct H2 as (msg & He & Hmsg). clearbody tc2.
  exists msg. case_match; cbn [errors error define]; rewrite He.
  - eexists. split; [|exact Hmsg]. rewrite <- app_assoc. reflexivity.
  - exists []. split; [reflexivity | exact Hmsg].
Qed.

Lemma annotated_initializer_needs_type_name_witness :
  exists msg rest,
    errors (visit_variable_declaration declared_array init)
    = errors (snd (visit_expression
                     (ArrayLiteral [IntegerLiteral 1 1 17] 1 16) init))
      ++ mkTypeError msg 1 1 :: rest
    /\ (msg = "Unknown type '" +:+ "Array" +:+ "'"
        \/ msg = "Cannot assign a value of type '"
                 +:+ fst (visit_expression
                            (ArrayLiteral [IntegerLiteral 1 1 17] 1 16) init)
                 +:+ "' to a variable of type '" +:+ "Array" +:+ "'").
Proof.
  apply (annotated_initializer_needs_type_name declared_array "Array"
           (ArrayLiteral [IntegerLiteral 1 1 17] 1 16) init eq_refl eq_refl).
  right. exists [IntegerLiteral 1 1 17], 1%Z, 16%Z. reflexivity.
Defined.

End Arrays.

(** ** The value of a string literal *)

Section StringLiterals.
Import Lexer.

(** X29: [Lexer.string], entered at the opening quote [q] of a literal,
    returns a token at the place of that quote whose value is what the
    body of the literal reads as.  Every text after the quote is a
    body followed by the closing quote, or a body that runs to the end
    of the source, where a last backslash reads as itself.  With the
    closing quote the token is a STRING and the lexer stands right
    after that quote; without it the token is an ERROR and the lexer
    stands at the end of the source. *)
Theorem string_literal_value (q : ascii) (src pre rest0 : String.string)
    (lx : Lexer) :
  is_quote q ->
  at_position src pre (String q rest0) lx ->
  (exists closed body v rest,
     rest0 = body +:+ literal_tail q closed rest /\ reads_as q closed body v)
  /\ (forall closed body v rest,
        rest0 = body +:+ literal_tail q closed rest ->
        reads_as q closed body v ->
        exists lx',
          string lx
          = Some (mkToken (if closed then STRING else ERROR) v (line lx)
                    (column lx), lx')
          /\ at_position src
               (pre +:+ String q (body +:+ literal_tail q closed ""))
               (if closed then rest else "") lx').
Proof.
  intros Hq Hat. split; [apply reads_as_total|].
  intros closed body v rest -> Hr.
  exact (string_reads q src pre closed body v rest lx Hq Hr Hat).
Qed.

Lemma string_literal_value_witness :
  exists lx',
    string (init unterminated_literal)
    = Some (mkToken ERROR
              ("a" +:+ String Py.newline ("b" +:+ String Py.backslash ""))
              1 1, lx')
    /\ at_position unterminated_literal unterminated_literal "" lx'.
Proof.
  refine (proj2 (string_literal_value Py.single_quote unterminated_literal ""
                   "a\nb\" (init unterminated_literal) _ _)
            false "a\nb\"
            ("a" +:+ String Py.newline ("b" +:+ String Py.backslash ""))
            "" _ _).
  - right. reflexivity.
  - apply at_position_init.
  - reflexivity.
  - apply reads_plain; [discriminate | discriminate |].
    apply (reads_escape _ _ "n"%char). apply reads_plain;
      [discriminate | discriminate | apply reads_last_backslash].
Defined.

(** X30: Every string can be written as a literal, and lexing the literal
    gives the string back: for a value [v] written between two quotes
    [q] with a backslash before each backslash and each quote [q] of
    [v], the lexer returns one STRING token with the value [v] at 1:1,
    and the EOF token at the end of the text. *)
Theorem string_literal_round_trip (q : ascii) (v : String.string) :
  is_quote q ->
  let src := String q (escape q v +:+ String q "") in
  lex src
  = Some [mkToken STRING v 1 1;
          mkToken EOF "" (fst (position_of src)) (snd (position_of src))].
Proof.
  intros Hq src.
  destruct (string_reads_body q src "" true (escape q v) v "" (init src)
              Hq (reads_as_escape q v Hq) (at_position_init src))
    as (lx' & Hloop & Hat).
  cbn [literal_tail] in Hat. rewrite string_app_nil_l in Hat.
  pose proof (advance_at_position _ _ _ _ _ Hat) as Hend.
  rewrite string_app_cons, <- string_app_snoc, string_app_nil_r in Hend.
  change (String q (escape q v +:+ String q "")) with src in Hend.
  unfold lex, tokenize.
  assert (Hfuel : fuel (init src)
                  = S (S (S (String.length (escape q v +:+ "")))))
    by (unfold fuel, src; cbn [source init String.length];
        rewrite !string_length_app; cbn [String.length]; f_equal; lia).
  rewrite Hfuel. cbn [loop].
  assert (Hbody : tokenize_body (init src, [])
                  = Some (Continue (advance lx', [mkToken STRING v 1 1]))).
  { unfold tokenize_body, scan, string. cbv zeta.
    change (loop ?k _ ?s)
      with (loop k (string_body (current_char (init src))) s).
    rewrite Hloop, (at_position_current _ _ _ _ _ Hat).
    change (current_char (init src)) with (Some q).
    destruct Hq as [->| ->]; reflexivity. }
  rewrite Hbody. unfold tokenize_body at 1.
  rewrite (at_position_end _ _ _ Hend).
  destruct Hend as (_ & _ & _ & Hlc & _).
  rewrite <- Hlc. reflexivity.
Qed.

Lemma string_literal_round_trip_witness :
  lex (String Py.double_quote
         (escape Py.double_quote quoted_value +:+ String Py.double_quote ""))
  = Some [mkToken STRING quoted_value 1 1; mkToken EOF "" 1 16].
Proof.
  refine (eq_trans
            (string_literal_round_trip Py.double_quote quoted_value _) _).
  - left. reflexivity.
  - reflexivity.
Defined.

End StringLiterals.

Section Occurrences.

Lemma prefix_true (sep s : string) :
  String.prefix sep s = true -> exists post, s = sep +:+ post.
Proof.
  revert s. induction sep as [|a sep IH]; intros s H.
  - exists s. reflexivity.
  - destruct s as [|c s]; [discriminate H|]. cbn [String.prefix] in H.
    destruct (ascii_dec a c) as [->|_]; [|discriminate H].
    destruct (IH s H) as [post ->]. exists post. reflexivity.
Qed.

Lemma prefix_app (sep post : string) : String.prefix sep (sep +:+ post) = true.
Proof.
  induction sep as [|a sep IH]; [apply prefix_nil|].
  rewrite string_app_cons. cbn [String.prefix].
  destruct (ascii_dec a a); [exact IH | congruence].
Qed.

Lemma find_substring_spec (sep s : string) :
  find_substring sep s = true <-> has_substring sep s.
Proof.
  induction s as [|c s IH]; cbn [find_substring].
  - rewrite orb_false_r. split.
    + intros H. destruct (prefix_true _ _ H) as [post ->].
      exists "", post. reflexivity.
    + intros (pre & post & H). destruct pre; [|discriminate H].
      rewrite string_app_nil_l in H. rewrite H. apply prefix_app.
  - rewrite orb_true_iff, IH. split.
    + intros [H|(pre & post & ->)].
      * destruct (prefix_true _ _ H) as [post ->]. exists "", post. reflexivity.
      * exists (String c pre), post. reflexivity.
    + intros (pre & post & H). destruct pre as [|a pre].
      * left. rewrite string_app_nil_l in H. rewrite H. apply prefix_app.
      * right. rewrite string_app_cons in H. injection H as _ ->.
        exists pre, post. reflexivity.
Qed.

Lemma has_substring_dec (sep s : string) :
  has_substring sep s \/ ~ has_substring sep s.
Proof.
  destruct (find_substring sep s) eqn:E.
  - left. apply find_substring_spec. exact E.
  - right. intros H. apply find_substring_spec in H. congruence.
Qed.

Lemma has_substring_cons (sep : string) (c : ascii) (s : string) :
  has_substring sep s -> has_substring sep (String c s).
Proof. intros (pre & post & ->). exists (String c pre), post. reflexivity. Qed.

Lemma has_substring_app (sep u s : string) :
  has_substring sep s -> has_substring sep (u +:+ s).
Proof.
  intros H. induction u as [|c u IH]; [exact H|].
  rewrite string_app_cons. apply has_substring_cons. exact IH.
Qed.

Lemma has_substring_length (sep s : string) :
  has_substring sep s -> String.length sep <= String.length s.
Proof.
  intros (pre & post & ->). rewrite !string_length_app. lia.
Qed.

(** The characters of an occurrence that is being passed. *)
Lemma split_from_skip (sep u s : string) (piece : string) :
  PyStr.split_from sep (u +:+ s) (String.length u) piece
  = PyStr.split_from sep s 0 piece.
Proof.
  induction u as [|c u IH]; [reflexivity|].
  rewrite string_app_cons. cbn [String.length PyStr.split_from]. exact IH.
Qed.

(** An occurrence at the head ends the piece. *)
Lemma split_from_head (sep t piece : string) :
  sep <> "" ->
  PyStr.split_from sep (sep +:+ t) 0 piece
  = piece :: PyStr.split_from sep t 0 "".
Proof.
  intros Hne. pose proof (prefix_app sep t) as Hp.
  destruct sep as [|a sep]; [congruence|].
  rewrite string_app_cons in Hp |- *. cbn [PyStr.split_from]. rewrite Hp.
  cbn [String.length].
  replace (S (String.length sep) - 1) with (String.length sep) by lia.
  rewrite split_from_skip. reflexivity.
Qed.

(** A text without the separator is one piece. *)
Lemma split_from_absent (sep s : string) :
  ~ has_substring sep s ->
  forall piece, PyStr.split_from sep s 0 piece = [piece +:+ s].
Proof.
  induction s as [|c s IH]; intros Hno piece.
  - cbn. rewrite string_app_nil_r. reflexivity.
  - cbn [PyStr.split_from].
    destruct (String.prefix sep (String c s)) eqn:Hp.
    + exfalso. apply Hno. destruct (prefix_true _ _ Hp) as [post ->].
      exists "", post. reflexivity.
    + rewrite IH, string_app_snoc; [reflexivity|].
      intros H. apply Hno, has_substring_cons, H.
Qed.

(** A text with the separator is split into two pieces or more; the
    last piece follows an occurrence of the separator and holds
    none. *)
Lemma split_from_present (sep : string) :
  sep <> "" ->
  forall n s piece,
    String.length s <= n ->
    has_substring sep s ->
    exists front last_piece pre,
      PyStr.split_from sep s 0 piece = front ++ [last_piece]
      /\ front <> []
      /\ s = pre +:+ sep +:+ last_piece
      /\ ~ has_substring sep last_piece.
Proof.
  intros Hne. induction n as [|n IH]; intros s piece Hlen Hhas.
  - apply has_substring_length in Hhas.
    destruct sep; [congruence | cbn in Hhas; lia].
  - destruct s as [|c s].
    { apply has_substring_length in Hhas.
      destruct sep; [congruence | cbn in Hhas; lia]. }
    cbn [String.length] in Hlen.
    destruct (String.prefix sep (String c s)) eqn:Hp.
    + destruct (prefix_true _ _ Hp) as [t Ht]. rewrite Ht.
      rewrite (split_from_head sep t piece Hne).
      assert (Hlt : String.length t <= n).
      { apply (f_equal String.length) in Ht.
        rewrite string_length_app in Ht. cbn [String.length] in Ht.
        destruct sep; [congruence | cbn [String.length] in Ht; lia]. }
      destruct (has_substring_dec sep t) as [Hin|Hout].
      * destruct (IH t "" Hlt Hin) as (front & l & pre & -> & _ & -> & Hl).
        exists (piece :: front), l, (sep +:+ pre).
        split; [reflexivity|]. split; [discriminate|].
        split; [rewrite !string_app_assoc; reflexivity | exact Hl].
      * rewrite (split_from_absent sep t Hout), string_app_nil_l.
        exists [piece], t, "". split; [reflexivity|].
        split; [discriminate|]. split; [reflexivity | exact Hout].
    + cbn [PyStr.split_from]. rewrite Hp.
      assert (Hin : has_substring sep s).
      { destruct Hhas as (pre & post & H). destruct pre as [|a pre].
        - rewrite string_app_nil_l in H. rewrite H, prefix_app in Hp.
          discriminate Hp.
        - rewrite string_app_cons in H. injection H as _ ->.
          exists pre, post. reflexivity. }
      destruct (IH s (piece +:+ String c "") ltac:(lia) Hin)
        as (front & l & pre & -> & Hfront & -> & Hl).
      exists front, l, (String c pre).
      split; [reflexivity|]. split; [exact Hfront|].
      split; [reflexivity | exact Hl].
Qed.

Lemma string_app_eq_app (x y x' y' : string) :
  x +:+ y = x' +:+ y' ->
  (exists w, x = x' +:+ w /\ y' = w +:+ y)
  \/ (exists w, x' = x +:+ w /\ y = w +:+ y').
Proof.
  revert x'. induction x as [|c x IH]; intros x' H.
  - right. exists x'. rewrite string_app_nil_l in *. auto.
  - destruct x' as [|c' x'].
    + left. exists (String c x). rewrite string_app_nil_l in *. auto.
    + rewrite !string_app_cons in H. injection H as -> H.
      destruct (IH x' H) as [(w & -> & ->)|(w & -> & ->)];
        [left | right]; exists w; auto.
Qed.

(** The last piece lies after every occurrence of the separator but
    for a part of the separator itself. *)
Lemma last_piece_suffix (sep pre l head tail : string) :
  pre +:+ sep +:+ l = head +:+ sep +:+ tail ->
  ~ has_substring sep l ->
  exists w, sep +:+ tail = w +:+ l.
Proof.
  intros H Hl. rewrite <- string_app_assoc in H.
  destruct (string_app_eq_app _ _ _ _ H) as [(w & _ & Hw)|(w & _ & Hw)].
  - exists w. exact Hw.
  - exfalso. apply Hl. exists w, tail. exact Hw.
Qed.

Lemma has_substring_char_cons (a c : ascii) (s : string) :
  c <> a -> has_substring (String a "") (String c s) ->
  has_substring (String a "") s.
Proof.
  intros Hc (pre & post & H). destruct pre as [|b pre].
  - rewrite string_app_nil_l, string_app_cons in H. congruence.
  - rewrite string_app_cons in H. injection H as _ ->.
    exists pre, post. reflexivity.
Qed.

End Occurrences.

Section ErrorsWithoutPlace.
Import Server.

(** X14: An error message without [" at "] is published at the start of
    the document, with the whole message.  A message with [" at "]
    somewhere and no colon after it is not published at all. *)
Theorem error_without_place (error : string) :
  (~ has_substring " at " error ->
   semantic_error_diagnostics error = [fallback_diagnostic error])
  /\ (forall head tail,
        error = head +:+ " at " +:+ tail ->
        ~ has_substring ":" tail ->
        semantic_error_diagnostics error = []).
Proof.
  unfold semantic_error_diagnostics. split.
  - intros Hno. unfold PyStr.split.
    rewrite (split_from_absent _ _ Hno), string_app_nil_l. reflexivity.
  - intros head tail Herr Hcolon.
    destruct (split_from_present " at " ltac:(discriminate)
                (String.length error) error "" (le_n _))
      as (front & l & pre & Hparts & Hfront & Hl & Hlast).
    { exists head, tail. exact Herr. }
    fold (PyStr.split " at " error) in Hparts. rewrite Hparts. cbv zeta.
    rewrite bool_decide_eq_true_2.
    2:{ rewrite length_app. cbn [length].
        destruct front; [congruence | cbn; lia]. }
    rewrite last_app_singleton.
    rewrite Hl in Herr.
    destruct (last_piece_suffix _ _ _ _ _ Herr Hlast) as [w Hw].
    assert (Hno : ~ has_substring ":" l).
    { intros H. apply (has_substring_app _ w) in H. rewrite <- Hw in H.
      change (" at " +:+ tail)
        with (String " " (String "a" (String "t" (String " " tail)))) in H.
      do 4 (apply has_substring_char_cons in H; [|discriminate]).
      exact (Hcolon H). }
    unfold PyStr.split.
    rewrite (split_from_absent _ _ Hno). reflexivity.
Qed.

Lemma error_without_place_witness :
  semantic_error_diagnostics "no place here"
  = [fallback_diagnostic "no place here"]
  /\ semantic_error_diagnostics "x: failed at at once" = [].
Proof.
  split.
  - apply (proj1 (error_without_place "no place here")).
    intros H. apply find_substring_spec in H. discriminate H.
  - apply (proj2 (error_without_place "x: failed at at once")
             "x: failed" "at once"); [reflexivity|].
    intros H. apply find_substring_spec in H. discriminate H.
Defined.

End ErrorsWithoutPlace.
